(** * Newsletter-to-podcast pipeline: the bounded-concurrency executor,
    the schedule calculator, content extraction, text composition and
    the per-subscription pipeline of [controllers/userController.ts];
    the reading of messages and the parsing of their HTML in
    [integrations/gmail.ts]; the choice of personas in
    [config/personaLoader.ts]. *)

From Stdlib Require Import ZArith NArith Lia String Ascii DecimalString.
From stdpp Require Import base tactics option list gmap sorting.

Local Open Scope Z_scope.
Local Open Scope nat_scope.

(** ** JavaScript arrays with holes *)

(** [a[i] = v]: inside the array the slot is overwritten, at or past the
    end the array grows, the slots in between staying empty. *)
Definition array_set {A} (a : list (option A)) (i : nat) (v : A) : list (option A) :=
  if decide (i < length a) then <[i := Some v]> a
  else a ++ replicate (i - length a) None ++ [Some v].

(** ** JavaScript Numbers *)

Module JsNumber.
Local Open Scope Z_scope.

(** A Number is [NaN], an infinity, or finite.  A finite Number is given
    as a fraction: what follows depends on its order and on its integer
    part only. *)
Inductive number :=
  | NaN
  | Infinity
  | NegInfinity
  | Finite (numerator : Z) (denominator : positive).

Definition of_Z (n : Z) : number := Finite n 1.

(** [a <= b]: false when either side is [NaN]. *)
Definition leb (a b : number) : bool :=
  match a, b with
  | NaN, _ | _, NaN => false
  | NegInfinity, _ | _, Infinity => true
  | Infinity, _ | _, NegInfinity => false
  | Finite n d, Finite n' d' => n * Z.pos d' <=? n' * Z.pos d
  end.

(** [a < b]: false when either side is [NaN]. *)
Definition ltb (a b : number) : bool :=
  match a, b with
  | NaN, _ | _, NaN => false
  | _, _ => negb (leb b a)
  end.

(** [Math.max(a, b)] and [Math.min(a, b)]: [NaN] when either argument
    is. *)
Definition max (a b : number) : number :=
  match a, b with
  | NaN, _ | _, NaN => NaN
  | _, _ => if leb a b then b else a
  end.

Definition min (a b : number) : number :=
  match a, b with
  | NaN, _ | _, NaN => NaN
  | _, _ => if leb a b then a else b
  end.

(** [ToLength]: the integer part, [NaN] and negative values giving 0,
    and never more than [2^53 - 1]. *)
Definition ToLength (n : number) : Z :=
  match n with
  | NaN | NegInfinity => 0
  | Infinity => 2 ^ 53 - 1
  | Finite n d => Z.min (Z.max 0 (n ÷ Z.pos d)) (2 ^ 53 - 1)
  end.

(** The length of the array [Array.from({ length }, ...)] makes, or none
    when [new Array] throws a [RangeError]: an array has fewer than
    [2^32] slots. *)
Definition array_length (length : number) : option nat :=
  let len := ToLength length in
  if decide (len < 2 ^ 32) then Some (Z.to_nat len) else None.

(** On integers [Math.max] and [Math.min] are the integer ones. *)
Lemma max_of_Z a b : max (of_Z a) (of_Z b) = of_Z (Z.max a b).
Proof.
  unfold max, of_Z, leb. rewrite !Z.mul_1_r.
  destruct (Z.leb_spec a b); f_equal; lia.
Qed.

Lemma min_of_Z a b : min (of_Z a) (of_Z b) = of_Z (Z.min a b).
Proof.
  unfold min, of_Z, leb. rewrite !Z.mul_1_r.
  destruct (Z.leb_spec a b); f_equal; lia.
Qed.

Lemma array_length_of_Z k :
  1 ≤ k < 2 ^ 32 → array_length (max (of_Z 1) (of_Z k)) = Some (Z.to_nat k).
Proof.
  intros Hk. unfold array_length, max, of_Z, leb, ToLength.
  rewrite !Z.mul_1_r. destruct (Z.leb_spec 1 k); [|lia].
  rewrite Z.quot_1_r. rewrite decide_True by lia. f_equal. lia.
Qed.

End JsNumber.

(** ** The bounded-concurrency executor: [mapWithConcurrency] *)

Module Executor.

(** Mappers to run the executor on: the first multiplies by ten and adds
    the index; under the second the operations on [10] fail with [7]. *)
Definition demo_call (x i : nat) (w : unit) : unit * nat := (w, x * 10 + i).
Definition demo_settle (p : nat) (w : unit) : unit * (nat + nat) := (w, inl p).
Definition failing_settle (p : nat) (w : unit) : unit * (nat + nat) :=
  (w, if p =? 10 then inr 7 else inl p).

(** A mapper that never fails: each operation returns how many had
    completed before it. *)
Definition counting_call (x i : nat) (w : nat) : nat * unit := (w, ()).
Definition counting_settle (p : unit) (w : nat) : nat * (nat + nat) := (S w, inl w).

Section MapWithConcurrency.
(** [W] is whatever the mapper can read and write besides its arguments,
    [T] and [R] the item and result types, [E] the thrown values, and
    [P] an operation the mapper has started and is awaiting. *)
Context {W T P R E : Type}.

(** The arguments of [mapWithConcurrency(items, concurrency, mapper)].
    [concurrency] ranges here over the integers below [2^32]; a bound
    that is any other Number is taken up after this section, where
    [init_any_of_Z] shows that on these integers the two agree.  The
    async [mapper] is given by what it does when called, up to its
    suspension ([call]), and by what it does when the awaited operation
    completes ([settle]): it resolves with a result or rejects with an
    error. *)
Variable items : list T.
Variable concurrency : Z.
Variable call : T → nat → W → W * P.
Variable settle : P → W → W * (R + E).

(** One of the [workers]: running synchronously, suspended at
    [await mapper(items[current], current)], returned, or rejected. *)
Inductive worker :=
  | Running
  | Awaiting (current : nat) (op : P)
  | Returned
  | Thrown (e : E).

(** How the promise returned by [mapWithConcurrency] settles. *)
Inductive settlement :=
  | Fulfilled (value : list (option R))
  | Rejected (reason : E).

(** The variables of one call.  [calls], [settled] and [oob] are
    history: the indices the mapper was called with, the operations that
    completed with their results, both in order of time, and whether
    [items] was ever read outside its bounds. *)
Record state := State {
  world : W;
  nextIndex : nat;
  results : list (option R);
  workers : list worker;
  outcome : option settlement;
  calls : list nat;
  settled : list (nat * (R + E));
  oob : bool
}.

Definition is_returned (x : worker) : bool :=
  match x with Returned => true | _ => false end.

Definition is_awaiting (x : worker) : bool :=
  match x with Awaiting _ _ => true | _ => false end.

(** One turn of [while (true)] up to the [await] or the [return]:
    [const current = nextIndex++; if (current >= items.length) return;
     ... mapper(items[current], current)].  Were [items[current]] read
    outside the array, [oob] would record it. *)
Definition claim (w : nat) (s : state) : state :=
  let current := nextIndex s in
  if decide (length items ≤ current) then
    State (world s) (S current) (results s) (<[w := Returned]> (workers s))
          (outcome s) (calls s) (settled s) (oob s)
  else
    match items !! current with
    | Some x =>
        let '(world', op) := call x current (world s) in
        State world' (S current) (results s)
              (<[w := Awaiting current op]> (workers s))
              (outcome s) (calls s ++ [current]) (settled s) (oob s)
    | None =>
        State (world s) (S current) (results s) (<[w := Returned]> (workers s))
              (outcome s) (calls s) (settled s) true
    end.

(** [Array.from({ length }, async () => ...)] creates the workers one
    after the other; each runs at once up to its first [await]. *)
Definition spawn (s : state) : state :=
  claim (length (workers s))
        (State (world s) (nextIndex s) (results s) (workers s ++ [Running])
               (outcome s) (calls s) (settled s) (oob s)).

(** [Math.max(1, concurrency)] as an array length, for an integer
    [concurrency] below [2^32]; [workers_made] below takes any Number. *)
Definition worker_count : nat := Z.to_nat (Z.max 1 concurrency).

(** [Promise.all(workers)] fulfils once every worker has returned ... *)
Definition fulfil_all (s : state) : state :=
  match outcome s with
  | Some _ => s
  | None =>
      if forallb is_returned (workers s)
      then State (world s) (nextIndex s) (results s) (workers s)
                 (Some (Fulfilled (results s))) (calls s) (settled s) (oob s)
      else s
  end.

(** ... and rejects with the first rejection; [await Promise.all] then
    throws it out of [mapWithConcurrency]. *)
Definition reject_all (e : E) (s : state) : state :=
  match outcome s with
  | Some _ => s
  | None =>
      State (world s) (nextIndex s) (results s) (workers s)
            (Some (Rejected e)) (calls s) (settled s) (oob s)
  end.

(** The state when [mapWithConcurrency] reaches [await Promise.all]. *)
Definition start (w0 : W) : state :=
  State w0 0 (replicate (length items) None) [] None [] [] false.

Definition init (w0 : W) : state :=
  fulfil_all (Nat.iter worker_count spawn (start w0)).

(** The operation awaited by worker [w] completes and [w] runs on to its
    next [await], its [return], or the rethrown error. *)
Definition resume (w : nat) (s : state) : option state :=
  match workers s !! w with
  | Some (Awaiting current op) =>
      let '(world', r) := settle op (world s) in
      let log := settled s ++ [(current, r)] in
      match r with
      | inl v =>
          Some (fulfil_all (claim w
            (State world' (nextIndex s) (array_set (results s) current v)
                   (<[w := Running]> (workers s)) (outcome s) (calls s) log (oob s))))
      | inr e =>
          Some (reject_all e
            (State world' (nextIndex s) (results s)
                   (<[w := Thrown e]> (workers s)) (outcome s) (calls s) log (oob s)))
      end
  | _ => None
  end.

(** The states a call can be in: completions happen in any order. *)
Inductive reachable (w0 : W) : state → Prop :=
  | reachable_init : reachable w0 (init w0)
  | reachable_resume s w s' :
      reachable w0 s → resume w s = Some s' → reachable w0 s'.

(** Completions in the order a list of workers gives. *)
Fixpoint exec (trace : list nat) (s : state) : option state :=
  match trace with
  | [] => Some s
  | w :: trace => s' ← resume w s; exec trace s'
  end.

(** Operations started and not completed. *)
Definition in_flight (s : state) : nat := length (calls s) - length (settled s).

Definition awaiting_workers (s : state) : list nat :=
  omap (λ '(w, x), if is_awaiting x then Some w else None) (imap pair (workers s)).

(** Nothing is left to complete. *)
Definition quiescent (s : state) : Prop := awaiting_workers s = [].

(** A scheduler names, at each step, which of the suspended workers
    completes next; [run] follows it until the caller has its answer. *)
Fixpoint run (fuel : nat) (sched : nat → nat) (s : state) : state :=
  match fuel with
  | 0 => s
  | S fuel =>
      match outcome s with
      | Some _ => s
      | None =>
          let ws := awaiting_workers s in
          match ws !! (sched (length (settled s)) `mod` length ws) with
          | Some w => match resume w s with
                      | Some s' => run fuel sched s'
                      | None => s
                      end
          | None => s
          end
      end
  end.

(** What the caller of [mapWithConcurrency] gets under a scheduler. *)
Definition mapWithConcurrency (sched : nat → nat) (w0 : W) : W * option settlement :=
  let s := run (length items) sched (init w0) in (world s, outcome s).

(** The error of the first operation that failed. *)
Definition first_failure (log : list (nat * (R + E))) : option E :=
  head (omap (λ ev, match ev.2 with inr e => Some e | inl _ => None end) log).

(** What the operation for index [i] returned, if it has. *)
Definition result_at (log : list (nat * (R + E))) (i : nat) : option R :=
  head (omap (λ ev, if decide (ev.1 = i) then
                      match ev.2 with inl v => Some v | inr _ => None end
                    else None) log).

(** The reference the executor is compared with: the mapper applied to
    one item after the other, in input order, each operation completing
    before the next starts, stopping at the first error. *)
Fixpoint map_sequentially_from (i : nat) (xs : list T) (w : W) : W * (list R + E) :=
  match xs with
  | [] => (w, inl [])
  | x :: xs =>
      let '(w1, op) := call x i w in
      let '(w2, r) := settle op w1 in
      match r with
      | inr e => (w2, inr e)
      | inl v =>
          let '(w3, rest) := map_sequentially_from (S i) xs w2 in
          (w3, match rest with inl vs => inl (v :: vs) | inr e => inr e end)
      end
  end.

Definition map_sequentially (w : W) : W * (list R + E) :=
  map_sequentially_from 0 items w.

(** The indices of the operations the workers are suspended on. *)
Definition awaiting_indices (ws : list worker) : list nat :=
  omap (λ x, match x with Awaiting i _ => Some i | _ => None end) ws.

(** The errors the workers have ended with, and the errors in the log. *)
Definition thrown (ws : list worker) : list E :=
  omap (λ x, match x with Thrown e => Some e | _ => None end) ws.

Definition failures (log : list (nat * (R + E))) : list E :=
  omap (λ ev, match ev.2 with inr e => Some e | inl _ => None end) log.

(** *** Facts about the history *)

Lemma first_failure_app log log' :
  first_failure (log ++ log') =
  match first_failure log with Some e => Some e | None => first_failure log' end.
Proof.
  unfold first_failure. rewrite omap_app.
  destruct (omap _ log); reflexivity.
Qed.

Lemma first_failure_None log :
  first_failure log = None ↔ ∀ i e, (i, inr e) ∉ log.
Proof.
  unfold first_failure. induction log as [|[j [v|e']] log IH]; simpl.
  - split; [intros _ i e Hin; inversion Hin | done].
  - rewrite IH. split.
    + intros H i e Hin. apply elem_of_cons in Hin as [Hin|Hin]; [done|]. by eapply H.
    + intros H i e Hin. eapply H. by right.
  - split; [done|]. intros H. exfalso. eapply H. by left.
Qed.

Lemma result_at_app log log' i :
  result_at (log ++ log') i =
  match result_at log i with Some v => Some v | None => result_at log' i end.
Proof.
  unfold result_at. rewrite omap_app.
  destruct (omap _ log); reflexivity.
Qed.

Lemma result_at_absent log i : i ∉ log.*1 → result_at log i = None.
Proof.
  unfold result_at. induction log as [|[j r] log IH]; simpl; [done|].
  intros Hni. apply not_elem_of_cons in Hni as [Hne Hni].
  destruct (decide (j = i)); [done|]. by apply IH.
Qed.

Lemma result_at_unique log i v :
  i ∈ log.*1 → (∀ r, (i, r) ∈ log → r = inl v) → result_at log i = Some v.
Proof.
  unfold result_at. induction log as [|[j r] log IH]; simpl.
  - intros Hin. inversion Hin.
  - intros Hin Hall. destruct (decide (j = i)) as [->|Hne].
    + rewrite (Hall r) by left. reflexivity.
    + apply elem_of_cons in Hin as [?|Hin]; [done|].
      apply IH; [done|]. intros r' Hr'. apply Hall. by right.
Qed.

Lemma awaiting_indices_insert ws w x y :
  ws !! w = Some x →
  awaiting_indices (<[w := y]> ws) =
  awaiting_indices (take w ws) ++ awaiting_indices [y] ++ awaiting_indices (drop (S w) ws).
Proof.
  intros Hw. rewrite insert_take_drop by (by eapply lookup_lt_Some).
  unfold awaiting_indices. rewrite omap_app.
  change (y :: drop (S w) ws) with ([y] ++ drop (S w) ws). by rewrite omap_app.
Qed.

Lemma awaiting_indices_lookup ws w x :
  ws !! w = Some x →
  awaiting_indices ws =
  awaiting_indices (take w ws) ++ awaiting_indices [x] ++ awaiting_indices (drop (S w) ws).
Proof.
  intros Hw. rewrite <- (take_drop_middle ws w x Hw) at 1.
  unfold awaiting_indices. rewrite omap_app.
  change (x :: drop (S w) ws) with ([x] ++ drop (S w) ws). by rewrite omap_app.
Qed.


(** *** What every state of a call satisfies *)

Record Inv (s : state) : Prop := {
  inv_results : length (results s) = length items;
  inv_calls : calls s = seq 0 (nextIndex s `min` length items);
  inv_oob : oob s = false;
  inv_perm : calls s ≡ₚ (settled s).*1 ++ awaiting_indices (workers s);
  inv_result_at : ∀ i, i < length items → results s !! i = Some (result_at (settled s) i);
  inv_thrown : ∀ w e, workers s !! w = Some (Thrown e) → is_Some (first_failure (settled s));
  inv_returned : ∀ w, workers s !! w = Some Returned → length items < nextIndex s;
  inv_ops : ∀ w i op, workers s !! w = Some (Awaiting i op) →
            ∃ x w0, items !! i = Some x ∧ op = (call x i w0).2;
  inv_settled : ∀ i r, (i, r) ∈ settled s →
            ∃ x w0 w1, items !! i = Some x ∧ r = (settle (call x i w0).2 w1).2
}.

Ltac fields := cbn [world nextIndex results workers outcome calls settled oob] in *.

Lemma claim_Inv w s :
  workers s !! w = Some Running → Inv s → Inv (claim w s).
Proof.
  intros Hw [Hres Hcalls Hoob Hperm Hat Hthr Hret Hops Hset].
  assert (Hlt : w < length (workers s)) by (by eapply lookup_lt_Some).
  unfold claim. destruct (decide (length items ≤ nextIndex s)) as [Hge|Hlt'].
  - split; fields; try done.
    + rewrite Hcalls. f_equal. lia.
    + rewrite (awaiting_indices_insert _ _ _ _ Hw).
      by rewrite Hperm, (awaiting_indices_lookup _ _ _ Hw).
    + intros w' e Hw'. apply list_lookup_insert_Some in Hw' as [(_ & ? & _)|[_ Hw']]; [done|].
      by eapply Hthr.
    + intros w' Hw'. apply list_lookup_insert_Some in Hw' as [_|[_ Hw']]; [lia|].
      apply Hret in Hw'. lia.
    + intros w' i op Hw'. apply list_lookup_insert_Some in Hw' as [(_ & ? & _)|[_ Hw']]; [done|].
      by eapply Hops.
  - destruct (items !! nextIndex s) as [x|] eqn:Hx.
    2: { apply lookup_ge_None in Hx. lia. }
    destruct (call x (nextIndex s) (world s)) as [world' op] eqn:Hcall.
    split; fields; try done.
    + rewrite Hcalls.
      replace (nextIndex s `min` length items) with (nextIndex s) by lia.
      replace (S (nextIndex s) `min` length items) with (S (nextIndex s)) by lia.
      by rewrite seq_S.
    + rewrite (awaiting_indices_insert _ _ _ _ Hw).
      rewrite Hperm, (awaiting_indices_lookup _ _ _ Hw). simpl.
      rewrite (comm (++) _ [nextIndex s]). simpl.
      by rewrite <- !Permutation_middle.
    + intros w' e Hw'. apply list_lookup_insert_Some in Hw' as [(_ & ? & _)|[_ Hw']]; [done|].
      by eapply Hthr.
    + intros w' Hw'. apply list_lookup_insert_Some in Hw' as [(_ & ? & _)|[_ Hw']]; [done|].
      apply Hret in Hw'. lia.
    + intros w' i op' Hw'. apply list_lookup_insert_Some in Hw' as [(_ & Heq & _)|[_ Hw']].
      * inversion Heq; subst. exists x, (world s). by rewrite Hcall.
      * by eapply Hops.
Qed.


Lemma claim_workers w s :
  ∃ x, x ≠ Running ∧ workers (claim w s) = <[w := x]> (workers s).
Proof.
  unfold claim. destruct (decide _); [by exists Returned|].
  destruct (items !! nextIndex s); [|by exists Returned].
  destruct (call _ _ _) as [world' op]. by exists (Awaiting (nextIndex s) op).
Qed.

Lemma claim_frame w s :
  outcome (claim w s) = outcome s ∧ settled (claim w s) = settled s ∧
  results (claim w s) = results s.
Proof.
  unfold claim. destruct (decide _); [done|].
  destruct (items !! nextIndex s); [|done]. by destruct (call _ _ _).
Qed.

Lemma fulfil_all_Inv s : Inv s → Inv (fulfil_all s).
Proof.
  intros HI. unfold fulfil_all. destruct (outcome s); [done|].
  destruct (forallb _ _); [|done]. by destruct HI.
Qed.

Lemma start_Inv w0 : Inv (start w0).
Proof.
  split; simpl; try done.
  - apply length_replicate.
  - intros i Hi. by apply lookup_replicate_2.
  - intros i r Hin. inversion Hin.
Qed.

Lemma spawn_Inv s : Inv s → Inv (spawn s).
Proof.
  intros [Hres Hcalls Hoob Hperm Hat Hthr Hret Hops Hset]. unfold spawn.
  apply claim_Inv; fields.
  - by rewrite lookup_app_r, Nat.sub_diag.
  - split; fields; try done.
    + unfold awaiting_indices. rewrite omap_app. simpl. by rewrite app_nil_r.
    + intros w e Hw. apply lookup_app_Some in Hw as [Hw|[_ Hw]]; [by eapply Hthr|].
      by destruct (w - length (workers s)).
    + intros w Hw. apply lookup_app_Some in Hw as [Hw|[_ Hw]]; [by eapply Hret|].
      by destruct (w - length (workers s)).
    + intros w i op Hw. apply lookup_app_Some in Hw as [Hw|[_ Hw]]; [by eapply Hops|].
      by destruct (w - length (workers s)).
Qed.

Lemma spawn_workers s :
  ∃ x, x ≠ Running ∧ workers (spawn s) = workers s ++ [x].
Proof.
  unfold spawn. destruct (claim_workers (length (workers s))
    (State (world s) (nextIndex s) (results s) (workers s ++ [Running])
           (outcome s) (calls s) (settled s) (oob s))) as (x & Hx & ->).
  exists x. split; [done|]. fields.
  by rewrite insert_app_r_alt, Nat.sub_diag.
Qed.

Lemma spawn_frame s :
  outcome (spawn s) = outcome s ∧ settled (spawn s) = settled s.
Proof.
  unfold spawn. destruct (claim_frame (length (workers s))
    (State (world s) (nextIndex s) (results s) (workers s ++ [Running])
           (outcome s) (calls s) (settled s) (oob s))) as (-> & -> & _).
  done.
Qed.

(** The state once [n] workers have been created. *)
Lemma spawned_Inv w0 n :
  let s := Nat.iter n spawn (start w0) in
  Inv s ∧ length (workers s) = n ∧ (∀ w, workers s !! w ≠ Some Running) ∧
  outcome s = None ∧ settled s = [].
Proof.
  induction n as [|n (HI & Hlen & Hrun & Hout & Hlog)]; simpl.
  - split; [apply start_Inv|]. repeat split. intros w. by rewrite lookup_nil.
  - split; [by apply spawn_Inv|].
    destruct (spawn_workers (Nat.iter n spawn (start w0))) as (x & Hx & ->).
    destruct (spawn_frame (Nat.iter n spawn (start w0))) as (-> & ->).
    rewrite length_app. simpl. repeat split; [lia| |done..].
    intros w Hw. apply lookup_app_Some in Hw as [Hw|[_ Hw]]; [by eapply Hrun|].
    destruct (w - _); [by inversion Hw|done].
Qed.


(** The completion of the operation worker [w] awaits, before [w] runs on. *)
Lemma completion_Inv s w cur op world' r y :
  Inv s → workers s !! w = Some (Awaiting cur op) →
  r = (settle op (world s)).2 →
  match r with inl _ => y = Running | inr e => y = Thrown e end →
  Inv (State world' (nextIndex s)
         (match r with inl v => array_set (results s) cur v | inr _ => results s end)
         (<[w := y]> (workers s)) (outcome s) (calls s)
         (settled s ++ [(cur, r)]) (oob s)).
Proof.
  intros [Hres Hcalls Hoob Hperm Hat Hthr Hret Hops Hset] Hw Hr Hy.
  destruct (Hops _ _ _ Hw) as (x & w0 & Hx & Hop).
  assert (Hcur : cur < length items) by (by eapply lookup_lt_Some).
  assert (Hfresh : cur ∉ (settled s).*1).
  { assert (Hnd : NoDup (calls s)) by (rewrite Hcalls; apply NoDup_seq).
    rewrite Hperm, (awaiting_indices_lookup _ _ _ Hw) in Hnd. simpl in Hnd.
    apply NoDup_app in Hnd as (_ & Hnd & _). intros Hin. eapply Hnd; [done|].
    apply elem_of_app. right. by left. }
  split; fields; try done.
  - destruct r; [|done]. unfold array_set.
    rewrite decide_True by lia. by rewrite length_insert.
  - rewrite fmap_app, (awaiting_indices_insert _ _ _ _ Hw).
    assert (awaiting_indices [y] = []) as ->.
    { destruct r; by subst y. }
    rewrite Hperm, (awaiting_indices_lookup _ _ _ Hw). simpl. rewrite <- (assoc (++)). simpl. by rewrite <- !Permutation_middle.
  - intros i Hi. rewrite result_at_app. destruct (decide (i = cur)) as [->|Hne].
    + rewrite (result_at_absent _ _ Hfresh). unfold result_at. simpl.
      rewrite decide_True by done. destruct r; simpl.
      * unfold array_set. rewrite decide_True by lia.
        by rewrite list_lookup_insert_eq by lia.
      * by rewrite Hat, (result_at_absent _ _ Hfresh).
    + assert (results s !! i = Some (result_at (settled s) i)) as Hi' by auto.
      assert (result_at [(cur, r)] i = None) as ->.
      { unfold result_at. simpl. by rewrite decide_False by done. }
      destruct r.
      * unfold array_set. rewrite decide_True by lia.
        rewrite list_lookup_insert_ne by done. rewrite Hi'. by destruct (result_at _ _).
      * rewrite Hi'. by destruct (result_at _ _).
  - intros w' e Hw'. rewrite first_failure_app.
    apply list_lookup_insert_Some in Hw' as [(_ & Heq & _)|[_ Hw']].
    + destruct (first_failure (settled s)); [done|]. destruct r; subst y; [done|].
      by inversion Heq.
    + destruct (Hthr _ _ Hw') as [e' ->]. done.
  - intros w' Hw'. apply list_lookup_insert_Some in Hw' as [(_ & Heq & _)|[_ Hw']].
    + destruct r; by subst y.
    + by eapply Hret.
  - intros w' i op' Hw'. apply list_lookup_insert_Some in Hw' as [(_ & Heq & _)|[_ Hw']].
    + destruct r; by subst y.
    + by eapply Hops.
  - intros i r' Hin. apply elem_of_app in Hin as [Hin|Hin]; [by eapply Hset|].
    apply list_elem_of_singleton in Hin. inversion Hin; subst.
    by exists x, w0, (world s).
Qed.

(** What holds whenever control is back with the event loop. *)
Record Inv_step (s : state) : Prop := {
  step_Inv : Inv s;
  step_workers : length (workers s) = worker_count;
  step_norun : ∀ w, workers s !! w ≠ Some Running;
  step_outcome :
    outcome s =
    match first_failure (settled s) with
    | Some e => Some (Rejected e)
    | None => if forallb is_returned (workers s)
              then Some (Fulfilled (results s)) else None
    end
}.

Lemma init_Inv_step w0 : Inv_step (init w0).
Proof.
  unfold init. destruct (spawned_Inv w0 worker_count) as (HI & Hlen & Hrun & Hout & Hlog).
  split.
  - by apply fulfil_all_Inv.
  - unfold fulfil_all. rewrite Hout. by destruct (forallb _ _).
  - unfold fulfil_all. rewrite Hout. by destruct (forallb _ _).
  - unfold fulfil_all. rewrite Hout.
    destruct (forallb _ _) eqn:Hall; fields; by rewrite Hlog, ?Hall.
Qed.


Lemma fulfil_all_frame s :
  workers (fulfil_all s) = workers s ∧ settled (fulfil_all s) = settled s ∧
  results (fulfil_all s) = results s ∧ calls (fulfil_all s) = calls s ∧
  outcome (fulfil_all s) =
    match outcome s with
    | Some o => Some o
    | None => if forallb is_returned (workers s)
              then Some (Fulfilled (results s)) else None
    end.
Proof.
  unfold fulfil_all. destruct (outcome s) eqn:Ho; [by rewrite Ho|].
  destruct (forallb _ _); fields; by rewrite ?Ho.
Qed.

Lemma not_all_returned (ws : list worker) w x :
  ws !! w = Some x → is_returned x = false → forallb is_returned ws = false.
Proof.
  intros Hw Hx. destruct (forallb is_returned ws) eqn:Hall; [|done].
  rewrite forallb_forall in Hall. rewrite <- Hx. symmetry. apply Hall.
  apply list_elem_of_In, list_elem_of_lookup. eauto.
Qed.

Lemma resume_Inv_step w s s' :
  Inv_step s → resume w s = Some s' → Inv_step s'.
Proof.
  intros [HI Hlen Hrun Hout]. unfold resume.
  destruct (workers s !! w) as [[|cur op| |]|] eqn:Hw; try done.
  assert (Hlt : w < length (workers s)) by (by eapply lookup_lt_Some).
  assert (Hnone : first_failure (settled s) = None → outcome s = None).
  { intros Hff. rewrite Hout, Hff. by rewrite (not_all_returned _ _ _ Hw). }
  destruct (settle op (world s)) as [world' r] eqn:Hs.
  destruct r as [v|e]; intros [= <-].
  - pose proof (completion_Inv s w cur op world' (inl v) Running HI Hw) as HI1.
    rewrite Hs in HI1. specialize (HI1 eq_refl eq_refl).
    set (s1 := State _ _ _ _ _ _ _ _) in *.
    assert (Hw1 : workers s1 !! w = Some Running).
    { subst s1. fields. by apply list_lookup_insert_eq. }
    pose proof (claim_Inv w s1 Hw1 HI1) as HI2.
    destruct (claim_workers w s1) as (x & Hx & Hws).
    destruct (claim_frame w s1) as (Ho & Hlog & Hres).
    destruct (fulfil_all_frame (claim w s1)) as (Fw & Fs & Fr & _ & Fo).
    split.
    + by apply fulfil_all_Inv.
    + rewrite Fw, Hws. subst s1. fields. by rewrite !length_insert.
    + intros w'. rewrite Fw, Hws. subst s1. fields. intros Hw'.
      apply list_lookup_insert_Some in Hw' as [(_ & ? & _)|[? Hw']]; [congruence|].
      rewrite list_lookup_insert_ne in Hw' by done. by eapply Hrun.
    + rewrite Fo, Fs, Fw, Fr, Ho, Hlog. subst s1. fields.
      rewrite first_failure_app. simpl.
      destruct (first_failure (settled s)) as [e|] eqn:Hff.
      * by rewrite Hout.
      * by rewrite Hnone.
  - pose proof (completion_Inv s w cur op world' (inr e) (Thrown e) HI Hw) as HI1.
    rewrite Hs in HI1. specialize (HI1 eq_refl eq_refl).
    unfold reject_all. fields.
    split.
    + destruct (outcome s); [done|]. by destruct HI1.
    + destruct (outcome s); fields; by rewrite length_insert.
    + intros w' Hw'.
      assert (<[w:=Thrown e]> (workers s) !! w' = Some Running) as Hw''
        by (by destruct (outcome s)).
      apply list_lookup_insert_Some in Hw'' as [(_ & ? & _)|[? Hw'']]; [done|].
      by eapply Hrun.
    + destruct (first_failure (settled s)) as [e0|] eqn:Hff.
      * rewrite Hout, ?Hff. fields. by rewrite first_failure_app, Hff.
      * rewrite Hnone by done. fields. by rewrite first_failure_app, Hff.
Qed.

Lemma reachable_Inv_step w0 s : reachable w0 s → Inv_step s.
Proof.
  induction 1 as [|s w s' _ IH Hstep]; [apply init_Inv_step|].
  by eapply resume_Inv_step.
Qed.


(** *** Suspended workers, progress and termination *)

Lemma elem_of_awaiting_workers s w :
  w ∈ awaiting_workers s ↔ ∃ i op, workers s !! w = Some (Awaiting i op).
Proof.
  unfold awaiting_workers. rewrite list_elem_of_omap. split.
  - intros ([w' x] & Hin & Hx). apply elem_of_lookup_imap in Hin as (k & y & [= -> ->] & Hk).
    destruct y; try done. inversion Hx; subst. eauto.
  - intros (i & op & Hw). exists (w, Awaiting i op). split; [|done].
    apply elem_of_lookup_imap. eauto.
Qed.

Lemma elem_of_awaiting_indices (ws : list worker) i :
  i ∈ awaiting_indices ws ↔ ∃ w op, ws !! w = Some (Awaiting i op).
Proof.
  unfold awaiting_indices. rewrite list_elem_of_omap. split.
  - intros (x & Hin & Hx). destruct x; try done. inversion Hx; subst.
    apply list_elem_of_lookup in Hin as [w Hw]. eauto.
  - intros (w & op & Hw). exists (Awaiting i op). split; [|done].
    apply list_elem_of_lookup. eauto.
Qed.

Lemma quiescent_awaiting_indices s :
  quiescent s ↔ awaiting_indices (workers s) = [].
Proof.
  unfold quiescent. split; intros Hnil.
  - destruct (awaiting_indices (workers s)) as [|i l] eqn:Hl; [done|].
    assert (Hin : i ∈ awaiting_indices (workers s)) by (rewrite Hl; left).
    apply elem_of_awaiting_indices in Hin as (w & op & Hw).
    assert (Hin : w ∈ awaiting_workers s) by (apply elem_of_awaiting_workers; eauto).
    rewrite Hnil in Hin. inversion Hin.
  - destruct (awaiting_workers s) as [|w l] eqn:Hl; [done|].
    assert (Hin : w ∈ awaiting_workers s) by (rewrite Hl; left).
    apply elem_of_awaiting_workers in Hin as (i & op & Hw).
    assert (Hin : i ∈ awaiting_indices (workers s)) by (apply elem_of_awaiting_indices; eauto).
    rewrite Hnil in Hin. inversion Hin.
Qed.

(** There is no cancellation: whatever the call's outcome, a suspended
    worker's operation can still complete. *)
Lemma resume_awaiting s w :
  w ∈ awaiting_workers s → is_Some (resume w s).
Proof.
  intros (i & op & Hw)%elem_of_awaiting_workers. unfold resume. rewrite Hw.
  destruct (settle op (world s)) as [world' [v|e]]; eauto.
Qed.

Lemma resume_settled w s s' :
  resume w s = Some s' → length (settled s') = S (length (settled s)).
Proof.
  unfold resume. destruct (workers s !! w) as [[|cur op| |]|]; try done.
  destruct (settle op (world s)) as [world' [v|e]]; intros [= <-].
  - destruct (fulfil_all_frame (claim w (State world' (nextIndex s)
      (array_set (results s) cur v) (<[w:=Running]> (workers s)) (outcome s)
      (calls s) (settled s ++ [(cur, inl v)]) (oob s)))) as (_ & -> & _).
    destruct (claim_frame w (State world' (nextIndex s)
      (array_set (results s) cur v) (<[w:=Running]> (workers s)) (outcome s)
      (calls s) (settled s ++ [(cur, inl v)]) (oob s))) as (_ & -> & _).
    fields. rewrite length_app. simpl. lia.
  - unfold reject_all. fields. destruct (outcome s); fields; rewrite length_app; simpl; lia.
Qed.

Lemma in_flight_awaiting s :
  Inv s → in_flight s = length (awaiting_indices (workers s)).
Proof.
  intros HI. unfold in_flight. rewrite (inv_perm _ HI).
  rewrite length_app, length_fmap. lia.
Qed.

Lemma awaiting_indices_length (ws : list worker) :
  length (awaiting_indices ws) ≤ length ws.
Proof.
  induction ws as [|[] ws IH]; simpl; lia.
Qed.

Lemma awaiting_workers_length (g : nat → nat) (ws : list worker) :
  length (omap (λ '(w, x), if is_awaiting x then Some w else None)
               (imap (λ i x, (g i, x)) ws)) =
  length (awaiting_indices ws).
Proof.
  revert g. induction ws as [|x ws IH]; intros g; [done|].
  simpl. specialize (IH (g ∘ S)). destruct x; simpl; by rewrite <- ?IH.
Qed.

(** Every operation is started, and completes, at most once, so a call
    takes at most [items.length] completions. *)
Lemma settled_bound s :
  Inv s → length (settled s) + in_flight s = nextIndex s `min` length items.
Proof.
  intros HI. unfold in_flight. rewrite (inv_calls _ HI), length_seq.
  pose proof (inv_perm _ HI) as Hperm. apply Permutation_length in Hperm.
  rewrite (inv_calls _ HI), length_seq, length_app, length_fmap in Hperm. lia.
Qed.

Lemma quiescent_decided s : Inv_step s → quiescent s → is_Some (outcome s).
Proof.
  intros [HI Hlen Hrun Hout] Hq. rewrite Hout.
  destruct (first_failure (settled s)) eqn:Hff; [eauto|].
  assert (forallb is_returned (workers s) = true) as ->; [|eauto].
  apply forallb_forall. intros x (w & Hw)%list_elem_of_In%list_elem_of_lookup.
  destruct x as [|i op| |e]; [by destruct (Hrun w)| |done|].
  - assert (Hin : w ∈ awaiting_workers s) by (apply elem_of_awaiting_workers; eauto).
    rewrite Hq in Hin. inversion Hin.
  - destruct (inv_thrown _ HI _ _ Hw) as [e' He']. congruence.
Qed.

Lemma run_decides w0 sched fuel s :
  reachable w0 s → length items ≤ length (settled s) + fuel →
  reachable w0 (run fuel sched s) ∧ is_Some (outcome (run fuel sched s)).
Proof.
  revert s. induction fuel as [|fuel IH]; intros s Hreach Hfuel; simpl.
  - split; [done|]. pose proof (reachable_Inv_step _ _ Hreach) as HS.
    apply quiescent_decided; [done|]. apply quiescent_awaiting_indices.
    pose proof (settled_bound _ (step_Inv _ HS)) as Hb.
    rewrite (in_flight_awaiting _ (step_Inv _ HS)) in Hb.
    destruct (awaiting_indices (workers s)); [done|]. simpl in Hb. lia.
  - destruct (outcome s) eqn:Ho; [rewrite Ho; eauto|].
    pose proof (reachable_Inv_step _ _ Hreach) as HS.
    destruct (awaiting_workers s) as [|w0' ws] eqn:Hws.
    { destruct (quiescent_decided s HS Hws) as [o Ho']. congruence. }
    rewrite <- Hws.
    destruct (lookup_lt_is_Some_2 (awaiting_workers s)
      (sched (length (settled s)) `mod` length (awaiting_workers s))) as [w Hw].
    { apply Nat.mod_upper_bound. by rewrite Hws. }
    rewrite Hw. assert (Hin : w ∈ awaiting_workers s) by (apply list_elem_of_lookup; eauto).
    destruct (resume_awaiting _ _ Hin) as [s' Hs']. rewrite Hs'.
    apply IH; [by eapply reachable_resume|].
    rewrite (resume_settled _ _ _ Hs'). lia.
Qed.


(** Once every worker has returned, the mapper has been called with every
    index, once each, and every operation has completed. *)
Lemma all_returned_settled s :
  Inv_step s → forallb is_returned (workers s) = true →
  calls s = seq 0 (length items) ∧ seq 0 (length items) ≡ₚ (settled s).*1.
Proof.
  intros [HI Hlen Hrun Hout] Hall.
  assert (Hnext : length items < nextIndex s).
  { destruct (workers s) as [|x ws] eqn:Hws.
    - unfold worker_count in Hlen. simpl in Hlen. lia.
    - simpl in Hall. apply andb_prop in Hall as [Hx _]. destruct x; try done.
      apply (inv_returned _ HI 0). by rewrite Hws. }
  assert (Hnil : awaiting_indices (workers s) = []).
  { destruct (awaiting_indices (workers s)) as [|i l] eqn:Hl; [done|].
    assert (Hin : i ∈ awaiting_indices (workers s)) by (rewrite Hl; left).
    apply elem_of_awaiting_indices in Hin as (w & op & Hw).
    by rewrite (not_all_returned _ _ _ Hw) in Hall. }
  pose proof (inv_perm _ HI) as Hperm.
  rewrite Hnil, app_nil_r in Hperm. rewrite (inv_calls _ HI) in Hperm |- *.
  replace (nextIndex s `min` length items) with (length items) in * by lia.
  done.
Qed.

Lemma exec_reachable w0 trace s s' :
  reachable w0 s → exec trace s = Some s' → reachable w0 s'.
Proof.
  revert s. induction trace as [|w trace IH]; intros s Hreach; simpl.
  - by intros [= <-].
  - destruct (resume w s) as [s1|] eqn:Hs1; [|done]. simpl.
    apply IH. by eapply reachable_resume.
Qed.

Lemma exec_settled trace s s' :
  exec trace s = Some s' → length (settled s') = length (settled s) + length trace.
Proof.
  revert s. induction trace as [|w trace IH]; intros s; simpl.
  - intros [= <-]. lia.
  - destruct (resume w s) as [s1|] eqn:Hs1; [|done]. simpl.
    intros Hexec. rewrite (IH _ Hexec), (resume_settled _ _ _ Hs1). lia.
Qed.

(** *** A mapper whose result is a function of the item and its index *)

Section Pure.
Variable f : T → nat → R.
Hypothesis mapper_result :
  ∀ i x, items !! i = Some x → ∀ w1 w2, (settle (call x i w1).2 w2).2 = inl (f x i).

Lemma settled_pure s i r :
  Inv s → (i, r) ∈ settled s → ∃ x, items !! i = Some x ∧ r = inl (f x i).
Proof.
  intros HI Hin. destruct (inv_settled _ HI _ _ Hin) as (x & w1 & w2 & Hx & ->).
  exists x. split; [done|]. by apply mapper_result.
Qed.

Lemma no_failure s : Inv s → first_failure (settled s) = None.
Proof.
  intros HI. apply first_failure_None. intros i e Hin.
  by destruct (settled_pure _ _ _ HI Hin) as (x & _ & ?).
Qed.

Lemma all_returned_results s :
  Inv_step s → forallb is_returned (workers s) = true →
  results s = Some <$> imap (λ i x, f x i) items.
Proof.
  intros HS Hall. pose proof (all_returned_settled _ HS Hall) as [Hcalls Hperm].
  pose proof (step_Inv _ HS) as HI.
  apply list_eq. intros i. destruct (decide (i < length items)) as [Hi|Hi].
  - rewrite (inv_result_at _ HI) by done.
    destruct (lookup_lt_is_Some_2 items i Hi) as [x Hx].
    rewrite list_lookup_fmap, list_lookup_imap, Hx. simpl. f_equal.
    apply result_at_unique.
    + rewrite <- Hperm. apply elem_of_seq. lia.
    + intros r Hin. destruct (settled_pure _ _ _ HI Hin) as (x' & Hx' & ->). congruence.
  - rewrite !lookup_ge_None_2; [done| |].
    + rewrite length_fmap, length_imap. lia.
    + rewrite (inv_results _ HI). lia.
Qed.

Lemma decided_pure s o :
  Inv_step s → outcome s = Some o →
  o = Fulfilled (Some <$> imap (λ i x, f x i) items).
Proof.
  intros HS Ho. pose proof (step_outcome _ HS) as Hout.
  rewrite (no_failure _ (step_Inv _ HS)), Ho in Hout.
  destruct (forallb _ _) eqn:Hall; [|done].
  inversion Hout. by rewrite (all_returned_results _ HS Hall).
Qed.

Lemma map_sequentially_from_pure xs i w :
  (∀ k x, xs !! k = Some x → ∀ w1 w2, (settle (call x (i + k) w1).2 w2).2 = inl (f x (i + k))) →
  (map_sequentially_from i xs w).2 = inl (imap (λ k x, f x (i + k)) xs).
Proof.
  revert i w. induction xs as [|x xs IH]; intros i w Hxs; [done|]. simpl.
  pose proof (Hxs 0 x eq_refl w) as H0. rewrite Nat.add_0_r in H0.
  destruct (call x i w) as [w1 op]. simpl in H0. specialize (H0 w1).
  destruct (settle op w1) as [w2 r]. simpl in H0. subst r.
  specialize (IH (S i) w2). destruct (map_sequentially_from (S i) xs w2) as [w3 rest].
  simpl in *. rewrite IH.
  - rewrite Nat.add_0_r. do 2 f_equal. apply imap_ext. intros k y _. simpl.
    f_equal. lia.
  - intros k y Hk w1' w2'. replace (S (i + k)) with (i + S k) by lia. by apply Hxs.
Qed.

End Pure.


(** *** The properties of [mapWithConcurrency] *)

Lemma init_settled w0 : settled (init w0) = [].
Proof.
  unfold init. destruct (fulfil_all_frame (Nat.iter worker_count spawn (start w0)))
    as (_ & -> & _).
  by destruct (spawned_Inv w0 worker_count) as (_ & _ & _ & _ & ->).
Qed.

Lemma resume_settled_app w s s' :
  resume w s = Some s' → ∃ ev, settled s' = settled s ++ [ev].
Proof.
  unfold resume. destruct (workers s !! w) as [[|cur op| |]|]; try done.
  destruct (settle op (world s)) as [world' [v|e]]; intros [= <-].
  - destruct (fulfil_all_frame (claim w (State world' (nextIndex s)
      (array_set (results s) cur v) (<[w:=Running]> (workers s)) (outcome s)
      (calls s) (settled s ++ [(cur, inl v)]) (oob s)))) as (_ & -> & _).
    destruct (claim_frame w (State world' (nextIndex s)
      (array_set (results s) cur v) (<[w:=Running]> (workers s)) (outcome s)
      (calls s) (settled s ++ [(cur, inl v)]) (oob s))) as (_ & -> & _).
    fields. eauto.
  - unfold reject_all. fields. destruct (outcome s); fields; eauto.
Qed.

Lemma exec_settled_app trace s s' :
  exec trace s = Some s' → ∃ log, settled s' = settled s ++ log.
Proof.
  revert s. induction trace as [|w trace IH]; intros s; simpl.
  - intros [= <-]. exists []. by rewrite app_nil_r.
  - destruct (resume w s) as [s1|] eqn:Hs1; [|done]. simpl. intros Hexec.
    destruct (resume_settled_app _ _ _ Hs1) as [ev Hev].
    destruct (IH _ Hexec) as [log Hlog]. exists (ev :: log).
    by rewrite Hlog, Hev, <- (assoc (++)).
Qed.

(** An item whose operation always fails makes the call fail. *)
Lemma failing_item_rejects s i x :
  Inv_step s → items !! i = Some x →
  (∀ w1 w2, ∃ e, (settle (call x i w1).2 w2).2 = inr e) →
  ∀ rs, outcome s ≠ Some (Fulfilled rs).
Proof.
  intros HS Hx Hfail rs Ho. pose proof (step_outcome _ HS) as Hout.
  rewrite Ho in Hout. destruct (first_failure (settled s)) eqn:Hff; [done|].
  destruct (forallb _ _) eqn:Hall; [|done].
  destruct (all_returned_settled _ HS Hall) as [_ Hperm].
  assert (Hi : i ∈ (settled s).*1).
  { rewrite <- Hperm. apply elem_of_seq. apply lookup_lt_Some in Hx. lia. }
  apply list_elem_of_fmap in Hi as ([j r] & -> & Hin). simpl in *.
  destruct (inv_settled _ (step_Inv _ HS) _ _ Hin) as (x' & w1 & w2 & Hx' & ->).
  assert (x' = x) as -> by congruence.
  destruct (Hfail w1 w2) as [e He]. rewrite He in Hin.
  rewrite first_failure_None in Hff. by eapply Hff.
Qed.

(** When the mapper's result is a function [f] of the item and its
    index, a call returns, under every scheduler, the list of the results
    in input order, the list that mapping the items one after the other
    gives; whatever the order of the completions, there are at most
    [items.length] of them, a suspended operation can always complete, and
    the call settles with no other value. *)
Lemma pure_mapper_in_order (f : T → nat → R) (w0 : W) :
  (∀ i x, items !! i = Some x →
     ∀ w1 w2, (settle (call x i w1).2 w2).2 = inl (f x i)) →
  let expected := imap (λ i x, f x i) items in
  length expected = length items ∧
  (map_sequentially w0).2 = inl expected ∧
  (∀ sched, (mapWithConcurrency sched w0).2 = Some (Fulfilled (Some <$> expected))) ∧
  (∀ trace s, exec trace (init w0) = Some s →
     length trace ≤ length items ∧
     (∀ w, w ∈ awaiting_workers s → is_Some (resume w s)) ∧
     (quiescent s → outcome s = Some (Fulfilled (Some <$> expected))) ∧
     (∀ o, outcome s = Some o → o = Fulfilled (Some <$> expected))).
Proof.
  intros Hf expected. split; [apply length_imap|]. split; [|split].
  - unfold map_sequentially. rewrite (map_sequentially_from_pure f); [done|].
    intros k x Hk w1 w2. by apply Hf.
  - intros sched. unfold mapWithConcurrency. simpl.
    destruct (run_decides w0 sched (length items) (init w0)) as [Hreach [o Ho]];
      [apply reachable_init|lia|].
    rewrite Ho. f_equal.
    eapply (decided_pure f Hf); [|done]. by eapply reachable_Inv_step.
  - intros trace s Hexec.
    pose proof (exec_reachable w0 _ _ _ (reachable_init w0) Hexec) as Hreach.
    pose proof (reachable_Inv_step _ _ Hreach) as HS.
    assert (Hdec : ∀ o, outcome s = Some o → o = Fulfilled (Some <$> expected)).
    { intros o Ho. by eapply (decided_pure f Hf). }
    repeat split.
    + pose proof (exec_settled _ _ _ Hexec) as Hlen. rewrite init_settled in Hlen.
      pose proof (settled_bound _ (step_Inv _ HS)). simpl in Hlen. lia.
    + intros w. apply resume_awaiting.
    + intros Hq. destruct (quiescent_decided _ HS Hq) as [o Ho].
      by rewrite Ho, (Hdec o Ho).
    + done.
Qed.

(** C2.  Whatever the order of the completions, the call is rejected
    exactly when an operation has failed, and with the error of the first
    one that did; later completions leave that outcome as it is, and
    nothing is cancelled: every suspended operation can still complete.
    An item whose operation fails makes every finished call a rejected
    one. *)
Theorem mapWithConcurrency_first_failure (w0 : W) (trace : list nat) (s : state) :
  exec trace (init w0) = Some s →
  (∀ e, first_failure (settled s) = Some e ↔ outcome s = Some (Rejected e)) ∧
  (∀ e trace' s', outcome s = Some (Rejected e) → exec trace' s = Some s' →
     outcome s' = Some (Rejected e)) ∧
  (∀ w, w ∈ awaiting_workers s → is_Some (resume w s)) ∧
  (∀ i x, items !! i = Some x →
     (∀ w1 w2, ∃ e, (settle (call x i w1).2 w2).2 = inr e) →
     (∀ rs, outcome s ≠ Some (Fulfilled rs)) ∧
     (quiescent s → ∃ e, outcome s = Some (Rejected e)) ∧
     (∀ sched, ∃ e, (mapWithConcurrency sched w0).2 = Some (Rejected e))).
Proof.
  intros Hexec.
  pose proof (exec_reachable w0 _ _ _ (reachable_init w0) Hexec) as Hreach.
  pose proof (reachable_Inv_step _ _ Hreach) as HS.
  assert (Hiff : ∀ s, Inv_step s →
    ∀ e, first_failure (settled s) = Some e ↔ outcome s = Some (Rejected e)).
  { intros s1 HS1 e. rewrite (step_outcome _ HS1).
    destruct (first_failure (settled s1)).
    - split; by intros [= ->].
    - by destruct (forallb _ _). }
  split; [by apply Hiff|]. split; [|split].
  - intros e trace' s' Ho Hexec'. apply Hiff.
    + eapply reachable_Inv_step, exec_reachable; done.
    + destruct (exec_settled_app _ _ _ Hexec') as [log ->].
      rewrite first_failure_app. apply Hiff in Ho; [|done]. by rewrite Ho.
  - intros w. apply resume_awaiting.
  - intros i x Hx Hfail. split; [by eapply failing_item_rejects|]. split.
    + intros Hq. destruct (quiescent_decided _ HS Hq) as [[rs|e] Ho]; [|eauto].
      by destruct (failing_item_rejects _ _ _ HS Hx Hfail rs).
    + intros sched. unfold mapWithConcurrency. simpl.
      destruct (run_decides w0 sched (length items) (init w0)) as [Hreach' [o Ho]];
        [apply reachable_init|lia|].
      destruct o as [rs|e]; [|eauto].
      apply reachable_Inv_step in Hreach'.
      by destruct (failing_item_rejects _ _ _ Hreach' Hx Hfail rs).
Qed.

(** C5.  With a bound of at least one, in no state of a call, before or
    after it has settled, are more than [concurrency] operations started
    and not completed. *)
Theorem mapWithConcurrency_in_flight_bounded (w0 : W) (trace : list nat) (s : state) :
  (1 ≤ concurrency)%Z →
  exec trace (init w0) = Some s →
  (Z.of_nat (in_flight s) ≤ concurrency)%Z ∧
  in_flight s = length (awaiting_workers s).
Proof.
  intros HK Hexec.
  pose proof (exec_reachable w0 _ _ _ (reachable_init w0) Hexec) as Hreach.
  pose proof (reachable_Inv_step _ _ Hreach) as [HI Hlen _ _].
  rewrite (in_flight_awaiting _ HI). split.
  - pose proof (awaiting_indices_length (workers s)) as Hle.
    rewrite Hlen in Hle. unfold worker_count in Hle. lia.
  - symmetry. apply (awaiting_workers_length id).
Qed.


Lemma result_at_present log i :
  i ∈ log.*1 → first_failure log = None → is_Some (result_at log i).
Proof.
  unfold result_at, first_failure. induction log as [|[j [v|e]] log IH]; simpl.
  - intros Hin. inversion Hin.
  - intros Hin Hff. destruct (decide (j = i)); [by eexists|].
    apply elem_of_cons in Hin as [?|Hin]; [done|]. by apply IH.
  - done.
Qed.

(** When no application fails, a call that has nothing left to complete
    has called the mapper with every index and returns a full array. *)
Lemma quiescent_complete s :
  (∀ i x, items !! i = Some x → ∀ w1 w2, ∃ v, (settle (call x i w1).2 w2).2 = inl v) →
  Inv_step s → is_Some (outcome s) →
  calls s = seq 0 (length items) ∧
  ∃ rs, outcome s = Some (Fulfilled rs) ∧ length rs = length items ∧
        ∀ i, i < length items → ∃ v, rs !! i = Some (Some v).
Proof.
  intros Hok HS [o Ho]. pose proof (step_Inv _ HS) as HI.
  assert (Hff : first_failure (settled s) = None).
  { apply first_failure_None. intros i e Hin.
    destruct (inv_settled _ HI _ _ Hin) as (x & w1 & w2 & Hx & Hr).
    destruct (Hok _ _ Hx w1 w2) as [v Hv]. congruence. }
  pose proof (step_outcome _ HS) as Hout. rewrite Hff in Hout.
  destruct (forallb _ _) eqn:Hall; [|congruence].
  destruct (all_returned_settled _ HS Hall) as [Hcalls Hperm].
  split; [done|]. exists (results s). split; [done|]. split; [apply (inv_results _ HI)|].
  intros i Hi. rewrite (inv_result_at _ HI) by done.
  destruct (result_at_present (settled s) i) as [v ->]; [|done|eauto].
  rewrite <- Hperm. apply elem_of_seq. lia.
Qed.

(** *** What a caller can rely on *)

(** A property of the world that the mapper keeps is kept by the call. *)
Lemma claim_world (Q : W → Prop) w s :
  (∀ i x w, items !! i = Some x → Q w → Q (call x i w).1) →
  Q (world s) → Q (world (claim w s)).
Proof.
  intros Hcall HQ. unfold claim. destruct (decide _); [done|].
  destruct (items !! nextIndex s) as [x|] eqn:Hx; [|done].
  specialize (Hcall _ _ (world s) Hx HQ). by destruct (call x (nextIndex s) (world s)).
Qed.

Lemma fulfil_all_world s : world (fulfil_all s) = world s.
Proof. unfold fulfil_all. destruct (outcome s); [done|]. by destruct (forallb _ _). Qed.

Lemma reachable_world (Q : W → Prop) w0 s :
  (∀ i x w, items !! i = Some x → Q w → Q (call x i w).1) →
  (∀ i x w1 w, items !! i = Some x → Q w → Q (settle (call x i w1).2 w).1) →
  Q w0 → reachable w0 s → Q (world s).
Proof.
  intros Hcall Hsettle HQ Hreach. induction Hreach as [|s w s' Hreach IH Hstep].
  - unfold init. rewrite fulfil_all_world.
    induction worker_count as [|n IHn]; [done|]. simpl. unfold spawn.
    by apply claim_world.
  - pose proof (reachable_Inv_step _ _ Hreach) as HS. unfold resume in Hstep.
    destruct (workers s !! w) as [[|cur op| |]|] eqn:Hw; try done.
    destruct (inv_ops _ (step_Inv _ HS) _ _ _ Hw) as (x & w1 & Hx & ->).
    specialize (Hsettle _ _ w1 _ Hx IH).
    destruct (settle (call x cur w1).2 (world s)) as [world' [v|e]];
      injection Hstep as <-.
    + rewrite fulfil_all_world. by apply claim_world.
    + unfold reject_all. fields. by destruct (outcome s).
Qed.

(** The same for a property that follows the calls of the mapper. *)
Lemma claim_world_calls (Q : list nat → W → Prop) w s :
  (∀ i x cs w, items !! i = Some x → Q cs w → Q (cs ++ [i]) (call x i w).1) →
  Q (calls s) (world s) → Q (calls (claim w s)) (world (claim w s)).
Proof.
  intros Hcall HQ. unfold claim. destruct (decide _); [done|].
  destruct (items !! nextIndex s) as [x|] eqn:Hx; [|done].
  specialize (Hcall _ _ (calls s) (world s) Hx HQ).
  by destruct (call x (nextIndex s) (world s)).
Qed.

Lemma reachable_world_calls (Q : list nat → W → Prop) w0 s :
  (∀ i x cs w, items !! i = Some x → Q cs w → Q (cs ++ [i]) (call x i w).1) →
  (∀ i x w1 cs w, items !! i = Some x → Q cs w → Q cs (settle (call x i w1).2 w).1) →
  Q [] w0 → reachable w0 s → Q (calls s) (world s).
Proof.
  intros Hcall Hsettle HQ Hreach. induction Hreach as [|s w s' Hreach IH Hstep].
  - unfold init. rewrite fulfil_all_world.
    destruct (fulfil_all_frame (Nat.iter worker_count spawn (start w0)))
      as (_ & _ & _ & -> & _).
    induction worker_count as [|n IHn]; [done|]. simpl. unfold spawn.
    by apply claim_world_calls.
  - pose proof (reachable_Inv_step _ _ Hreach) as HS. unfold resume in Hstep.
    destruct (workers s !! w) as [[|cur op| |]|] eqn:Hw; try done.
    destruct (inv_ops _ (step_Inv _ HS) _ _ _ Hw) as (x & w1 & Hx & ->).
    specialize (Hsettle _ _ w1 _ _ Hx IH).
    destruct (settle (call x cur w1).2 (world s)) as [world' [v|e]];
      injection Hstep as <-.
    + rewrite fulfil_all_world.
      match goal with |- Q (calls (fulfil_all ?s1)) _ =>
        destruct (fulfil_all_frame s1) as (_ & _ & _ & -> & _) end.
      by apply claim_world_calls.
    + unfold reject_all. fields. by destruct (outcome s).
Qed.

(** In the array of a fulfilled call every slot holds a result of the
    operation for its index. *)
Lemma fulfilled_pointwise (Q : nat → R → Prop) s rs :
  (∀ i x w1 w2 v, items !! i = Some x →
     (settle (call x i w1).2 w2).2 = inl v → Q i v) →
  Inv_step s → outcome s = Some (Fulfilled rs) →
  length rs = length items ∧
  ∀ i, i < length items → ∃ v, rs !! i = Some (Some v) ∧ Q i v.
Proof.
  intros HQ HS Ho. pose proof (step_Inv _ HS) as HI.
  pose proof (step_outcome _ HS) as Hout. rewrite Ho in Hout.
  destruct (first_failure (settled s)) eqn:Hff; [done|].
  destruct (forallb _ _) eqn:Hall; [|done].
  injection Hout as ->.
  destruct (all_returned_settled _ HS Hall) as [_ Hperm].
  split; [apply (inv_results _ HI)|].
  intros i Hi. rewrite (inv_result_at _ HI) by done.
  assert (Hin : i ∈ (settled s).*1) by (rewrite <- Hperm; apply elem_of_seq; lia).
  destruct (result_at_present _ _ Hin Hff) as [v Hv]. exists v. split; [by rewrite Hv|].
  unfold result_at in Hv. apply head_Some_elem_of, list_elem_of_omap in Hv
    as ([j r] & Hjr & Hsome). simpl in Hsome.
  destruct (decide (j = i)) as [->|]; [|done]. destruct r as [v'|]; [|done].
  injection Hsome as ->.
  destruct (inv_settled _ HI _ _ Hjr) as (x & w1 & w2 & Hx & Hr).
  by eapply HQ.
Qed.

(** In the array of a fulfilled call the slot of an index holds the
    result with which the one operation for that index completed. *)
Lemma fulfilled_logged s rs :
  Inv_step s → outcome s = Some (Fulfilled rs) →
  calls s = seq 0 (length items) ∧
  (settled s).*1 ≡ₚ seq 0 (length items) ∧
  length rs = length items ∧
  ∀ i x, items !! i = Some x →
    ∃ v w1 w2, rs !! i = Some (Some v) ∧
               (settle (call x i w1).2 w2).2 = inl v ∧
               ∀ r, (i, r) ∈ settled s ↔ r = inl v.
Proof.
  intros HS Ho. pose proof (step_Inv _ HS) as HI.
  pose proof (step_outcome _ HS) as Hout. rewrite Ho in Hout.
  destruct (first_failure (settled s)) eqn:Hff; [done|].
  destruct (forallb _ _) eqn:Hall; [|done].
  injection Hout as ->.
  destruct (all_returned_settled _ HS Hall) as [Hcalls Hperm].
  split; [done|]. split; [by symmetry|]. split; [apply (inv_results _ HI)|].
  intros i x Hx. pose proof (lookup_lt_Some _ _ _ Hx) as Hi.
  rewrite (inv_result_at _ HI) by done.
  assert (Hin : i ∈ (settled s).*1) by (rewrite <- Hperm; apply elem_of_seq; lia).
  destruct (result_at_present _ _ Hin Hff) as [v Hv].
  pose proof Hv as Hv'.
  unfold result_at in Hv'. apply head_Some_elem_of, list_elem_of_omap in Hv'
    as ([j r] & Hjr & Hsome). simpl in Hsome.
  destruct (decide (j = i)) as [->|]; [|done]. destruct r as [v'|]; [|done].
  injection Hsome as ->.
  destruct (inv_settled _ HI _ _ Hjr) as (x' & w1 & w2 & Hx' & Hr).
  assert (x' = x) as -> by congruence.
  exists v, w1, w2. split; [by rewrite Hv|]. split; [done|].
  intros r. split; [|by intros ->].
  intros Hir.
  assert (Hnd : NoDup (settled s).*1) by (rewrite <- Hperm; apply NoDup_seq).
  apply list_elem_of_lookup in Hir as [k1 Hk1].
  apply list_elem_of_lookup in Hjr as [k2 Hk2].
  assert (k1 = k2).
  { eapply NoDup_lookup; [exact Hnd| |]; rewrite list_lookup_fmap.
    - by rewrite Hk1.
    - by rewrite Hk2. }
  subst k2. congruence.
Qed.

(** The outcome of a call that has one. *)
Definition decided (o : option settlement) (H : is_Some o) : settlement :=
  match o as o' return is_Some o' → settlement with
  | Some x => λ _, x
  | None => λ H', match is_Some_None H' with end
  end H.

Lemma decided_Some o H : o = Some (decided o H).
Proof. destruct o; [done|]. destruct (is_Some_None H). Qed.

(** [await mapWithConcurrency(items, concurrency, mapper)] under a
    scheduler: the caller goes on with the results, or with the error
    thrown, and with the world as it is then. *)
Definition await_mapWithConcurrency (sched : nat → nat) (w0 : W) : W * (list (option R) + E) :=
  let s := run (length items) sched (init w0) in
  (world s,
   match decided (outcome s)
           (proj2 (run_decides w0 sched (length items) (init w0)
                     (reachable_init w0) (Nat.le_add_l _ _))) with
   | Fulfilled rs => inl rs
   | Rejected e => inr e
   end).

Lemma await_mapWithConcurrency_outcome sched w0 :
  (mapWithConcurrency sched w0).2 =
  Some (match (await_mapWithConcurrency sched w0).2 with
        | inl rs => Fulfilled rs
        | inr e => Rejected e
        end) ∧
  (await_mapWithConcurrency sched w0).1 = (mapWithConcurrency sched w0).1.
Proof.
  unfold await_mapWithConcurrency, mapWithConcurrency. simpl. split; [|done].
  rewrite (decided_Some _ (proj2 (run_decides w0 sched (length items) (init w0)
                     (reachable_init w0) (Nat.le_add_l _ _)))) at 1.
  by destruct (decided _ _).
Qed.

Lemma await_mapWithConcurrency_reachable sched w0 :
  ∃ s, reachable w0 s ∧ (await_mapWithConcurrency sched w0).1 = world s ∧
       outcome s = Some (match (await_mapWithConcurrency sched w0).2 with
                         | inl rs => Fulfilled rs
                         | inr e => Rejected e
                         end).
Proof.
  exists (run (length items) sched (init w0)).
  destruct (run_decides w0 sched (length items) (init w0) (reachable_init w0)
              (Nat.le_add_l _ _)) as [Hreach _].
  split; [done|]. split; [done|].
  by destruct (await_mapWithConcurrency_outcome sched w0) as [<- _].
Qed.

Lemma await_mapWithConcurrency_world (Q : W → Prop) sched w0 :
  (∀ i x w, items !! i = Some x → Q w → Q (call x i w).1) →
  (∀ i x w1 w, items !! i = Some x → Q w → Q (settle (call x i w1).2 w).1) →
  Q w0 → Q (await_mapWithConcurrency sched w0).1.
Proof.
  intros Hcall Hsettle HQ.
  destruct (await_mapWithConcurrency_reachable sched w0) as (s & Hreach & -> & _).
  by eapply reachable_world.
Qed.

(** Under a mapper that never fails the call returns an array with a
    result of each operation at its index. *)
Lemma await_mapWithConcurrency_returns (Q : nat → R → Prop) sched w0 :
  (∀ i x w1 w2, items !! i = Some x →
     ∃ v, (settle (call x i w1).2 w2).2 = inl v ∧ Q i v) →
  ∃ rs, (await_mapWithConcurrency sched w0).2 = inl rs ∧
        length rs = length items ∧
        ∀ i, i < length items → ∃ v, rs !! i = Some (Some v) ∧ Q i v.
Proof.
  intros Hok.
  destruct (await_mapWithConcurrency_reachable sched w0) as (s & Hreach & _ & Ho).
  pose proof (reachable_Inv_step _ _ Hreach) as HS.
  destruct (quiescent_complete s) as (_ & rs & Ho' & _); [|done|by rewrite Ho|].
  { intros i x Hx w1 w2. destruct (Hok i x w1 w2 Hx) as (v & Hv & _). eauto. }
  rewrite Ho' in Ho. destruct ((await_mapWithConcurrency sched w0).2) as [rs'|e]; [|done].
  injection Ho as ->. exists rs'. split; [done|].
  apply (fulfilled_pointwise Q s rs'); [|done..].
  intros i x w1 w2 v Hx Hv. destruct (Hok i x w1 w2 Hx) as (v' & Hv' & HQ). congruence.
Qed.

(** Under a mapper that never fails the mapper has been called with
    every index, in input order, when the call returns. *)
Lemma await_mapWithConcurrency_calls (Q : list nat → W → Prop) sched w0 :
  (∀ i x w1 w2, items !! i = Some x → ∃ v, (settle (call x i w1).2 w2).2 = inl v) →
  (∀ i x cs w, items !! i = Some x → Q cs w → Q (cs ++ [i]) (call x i w).1) →
  (∀ i x w1 cs w, items !! i = Some x → Q cs w → Q cs (settle (call x i w1).2 w).1) →
  Q [] w0 → Q (seq 0 (length items)) (await_mapWithConcurrency sched w0).1.
Proof.
  intros Hok Hcall Hsettle HQ.
  destruct (await_mapWithConcurrency_reachable sched w0) as (s & Hreach & -> & Ho).
  pose proof (reachable_Inv_step _ _ Hreach) as HS.
  destruct (quiescent_complete s) as (<- & _); [|done|by rewrite Ho|].
  { intros i x Hx w1 w2. by apply Hok. }
  by apply (reachable_world_calls Q w0 s).
Qed.

(** In the array a call returns every slot holds a result of the
    operation for its index, whether or not the mapper can fail. *)
Lemma await_mapWithConcurrency_fulfilled (Q : nat → R → Prop) sched w0 rs :
  (∀ i x w1 w2 v, items !! i = Some x →
     (settle (call x i w1).2 w2).2 = inl v → Q i v) →
  (await_mapWithConcurrency sched w0).2 = inl rs →
  length rs = length items ∧
  ∀ i, i < length items → ∃ v, rs !! i = Some (Some v) ∧ Q i v.
Proof.
  intros HQ Hrs.
  destruct (await_mapWithConcurrency_reachable sched w0) as (s & Hreach & _ & Ho).
  rewrite Hrs in Ho.
  by apply (fulfilled_pointwise Q s rs HQ (reachable_Inv_step _ _ Hreach)).
Qed.

(** *** Workers kept busy *)

Lemma awaiting_indices_all (ws : list worker) :
  (∀ w x, ws !! w = Some x → is_awaiting x = true) →
  length (awaiting_indices ws) = length ws.
Proof.
  induction ws as [|x ws IH]; [done|]. intros Hall.
  pose proof (Hall 0 x eq_refl) as Hx. destruct x; try done. simpl.
  rewrite IH; [done|]. intros w y Hy. by apply (Hall (S w)).
Qed.

(** While no operation has failed the operations in flight number the
    workers, or the items not yet completed when those are fewer. *)
Lemma busy_workers (w0 : W) (trace : list nat) (s : state) :
  exec trace (init w0) = Some s →
  first_failure (settled s) = None →
  in_flight s = worker_count `min` (length items - length (settled s)) ∧
  in_flight (init w0) = worker_count `min` length items.
Proof.
  assert (Hbusy : ∀ s, reachable w0 s → first_failure (settled s) = None →
            in_flight s = worker_count `min` (length items - length (settled s))).
  { clear trace s. intros s Hreach Hff.
    pose proof (reachable_Inv_step _ _ Hreach) as [HI Hlen Hrun _].
    pose proof (settled_bound _ HI) as Hb.
    pose proof (awaiting_indices_length (workers s)) as Hle.
    rewrite (in_flight_awaiting _ HI) in *. rewrite Hlen in Hle.
    destruct (decide (nextIndex s ≤ length items)) as [Hnext|Hnext]; [|lia].
    assert (Hall : length (awaiting_indices (workers s)) = length (workers s)); [|lia].
    apply awaiting_indices_all.
    intros w x Hw. destruct x as [|i op| |e]; [by destruct (Hrun w)|done| |].
    - pose proof (inv_returned _ HI _ Hw). lia.
    - destruct (inv_thrown _ HI _ _ Hw) as [e' He']. congruence. }
  intros Hexec Hff. split.
  - apply Hbusy; [|done]. by eapply exec_reachable; [apply reachable_init|].
  - rewrite (Hbusy (init w0)); [|apply reachable_init|by rewrite init_settled].
    rewrite init_settled. simpl. lia.
Qed.

(** *** Work done after a failure *)

Lemma thrown_insert ws w x y :
  ws !! w = Some x →
  thrown (<[w := y]> ws) = thrown (take w ws) ++ thrown [y] ++ thrown (drop (S w) ws) ∧
  thrown ws = thrown (take w ws) ++ thrown [x] ++ thrown (drop (S w) ws).
Proof.
  intros Hw. split.
  - rewrite insert_take_drop by (by eapply lookup_lt_Some).
    unfold thrown. rewrite omap_app.
    change (y :: drop (S w) ws) with ([y] ++ drop (S w) ws). by rewrite omap_app.
  - rewrite <- (take_drop_middle ws w x Hw) at 1.
    unfold thrown. rewrite omap_app.
    change (x :: drop (S w) ws) with ([x] ++ drop (S w) ws). by rewrite omap_app.
Qed.

Lemma claim_thrown w s :
  workers s !! w = Some Running → thrown (workers (claim w s)) = thrown (workers s).
Proof.
  intros Hw. destruct (thrown_insert (workers s) w Running Returned Hw) as [Hret Hold].
  unfold claim. destruct (decide _); fields; [by rewrite Hret, Hold|].
  destruct (items !! nextIndex s); fields; [|by rewrite Hret, Hold].
  destruct (call _ _ _) as [world' op]. fields.
  destruct (thrown_insert (workers s) w Running (Awaiting (nextIndex s) op) Hw) as [-> _].
  by rewrite Hold.
Qed.

Lemma spawned_thrown w0 n : thrown (workers (Nat.iter n spawn (start w0))) = [].
Proof.
  induction n as [|n IH]; [done|].
  change (Nat.iter (S n) spawn (start w0)) with (spawn (Nat.iter n spawn (start w0))).
  set (s := Nat.iter n spawn (start w0)) in *. unfold spawn.
  rewrite claim_thrown; fields.
  - unfold thrown in *. by rewrite omap_app, IH.
  - by rewrite lookup_app_r, Nat.sub_diag.
Qed.

(** The workers that have ended with an error are as many as the
    operations that have failed. *)
Lemma reachable_thrown w0 s :
  reachable w0 s → thrown (workers s) ≡ₚ failures (settled s).
Proof.
  induction 1 as [|s w s' _ IH Hstep].
  - unfold init. destruct (fulfil_all_frame (Nat.iter worker_count spawn (start w0)))
      as (-> & -> & _).
    destruct (spawned_Inv w0 worker_count) as (_ & _ & _ & _ & ->).
    by rewrite spawned_thrown.
  - unfold resume in Hstep.
    destruct (workers s !! w) as [[|cur op| |]|] eqn:Hw; try done.
    destruct (settle op (world s)) as [world' [v|e]]; injection Hstep as <-.
    + set (s1 := State _ _ _ _ _ _ _ _).
      destruct (fulfil_all_frame (claim w s1)) as (-> & -> & _).
      destruct (claim_frame w s1) as (_ & -> & _).
      rewrite claim_thrown; subst s1; fields.
      2: { apply list_lookup_insert_eq. by eapply lookup_lt_Some. }
      destruct (thrown_insert (workers s) w _ Running Hw) as [-> Hold].
      unfold failures. rewrite omap_app. simpl. rewrite app_nil_r.
      rewrite <- IH, Hold. done.
    + unfold reject_all. fields.
      assert (Hlog : failures (settled s ++ [(cur, inr e)]) = failures (settled s) ++ [e]).
      { unfold failures. by rewrite omap_app. }
      destruct (thrown_insert (workers s) w _ (Thrown e) Hw) as [Hnew Hold].
      destruct (outcome s); fields; rewrite Hlog, Hnew, <- IH, Hold; simpl;
        rewrite <- Permutation_middle; apply Permutation_cons_append.
Qed.

Lemma thrown_all_or_not (ws : list worker) :
  length (thrown ws) = length ws ∨
  ∃ w x, ws !! w = Some x ∧ ∀ e, x ≠ Thrown e.
Proof.
  induction ws as [|x ws [IH|(w & y & Hw & Hy)]].
  - by left.
  - destruct x as [| | |e]; try (right; eexists 0, _; split; [reflexivity|done]).
    left. simpl. by rewrite IH.
  - right. by exists (S w), y.
Qed.

(** X11.  A failure does not stop the work.  When a call has nothing left
    to complete and fewer operations have failed than there are workers,
    the mapper has been called with every index, in input order, and
    every one of the operations has completed, although the caller was
    given the first failure long before. *)
Theorem mapWithConcurrency_failure_does_not_stop_dispatch
    (w0 : W) (trace : list nat) (s : state) :
  exec trace (init w0) = Some s →
  quiescent s →
  length (failures (settled s)) < worker_count →
  calls s = seq 0 (length items) ∧
  (settled s).*1 ≡ₚ seq 0 (length items) ∧
  length trace = length items ∧
  ∀ e, first_failure (settled s) = Some e → outcome s = Some (Rejected e).
Proof.
  intros Hexec Hq Hfew.
  pose proof (exec_reachable w0 _ _ _ (reachable_init w0) Hexec) as Hreach.
  pose proof (reachable_Inv_step _ _ Hreach) as [HI Hlen Hrun Hout].
  pose proof (reachable_thrown _ _ Hreach) as Hthrown.
  apply Permutation_length in Hthrown.
  assert (Hnext : length items < nextIndex s).
  { destruct (thrown_all_or_not (workers s)) as [Hall|(w & x & Hw & Hx)]; [lia|].
    destruct x as [|i op| |e]; [by destruct (Hrun w)| |by eapply inv_returned|by destruct (Hx e)].
    assert (Hin : w ∈ awaiting_workers s) by (apply elem_of_awaiting_workers; eauto).
    rewrite Hq in Hin. inversion Hin. }
  assert (Hcalls : calls s = seq 0 (length items)).
  { rewrite (inv_calls _ HI). f_equal. lia. }
  assert (Hperm : (settled s).*1 ≡ₚ seq 0 (length items)).
  { pose proof (inv_perm _ HI) as Hperm.
    apply quiescent_awaiting_indices in Hq. rewrite Hq, app_nil_r in Hperm.
    by rewrite <- Hperm, Hcalls. }
  split; [done|]. split; [done|]. split.
  - pose proof (exec_settled _ _ _ Hexec) as Hsettled.
    rewrite init_settled in Hsettled. simpl in Hsettled.
    apply Permutation_length in Hperm. rewrite length_fmap, length_seq in Hperm. lia.
  - intros e He. by rewrite Hout, He.
Qed.

(** *** One worker *)

Lemma run_decided fuel sched s : is_Some (outcome s) → run fuel sched s = s.
Proof. intros [o Ho]. destruct fuel; [done|]. simpl. by rewrite Ho. Qed.

(** A single worker maps the items that are left one after the other. *)
Lemma run_single_worker sched xs :
  ∀ i w rs cs log fuel,
    drop i items = xs → length rs = length items → length xs ≤ fuel →
    let s := run fuel sched
               (fulfil_all (claim 0 (State w i rs [Running] None cs log false))) in
    world s = (map_sequentially_from i xs w).1 ∧
    outcome s = Some (match (map_sequentially_from i xs w).2 with
                      | inl vs => Fulfilled (take i rs ++ (Some <$> vs))
                      | inr e => Rejected e
                      end).
Proof.
  induction xs as [|x xs IH]; intros i w rs cs log fuel Hdrop Hrs Hfuel.
  - assert (Hi : length items ≤ i).
    { apply (f_equal length) in Hdrop. rewrite length_drop in Hdrop. simpl in Hdrop. lia. }
    unfold claim. fields. rewrite decide_True by done.
    unfold fulfil_all. fields. simpl.
    rewrite run_decided by (fields; eauto). fields.
    by rewrite take_ge, app_nil_r by lia.
  - assert (Hx : items !! i = Some x).
    { pose proof (lookup_drop items i 0) as Hl. by rewrite Hdrop, Nat.add_0_r in Hl. }
    assert (Hi : i < length items) by (by eapply lookup_lt_Some).
    assert (Hdrop' : drop (S i) items = xs).
    { replace (S i) with (i + 1) by lia. by rewrite <- drop_drop, Hdrop. }
    destruct fuel as [|fuel]; [simpl in Hfuel; lia|].
    unfold claim. fields. rewrite decide_False by lia. rewrite Hx.
    cbn [map_sequentially_from].
    destruct (call x i w) as [w1 op]. cbn [insert list_insert].
    set (s1 := State w1 (S i) rs [Awaiting i op] None (cs ++ [i]) log false).
    replace (fulfil_all s1) with s1 by done.
    assert (Hstep : run (S fuel) sched s1 =
                    match resume 0 s1 with Some s' => run fuel sched s' | None => s1 end).
    { cbn [run]. subst s1. fields.
      change (awaiting_workers
                (State w1 (S i) rs [Awaiting i op] None (cs ++ [i]) log false)) with [0].
      cbn [length]. by rewrite Nat.mod_1_r. }
    rewrite Hstep. clear Hstep. unfold resume. subst s1. fields. cbn [lookup list_lookup].
    destruct (settle op w1) as [w2 [v|e]].
    + cbn [insert list_insert].
      specialize (IH (S i) w2 (array_set rs i v) (cs ++ [i]) (log ++ [(i, inl v)]) fuel
                     Hdrop').
      destruct IH as [Hworld Hout].
      { unfold array_set. rewrite decide_True by lia. by rewrite length_insert. }
      { simpl in Hfuel. lia. }
      rewrite Hworld, Hout.
      destruct (map_sequentially_from (S i) xs w2) as [w3 [vs|e]]; [|done].
      split; [done|]. do 2 f_equal. unfold array_set. rewrite decide_True by lia.
      rewrite (take_S_r _ _ (Some v)) by (apply list_lookup_insert_eq; lia).
      rewrite take_insert_ge by lia. by rewrite <- (assoc (++)).
    + unfold reject_all. fields. by rewrite run_decided by (fields; eauto).
Qed.

(** X12.  With a bound of one or less there is a single worker, and the
    executor is the sequential map: whatever the mapper does to its
    surroundings and whether or not it fails, the call leaves them as
    mapping one item after the other does, each operation completing
    before the next starts, returns the same results, or is rejected
    with the same error, the items after the failing one untouched. *)
Theorem mapWithConcurrency_sequential (sched : nat → nat) (w0 : W) :
  (concurrency ≤ 1)%Z →
  mapWithConcurrency sched w0 =
    ((map_sequentially w0).1,
     Some (match (map_sequentially w0).2 with
           | inl vs => Fulfilled (Some <$> vs)
           | inr e => Rejected e
           end)).
Proof.
  intros HK. unfold mapWithConcurrency, init, map_sequentially.
  assert (worker_count = 1) as -> by (unfold worker_count; lia).
  change (Nat.iter 1 spawn (start w0)) with (spawn (start w0)).
  unfold spawn, start. fields. cbn [app length].
  destruct (run_single_worker sched items 0 w0 (replicate (length items) None) [] []
              (length items)) as [Hworld Hout];
    [done|apply length_replicate|done|].
  cbv zeta in Hworld, Hout. by rewrite Hworld, Hout.
Qed.

(** *** Every call settles *)

Lemma settles sched w0 : is_Some (mapWithConcurrency sched w0).2.
Proof.
  unfold mapWithConcurrency. simpl.
  apply (run_decides w0); [apply reachable_init|lia].
Qed.

(** Whatever the mapper does, a call takes at most [items.length]
    completions, reads [items] and writes [results] inside their bounds
    only, calls the mapper with no index twice, and never blocks. *)
Lemma safe_steps w0 trace s :
  exec trace (init w0) = Some s →
  length trace ≤ length items ∧ oob s = false ∧
  length (results s) = length items ∧
  NoDup (calls s) ∧ (∀ i, i ∈ calls s → i < length items) ∧
  (∀ w, w ∈ awaiting_workers s → is_Some (resume w s)).
Proof.
  intros Hexec.
  pose proof (exec_reachable w0 _ _ _ (reachable_init w0) Hexec) as Hreach.
  pose proof (reachable_Inv_step _ _ Hreach) as HS.
  pose proof (step_Inv _ HS) as HI.
  pose proof (exec_settled _ _ _ Hexec) as Hlen.
  rewrite init_settled in Hlen. simpl in Hlen.
  pose proof (settled_bound _ HI) as Hb.
  split; [lia|]. split; [apply (inv_oob _ HI)|].
  split; [apply (inv_results _ HI)|].
  split; [rewrite (inv_calls _ HI); apply NoDup_seq|]. split.
  - intros i. rewrite (inv_calls _ HI), elem_of_seq. lia.
  - intros w. apply resume_awaiting.
Qed.

(** When no application fails, a call with nothing left to complete has
    called the mapper once per index and returns a full array; under a
    scheduler the caller gets such an array, the slot of an index
    holding the result with which the one operation for that index
    completed. *)
Lemma complete_without_failure w0 :
  (∀ i x, items !! i = Some x →
     ∀ w1 w2, ∃ v, (settle (call x i w1).2 w2).2 = inl v) →
  (∀ trace s, exec trace (init w0) = Some s → quiescent s →
     calls s = seq 0 (length items) ∧
     ∃ rs, outcome s = Some (Fulfilled rs) ∧ length rs = length items ∧
           ∀ i, i < length items → ∃ v, rs !! i = Some (Some v)) ∧
  (∀ sched,
     let s := run (length items) sched (init w0) in
     ∃ rs, (mapWithConcurrency sched w0).2 = Some (Fulfilled rs) ∧
           length rs = length items ∧
           calls s = seq 0 (length items) ∧
           (settled s).*1 ≡ₚ seq 0 (length items) ∧
           ∀ i x, items !! i = Some x →
             ∃ v w1 w2, rs !! i = Some (Some v) ∧
                        (settle (call x i w1).2 w2).2 = inl v ∧
                        ∀ r, (i, r) ∈ settled s ↔ r = inl v).
Proof.
  intros Hok. split.
  - intros trace s Hexec Hq.
    pose proof (exec_reachable w0 _ _ _ (reachable_init w0) Hexec) as Hreach.
    pose proof (reachable_Inv_step _ _ Hreach) as HS.
    apply (quiescent_complete s Hok HS). by apply quiescent_decided.
  - intros sched s. unfold mapWithConcurrency. fold s. cbn [snd].
    destruct (run_decides w0 sched (length items) (init w0)) as [Hreach Hdec];
      [apply reachable_init|lia|].
    fold s in Hreach, Hdec.
    pose proof (reachable_Inv_step _ _ Hreach) as HS.
    destruct (quiescent_complete s Hok HS Hdec) as (_ & rs & Ho & _).
    exists rs. split; [done|].
    destruct (fulfilled_logged s rs HS Ho) as (Hcalls & Hperm & Hlen & Hrs).
    done.
Qed.

End MapWithConcurrency.


(** *** A bound that is any Number *)

Section AnyNumber.
Context {W T P R E : Type}.

(** [concurrency] is whatever Number the caller passes, and [RangeError]
    what [Array.from] throws when asked for an array of [2^32] slots or
    more. *)
Variable items : list T.
Variable concurrency : JsNumber.number.
Variable call : T → nat → W → W * P.
Variable settle : P → W → W * (R + E).
Variable RangeError : E.

(** The workers [Array.from({ length: Math.max(1, concurrency) }, ...)]
    makes, none when it throws. *)
Definition workers_made : option nat :=
  JsNumber.array_length (JsNumber.max (JsNumber.of_Z 1) concurrency).

(** The state when the call reaches [await Promise.all], or when
    [Array.from] has thrown out of it: the promise of the async function
    is then rejected, no worker having been made. *)
Definition init_any (w0 : W) : state (W:=W) (P:=P) (R:=R) (E:=E) :=
  match workers_made with
  | Some n => fulfil_all (Nat.iter n (spawn items call) (start items w0))
  | None => reject_all RangeError (start items w0)
  end.

(** What the caller gets under a scheduler. *)
Definition mapWithConcurrency_any (sched : nat → nat) (w0 : W) :
    W * option (settlement (R:=R) (E:=E)) :=
  let s := run items call settle (length items) sched (init_any w0) in
  (world s, outcome s).

(** The mapper is called once per index and the call returns an array of
    [items.length] results, none missing, whatever the order of the
    completions. *)
Definition invoked_once_and_returns (w0 : W) : Prop :=
  ∀ trace s, exec items call settle trace (init_any w0) = Some s →
    quiescent s →
    calls s = seq 0 (length items) ∧
    ∃ rs, outcome s = Some (Fulfilled rs) ∧ length rs = length items ∧
          ∀ i, i < length items → ∃ v, rs !! i = Some (Some v).

(** The call returns what mapping the items one after the other
    returns. *)
Definition returns_as_sequentially (w0 : W) : Prop :=
  ∀ sched, ∃ vs,
    (map_sequentially items call settle w0).2 = inl vs ∧
    (mapWithConcurrency_any sched w0).2 = Some (Fulfilled (Some <$> vs)).

Lemma workers_made_NaN : concurrency = JsNumber.NaN → workers_made = Some 0.
Proof. unfold workers_made. by intros ->. Qed.

Lemma workers_made_pos n :
  concurrency ≠ JsNumber.NaN → workers_made = Some n → 1 ≤ n.
Proof.
  unfold workers_made, JsNumber.array_length, JsNumber.max, JsNumber.of_Z, JsNumber.leb.
  destruct concurrency as [| | |k d]; [done| | |]; intros _.
  - done.
  - by intros [= <-].
  - destruct (Z.leb_spec (1 * Z.pos d) (k * 1)) as [Hle|Hlt]; [|by intros [= <-]].
    unfold JsNumber.ToLength.
    assert (1 ≤ k ÷ Z.pos d)%Z.
    { rewrite Z.quot_div_nonneg by lia. apply Z.div_le_lower_bound; lia. }
    destruct (decide _); [|done]. intros [= <-]. lia.
Qed.

Lemma workers_made_one :
  JsNumber.leb concurrency (JsNumber.of_Z 1) = true → workers_made = Some 1.
Proof.
  unfold workers_made, JsNumber.array_length, JsNumber.max, JsNumber.of_Z.
  destruct concurrency as [| | |k d]; [done|done|done|].
  unfold JsNumber.leb. intros Hle. apply Z.leb_le in Hle.
  destruct (Z.leb_spec (1 * Z.pos d) (k * 1)) as [Hge|Hlt]; [|done].
  assert (k = Z.pos d) as -> by lia.
  unfold JsNumber.ToLength. by rewrite Z.quot_same by lia.
Qed.

(** For an integer bound below [2^32] the workers made are those of the
    section above. *)
Lemma workers_made_of_Z (k : Z) :
  concurrency = JsNumber.of_Z k → (k < 2 ^ 32)%Z →
  workers_made = Some (worker_count k).
Proof.
  intros HK Hk. unfold workers_made, worker_count. rewrite HK, JsNumber.max_of_Z.
  pose proof (JsNumber.array_length_of_Z (Z.max 1 k)) as Hlen.
  rewrite JsNumber.max_of_Z in Hlen.
  replace (Z.max 1 (Z.max 1 k)) with (Z.max 1 k) in Hlen by lia.
  apply Hlen. lia.
Qed.

Lemma init_any_of_Z (k : Z) w0 :
  concurrency = JsNumber.of_Z k → (k < 2 ^ 32)%Z →
  init_any w0 = init items k call w0.
Proof. intros HK Hk. unfold init_any. by rewrite (workers_made_of_Z k). Qed.

Lemma mapWithConcurrency_any_of_Z (k : Z) sched w0 :
  concurrency = JsNumber.of_Z k → (k < 2 ^ 32)%Z →
  mapWithConcurrency_any sched w0 = mapWithConcurrency items k call settle sched w0.
Proof.
  intros HK Hk. unfold mapWithConcurrency_any, mapWithConcurrency.
  by rewrite (init_any_of_Z k).
Qed.

Lemma init_any_workers n w0 :
  workers_made = Some n → 1 ≤ n → init_any w0 = init items (Z.of_nat n) call w0.
Proof.
  intros Hn Hpos. unfold init_any, init, worker_count. rewrite Hn.
  by replace (Z.to_nat (Z.max 1 (Z.of_nat n))) with n by lia.
Qed.

(** With no worker made nothing is ever started: the call stays as it
    is, settled from the start. *)
Lemma init_any_idle w0 :
  workers_made = Some 0 ∨ workers_made = None →
  workers (init_any w0) = [] ∧ calls (init_any w0) = [] ∧
  settled (init_any w0) = [] ∧ oob (init_any w0) = false ∧
  results (init_any w0) = replicate (length items) None ∧
  world (init_any w0) = w0 ∧
  outcome (init_any w0) =
    Some (match workers_made with
          | Some _ => Fulfilled (replicate (length items) None)
          | None => Rejected RangeError
          end).
Proof. unfold init_any. by intros [->| ->]. Qed.

Lemma exec_idle trace (s s' : state (W:=W) (P:=P) (R:=R) (E:=E)) :
  workers s = [] → exec items call settle trace s = Some s' → trace = [] ∧ s' = s.
Proof.
  intros Hws. destruct trace as [|w trace]; simpl; [by intros [= <-]|].
  unfold resume. by rewrite Hws.
Qed.

Lemma workers_made_cases :
  (∃ n, workers_made = Some n ∧ 1 ≤ n ∧ concurrency ≠ JsNumber.NaN) ∨
  (workers_made = Some 0 ∧ concurrency = JsNumber.NaN) ∨
  (workers_made = None ∧ concurrency ≠ JsNumber.NaN).
Proof.
  assert (concurrency = JsNumber.NaN ∨ concurrency ≠ JsNumber.NaN) as [HN|HN]
    by (destruct concurrency; eauto).
  - right. left. split; [by apply workers_made_NaN|done].
  - destruct workers_made as [n|] eqn:Hn.
    + left. exists n. split; [done|]. split; [by apply workers_made_pos|done].
    + right. right. done.
Qed.

Lemma workers_made_below :
  JsNumber.ltb concurrency (JsNumber.of_Z (2 ^ 32)) = true →
  ∃ n, workers_made = Some n ∧ 1 ≤ n.
Proof.
  intros Hlt. destruct workers_made_cases as [(n & Hn & Hpos & _)|[[_ HN]|[Hnone _]]].
  - eauto.
  - by rewrite HN in Hlt.
  - exfalso. revert Hlt Hnone.
    unfold workers_made, JsNumber.array_length, JsNumber.max, JsNumber.of_Z,
      JsNumber.ltb, JsNumber.leb.
    destruct concurrency as [| | |k d]; [done|done|done|].
    intros Hlt. apply negb_true_iff, Z.leb_gt in Hlt.
    destruct (Z.leb_spec (1 * Z.pos d) (k * 1)) as [Hle|Hlt']; [|done].
    unfold JsNumber.ToLength.
    assert (k ÷ Z.pos d < 2 ^ 32)%Z.
    { rewrite Z.quot_div_nonneg by lia. apply Z.div_lt_upper_bound; lia. }
    rewrite decide_True; [done|]. lia.
Qed.

Lemma mapWithConcurrency_any_workers n sched w0 :
  workers_made = Some n → 1 ≤ n →
  mapWithConcurrency_any sched w0 =
  mapWithConcurrency items (Z.of_nat n) call settle sched w0.
Proof.
  intros Hn Hpos. unfold mapWithConcurrency_any, mapWithConcurrency.
  by rewrite (init_any_workers n).
Qed.

Lemma mapWithConcurrency_any_idle sched w0 :
  workers_made = Some 0 ∨ workers_made = None →
  mapWithConcurrency_any sched w0 =
  (w0, Some (match workers_made with
             | Some _ => Fulfilled (replicate (length items) None)
             | None => Rejected RangeError
             end)).
Proof.
  intros Hidle. destruct (init_any_idle w0 Hidle) as (_ & _ & _ & _ & _ & Hw & Ho).
  unfold mapWithConcurrency_any.
  rewrite (run_decided items call settle) by (rewrite Ho; eauto).
  by rewrite Hw, Ho.
Qed.

Lemma any_settles sched w0 : is_Some (mapWithConcurrency_any sched w0).2.
Proof.
  destruct workers_made_cases as [(n & Hn & Hpos & _)|[[Hzero _]|[Hnone _]]].
  - rewrite (mapWithConcurrency_any_workers n) by done. apply settles.
  - rewrite mapWithConcurrency_any_idle by eauto. simpl. eauto.
  - rewrite mapWithConcurrency_any_idle by eauto. simpl. eauto.
Qed.

Lemma any_safe_steps w0 trace s :
  exec items call settle trace (init_any w0) = Some s →
  length trace ≤ length items ∧ oob s = false ∧
  length (results s) = length items ∧
  NoDup (calls s) ∧ (∀ i, i ∈ calls s → i < length items) ∧
  (∀ w, w ∈ awaiting_workers s → is_Some (resume items call settle w s)).
Proof.
  assert (Hidle : workers_made = Some 0 ∨ workers_made = None →
    exec items call settle trace (init_any w0) = Some s →
    length trace ≤ length items ∧ oob s = false ∧
    length (results s) = length items ∧
    NoDup (calls s) ∧ (∀ i, i ∈ calls s → i < length items) ∧
    (∀ w, w ∈ awaiting_workers s → is_Some (resume items call settle w s))).
  { intros Hcase Hexec.
    destruct (init_any_idle w0 Hcase) as (Hws & Hcalls & _ & Hoob & Hres & _).
    destruct (exec_idle _ _ _ Hws Hexec) as [-> ->].
    split; [simpl; lia|]. split; [done|]. split; [by rewrite Hres, length_replicate|].
    rewrite Hcalls. split; [apply NoDup_nil_2|]. split.
    - intros i Hi. inversion Hi.
    - intros w. apply resume_awaiting. }
  destruct workers_made_cases as [(n & Hn & Hpos & _)|[[Hzero _]|[Hnone _]]]; [|eauto..].
  rewrite (init_any_workers n) by done. apply safe_steps.
Qed.

(** The operations in flight while none has failed. *)
Lemma any_busy_workers w0 trace s :
  exec items call settle trace (init_any w0) = Some s →
  first_failure (settled s) = None →
  in_flight s = default 0 workers_made `min` (length items - length (settled s)) ∧
  in_flight (init_any w0) = default 0 workers_made `min` length items.
Proof.
  assert (Hidle : workers_made = Some 0 ∨ workers_made = None →
    exec items call settle trace (init_any w0) = Some s →
    in_flight s = 0 ∧ in_flight (init_any w0) = 0 ∧ default 0 workers_made = 0).
  { intros Hcase Hexec.
    destruct (init_any_idle w0 Hcase) as (Hws & Hcalls & Hset & _).
    destruct (exec_idle _ _ _ Hws Hexec) as [-> ->].
    unfold in_flight. rewrite Hcalls, Hset. by destruct Hcase as [->| ->]. }
  intros Hexec Hff.
  destruct workers_made_cases as [(n & Hn & Hpos & _)|[[Hzero _]|[Hnone _]]].
  - rewrite Hn. simpl. rewrite (init_any_workers n) in * by done.
    pose proof (busy_workers items (Z.of_nat n) call settle w0 trace s Hexec Hff) as Hb.
    unfold worker_count in Hb.
    by replace (Z.to_nat (Z.max 1 (Z.of_nat n))) with n in Hb by lia.
  - destruct Hidle as (-> & -> & ->); [eauto|done|]. by rewrite !Nat.min_0_l.
  - destruct Hidle as (-> & -> & ->); [eauto|done|]. by rewrite !Nat.min_0_l.
Qed.

End AnyNumber.

(** The error standing for the [RangeError] in the runs below. *)
Definition demo_RangeError : nat := 0.

(** C9, as stated, fails in three ways.  With a bound of zero and a
    mapper that rejects at index 0 the only worker ends there: the mapper
    is never called with index 1 and the call is rejected.  With a bound
    of [NaN] and a mapper that never fails no worker is made: the mapper
    is never called and the call returns an array of three empty slots.
    With a bound of [2^32] [Array.from] throws and the call is rejected
    with the [RangeError].  *)
Lemma mapWithConcurrency_not_total :
  ¬ invoked_once_and_returns [1; 2] (JsNumber.of_Z 0) demo_call failing_settle
      demo_RangeError () ∧
  (∀ x i w1 w2, ∃ v, (demo_settle (demo_call x i w1).2 w2).2 = inl v) ∧
  ¬ invoked_once_and_returns [1; 2; 3] JsNumber.NaN demo_call demo_settle
      demo_RangeError () ∧
  calls (init_any (R:=nat) [1; 2; 3] JsNumber.NaN demo_call demo_RangeError ()) = [] ∧
  (∀ sched, mapWithConcurrency_any [1; 2; 3] JsNumber.NaN demo_call demo_settle
              demo_RangeError sched () = ((), Some (Fulfilled [None; None; None]))) ∧
  ¬ invoked_once_and_returns [1; 2; 3] (JsNumber.of_Z (2 ^ 32)) demo_call demo_settle
      demo_RangeError () ∧
  (∀ sched, mapWithConcurrency_any [1; 2; 3] (JsNumber.of_Z (2 ^ 32)) demo_call
              demo_settle demo_RangeError sched () = ((), Some (Rejected demo_RangeError))).
Proof.
  split; [|split; [|split; [|split; [|split; [|split]]]]].
  - intros Htotal.
    destruct (Htotal [0]
      (State () 1 [None; None] [Thrown 7] (Some (Rejected 7)) [0] [(0, inr 7)] false)
      eq_refl eq_refl) as [Hcalls _].
    discriminate Hcalls.
  - intros. eexists. reflexivity.
  - intros Htotal. destruct (Htotal [] _ eq_refl eq_refl) as [Hcalls _].
    discriminate Hcalls.
  - reflexivity.
  - intros sched. reflexivity.
  - intros Htotal. destruct (Htotal [] _ eq_refl eq_refl) as [Hcalls _].
    discriminate Hcalls.
  - intros sched. reflexivity.
Qed.

(** C9, amended.  For a bound that is a number below [2^32], whole or
    not, and every list and mapper: a bound of one or less, zero and the
    negative numbers among them, acts as a bound of one; the call
    settles under every scheduler, and whatever the order of the
    completions it takes at most [items.length] of them, never reads
    [items] or writes [results] outside their bounds, calls the mapper
    with no index twice, and never blocks; when no application of the
    mapper fails, it calls the mapper once per index and returns an
    array of [items.length] results, none of them missing. *)
Theorem mapWithConcurrency_total {W T P R E : Type} (items : list T)
    (K : JsNumber.number) (call : T → nat → W → W * P) (settle : P → W → W * (R + E))
    (RangeError : E) (w0 : W) :
  JsNumber.ltb K (JsNumber.of_Z (2 ^ 32)) = true →
  (JsNumber.leb K (JsNumber.of_Z 1) = true →
     init_any items K call RangeError w0 =
       init_any (R:=R) items (JsNumber.of_Z 1) call RangeError w0 ∧
     ∀ sched, mapWithConcurrency_any items K call settle RangeError sched w0 =
              mapWithConcurrency_any items (JsNumber.of_Z 1) call settle RangeError sched w0) ∧
  (∃ workers, workers_made K = Some workers ∧ 1 ≤ workers) ∧
  (∀ sched, is_Some (mapWithConcurrency_any items K call settle RangeError sched w0).2) ∧
  (∀ trace s, exec items call settle trace (init_any items K call RangeError w0) = Some s →
     length trace ≤ length items ∧ oob s = false ∧
     length (results s) = length items ∧
     NoDup (calls s) ∧ (∀ i, i ∈ calls s → i < length items) ∧
     (∀ w, w ∈ awaiting_workers s → is_Some (resume items call settle w s))) ∧
  ((∀ i x, items !! i = Some x →
      ∀ w1 w2, ∃ v, (settle (call x i w1).2 w2).2 = inl v) →
   invoked_once_and_returns items K call settle RangeError w0 ∧
   ∀ sched, ∃ rs,
     (mapWithConcurrency_any items K call settle RangeError sched w0).2 =
       Some (Fulfilled rs) ∧
     length rs = length items ∧ ∀ i, i < length items → ∃ v, rs !! i = Some (Some v)).
Proof.
  intros HK. destruct (workers_made_below K HK) as (n & Hn & Hpos).
  split; [|split; [|split; [|split]]].
  - intros Hone.
    assert (Hinit : init_any items K call RangeError w0 =
                    init_any (R:=R) items (JsNumber.of_Z 1) call RangeError w0).
    { unfold init_any. by rewrite (workers_made_one K Hone). }
    split; [done|]. intros sched. unfold mapWithConcurrency_any. by rewrite Hinit.
  - eauto.
  - intros sched. apply any_settles.
  - intros trace s. apply any_safe_steps.
  - intros Hok.
    destruct (complete_without_failure items (Z.of_nat n) call settle w0 Hok)
      as [Hquiet Hrun].
    split.
    + intros trace s. rewrite (init_any_workers items K call RangeError n) by done.
      apply Hquiet.
    + intros sched.
      rewrite (mapWithConcurrency_any_workers items K call settle RangeError n) by done.
      destruct (Hrun sched) as (rs & Ho & Hlen & _ & _ & Hrs).
      exists rs. split; [done|]. split; [done|]. intros i Hi.
      destruct (lookup_lt_is_Some_2 items i Hi) as [x Hx].
      destruct (Hrs i x Hx) as (v & _ & _ & Hv & _). eauto.
Qed.

(** C1, as stated, fails in two ways.  The counting mapper never fails,
    yet three workers whose operations complete in the order 1, 2, 0
    return [2; 0; 1] where mapping the items one after the other returns
    [0; 1; 2].  And with a bound of [2^32] the call is rejected with the
    [RangeError], whatever the mapper. *)
Lemma mapWithConcurrency_order_not_sequential :
  (∀ x i w1 w2, ∃ v, (counting_settle (counting_call x i w1).2 w2).2 = inl v) ∧
  (map_sequentially [1; 2; 3] counting_call counting_settle 0).2 = inl [0; 1; 2] ∧
  (mapWithConcurrency_any [1; 2; 3] (JsNumber.of_Z 3) counting_call counting_settle
     demo_RangeError (λ k, match k with 0 | 1 => 1 | _ => 0 end) 0).2 =
    Some (Fulfilled [Some 2; Some 0; Some 1]) ∧
  ¬ returns_as_sequentially [1; 2; 3] (JsNumber.of_Z 3) counting_call counting_settle
      demo_RangeError 0 ∧
  ¬ returns_as_sequentially [1; 2; 3] (JsNumber.of_Z (2 ^ 32)) demo_call demo_settle
      demo_RangeError ().
Proof.
  split; [intros; eexists; reflexivity|]. split; [reflexivity|]. split; [reflexivity|].
  split.
  - intros Hseq.
    destruct (Hseq (λ k, match k with 0 | 1 => 1 | _ => 0 end)) as (vs & Hvs & Hrun).
    vm_compute in Hvs. injection Hvs as <-. vm_compute in Hrun. congruence.
  - intros Hseq. destruct (Hseq (λ _, 0)) as (vs & _ & Hrun).
    vm_compute in Hrun. congruence.
Qed.

(** C1, amended.  For a bound of at least one and below [2^32] and a
    mapper none of whose applications fails, a call returns under every
    scheduler an array of [items.length] results in input order: the
    mapper has been called once with every index, every operation has
    completed once, and the slot of an index holds the result with which
    the operation for that item and index completed.  When the mapper's
    result is moreover a function [f] of the item and its index, that
    array is the list that mapping the items one after the other gives;
    whatever the order of the completions, there are at most
    [items.length] of them, a suspended operation can always complete,
    and the call settles with no other value. *)
Theorem mapWithConcurrency_order_preserved {W T P R E : Type} (items : list T)
    (K : JsNumber.number) (call : T → nat → W → W * P) (settle : P → W → W * (R + E))
    (RangeError : E) (w0 : W) :
  JsNumber.leb (JsNumber.of_Z 1) K = true →
  JsNumber.ltb K (JsNumber.of_Z (2 ^ 32)) = true →
  (∀ i x, items !! i = Some x →
     ∀ w1 w2, ∃ v, (settle (call x i w1).2 w2).2 = inl v) →
  (∀ sched,
     let s := run items call settle (length items) sched
                (init_any items K call RangeError w0) in
     ∃ rs, (mapWithConcurrency_any items K call settle RangeError sched w0).2 =
             Some (Fulfilled rs) ∧
           length rs = length items ∧
           calls s = seq 0 (length items) ∧
           (settled s).*1 ≡ₚ seq 0 (length items) ∧
           ∀ i x, items !! i = Some x →
             ∃ v w1 w2, rs !! i = Some (Some v) ∧
                        (settle (call x i w1).2 w2).2 = inl v ∧
                        ∀ r, (i, r) ∈ settled s ↔ r = inl v) ∧
  (∀ f : T → nat → R,
     (∀ i x, items !! i = Some x →
        ∀ w1 w2, (settle (call x i w1).2 w2).2 = inl (f x i)) →
     let expected := imap (λ i x, f x i) items in
     length expected = length items ∧
     (map_sequentially items call settle w0).2 = inl expected ∧
     returns_as_sequentially items K call settle RangeError w0 ∧
     (∀ sched, (mapWithConcurrency_any items K call settle RangeError sched w0).2 =
               Some (Fulfilled (Some <$> expected))) ∧
     (∀ trace s,
        exec items call settle trace (init_any items K call RangeError w0) = Some s →
        length trace ≤ length items ∧
        (∀ w, w ∈ awaiting_workers s → is_Some (resume items call settle w s)) ∧
        (quiescent s → outcome s = Some (Fulfilled (Some <$> expected))) ∧
        (∀ o, outcome s = Some o → o = Fulfilled (Some <$> expected)))).
Proof.
  intros _ HK Hok. destruct (workers_made_below K HK) as (n & Hn & Hpos).
  pose proof (init_any_workers (R:=R) items K call RangeError n w0 Hn Hpos) as Hinit.
  pose proof (λ sched, mapWithConcurrency_any_workers items K call settle RangeError
                         n sched w0 Hn Hpos) as Hmap.
  split.
  - intros sched. cbv zeta. rewrite Hinit, Hmap.
    apply (complete_without_failure items (Z.of_nat n) call settle w0 Hok).
  - intros f Hf expected.
    destruct (pure_mapper_in_order items (Z.of_nat n) call settle f w0 Hf)
      as (Hlen & Hseq & Hrun & Htrace).
    split; [done|]. split; [done|]. split; [|split].
    + intros sched. exists expected. split; [done|]. rewrite Hmap. apply Hrun.
    + intros sched. rewrite Hmap. apply Hrun.
    + rewrite Hinit. apply Htrace.
Qed.

(** X10.  While no operation has failed, the executor is never idle with
    work left: the operations in flight number the workers made, or the
    items not yet completed when those are fewer.  At the start, before
    any completion, that is the smaller of the number of workers and the
    number of items.  The workers made are as many as the integer part of
    [Math.max(1, concurrency)]; none is made when that is [NaN], or when
    [Array.from] throws, and then nothing is ever in flight. *)
Theorem mapWithConcurrency_keeps_workers_busy {W T P R E : Type} (items : list T)
    (K : JsNumber.number) (call : T → nat → W → W * P) (settle : P → W → W * (R + E))
    (RangeError : E) (w0 : W) (trace : list nat) (s : state) :
  exec items call settle trace (init_any items K call RangeError w0) = Some s →
  first_failure (settled s) = None →
  let made := default 0 (workers_made K) in
  in_flight s = made `min` (length items - length (settled s)) ∧
  in_flight (init_any (R:=R) items K call RangeError w0) = made `min` length items ∧
  (K = JsNumber.NaN → made = 0) ∧
  (JsNumber.leb K (JsNumber.of_Z 1) = true → made = 1) ∧
  (∀ k, (1 ≤ k < 2 ^ 32)%Z → K = JsNumber.of_Z k → made = Z.to_nat k).
Proof.
  intros Hexec Hff made.
  destruct (any_busy_workers items K call settle RangeError w0 trace s Hexec Hff)
    as [Hs Hinit].
  split; [done|]. split; [done|]. subst made. split; [|split].
  - by intros ->.
  - intros HK. by rewrite (workers_made_one K HK).
  - intros k Hk ->. unfold workers_made. by rewrite JsNumber.array_length_of_Z.
Qed.

Lemma mapWithConcurrency_order_preserved_witness :
  JsNumber.leb (JsNumber.of_Z 1) (JsNumber.of_Z 2) = true ∧
  JsNumber.ltb (JsNumber.of_Z 2) (JsNumber.of_Z (2 ^ 32)) = true ∧
  (∀ sched, (mapWithConcurrency_any [1; 2; 3; 4; 5] (JsNumber.of_Z 2) demo_call
               demo_settle demo_RangeError sched ()).2 =
            Some (Fulfilled [Some 10; Some 21; Some 32; Some 43; Some 54])).
Proof.
  split; [reflexivity|]. split; [reflexivity|].
  pose proof (mapWithConcurrency_order_preserved [1; 2; 3; 4; 5] (JsNumber.of_Z 2)
                demo_call demo_settle demo_RangeError ()) as H.
  destruct H as (_ & H); [reflexivity|reflexivity|intros; eexists; reflexivity|].
  destruct (H (λ x i, x * 10 + i)) as (_ & _ & _ & Hrun & _); [intros; reflexivity|].
  exact Hrun.
Defined.

Lemma mapWithConcurrency_first_failure_witness :
  ∃ s, exec [1; 2; 3; 4; 5] demo_call failing_settle [0; 1; 1]
            (init [1; 2; 3; 4; 5] 2 demo_call ()) = Some s ∧
       settled s = [(0, inr 7); (1, inl 21); (2, inl 32)] ∧
       outcome s = Some (Rejected 7).
Proof.
  eexists. split; [vm_compute; reflexivity|]. split; [reflexivity|].
  refine (proj1 (proj1 (mapWithConcurrency_first_failure [1; 2; 3; 4; 5] 2 demo_call
            failing_settle () [0; 1; 1] _ _) 7) _); [vm_compute|]; reflexivity.
Defined.

Lemma mapWithConcurrency_in_flight_bounded_witness :
  (1 ≤ 2)%Z ∧
  ∃ s, exec [1; 2; 3; 4; 5] demo_call demo_settle [1; 0; 0]
            (init [1; 2; 3; 4; 5] 2 demo_call ()) = Some s ∧
       (Z.of_nat (in_flight s) ≤ 2)%Z.
Proof.
  split; [lia|]. eexists. split; [vm_compute; reflexivity|].
  refine (proj1 (mapWithConcurrency_in_flight_bounded [1; 2; 3; 4; 5] 2 demo_call
            demo_settle () [1; 0; 0] _ _ _)); [lia|vm_compute; reflexivity].
Defined.

Lemma mapWithConcurrency_total_witness :
  JsNumber.ltb (JsNumber.of_Z (-4)) (JsNumber.of_Z (2 ^ 32)) = true ∧
  (∀ i x, [1; 2; 3] !! i = Some x →
     ∀ w1 w2, ∃ v, (demo_settle (demo_call x i w1).2 w2).2 = inl v) ∧
  invoked_once_and_returns [1; 2; 3] (JsNumber.of_Z (-4)) demo_call demo_settle
    demo_RangeError ().
Proof.
  assert (Hok : ∀ i x, [1; 2; 3] !! i = Some x →
     ∀ w1 w2, ∃ v, (demo_settle (demo_call x i w1).2 w2).2 = inl v).
  { intros. eexists. reflexivity. }
  split; [reflexivity|]. split; [exact Hok|].
  exact (proj1 (proj2 (proj2 (proj2 (proj2
    (mapWithConcurrency_total [1; 2; 3] (JsNumber.of_Z (-4)) demo_call demo_settle
       demo_RangeError () eq_refl)))) Hok)).
Defined.

Lemma mapWithConcurrency_keeps_workers_busy_witness :
  ∃ s, exec [1; 2; 3; 4; 5] demo_call demo_settle [1; 0; 0]
            (init_any [1; 2; 3; 4; 5] (JsNumber.of_Z 2) demo_call demo_RangeError ())
       = Some s ∧
       first_failure (settled s) = None ∧
       in_flight s = 2.
Proof.
  eexists. split; [vm_compute; reflexivity|]. split; [reflexivity|].
  refine (proj1 (mapWithConcurrency_keeps_workers_busy [1; 2; 3; 4; 5] (JsNumber.of_Z 2)
            demo_call demo_settle demo_RangeError () [1; 0; 0] _ _ _));
    [vm_compute|]; reflexivity.
Defined.

Lemma mapWithConcurrency_failure_does_not_stop_dispatch_witness :
  ∃ s, exec [1; 2; 3; 4; 5] demo_call failing_settle [0; 1; 1; 1; 1]
            (init [1; 2; 3; 4; 5] 2 demo_call ()) = Some s ∧
       quiescent s ∧
       length (failures (settled s)) < worker_count 2 ∧
       outcome s = Some (Rejected 7) ∧
       calls s = [0; 1; 2; 3; 4].
Proof.
  eexists. split; [vm_compute; reflexivity|]. split; [reflexivity|].
  split; [vm_compute; lia|]. split; [reflexivity|].
  refine (proj1 (mapWithConcurrency_failure_does_not_stop_dispatch [1; 2; 3; 4; 5] 2
            demo_call failing_settle () [0; 1; 1; 1; 1] _ _ _ _));
    [vm_compute; reflexivity|reflexivity|vm_compute; lia].
Defined.

Lemma mapWithConcurrency_sequential_witness :
  (0 ≤ 1)%Z ∧
  ∀ sched, mapWithConcurrency [1; 2; 3] 0 demo_call failing_settle sched () =
           ((), Some (Rejected 7)).
Proof.
  split; [lia|]. intros sched.
  exact (mapWithConcurrency_sequential [1; 2; 3] 0 demo_call failing_settle sched ()
           ltac:(lia)).
Defined.

End Executor.

(** ** JavaScript strings *)

(** A string is its sequence of UTF-16 code units. *)
Module JsString.

(** A literal of the source, written in ASCII. *)
Definition lit (s : string) : list N :=
  (λ a, N_of_ascii a) <$> list_ascii_of_string s.

(** The line feed of the ["\n"] escapes. *)
Definition LF : list N := [10%N].

(** White space and line terminators, the code units [trim] strips. *)
Definition is_white_space (c : N) : bool :=
  bool_decide (c ∈ [9; 10; 11; 12; 13; 32; 160; 5760; 8192; 8193; 8194; 8195;
                    8196; 8197; 8198; 8199; 8200; 8201; 8202; 8232; 8233;
                    8239; 8287; 12288; 65279]%N).

Fixpoint trimStart (s : list N) : list N :=
  match s with
  | [] => []
  | c :: s' => if is_white_space c then trimStart s' else s
  end.

Fixpoint trimEnd (s : list N) : list N :=
  match s with
  | [] => []
  | c :: s' =>
      match trimEnd s' with
      | [] => if is_white_space c then [] else [c]
      | t => c :: t
      end
  end.

(** [s.trim()] *)
Definition trim (s : list N) : list N := trimStart (trimEnd s).

(** [Boolean(v)] for a value that is a string, [null] or [undefined]:
    only a string that is not empty is truthy. *)
Definition Boolean (v : option (list N)) : bool :=
  match v with Some (_ :: _) => true | _ => false end.

(** [a || b] *)
Definition or_else (a b : option (list N)) : option (list N) :=
  if Boolean a then a else b.

(** [a ?? b] *)
Definition nullish (a : option (list N)) (b : list N) : list N :=
  match a with Some s => s | None => b end.

(** [l.filter(Boolean)] *)
Definition filter_Boolean (l : list (option (list N))) : list (list N) :=
  omap (λ v, if Boolean v then v else None) l.

(** [l.join(sep)] *)
Fixpoint join (sep : list N) (l : list (list N)) : list N :=
  match l with
  | [] => []
  | [x] => x
  | x :: l' => x ++ sep ++ join sep l'
  end.

(** *** Facts about trimming and joining *)

Lemma trimEnd_cons_keep c s :
  is_white_space c = false → trimEnd (c :: s) = c :: trimEnd s.
Proof. intros Hc. simpl. rewrite Hc. by destruct (trimEnd s). Qed.

Lemma trimEnd_app_keep x c y :
  is_white_space c = false → trimEnd (x ++ c :: y) = x ++ c :: trimEnd y.
Proof.
  intros Hc. induction x as [|d x IH]; [by apply trimEnd_cons_keep|].
  simpl. rewrite IH. by destruct x.
Qed.

Lemma trimEnd_white l : forallb is_white_space l = true → trimEnd l = [].
Proof.
  induction l as [|c l IH]; [done|]. simpl.
  intros [Hc Hl]%andb_prop. by rewrite IH, Hc.
Qed.

Lemma trimEnd_app_white y l :
  forallb is_white_space l = true → trimEnd (y ++ l) = trimEnd y.
Proof.
  intros Hl. induction y as [|c y IH]; [by apply trimEnd_white|].
  simpl. by rewrite IH.
Qed.

Lemma trimEnd_idemp s : trimEnd (trimEnd s) = trimEnd s.
Proof.
  induction s as [|c s IH]; [done|]. simpl.
  destruct (trimEnd s) as [|d t] eqn:Ht.
  - destruct (is_white_space c) eqn:Hc; [done|]. simpl. by rewrite Hc.
  - change (trimEnd (c :: d :: t)) with
      (match trimEnd (d :: t) with
       | [] => if is_white_space c then [] else [c]
       | t' => c :: t'
       end).
    by rewrite IH.
Qed.

(** What [trimEnd] removes lies in the last part of a string, unless that
    part is white space throughout. *)
Lemma trimEnd_app x y :
  trimEnd (x ++ y) = match trimEnd y with [] => trimEnd x | t => x ++ t end.
Proof.
  induction x as [|c x IH]; [cbn [app]; by destruct (trimEnd y)|].
  cbn [app trimEnd]. rewrite IH.
  destruct (trimEnd y) as [|d t]; [done|]. by destruct x.
Qed.

Lemma trimStart_keep c s : is_white_space c = false → trimStart (c :: s) = c :: s.
Proof. intros Hc. simpl. by rewrite Hc. Qed.

Lemma join_cons sep x y l : join sep (x :: y :: l) = x ++ sep ++ join sep (y :: l).
Proof. done. Qed.

Lemma filter_Boolean_app l1 l2 :
  filter_Boolean (l1 ++ l2) = filter_Boolean l1 ++ filter_Boolean l2.
Proof. apply omap_app. Qed.

(** Where nothing is empty, [filter(Boolean)] removes nothing. *)
Lemma filter_Boolean_all (l : list (list N)) :
  Forall (λ x, x ≠ []) l → filter_Boolean (Some <$> l) = l.
Proof.
  induction 1 as [|x l Hx _ IH]; [done|].
  change (filter_Boolean (Some <$> x :: l)) with
    (match (if Boolean (Some x) then Some x else None) with
     | Some y => y :: filter_Boolean (Some <$> l)
     | None => filter_Boolean (Some <$> l)
     end).
  rewrite IH. by destruct x.
Qed.

End JsString.

(** ** The values passed between the stages *)

(** [ExtractedArticle] of [integrations/extractor.ts] *)
Module ExtractedArticle.
Inductive FetchMethod := httpx | browserless | playwright.
Record t := Build {
  text : list N;
  link : option (list N);
  link_text : option (list N);
  title : option (list N);
  fetched_content : option (list N);
  fetched_title : option (list N);
  fetched_url : option (list N);
  fetch_error : option (list N);
  fetch_method : option FetchMethod
}.
(** [{ text }] *)
Definition of_text (s : list N) : t :=
  Build s None None None None None None None None.
(** The same article with another [text]. *)
Definition with_text (s : list N) (a : t) : t :=
  Build s (link a) (link_text a) (title a) (fetched_content a) (fetched_title a)
        (fetched_url a) (fetch_error a) (fetch_method a).
End ExtractedArticle.

(** [ExtractedEmail] of [controllers/userController.ts] *)
Module ExtractedEmail.
Record t := Build {
  subject : option (list N);
  from : option (list N);
  date : option (list N);
  articles : list ExtractedArticle.t
}.
(** The same email with other [articles]. *)
Definition with_articles (l : list ExtractedArticle.t) (e : t) : t :=
  Build (subject e) (from e) (date e) l.
End ExtractedEmail.

(** ** Composing the podcast text: [buildPodcastInput] *)

Module Compose.
Import JsString.

(** The separators of the two [join]s. *)
Definition ARTICLE_SEPARATOR : list N := LF ++ LF ++ lit "---" ++ LF ++ LF.
Definition EMAIL_SEPARATOR : list N := LF ++ LF ++ lit "===" ++ LF ++ LF.

(** [article.fetched_content || article.text] *)
Definition article_content (a : ExtractedArticle.t) : option (list N) :=
  or_else (ExtractedArticle.fetched_content a) (Some (ExtractedArticle.text a)).

(** [article.fetched_title || article.title] *)
Definition article_title (a : ExtractedArticle.t) : option (list N) :=
  or_else (ExtractedArticle.fetched_title a) (ExtractedArticle.title a).

(** The callback of [email.articles.map]: [null] without content,
    otherwise the content under its heading, when it has a title. *)
Definition render_article (a : ExtractedArticle.t) : option (list N) :=
  let content := article_content a in
  let title := article_title a in
  if negb (Boolean content) then None
  else
    let text := nullish content [] in
    Some (if Boolean title
          then lit "### " ++ nullish title [] ++ LF ++ LF ++ text
          else text).

(** [`From: ... Subject: ... Date: ...`.trim()] *)
Definition header (email : ExtractedEmail.t) : list N :=
  trim (lit "From: " ++ nullish (ExtractedEmail.from email) [] ++
        LF ++ lit "Subject: " ++ nullish (ExtractedEmail.subject email) [] ++
        LF ++ lit "Date: " ++ nullish (ExtractedEmail.date email) []).

Definition articlesText (email : ExtractedEmail.t) : list N :=
  join ARTICLE_SEPARATOR
       (filter_Boolean (render_article <$> ExtractedEmail.articles email)).

(** The callback of [extractedEmails.map]. *)
Definition render_email (email : ExtractedEmail.t) : list N :=
  trim (header email ++ LF ++ LF ++ articlesText email).

Definition buildPodcastInput (extractedEmails : list ExtractedEmail.t) : list N :=
  join EMAIL_SEPARATOR
       (filter_Boolean ((λ email, Some (render_email email)) <$> extractedEmails)).

(** *** Facts about the rendered blocks *)

(** The header with its trimming carried out: only white space after
    the last label can go. *)
Lemma header_form email :
  header email =
  lit "From: " ++ nullish (ExtractedEmail.from email) [] ++
  LF ++ lit "Subject: " ++ nullish (ExtractedEmail.subject email) [] ++
  LF ++ lit "Date:" ++ trimEnd (32%N :: nullish (ExtractedEmail.date email) []).
Proof.
  unfold header, trim.
  set (f := nullish (ExtractedEmail.from email) []).
  set (sub := nullish (ExtractedEmail.subject email) []).
  set (d := nullish (ExtractedEmail.date email) []).
  replace (lit "From: " ++ f ++ LF ++ lit "Subject: " ++ sub ++ LF ++ lit "Date: " ++ d)
    with ((lit "From: " ++ f ++ LF ++ lit "Subject: " ++ sub ++ LF ++ lit "Date")
            ++ 58%N :: 32%N :: d)
    by (by rewrite <- !(assoc (++))).
  rewrite trimEnd_app_keep by done.
  rewrite <- !(assoc (++)). by apply trimStart_keep.
Qed.

Lemma header_trimmed email : ∃ h, header email = lit "From:" ++ h ∧ trimEnd (header email) = header email.
Proof.
  rewrite header_form.
  set (f := nullish (ExtractedEmail.from email) []).
  set (sub := nullish (ExtractedEmail.subject email) []).
  set (d := nullish (ExtractedEmail.date email) []).
  eexists. split; [reflexivity|].
  replace (lit "From: " ++ f ++ LF ++ lit "Subject: " ++ sub ++ LF ++ lit "Date:" ++ trimEnd (32%N :: d))
    with ((lit "From: " ++ f ++ LF ++ lit "Subject: " ++ sub ++ LF ++ lit "Date")
            ++ 58%N :: trimEnd (32%N :: d))
    by (by rewrite <- !(assoc (++))).
  rewrite trimEnd_app_keep by done. by rewrite trimEnd_idemp.
Qed.

(** A rendered article is never the empty string. *)
Lemma render_article_nonempty a t : render_article a = Some t → t ≠ [].
Proof.
  unfold render_article. destruct (article_content a) as [[|c cs]|]; simpl; try done.
  destruct (Boolean (article_title a)); by intros [= <-].
Qed.

Lemma filter_Boolean_render (l : list ExtractedArticle.t) :
  filter_Boolean (render_article <$> l) = omap render_article l.
Proof.
  induction l as [|a l IH]; [done|].
  change (filter_Boolean (render_article <$> a :: l)) with
    (match (if Boolean (render_article a) then render_article a else None) with
     | Some y => y :: filter_Boolean (render_article <$> l)
     | None => filter_Boolean (render_article <$> l)
     end).
  rewrite IH. simpl. destruct (render_article a) as [t|] eqn:Ha; [|done].
  apply render_article_nonempty in Ha. by destruct t.
Qed.

Lemma articlesText_join email :
  articlesText email = join ARTICLE_SEPARATOR (omap render_article (ExtractedEmail.articles email)).
Proof. unfold articlesText. by rewrite filter_Boolean_render. Qed.

(** Every rendered email starts with its header's first label. *)
Lemma render_email_form email :
  ∃ rest, render_email email = lit "From:" ++ rest.
Proof.
  unfold render_email, trim. destruct (header_trimmed email) as (h & -> & _).
  replace ((lit "From:" ++ h) ++ LF ++ LF ++ articlesText email)
    with ([70; 114; 111; 109]%N ++ 58%N :: (h ++ LF ++ LF ++ articlesText email))
    by (by rewrite <- !app_assoc).
  rewrite trimEnd_app_keep by done. eexists. by apply trimStart_keep.
Qed.

(** A rendered email is its header followed by the blank line and the
    article blocks, white space at the end removed. *)
Lemma render_email_split email :
  render_email email = header email ++ trimEnd (LF ++ LF ++ articlesText email).
Proof.
  unfold render_email, trim. rewrite trimEnd_app.
  destruct (header_trimmed email) as (h & Hh & Htrim).
  destruct (trimEnd (LF ++ LF ++ articlesText email)) as [|d t].
  - rewrite Htrim, app_nil_r, Hh. by apply trimStart_keep.
  - rewrite Hh. by apply trimStart_keep.
Qed.

Lemma render_email_nonempty email : render_email email ≠ [].
Proof. by destruct (render_email_form email) as [rest ->]. Qed.

Lemma buildPodcastInput_join emails :
  buildPodcastInput emails = join EMAIL_SEPARATOR (render_email <$> emails).
Proof.
  unfold buildPodcastInput. rewrite (list_fmap_compose render_email Some).
  rewrite filter_Boolean_all; [done|].
  apply Forall_fmap, Forall_forall. intros e _. apply render_email_nonempty.
Qed.

Lemma render_email_articles email email' :
  header email = header email' →
  omap render_article (ExtractedEmail.articles email) =
  omap render_article (ExtractedEmail.articles email') →
  render_email email = render_email email'.
Proof.
  intros Hh Ha. unfold render_email. by rewrite !articlesText_join, Hh, Ha.
Qed.

Lemma buildPodcastInput_replace emails1 email email' emails2 :
  render_email email = render_email email' →
  buildPodcastInput (emails1 ++ email :: emails2) =
  buildPodcastInput (emails1 ++ email' :: emails2).
Proof.
  intros He. rewrite !buildPodcastInput_join, !fmap_app, !fmap_cons. by rewrite He.
Qed.

(** Two emails to compose: the first has an article with fetched content
    and both titles, one with text only and one with nothing; the second
    has no header field and no article with content. *)
Definition sample_emails : list ExtractedEmail.t :=
  [ ExtractedEmail.Build (Some (lit "S")) (Some (lit "a@b")) None
      [ ExtractedArticle.Build (lit "snippet") None None (Some (lit "T"))
          (Some (lit "full")) (Some (lit "FT")) None None None;
        ExtractedArticle.of_text (lit "plain");
        ExtractedArticle.of_text [] ];
    ExtractedEmail.Build None None None [ExtractedArticle.of_text []] ].

Example buildPodcastInput_sample :
  buildPodcastInput sample_emails =
  lit "From: a@b" ++ LF ++ lit "Subject: S" ++ LF ++ lit "Date:" ++ LF ++ LF ++
  lit "### FT" ++ LF ++ LF ++ lit "full" ++
  LF ++ LF ++ lit "---" ++ LF ++ LF ++
  lit "plain" ++
  LF ++ LF ++ lit "===" ++ LF ++ LF ++
  lit "From: " ++ LF ++ lit "Subject: " ++ LF ++ lit "Date:".
Proof. vm_compute. reflexivity. Qed.

(** C8.  An article with fetched content is rendered from it, under the
    fetched title when there is one and the original title otherwise, and
    its original text plays no part in the composed text; an article with
    neither fetched content nor text is rendered as nothing, and the
    composed text is that of the emails without it; the article blocks of
    an email are joined by the line [---] between blank lines, the email
    blocks by the line [===].  The block of an email is its header, a
    blank line and its article blocks, white space at the end removed:
    the composed text of an email whose one article has fetched content
    is the header followed by that content under its heading. *)
Theorem buildPodcastInput_prefers_fetched_content :
  (∀ a c, ExtractedArticle.fetched_content a = Some c → c ≠ [] →
     render_article a =
       Some (match article_title a with
             | Some (t :: ts) => lit "### " ++ (t :: ts) ++ LF ++ LF ++ c
             | _ => c
             end) ∧
     ∀ text' emails1 email emails2 pre post,
       ExtractedEmail.articles email = pre ++ a :: post →
       buildPodcastInput (emails1 ++ email :: emails2) =
       buildPodcastInput
         (emails1 ++ ExtractedEmail.with_articles
                       (pre ++ ExtractedArticle.with_text text' a :: post) email
                  :: emails2)) ∧
  (∀ a, article_title a =
        if Boolean (ExtractedArticle.fetched_title a)
        then ExtractedArticle.fetched_title a else ExtractedArticle.title a) ∧
  (∀ a, Boolean (ExtractedArticle.fetched_content a) = false →
     ExtractedArticle.text a = [] →
     render_article a = None ∧
     ∀ emails1 email emails2 pre post,
       ExtractedEmail.articles email = pre ++ a :: post →
       buildPodcastInput (emails1 ++ email :: emails2) =
       buildPodcastInput
         (emails1 ++ ExtractedEmail.with_articles (pre ++ post) email :: emails2)) ∧
  (∀ email, articlesText email =
            join (LF ++ LF ++ lit "---" ++ LF ++ LF)
                 (omap render_article (ExtractedEmail.articles email))) ∧
  (∀ emails, buildPodcastInput emails =
             join (LF ++ LF ++ lit "===" ++ LF ++ LF) (render_email <$> emails)) ∧
  (∀ email, render_email email =
            header email ++
            trimEnd (LF ++ LF ++
                     join (LF ++ LF ++ lit "---" ++ LF ++ LF)
                          (omap render_article (ExtractedEmail.articles email)))) ∧
  (∀ email a c, ExtractedEmail.articles email = [a] →
     ExtractedArticle.fetched_content a = Some c → c ≠ [] →
     buildPodcastInput [email] =
     header email ++
     trimEnd (LF ++ LF ++
              match article_title a with
              | Some (t :: ts) => lit "### " ++ (t :: ts) ++ LF ++ LF ++ c
              | _ => c
              end)).
Proof.
  assert (Hfetched : ∀ a c, ExtractedArticle.fetched_content a = Some c → c ≠ [] →
    render_article a =
      Some (match article_title a with
            | Some (t :: ts) => lit "### " ++ (t :: ts) ++ LF ++ LF ++ c
            | _ => c
            end)).
  { intros a c Hc Hne. unfold render_article, article_content, or_else. rewrite Hc.
    destruct c as [|c0 cs]; [done|]. simpl.
    by destruct (article_title a) as [[|t ts]|]. }
  split; [|split; [|split; [|split; [|split; [|split]]]]];
    [| | | | |intros email; by rewrite render_email_split, articlesText_join
             |intros email a c Harts Hc Hne;
              rewrite buildPodcastInput_join; cbn [fmap list_fmap join];
              rewrite render_email_split, articlesText_join, Harts;
              cbn [omap list_omap]; by rewrite (Hfetched a c Hc Hne)].
  - intros a c Hc Hne.
    assert (Hr : ∀ a', ExtractedArticle.fetched_content a' = Some c →
      render_article a' =
        Some (match article_title a' with
              | Some (t :: ts) => lit "### " ++ (t :: ts) ++ LF ++ LF ++ c
              | _ => c
              end)).
    { intros a' Hc'. unfold render_article, article_content, or_else. rewrite Hc'.
      destruct c as [|c0 cs]; [done|]. simpl.
      by destruct (article_title a') as [[|t ts]|]. }
    split; [by apply Hr|].
    intros text' emails1 email emails2 pre post Harts.
    apply buildPodcastInput_replace, render_email_articles; [done|].
    simpl. rewrite Harts, !omap_app. simpl.
    by rewrite (Hr a Hc), (Hr (ExtractedArticle.with_text text' a) Hc).
  - done.
  - intros a Hfc Ht.
    assert (Hr : render_article a = None).
    { unfold render_article, article_content, or_else. by rewrite Hfc, Ht. }
    split; [done|].
    intros emails1 email emails2 pre post Harts.
    apply buildPodcastInput_replace, render_email_articles; [done|].
    simpl. rewrite Harts, !omap_app. simpl. by rewrite Hr.
  - apply articlesText_join.
  - apply buildPodcastInput_join.
Qed.

Lemma buildPodcastInput_prefers_fetched_content_witness :
  let a := ExtractedArticle.Build (lit "snippet") None None (Some (lit "T"))
             (Some (lit "full")) (Some (lit "FT")) None None None in
  let email := ExtractedEmail.Build (Some (lit "S")) (Some (lit "a@b")) None [a] in
  render_article a = Some (lit "### FT" ++ LF ++ LF ++ lit "full") ∧
  buildPodcastInput [email] =
  lit "From: a@b" ++ LF ++ lit "Subject: S" ++ LF ++ lit "Date:" ++ LF ++ LF ++
  lit "### FT" ++ LF ++ LF ++ lit "full".
Proof.
  intros a email.
  destruct buildPodcastInput_prefers_fetched_content
    as (Hrender & _ & _ & _ & _ & _ & Hone).
  split.
  - exact (proj1 (Hrender a (lit "full") eq_refl ltac:(discriminate))).
  - exact (Hone email a (lit "full") eq_refl eq_refl ltac:(discriminate)).
Defined.

(** C10.  The trimmed header keeps its three labels whatever the fields
    are, so every rendered email starts with [From:] and is not empty;
    [filter(Boolean)] then drops no email, the composed text has one
    block per email, and an email none of whose articles has content is
    rendered as its header alone. *)
Theorem buildPodcastInput_keeps_every_email (emails : list ExtractedEmail.t) :
  (∀ email, header email =
            lit "From: " ++ nullish (ExtractedEmail.from email) [] ++
            LF ++ lit "Subject: " ++ nullish (ExtractedEmail.subject email) [] ++
            LF ++ lit "Date:" ++
            trimEnd (32%N :: nullish (ExtractedEmail.date email) [])) ∧
  (∀ email, ∃ rest, render_email email = lit "From:" ++ rest) ∧
  filter_Boolean ((λ email, Some (render_email email)) <$> emails) =
    render_email <$> emails ∧
  buildPodcastInput emails = join EMAIL_SEPARATOR (render_email <$> emails) ∧
  (∀ email, omap render_article (ExtractedEmail.articles email) = [] →
            render_email email = header email).
Proof.
  split; [apply header_form|]. split; [apply render_email_form|]. split; [|split].
  - rewrite (list_fmap_compose render_email Some).
    apply filter_Boolean_all, Forall_fmap, Forall_forall.
    intros e _. apply render_email_nonempty.
  - apply buildPodcastInput_join.
  - intros email Hnone. unfold render_email, trim.
    rewrite articlesText_join, Hnone. simpl join.
    destruct (header_trimmed email) as (h & Hh & Htrim).
    rewrite trimEnd_app_white by done. rewrite Htrim, Hh.
    by apply trimStart_keep.
Qed.

End Compose.

(** ** JavaScript dates *)

(** The time values and the day, month and year arithmetic of the
    language standard (ECMA-262, "Time Values and Time Range" onwards),
    in UTC.  A [Date] holds a time value in milliseconds since the epoch,
    or [NaN], here [None]. *)
Module JsDate.
Local Open Scope Z_scope.

Definition msPerDay : Z := 86400000.

Definition Day (t : Z) : Z := t / msPerDay.
Definition TimeWithinDay (t : Z) : Z := t mod msPerDay.

Definition DaysInYear (y : Z) : Z :=
  if decide (y mod 4 ≠ 0) then 365
  else if decide (y mod 100 ≠ 0) then 366
  else if decide (y mod 400 ≠ 0) then 365
  else 366.

Definition DayFromYear (y : Z) : Z :=
  365 * (y - 1970) + (y - 1969) / 4 - (y - 1901) / 100 + (y - 1601) / 400.

Definition TimeFromYear (y : Z) : Z := msPerDay * DayFromYear y.

(** The year a day number falls in, counted in cycles of 400, 100, 4 and
    1 years from the first of January 1601. *)
Definition YearFromDay (d : Z) : Z :=
  let n := d - DayFromYear 1601 in
  let n400 := n / 146097 in
  let r400 := n mod 146097 in
  let n100 := Z.min (r400 / 36524) 3 in
  let r100 := r400 - n100 * 36524 in
  let n4 := r100 / 1461 in
  let r4 := r100 mod 1461 in
  let n1 := Z.min (r4 / 365) 3 in
  1601 + 400 * n400 + 100 * n100 + 4 * n4 + n1.

(** The largest [y] with [TimeFromYear y <= t]. *)
Definition YearFromTime (t : Z) : Z := YearFromDay (Day t).

Definition InLeapYear (t : Z) : Z :=
  if decide (DaysInYear (YearFromTime t) = 366) then 1 else 0.

Definition DayWithinYear (t : Z) : Z := Day t - DayFromYear (YearFromTime t).

(** The day within the year on which month [m] starts, and on which the
    year ends for [m = 12]. *)
Definition month_start (leap m : Z) : Z :=
  match m with
  | 0 => 0
  | 1 => 31
  | 2 => 59 + leap
  | 3 => 90 + leap
  | 4 => 120 + leap
  | 5 => 151 + leap
  | 6 => 181 + leap
  | 7 => 212 + leap
  | 8 => 243 + leap
  | 9 => 273 + leap
  | 10 => 304 + leap
  | 11 => 334 + leap
  | _ => 365 + leap
  end.

Definition month_of_day (leap d : Z) : Z :=
  if decide (d < 31) then 0
  else if decide (d < 59 + leap) then 1
  else if decide (d < 90 + leap) then 2
  else if decide (d < 120 + leap) then 3
  else if decide (d < 151 + leap) then 4
  else if decide (d < 181 + leap) then 5
  else if decide (d < 212 + leap) then 6
  else if decide (d < 243 + leap) then 7
  else if decide (d < 273 + leap) then 8
  else if decide (d < 304 + leap) then 9
  else if decide (d < 334 + leap) then 10
  else 11.

Definition MonthFromTime (t : Z) : Z := month_of_day (InLeapYear t) (DayWithinYear t).

Definition DateFromTime (t : Z) : Z :=
  DayWithinYear t - month_start (InLeapYear t) (MonthFromTime t) + 1.

(** The day number of the [date]-th day of month [month] of [year]; months
    outside 0..11 carry into the year, days outside the month carry on. *)
Definition MakeDay (year month date : Z) : Z :=
  let ym := year + month / 12 in
  let mn := month mod 12 in
  DayFromYear ym
  + month_start (if decide (DaysInYear ym = 366) then 1 else 0) mn
  + date - 1.

Definition MakeTime (hour min sec ms : Z) : Z :=
  hour * 3600000 + min * 60000 + sec * 1000 + ms.

Definition MakeDate (day time : Z) : Z := day * msPerDay + time.

Definition TimeClip (time : Z) : option Z :=
  if decide (8640000000000000 < Z.abs time) then None else Some time.

(** [new Date(d.getTime())] *)
Definition copy (d : option Z) : option Z := t ← d; TimeClip t.

(** [d.setUTCDate(d.getUTCDate() + n)] *)
Definition addUTCDate (n : Z) (d : option Z) : option Z :=
  t ← d;
  TimeClip (MakeDate (MakeDay (YearFromTime t) (MonthFromTime t) (DateFromTime t + n))
                     (TimeWithinDay t)).

(** [d.setUTCMonth(d.getUTCMonth() + n)] *)
Definition addUTCMonth (n : Z) (d : option Z) : option Z :=
  t ← d;
  TimeClip (MakeDate (MakeDay (YearFromTime t) (MonthFromTime t + n) (DateFromTime t))
                     (TimeWithinDay t)).

(** [Date.UTC(year, month, date, 0, 0, 0, 0)]: a year from 0 to 99 stands
    for a year of the twentieth century. *)
Definition UTC (year month date : Z) : option Z :=
  let yr := if decide (0 ≤ year ≤ 99) then 1900 + year else year in
  TimeClip (MakeDate (MakeDay yr month date) (MakeTime 0 0 0 0)).

(** A time value of a valid [Date]. *)
Definition in_range (t : Z) : Prop := Z.abs t ≤ 8640000000000000.

(** The days of month [m] (0..11) of year [y]. *)
Definition DaysInMonth (y m : Z) : Z :=
  let leap := if decide (DaysInYear y = 366) then 1 else 0 in
  month_start leap (m + 1) - month_start leap m.

(** The month after month [m] of year [y], December carrying into January. *)
Definition next_month (y m : Z) : Z * Z :=
  if decide (m = 11) then (y + 1, 0) else (y, m + 1).

(** Year, month (0..11) and day of the month of a time value. *)
Definition civil (t : Z) : Z * Z * Z := (YearFromTime t, MonthFromTime t, DateFromTime t).

(** *** Facts about the calendar *)

Lemma YearFromDay_spec d :
  DayFromYear (YearFromDay d) ≤ d < DayFromYear (YearFromDay d + 1).
Proof. unfold YearFromDay, DayFromYear. Z.div_mod_to_equations. lia. Qed.

Lemma DayFromYear_succ y : DayFromYear (y + 1) = DayFromYear y + DaysInYear y.
Proof.
  unfold DayFromYear, DaysInYear. repeat case_decide; Z.div_mod_to_equations; lia.
Qed.

Lemma DayFromYear_mono y1 y2 : y1 ≤ y2 → DayFromYear y1 ≤ DayFromYear y2.
Proof. unfold DayFromYear. intros. Z.div_mod_to_equations. lia. Qed.

(** [YearFromDay] is the year the standard defines. *)
Lemma YearFromDay_unique d y :
  DayFromYear y ≤ d < DayFromYear (y + 1) → YearFromDay d = y.
Proof.
  intros Hy. pose proof (YearFromDay_spec d) as Hd.
  destruct (Z.lt_trichotomy (YearFromDay d) y) as [Hlt|[Heq|Hgt]]; [|done|].
  - pose proof (DayFromYear_mono (YearFromDay d + 1) y). lia.
  - pose proof (DayFromYear_mono (y + 1) (YearFromDay d)). lia.
Qed.

Lemma YearFromTime_spec t :
  TimeFromYear (YearFromTime t) ≤ t < TimeFromYear (YearFromTime t + 1).
Proof.
  unfold TimeFromYear, YearFromTime. pose proof (YearFromDay_spec (Day t)) as Hd.
  unfold Day, msPerDay in *. Z.div_mod_to_equations. lia.
Qed.

Lemma DaysInYear_leap y :
  DaysInYear y = 365 + (if decide (DaysInYear y = 366) then 1 else 0).
Proof. unfold DaysInYear. repeat case_decide; lia. Qed.

Lemma DayWithinYear_range t :
  0 ≤ DayWithinYear t < 365 + InLeapYear t.
Proof.
  unfold DayWithinYear, InLeapYear, YearFromTime.
  pose proof (YearFromDay_spec (Day t)) as Hd.
  rewrite DayFromYear_succ in Hd.
  rewrite (DaysInYear_leap (YearFromDay (Day t))) in Hd. lia.
Qed.

Lemma InLeapYear_cases t : InLeapYear t = 0 ∨ InLeapYear t = 1.
Proof. unfold InLeapYear. case_decide; auto. Qed.

Lemma month_of_day_range leap d : 0 ≤ month_of_day leap d ≤ 11.
Proof. unfold month_of_day. repeat case_decide; lia. Qed.

Lemma month_of_day_start leap d :
  0 ≤ d < 365 + leap → leap = 0 ∨ leap = 1 →
  month_start leap (month_of_day leap d) ≤ d
    < month_start leap (month_of_day leap d + 1).
Proof.
  intros Hd Hleap. unfold month_of_day.
  repeat case_decide; simpl; lia.
Qed.

(** The month and the day found from a day of the year. *)
Lemma month_of_day_unique leap m d :
  leap = 0 ∨ leap = 1 → 0 ≤ m ≤ 11 →
  month_start leap m ≤ d < month_start leap (m + 1) →
  month_of_day leap d = m.
Proof.
  intros Hleap Hm.
  assert (m = 0 ∨ m = 1 ∨ m = 2 ∨ m = 3 ∨ m = 4 ∨ m = 5 ∨ m = 6 ∨
          m = 7 ∨ m = 8 ∨ m = 9 ∨ m = 10 ∨ m = 11) as Hcases by lia.
  unfold month_of_day.
  destruct Hcases as [->|[->|[->|[->|[->|[->|[->|[->|[->|[->|[->| ->]]]]]]]]]]];
    simpl; intros Hd; repeat case_decide; lia.
Qed.

Lemma DateFromTime_range t :
  1 ≤ DateFromTime t ≤ DaysInMonth (YearFromTime t) (MonthFromTime t).
Proof.
  unfold DateFromTime, DaysInMonth, MonthFromTime.
  pose proof (month_of_day_start (InLeapYear t) (DayWithinYear t)
                (DayWithinYear_range t) (InLeapYear_cases t)) as Hm.
  unfold InLeapYear in *. lia.
Qed.

Lemma Day_MakeDate day time :
  0 ≤ time < msPerDay →
  Day (MakeDate day time) = day ∧ TimeWithinDay (MakeDate day time) = time.
Proof.
  unfold Day, TimeWithinDay, MakeDate, msPerDay. intros. Z.div_mod_to_equations. lia.
Qed.

Lemma TimeWithinDay_range t : 0 ≤ TimeWithinDay t < msPerDay.
Proof. unfold TimeWithinDay, msPerDay. Z.div_mod_to_equations. lia. Qed.

Lemma MakeDate_Day t : MakeDate (Day t) (TimeWithinDay t) = t.
Proof.
  unfold MakeDate, Day, TimeWithinDay, msPerDay. Z.div_mod_to_equations. lia.
Qed.

(** [MakeDay] within a month, and their days counted on into the
    following ones. *)
Lemma MakeDay_month y m date :
  0 ≤ m ≤ 11 →
  MakeDay y m date =
  DayFromYear y + month_start (if decide (DaysInYear y = 366) then 1 else 0) m + date - 1.
Proof.
  intros Hm. unfold MakeDay.
  replace (m / 12) with 0 by (Z.div_mod_to_equations; lia).
  replace (m mod 12) with m by (Z.div_mod_to_equations; lia).
  by rewrite Z.add_0_r.
Qed.

Lemma MakeDay_current t n :
  MakeDay (YearFromTime t) (MonthFromTime t) (DateFromTime t + n) = Day t + n.
Proof.
  rewrite MakeDay_month by apply month_of_day_range.
  unfold DateFromTime, DayWithinYear, InLeapYear. lia.
Qed.

Lemma MakeDay_next y m date :
  0 ≤ m ≤ 11 →
  MakeDay y (m + 1) date = MakeDay (next_month y m).1 (next_month y m).2 date ∧
  MakeDay y (m + 1) date = MakeDay y m date + DaysInMonth y m.
Proof.
  intros Hm. unfold next_month. case_decide as Hdec.
  - subst m. cbn [fst snd].
    assert (H12 : MakeDay y (11 + 1) date = DayFromYear (y + 1) + date - 1).
    { unfold MakeDay. change ((11 + 1) / 12) with 1. change ((11 + 1) mod 12) with 0.
      cbn [month_start]. lia. }
    rewrite H12, (MakeDay_month (y + 1) 0), (MakeDay_month y 11) by lia.
    unfold DaysInMonth. change (11 + 1) with 12.
    pose proof (DayFromYear_succ y) as Hsucc. pose proof (DaysInYear_leap y) as Hleap.
    destruct (decide (DaysInYear y = 366)); cbn [month_start]; lia.
  - cbn [fst snd]. split; [done|]. rewrite !MakeDay_month by lia.
    unfold DaysInMonth. lia.
Qed.

Lemma civil_MakeDate y m d time :
  0 ≤ m ≤ 11 → 1 ≤ d ≤ DaysInMonth y m → 0 ≤ time < msPerDay →
  civil (MakeDate (MakeDay y m d) time) = (y, m, d).
Proof.
  intros Hm Hd Htime. unfold civil, DaysInMonth in *.
  set (leap := if decide (DaysInYear y = 366) then 1 else 0) in *.
  assert (Hleap : leap = 0 ∨ leap = 1) by (subst leap; case_decide; auto).
  assert (Hstart : 0 ≤ month_start leap m ∧ month_start leap (m + 1) ≤ 365 + leap).
  { assert (m = 0 ∨ m = 1 ∨ m = 2 ∨ m = 3 ∨ m = 4 ∨ m = 5 ∨ m = 6 ∨
            m = 7 ∨ m = 8 ∨ m = 9 ∨ m = 10 ∨ m = 11) as Hcases by lia.
    destruct Hcases as [->|[->|[->|[->|[->|[->|[->|[->|[->|[->|[->| ->]]]]]]]]]]];
      simpl; lia. }
  assert (Hyear : YearFromTime (MakeDate (MakeDay y m d) time) = y).
  { unfold YearFromTime. rewrite (proj1 (Day_MakeDate _ _ Htime)).
    apply YearFromDay_unique. rewrite DayFromYear_succ, (DaysInYear_leap y).
    rewrite MakeDay_month by done. fold leap. lia. }
  assert (Hdwy : DayWithinYear (MakeDate (MakeDay y m d) time) = month_start leap m + d - 1).
  { unfold DayWithinYear. rewrite Hyear, (proj1 (Day_MakeDate _ _ Htime)).
    rewrite MakeDay_month by done. fold leap. lia. }
  assert (Hl : InLeapYear (MakeDate (MakeDay y m d) time) = leap).
  { unfold InLeapYear. by rewrite Hyear. }
  assert (Hmonth : MonthFromTime (MakeDate (MakeDay y m d) time) = m).
  { unfold MonthFromTime. rewrite Hl, Hdwy. apply month_of_day_unique; [done..|lia]. }
  unfold DateFromTime. rewrite Hyear, Hmonth, Hl, Hdwy. do 2 f_equal. lia.
Qed.

End JsDate.

(** ** The schedule calculator: [addInterval] *)

Module Schedule.
Local Open Scope Z_scope.
Import JsDate.

(** Modelled from the spec: the [Interval] enum of the Prisma schema,
    which is not among the sources.  The cadence is weekly, biweekly,
    monthly or other; members other than the three the code names are
    [OtherInterval]. *)
Inductive Interval := WEEKLY | BIWEEKLY | MONTHLY | OtherInterval (name : string).

Definition addInterval (from : option Z) (interval : Interval) : option Z :=
  let next := copy from in
  match interval with
  | WEEKLY => addUTCDate 7 next
  | BIWEEKLY => addUTCDate 14 next
  | MONTHLY => addUTCMonth 1 next
  | OtherInterval _ => next
  end.

(** [from] plus a number of milliseconds, as a [Date]. *)
Definition plus_ms (from : option Z) (ms : Z) : option Z := t ← from; TimeClip (t + ms).

Lemma copy_in_range t : in_range t → copy (Some t) = Some t.
Proof. unfold copy, TimeClip, in_range. simpl. intros. by rewrite decide_False by lia. Qed.

Lemma addUTCDate_days n t : addUTCDate n (Some t) = TimeClip (t + n * msPerDay).
Proof.
  unfold addUTCDate. simpl. rewrite MakeDay_current. f_equal.
  pose proof (MakeDate_Day t) as Ht0. unfold MakeDate, msPerDay in *. lia.
Qed.

Lemma MakeDay_shift y m date n : MakeDay y m (date + n) = MakeDay y m date + n.
Proof. unfold MakeDay. lia. Qed.

(** The month lengths: a month of fewer than 31 days is not December and
    is followed by one of 31 days in the same year. *)
Lemma DaysInMonth_cases y m :
  0 ≤ m ≤ 11 →
  28 ≤ DaysInMonth y m ≤ 31 ∧
  (DaysInMonth y m < 31 → m < 11 ∧ DaysInMonth y (m + 1) = 31).
Proof.
  intros Hm. unfold DaysInMonth.
  assert (m = 0 ∨ m = 1 ∨ m = 2 ∨ m = 3 ∨ m = 4 ∨ m = 5 ∨ m = 6 ∨
          m = 7 ∨ m = 8 ∨ m = 9 ∨ m = 10 ∨ m = 11) as Hcases by lia.
  destruct (decide (DaysInYear y = 366));
  destruct Hcases as [->|[->|[->|[->|[->|[->|[->|[->|[->|[->|[->| ->]]]]]]]]]]];
    simpl; lia.
Qed.

(** C6.  For a valid [from]: weekly and biweekly add 7 and 14 days of
    86,400,000 ms; monthly sets the month to the next one, keeping the
    day of the month and the time of day, and a day the next month does
    not have is counted on into the month after it (31 January gives 2 or
    3 March); any other cadence gives [from] back.  A result outside the
    range of time values is an invalid date. *)
Theorem addInterval_spec (t : Z) :
  in_range t →
  addInterval (Some t) WEEKLY = plus_ms (Some t) (7 * msPerDay) ∧
  addInterval (Some t) BIWEEKLY = plus_ms (Some t) (14 * msPerDay) ∧
  (let y := YearFromTime t in
   let m := MonthFromTime t in
   let d := DateFromTime t in
   let '(y', m') := next_month y m in
   addInterval (Some t) MONTHLY =
     TimeClip (MakeDate (MakeDay y' m' d) (TimeWithinDay t)) ∧
   addInterval (Some t) MONTHLY = plus_ms (Some t) (DaysInMonth y m * msPerDay) ∧
   ∀ t', addInterval (Some t) MONTHLY = Some t' →
     TimeWithinDay t' = TimeWithinDay t ∧
     civil t' = if decide (d ≤ DaysInMonth y' m') then (y', m', d)
                else (y', m' + 1, d - DaysInMonth y' m')) ∧
  (∀ name, addInterval (Some t) (OtherInterval name) = Some t) ∧
  addInterval (Some 1706659200000) MONTHLY = Some 1709337600000 ∧
  civil 1706659200000 = (2024, 0, 31) ∧ civil 1709337600000 = (2024, 2, 2).
Proof.
  intros Ht. unfold addInterval. rewrite (copy_in_range t Ht).
  split; [apply addUTCDate_days|]. split; [apply addUTCDate_days|].
  split; [|split; [done|by vm_compute]].
  pose proof (month_of_day_range (InLeapYear t) (DayWithinYear t)) as Hm.
  fold (MonthFromTime t) in Hm.
  pose proof (DateFromTime_range t) as Hd.
  pose proof (TimeWithinDay_range t) as Htw.
  destruct (MakeDay_next (YearFromTime t) (MonthFromTime t) (DateFromTime t) Hm)
    as [Hnext Hdays].
  assert (Hm' : 0 ≤ (next_month (YearFromTime t) (MonthFromTime t)).2 ≤ 11).
  { unfold next_month. case_decide; simpl; lia. }
  destruct (next_month (YearFromTime t) (MonthFromTime t)) as [y' m'] eqn:Hnm.
  cbn [fst snd] in *.
  assert (Hmonthly : addUTCMonth 1 (Some t) =
            TimeClip (MakeDate (MakeDay y' m' (DateFromTime t)) (TimeWithinDay t))).
  { unfold addUTCMonth. simpl. by rewrite Hnext. }
  split; [done|]. split.
  - unfold addUTCMonth, plus_ms. simpl. f_equal. rewrite Hdays.
    rewrite <- (Z.add_0_r (DateFromTime t)), MakeDay_current.
    pose proof (MakeDate_Day t) as Ht0. unfold MakeDate, msPerDay in *. lia.
  - intros t'. rewrite Hmonthly. unfold TimeClip. case_decide; [done|].
    intros [= <-]. split; [by apply Day_MakeDate|].
    destruct (DaysInMonth_cases y' m' Hm') as [Hlen Hshort].
    destruct (DaysInMonth_cases (YearFromTime t) (MonthFromTime t) Hm) as [Hlen0 _].
    case_decide as Hfit.
    + apply civil_MakeDate; [done|lia|done].
    + destruct Hshort as [Hm11 Hnext31]; [lia|].
      destruct (MakeDay_next y' m' (DateFromTime t - DaysInMonth y' m')) as [_ Heq]; [done|].
      rewrite <- MakeDay_shift in Heq.
      replace (DateFromTime t - DaysInMonth y' m' + DaysInMonth y' m')
        with (DateFromTime t) in Heq by lia.
      rewrite <- Heq. apply civil_MakeDate; [lia|lia|done].
Qed.

Lemma addInterval_spec_witness :
  in_range 1704067200000 ∧
  addInterval (Some 1704067200000) BIWEEKLY = Some 1705276800000.
Proof.
  assert (Hr : in_range 1704067200000) by (unfold in_range; lia).
  split; [exact Hr|].
  exact (proj1 (proj2 (addInterval_spec 1704067200000 Hr))).
Defined.

(** *** How far a cadence moves an instant *)

Lemma addUTCMonth_days t :
  addUTCMonth 1 (Some t) =
  TimeClip (t + DaysInMonth (YearFromTime t) (MonthFromTime t) * msPerDay).
Proof.
  pose proof (month_of_day_range (InLeapYear t) (DayWithinYear t)) as Hm.
  fold (MonthFromTime t) in Hm.
  destruct (MakeDay_next (YearFromTime t) (MonthFromTime t) (DateFromTime t) Hm)
    as [_ Hdays].
  unfold addUTCMonth. cbn [mbind option_bind]. f_equal. rewrite Hdays.
  pose proof (MakeDay_current t 0) as Hcur. rewrite Z.add_0_r in Hcur. rewrite Hcur.
  pose proof (MakeDate_Day t) as Ht0. unfold MakeDate, msPerDay in *. lia.
Qed.

Lemma addInterval_later t i t' :
  in_range t → addInterval (Some t) i = Some t' →
  match i with
  | OtherInterval _ => t' = t
  | _ => t + 7 * msPerDay ≤ t' ≤ t + 31 * msPerDay
  end.
Proof.
  intros Ht. unfold addInterval. rewrite (copy_in_range t Ht).
  destruct i as [| | |name].
  - rewrite addUTCDate_days. unfold TimeClip. case_decide; [done|].
    intros [= <-]. unfold msPerDay. lia.
  - rewrite addUTCDate_days. unfold TimeClip. case_decide; [done|].
    intros [= <-]. unfold msPerDay. lia.
  - rewrite addUTCMonth_days. unfold TimeClip. case_decide; [done|].
    intros [= <-].
    pose proof (month_of_day_range (InLeapYear t) (DayWithinYear t)) as Hm.
    fold (MonthFromTime t) in Hm.
    destruct (DaysInMonth_cases (YearFromTime t) (MonthFromTime t) Hm) as [Hlen _].
    unfold msPerDay. lia.
  - by intros [= <-].
Qed.

End Schedule.

(** ** Values thrown and caught *)

Module Js.
Import JsString.

(** A thrown value: an [Error] with its message, or anything else. *)
Inductive exn := Error (message : list N) | NonError.

(** [e instanceof Error ? e.message : 'Unknown error'] *)
Definition message_of (e : exn) : list N :=
  match e with
  | Error message => message
  | NonError => lit "Unknown error"
  end.

(** The elements of an array whose every slot is filled. *)
Definition elements {A} (a : list (option A)) : list A := omap id a.

Lemma elements_full {A} (a : list (option A)) :
  (∀ i, i < length a → ∃ v, a !! i = Some (Some v)) → a = Some <$> elements a.
Proof.
  induction a as [|x a IH]; [done|]. intros Hfull.
  destruct (Hfull 0) as [v Hv]; [simpl; lia|]. injection Hv as ->.
  unfold elements in *. simpl. f_equal. apply IH.
  intros i Hi. apply (Hfull (S i)). simpl. lia.
Qed.

(** *** [String(n)] for a Number that is an integer *)

(** The decimal digits of an integer, with its sign. *)
Definition digits (n : Z) : list N :=
  lit (DecimalString.NilZero.string_of_int (Z.to_int n)).

(** The Number nearest to a positive integer, ties going to the even
    significand; none when that is [Infinity]. *)
Definition nearest_double (m : Z) : option Z :=
  if decide (m < 2 ^ 53)%Z then Some m
  else
    let e := (Z.log2 m - 52)%Z in
    let q := Z.shiftr m e in
    let r := (m - Z.shiftl q e)%Z in
    let half := Z.shiftl 1 (e - 1) in
    let q := if decide (half < r ∨ (r = half ∧ Z.odd q = true))%Z then (q + 1)%Z else q in
    let x := Z.shiftl q e in
    if decide (x < 2 ^ 1024)%Z then Some x else None.

(** Of the integers with [k] significant digits, and then [k + 1] and
    so on, the first that reads back as the Number [x] of [d] digits;
    of two, the nearer, and the one with the even last digit when they
    are as near. *)
Fixpoint shortest (fuel : nat) (x d k : Z) : Z :=
  match fuel with
  | O => x
  | S fuel =>
      let p := (10 ^ (d - k))%Z in
      let lo := (x / p * p)%Z in
      let hi := (lo + p)%Z in
      let reads_back v := bool_decide (nearest_double v = Some x) in
      match reads_back lo, reads_back hi with
      | true, true =>
          if (x - lo <? hi - x)%Z then lo
          else if (hi - x <? x - lo)%Z then hi
          else if Z.even (lo / p) then lo else hi
      | true, false => lo
      | false, true => hi
      | false, false => shortest fuel x d (k + 1)
      end
  end.

(** A string of digits without the zeros at its end. *)
Fixpoint significant (ds : list N) : list N :=
  match ds with
  | [] => []
  | c :: ds' =>
      match significant ds' with
      | [] => if bool_decide (c = 48%N) then [] else [c]
      | t => c :: t
      end
  end.

(** The digits of [v] as [Number::toString] lays them out: in full up to
    21 digits, and from there on as a significand and an exponent. *)
Definition layout (v : Z) : list N :=
  let ds := digits v in
  let n := length ds in
  if decide (n ≤ 21) then ds
  else
    match significant ds with
    | [] => []
    | c :: rest => c :: match rest with [] => [] | _ => 46%N :: rest end
    end ++ lit "e+" ++ digits (Z.of_nat (n - 1)).

(** [String(n)] for the Number nearest to the integer [n]: the digits of
    [n] up to [2^53], and from there on the shortest digits that read
    back as that Number. *)
Definition string_of_Z (n : Z) : list N :=
  let print m :=
    match nearest_double m with
    | None => lit "Infinity"
    | Some x =>
        if decide (x < 2 ^ 53)%Z then digits x
        else let d := Z.of_nat (length (digits x)) in
             layout (shortest (Z.to_nat d) x d 1)
    end in
  match n with
  | Z0 => lit "0"
  | Zpos _ => print n
  | Zneg _ => lit "-" ++ print (- n)%Z
  end.

(** Below [2^53] every digit is printed; [2^55] is printed with 16
    significant digits, [2^70] with an exponent. *)
Example string_of_Z_sample :
  string_of_Z 1705276800 = lit "1705276800" ∧
  string_of_Z (2 ^ 53 - 1) = lit "9007199254740991" ∧
  string_of_Z (2 ^ 55) = lit "36028797018963970" ∧
  string_of_Z (10 ^ 21) = lit "1e+21" ∧
  string_of_Z (2 ^ 70) = lit "1.1805916207174113e+21" ∧
  string_of_Z (- 2 ^ 60) = lit "-1152921504606847000".
Proof. by vm_compute. Qed.

End Js.

(** ** The mail provider's client: [integrations/gmail.ts] *)

Module GmailCredentials.
Record t := Build {
  accessToken : list N;
  refreshToken : option (list N);
  expiresAt : option Z
}.
End GmailCredentials.

Module RefreshedCredentials.
Record t := Build {
  accessToken : list N;
  expiresAt : option Z
}.
End RefreshedCredentials.

Module GmailMessageContent.
Record t := Build {
  id : list N;
  threadId : option (list N);
  snippet : option (list N);
  internalDate : option (list N);
  headers : gmap (list N) (list N);
  text : list N;
  html : option (list N)
}.
End GmailMessageContent.

Module GmailListResult.
Record t := Build {
  messageIds : list (list N);
  refreshedCredentials : option RefreshedCredentials.t
}.
End GmailListResult.

Module GmailMessageResult.
Record t := Build {
  message : GmailMessageContent.t;
  refreshedCredentials : option RefreshedCredentials.t
}.
End GmailMessageResult.

Module Gmail.
Import JsString.

Definition buildSelectedEmailsQuery (selectedEmails : list (list N)) : list N :=
  let cleaned := filter_Boolean ((λ s, Some (trim s)) <$> selectedEmails) in
  match cleaned with
  | [] => []
  | _ => lit "(" ++ join (lit " OR ") ((λ email, lit "from:" ++ email) <$> cleaned) ++ lit ")"
  end.

(** [afterUnixSeconds] is a number or [NaN], here [None]. *)
Definition buildGmailQuery (selectedEmails : list (list N)) (afterUnixSeconds : option Z)
    : list N :=
  let fromPart := buildSelectedEmailsQuery selectedEmails in
  let parts := if Boolean (Some fromPart) then [fromPart] else [] in
  let parts :=
    match afterUnixSeconds with
    | Some n => if decide (n ≠ 0 ∧ 0 < n)%Z
                then parts ++ [lit "after:" ++ Js.string_of_Z n] else parts
    | None => parts
    end in
  trim (join (lit " ") parts).

(** The code units of the decimal digits. *)
Definition is_digit (c : N) : Prop := (48 ≤ c ≤ 57)%N.

(** *** The form of the query *)

Lemma string_of_uint_digits (d : Decimal.uint) :
  Forall is_digit (lit (DecimalString.NilEmpty.string_of_uint d)).
Proof.
  unfold lit, is_digit.
  induction d; simpl; try constructor; try done; simpl; lia.
Qed.

Lemma last_digit (l : list N) :
  l ≠ [] → Forall is_digit l → ∃ s c, l = s ++ [c] ∧ is_digit c.
Proof.
  destruct l as [|c l _] using rev_ind; [done|]. intros _ Hl.
  apply Forall_app in Hl as [_ Hc]. inversion Hc. eauto.
Qed.

Lemma digits_last (n : Z) : ∃ s c, Js.digits n = s ++ [c] ∧ is_digit c.
Proof.
  assert (Huint : ∀ d, ∃ s c, lit (DecimalString.NilZero.string_of_uint d) = s ++ [c] ∧
                              is_digit c).
  { intros d. unfold DecimalString.NilZero.string_of_uint.
    destruct d eqn:Hd; [by exists [], 48%N|..];
      (apply last_digit; [done|rewrite <- Hd; apply string_of_uint_digits]). }
  unfold Js.digits. destruct n as [|p|p]; simpl.
  - by exists [], 48%N.
  - apply Huint.
  - destruct (Huint (Pos.to_uint p)) as (s & c & Hs & Hc).
    exists (45%N :: s), c. split; [|done].
    change (lit (String "-" (DecimalString.NilZero.string_of_uint (Pos.to_uint p))))
      with (45%N :: lit (DecimalString.NilZero.string_of_uint (Pos.to_uint p))).
    by rewrite Hs.
Qed.

Lemma not_white_space_digit c : is_digit c → is_white_space c = false.
Proof.
  unfold is_digit, is_white_space. intros Hc. apply bool_decide_eq_false.
  rewrite !elem_of_cons, elem_of_nil. lia.
Qed.

(** However a number is printed, the last thing printed is no white
    space. *)
Lemma string_of_Z_last (n : Z) :
  ∃ s c, Js.string_of_Z n = s ++ [c] ∧ is_white_space c = false.
Proof.
  assert (Hlayout : ∀ v, ∃ s c, Js.layout v = s ++ [c] ∧ is_white_space c = false).
  { intros v. unfold Js.layout. destruct (decide _).
    - destruct (digits_last v) as (s & c & -> & Hc).
      exists s, c. split; [done|]. by apply not_white_space_digit.
    - destruct (digits_last (Z.of_nat (length (Js.digits v) - 1))) as (s & c & -> & Hc).
      match goal with
      | |- ∃ s' c', ?m ++ ?e ++ s ++ [c] = _ ∧ _ => exists (m ++ e ++ s), c
      end.
      split; [by rewrite <- !app_assoc|]. by apply not_white_space_digit. }
  assert (Hprint : ∀ m, ∃ s c,
    match Js.nearest_double m with
    | None => lit "Infinity"
    | Some x =>
        if decide (x < 2 ^ 53)%Z then Js.digits x
        else Js.layout (Js.shortest (Z.to_nat (Z.of_nat (length (Js.digits x)))) x
                          (Z.of_nat (length (Js.digits x))) 1)
    end = s ++ [c] ∧ is_white_space c = false).
  { intros m. destruct (Js.nearest_double m) as [x|].
    - destruct (decide _); [|apply Hlayout].
      destruct (digits_last x) as (s & c & -> & Hc).
      exists s, c. split; [done|]. by apply not_white_space_digit.
    - by exists (lit "Infinit"), 121%N. }
  unfold Js.string_of_Z. destruct n as [|p|p].
  - by exists [], 48%N.
  - apply Hprint.
  - destruct (Hprint (- Z.neg p)%Z) as (s & c & Hs & Hc).
    exists (lit "-" ++ s), c. split; [|done]. cbv zeta. rewrite Hs.
    by rewrite <- app_assoc.
Qed.

Lemma trim_keep (s : list N) :
  (∀ c, head s = Some c → is_white_space c = false) →
  (∀ c, last s = Some c → is_white_space c = false) →
  trim s = s.
Proof.
  intros Hhead Hlast. unfold trim.
  destruct s as [|c s _] using rev_ind; [done|].
  rewrite trimEnd_app_keep by (apply Hlast; by rewrite last_snoc).
  simpl. destruct s as [|c1 s]; simpl in *; by rewrite Hhead.
Qed.

Lemma cleaned_senders (selectedEmails : list (list N)) :
  filter_Boolean ((λ s, Some (trim s)) <$> selectedEmails) =
  filter (λ s, s ≠ []) (trim <$> selectedEmails).
Proof.
  induction selectedEmails as [|s l IH]; [done|].
  rewrite !fmap_cons, filter_cons, <- IH. unfold filter_Boolean.
  destruct (trim s); simpl; repeat case_decide; done.
Qed.

(** X3.  The query [buildGmailQuery] builds for a bound that is an
    integer or [NaN].  The senders are trimmed and the empty ones
    dropped; what is left is listed as [(from:a OR from:b)].  A positive
    [afterUnixSeconds] adds [after:] and the number as [String] prints
    it, separated by one space; zero, a negative number and [NaN] add
    nothing.  With no sender left and no positive bound the query is
    empty.  The final [trim] removes nothing. *)
Theorem buildGmailQuery_form (selectedEmails : list (list N)) (afterUnixSeconds : option Z) :
  let cleaned := filter (λ s, s ≠ []) (trim <$> selectedEmails) in
  let senders :=
    lit "(" ++ join (lit " OR ") ((λ email, lit "from:" ++ email) <$> cleaned) ++ lit ")" in
  buildGmailQuery selectedEmails afterUnixSeconds =
    match afterUnixSeconds with
    | Some n =>
        if decide (0 < n)%Z then
          match cleaned with
          | [] => lit "after:" ++ Js.string_of_Z n
          | _ => senders ++ lit " after:" ++ Js.string_of_Z n
          end
        else match cleaned with [] => [] | _ => senders end
    | None => match cleaned with [] => [] | _ => senders end
    end.
Proof.
  intros cleaned senders. unfold buildGmailQuery, buildSelectedEmailsQuery.
  rewrite cleaned_senders. fold cleaned.
  assert (Hsenders : cleaned ≠ [] → trim senders = senders).
  { intros _. apply trim_keep; [by intros c [= <-]|].
    unfold senders. change (lit ")") with [41%N]. rewrite app_assoc, last_snoc.
    by intros c [= <-]. }
  assert (Hfrom : match cleaned with [] => [] | _ => senders end =
                  if Boolean (Some match cleaned with [] => [] | _ => senders end)
                  then senders else []).
  { destruct cleaned; [done|]. done. }
  assert (Hno : trim (join (lit " ")
                  (if Boolean (Some match cleaned with [] => [] | _ => senders end)
                   then [match cleaned with [] => [] | _ => senders end] else [])) =
                match cleaned with [] => [] | _ => senders end).
  { destruct cleaned as [|c cs] eqn:Hc; [done|]. apply Hsenders. done. }
  destruct afterUnixSeconds as [n|]; [|exact Hno].
  destruct (decide (0 < n)%Z) as [Hn|Hn].
  2: { rewrite decide_False by lia. exact Hno. }
  rewrite decide_True by lia.
  destruct (string_of_Z_last n) as (printed & c0 & Hprinted & Hc0).
  assert (Hlast : ∀ x c, last (x ++ Js.string_of_Z n) = Some c → is_white_space c = false).
  { intros x c. rewrite Hprinted, app_assoc, last_snoc. by intros [= <-]. }
  destruct cleaned as [|c cs] eqn:Hc.
  - simpl. apply trim_keep; [by intros c [= <-]|]. apply (Hlast (lit "after:")).
  - change (Boolean (Some senders)) with true. cbn [app join].
    replace (senders ++ lit " " ++ lit "after:" ++ Js.string_of_Z n)
      with (senders ++ lit " after:" ++ Js.string_of_Z n)
      by reflexivity.
    apply trim_keep; [by intros c' [= <-]|]. rewrite app_assoc. apply Hlast.
Qed.

Lemma buildGmailQuery_form_witness :
  buildGmailQuery [lit " news@a.com "; lit "  "; lit "b@c.org"] (Some 1705276800%Z) =
    lit "(from:news@a.com OR from:b@c.org) after:1705276800" ∧
  buildGmailQuery [] (Some (2 ^ 55)%Z) = lit "after:36028797018963970".
Proof.
  split.
  - rewrite (buildGmailQuery_form _ _). vm_compute. reflexivity.
  - rewrite (buildGmailQuery_form _ _). vm_compute. reflexivity.
Defined.

End Gmail.

(** ** Regular expressions *)

(** The patterns of the sources and how the language standard matches
    them (ECMA-262, "RegExp (Regular Expression) Objects"): a
    backtracking matcher over the code units of the string, without the
    [u] flag.  *)
Module RegExp.
Import JsString.

(** The pattern syntax in use: literal code units, classes, sequence,
    alternation, the quantifiers [*], [+] and [?], greedy or lazy,
    capturing groups and the assertion [\b]. *)
Inductive pattern :=
  | Empty
  | Char (c : N)
  | Class (member : N → bool)
  | Seq (r1 r2 : pattern)
  | Alt (r1 r2 : pattern)
  | Star (greedy : bool) (r : pattern)
  | Plus (greedy : bool) (r : pattern)
  | Opt (greedy : bool) (r : pattern)
  | Group (n : nat) (r : pattern)
  | WordBoundary.

(** The literal text [s] as a pattern. *)
Fixpoint Lit (s : list N) : pattern :=
  match s with
  | [] => Empty
  | [c] => Char c
  | c :: s' => Seq (Char c) (Lit s')
  end.

(** [\s], [[\s\S]] and the classes that exclude or list code units. *)
Definition space : N → bool := is_white_space.
Definition any : N → bool := λ _, true.
Definition none_of (cs : list N) : N → bool := λ c, negb (bool_decide (c ∈ cs)).
Definition one_of (cs : list N) : N → bool := λ c, bool_decide (c ∈ cs).

(** [Canonicalize] under the [i] flag, as far as it decides whether a
    code unit matches an ASCII one: the letters a to z become A to Z, and
    no code unit from 128 on canonicalizes to an ASCII one. *)
Definition canonicalize (c : N) : N :=
  if decide (97 ≤ c ≤ 122)%N then (c - 32)%N else c.

(** [\w] *)
Definition is_word_char (c : N) : bool :=
  bool_decide ((48 ≤ c ≤ 57) ∨ (65 ≤ c ≤ 90) ∨ c = 95 ∨ (97 ≤ c ≤ 122))%N.

(** A position in the string being matched: the code unit before it,
    what follows, and the captures made on the way. *)
Record position := Position {
  before : option N;
  rest : list N;
  captures : list (nat * list N)
}.

(** The position [n] code units on. *)
Fixpoint advance (n : nat) (x : position) : position :=
  match n, rest x with
  | S n', c :: rest' => advance n' (Position (Some c) rest' (captures x))
  | _, _ => x
  end.

(** What lies between the position [x] and the later position [y]. *)
Definition between (x y : position) : list N :=
  take (length (rest x) - length (rest y)) (rest x).

(** The numbers of the groups of a pattern. *)
Fixpoint groups (r : pattern) : list nat :=
  match r with
  | Seq r1 r2 | Alt r1 r2 => groups r1 ++ groups r2
  | Star _ r1 | Plus _ r1 | Opt _ r1 => groups r1
  | Group n r1 => n :: groups r1
  | _ => []
  end.

Definition without (ns : list nat) (x : position) : position :=
  Position (before x) (rest x)
           (List.filter (λ c, negb (bool_decide (c.1 ∈ ns))) (captures x)).

Definition capture (n : nat) (s : list N) (x : position) : position :=
  Position (before x) (rest x)
           ((n, s) :: List.filter (λ c, negb (bool_decide (c.1 = n))) (captures x)).

(** The capture of group [n], if the group took part in the match. *)
Definition group (n : nat) (caps : list (nat * list N)) : option (list N) :=
  snd <$> head (List.filter (λ c, bool_decide (c.1 = n)) caps).

(** Groups that take part in every match of a pattern. *)
Fixpoint definite (r : pattern) : list nat :=
  match r with
  | Seq r1 r2 => definite r1 ++ definite r2
  | Group n r1 => n :: definite r1
  | _ => []
  end.

(** Patterns that match no empty text. *)
Fixpoint nonempty (r : pattern) : bool :=
  match r with
  | Char _ | Class _ => true
  | Seq r1 r2 => nonempty r1 || nonempty r2
  | Alt r1 r2 => nonempty r1 && nonempty r2
  | Plus _ r1 | Group _ r1 => nonempty r1
  | _ => false
  end.

(** A continuation says how the rest of the pattern fares from a
    position; a matcher runs a pattern from a position into a
    continuation, backtracking into the alternatives the pattern leaves
    when the continuation fails. *)
Definition continuation : Type := position → option position.

Section Matcher.
Variable ignoreCase : bool.

Definition same (c ch : N) : bool :=
  if ignoreCase then bool_decide (canonicalize c = canonicalize ch)
  else bool_decide (c = ch).

(** One code unit. *)
Definition unit (test : N → bool) (x : position) (k : continuation) : option position :=
  match rest x with
  | ch :: rest' => if test ch then k (Position (Some ch) rest' (captures x)) else None
  | [] => None
  end.

(** What a repetition does after an iteration from [x] has reached [y]:
    an iteration that matched nothing is given up. *)
Definition progress (x : position) (k : continuation) : continuation :=
  λ y, if decide (length (rest y) < length (rest x)) then k y else None.

Definition first_of (a b : option position) : option position :=
  match a with Some z => Some z | None => b end.

(** [RepeatMatcher] without an upper bound, for a position with [n] code
    units left: each iteration makes progress, so there are at most [n]. *)
Fixpoint repeat (iteration : position → continuation → option position) (greedy : bool)
    (k : continuation) (n : nat) (x : position) : option position :=
  match n with
  | 0 => k x
  | S n' =>
      let again := iteration x (progress x (repeat iteration greedy k n')) in
      if greedy then first_of again (k x) else first_of (k x) again
  end.

Fixpoint matcher (r : pattern) (x : position) (k : continuation) {struct r}
    : option position :=
  match r with
  | Empty => k x
  | Char c => unit (same c) x k
  | Class member => unit member x k
  | Seq r1 r2 => matcher r1 x (λ y, matcher r2 y k)
  | Alt r1 r2 => first_of (matcher r1 x k) (matcher r2 x k)
  | Star greedy r1 =>
      repeat (λ x k, matcher r1 (without (groups r1) x) k) greedy k (length (rest x)) x
  | Plus greedy r1 =>
      matcher r1 (without (groups r1) x)
        (λ y, repeat (λ x k, matcher r1 (without (groups r1) x) k) greedy k
                (length (rest y)) y)
  | Opt greedy r1 =>
      let once := matcher r1 (without (groups r1) x) (progress x k) in
      if greedy then first_of once (k x) else first_of (k x) once
  | Group n r1 => matcher r1 x (λ y, k (capture n (between x y) y))
  | WordBoundary =>
      let a := from_option is_word_char false (before x) in
      let b := from_option is_word_char false (head (rest x)) in
      if xorb a b then k x else None
  end.

(** A match of the whole pattern that starts where [s] starts, [before]
    being the code unit in front: the text matched and the captures. *)
Definition match_at (r : pattern) (before : option N) (s : list N)
    : option (list N * list (nat * list N)) :=
  y ← matcher r (Position before s []) Some;
  Some (between (Position before s []) y, captures y).

(** A string cut into the matches found from left to right and the code
    units between them. *)
Inductive piece :=
  | Unmatched (c : N)
  | Matched (text : list N) (captures : list (nat * list N)).

(** The matches of a pattern with the [g] flag as [replace] and [match]
    find them: the search goes on where the last match ended, one code
    unit further on after an empty match.  [skip] counts the code units
    still inside the last match. *)
Fixpoint scan (r : pattern) (skip : nat) (before : option N) (s : list N) : list piece :=
  match skip with
  | S n =>
      match s with
      | c :: s' => scan r n (Some c) s'
      | [] => []
      end
  | 0 =>
      match match_at r before s with
      | Some (text, caps) =>
          Matched text caps ::
          match s with
          | c :: s' =>
              match length text with
              | 0 => Unmatched c :: scan r 0 (Some c) s'
              | S n => scan r n (Some c) s'
              end
          | [] => []
          end
      | None =>
          match s with
          | c :: s' => Unmatched c :: scan r 0 (Some c) s'
          | [] => []
          end
      end
  end.

(** [s.replace(r, replacement)] for [r] with the [g] flag; the
    replacement is given the text matched. *)
Definition replace_all (r : pattern) (replacement : list N → list N) (s : list N) : list N :=
  mjoin ((λ p, match p with
               | Unmatched c => [c]
               | Matched text _ => replacement text
               end) <$> scan r 0 None s).

(** [s.match(r)] for [r] with the [g] flag: the texts matched, or [null]. *)
Definition match_all (r : pattern) (s : list N) : option (list (list N)) :=
  match omap (λ p, match p with Matched text _ => Some text | Unmatched _ => None end)
             (scan r 0 None s) with
  | [] => None
  | texts => Some texts
  end.

(** The first match at or after the start of [s]. *)
Fixpoint search (r : pattern) (before : option N) (s : list N)
    : option (list N * list (nat * list N)) :=
  match match_at r before s with
  | Some found => Some found
  | None =>
      match s with
      | c :: s' => search r (Some c) s'
      | [] => None
      end
  end.

(** [r.test(s)] for [r] without the [g] flag. *)
Definition test (r : pattern) (s : list N) : bool :=
  bool_decide (is_Some (search r None s)).

(** [s.split(r)], for a pattern without groups.  [current] is the part
    of the string since the end of the last separator; an empty match
    right there is no separator. *)
Fixpoint split_from (r : pattern) (skip : nat) (before : option N) (s current : list N)
    : list (list N) :=
  match s with
  | [] => [current]
  | c :: s' =>
      match skip with
      | S n => split_from r n (Some c) s' current
      | 0 =>
          match match_at r before s with
          | Some (text, _) =>
              match length text, current with
              | S n, _ => current :: split_from r n (Some c) s' []
              | 0, [] => split_from r 0 (Some c) s' [c]
              | 0, _ => current :: split_from r 0 (Some c) s' [c]
              end
          | None => split_from r 0 (Some c) s' (current ++ [c])
          end
      end
  end.

Definition split (r : pattern) (s : list N) : list (list N) :=
  match s with
  | [] => match match_at r None [] with Some _ => [] | None => [[]] end
  | _ => split_from r 0 None s []
  end.

(** *** Facts about matching *)

Lemma without_nil b s : without [] (Position b s []) = Position b s [].
Proof. done. Qed.

(** The text of a match is a prefix of the string. *)
Lemma match_at_prefix r b s text caps :
  match_at r b s = Some (text, caps) → text = take (length text) s.
Proof.
  unfold match_at. destruct (matcher _ _ _) as [y|]; [|done]. simpl.
  intros [= <- <-]. unfold between. simpl. rewrite length_take.
  destruct (decide (length s - length (rest y) ≤ length s)); [|lia].
  by rewrite Nat.min_l.
Qed.

(** Passing over the rest of a match. *)
Lemma scan_skip r n b s :
  n ≤ length s →
  scan r n b s = scan r 0 (if n is 0 then b else last (take n s)) (drop n s).
Proof.
  revert b s. induction n as [|n IH]; intros b s Hn; [done|].
  destruct s as [|c s]; [simpl in Hn; lia|]. simpl in Hn.
  change (scan r (S n) b (c :: s)) with (scan r n (Some c) s).
  rewrite IH by lia. simpl drop. f_equal.
  destruct n as [|n]; [done|]. destruct s as [|d s]; [simpl in Hn; lia|].
  by rewrite !firstn_cons, last_cons_cons.
Qed.

(** How [scan] cuts a string up. *)
Inductive scanned (r : pattern) : option N → list N → list piece → Prop :=
  | scanned_end b : match_at r b [] = None → scanned r b [] []
  | scanned_end_match b caps :
      match_at r b [] = Some ([], caps) → scanned r b [] [Matched [] caps]
  | scanned_unmatched b c s ps :
      match_at r b (c :: s) = None → scanned r (Some c) s ps →
      scanned r b (c :: s) (Unmatched c :: ps)
  | scanned_empty b c s caps ps :
      match_at r b (c :: s) = Some ([], caps) → scanned r (Some c) s ps →
      scanned r b (c :: s) (Matched [] caps :: Unmatched c :: ps)
  | scanned_match b c text s caps ps :
      match_at r b (c :: text ++ s) = Some (c :: text, caps) →
      scanned r (last (c :: text)) s ps →
      scanned r b (c :: text ++ s) (Matched (c :: text) caps :: ps).

Lemma scan_scanned r b s : scanned r b s (scan r 0 b s).
Proof.
  remember (length s) as n eqn:Hn. revert b s Hn.
  induction n as [n IH] using lt_wf_ind. intros b s ->.
  destruct s as [|c s].
  - simpl. destruct (match_at r b []) as [[text caps]|] eqn:Hm; [|by constructor].
    pose proof (match_at_prefix _ _ _ _ _ Hm) as Hp. rewrite take_nil in Hp. subst text.
    by constructor.
  - simpl. destruct (match_at r b (c :: s)) as [[text caps]|] eqn:Hm.
    + pose proof (match_at_prefix _ _ _ _ _ Hm) as Hp.
      destruct text as [|d text]; simpl.
      * apply scanned_empty; [done|]. apply (IH (length s)); [simpl; lia|done].
      * simpl in Hp. injection Hp as -> Hp.
        assert (Hs : s = text ++ drop (length text) s).
        { rewrite Hp at 1. by rewrite take_drop. }
        remember (drop (length text) s) as tail eqn:Htail. clear Htail Hp. subst s.
        rewrite scan_skip by (rewrite length_app; lia).
        rewrite take_app_length, drop_app_length.
        assert ((if length text is 0 then Some c else last text) = last (c :: text)) as ->.
        { destruct text; [done|]. by rewrite last_cons_cons. }
        apply scanned_match; [done|].
        apply (IH (length tail)); [|done]. simpl. rewrite length_app. lia.
    + apply scanned_unmatched; [done|]. apply (IH (length s)); [simpl; lia|done].
Qed.

(** A pattern that nowhere matches leaves the string as it is. *)
Lemma replace_all_no_match r replacement s :
  (∀ b s', match_at r b s' = None) → replace_all r replacement s = s.
Proof.
  intros Hno. unfold replace_all. generalize (None : option N).
  induction s as [|c s IH]; intros b; simpl; rewrite Hno; [done|].
  simpl. by rewrite IH.
Qed.

(** *** Where a match ends and what it captures *)

Lemma group_capture n s x : group n (captures (capture n s x)) = Some s.
Proof. unfold group, capture. simpl. by rewrite bool_decide_eq_true_2. Qed.

Lemma group_filter (keep : nat → bool) m caps :
  keep m = true →
  group m (List.filter (λ c, keep c.1) caps) = group m caps.
Proof.
  intros Hm. unfold group. f_equal. f_equal.
  induction caps as [|[n s] caps IH]; [done|]. simpl.
  destruct (keep n) eqn:Hn; simpl; [by rewrite IH|].
  case_bool_decide as Heq; [congruence|done].
Qed.

Lemma group_capture_ne m n s x :
  m ≠ n → group m (captures (capture n s x)) = group m (captures x).
Proof.
  intros Hne. unfold capture. cbn [captures]. unfold group at 1. cbn [List.filter fst].
  rewrite bool_decide_eq_false_2 by done.
  pose proof (group_filter (λ k, negb (bool_decide (k = n))) m (captures x)) as Hf.
  cbv beta in Hf. apply Hf. by rewrite bool_decide_eq_false_2.
Qed.

Lemma group_without m ns x :
  m ∉ ns → group m (captures (without ns x)) = group m (captures x).
Proof.
  intros Hm. unfold without. cbn [captures].
  pose proof (group_filter (λ k, negb (bool_decide (k ∈ ns))) m (captures x)) as Hf.
  cbv beta in Hf. apply Hf. by rewrite bool_decide_eq_false_2.
Qed.

Lemma definite_groups r n : n ∈ definite r → n ∈ groups r.
Proof.
  induction r; simpl; try done; try (by intros Hn; inversion Hn).
  - rewrite !elem_of_app. tauto.
  - rewrite !elem_of_cons. tauto.
Qed.

(** How a position [y] lies after a position [x] once [r] is matched
    between them. *)
Definition reached (r : pattern) (x y : position) : Prop :=
  length (rest y) + (if nonempty r then 1 else 0) ≤ length (rest x) ∧
  (∀ n, n ∈ definite r → is_Some (group n (captures y))) ∧
  (∀ n, n ∉ groups r → group n (captures y) = group n (captures x)).

Lemma repeat_reaches (iteration : position → continuation → option position)
    (ns : list nat) greedy k n x z :
  (∀ x k z, iteration x k = Some z →
     ∃ y, k y = Some z ∧ length (rest y) ≤ length (rest x) ∧
          ∀ n, n ∉ ns → group n (captures y) = group n (captures x)) →
  repeat iteration greedy k n x = Some z →
  ∃ y, k y = Some z ∧ length (rest y) ≤ length (rest x) ∧
       ∀ n, n ∉ ns → group n (captures y) = group n (captures x).
Proof.
  intros Hit. revert x. induction n as [|n IH]; intros x; cbn [repeat].
  { intros Hk. exists x. eauto. }
  assert (Hagain : iteration x (progress x (repeat iteration greedy k n)) = Some z →
    ∃ y, k y = Some z ∧ length (rest y) ≤ length (rest x) ∧
         ∀ n, n ∉ ns → group n (captures y) = group n (captures x)).
  { intros Hz. apply Hit in Hz as (y & Hy & Hlen & Hcaps). unfold progress in Hy.
    case_decide; [|done]. apply IH in Hy as (y' & Hy' & Hlen' & Hcaps').
    exists y'. split; [done|]. split; [lia|]. intros m Hm.
    by rewrite Hcaps', Hcaps. }
  destruct greedy; unfold first_of.
  - destruct (iteration x _) eqn:Hi; [exact Hagain|].
    intros Hk. exists x. eauto.
  - destruct (k x) eqn:Hk; [intros [= ->]; exists x; eauto|]. apply Hagain.
Qed.

Lemma matcher_reaches r :
  NoDup (groups r) →
  ∀ x k z, matcher r x k = Some z → ∃ y, k y = Some z ∧ reached r x y.
Proof.
  unfold reached.
  induction r as [|c|member|r1 IH1 r2 IH2|r1 IH1 r2 IH2|greedy r1 IH1|greedy r1 IH1
                 |greedy r1 IH1|n r1 IH1|]; intros Hnd x k z; cbn [matcher nonempty definite groups].
  - intros Hk. exists x. split; [done|]. split; [lia|]. split; [by intros n Hn; inversion Hn|done].
  - unfold unit. destruct (rest x) as [|ch rest'] eqn:Hrest; [done|].
    destruct (same c ch); [|done]. intros Hk. eexists. split; [exact Hk|]. simpl.
    split; [lia|]. split; [by intros n Hn; inversion Hn|done].
  - unfold unit. destruct (rest x) as [|ch rest'] eqn:Hrest; [done|].
    destruct (member ch); [|done]. intros Hk. eexists. split; [exact Hk|]. simpl.
    split; [lia|]. split; [by intros n Hn; inversion Hn|done].
  - apply NoDup_app in Hnd as (Hnd1 & Hdisj & Hnd2).
    intros Hz. apply (IH1 Hnd1) in Hz as (y1 & Hz & Hlen1 & Hdef1 & Hcaps1).
    apply (IH2 Hnd2) in Hz as (y2 & Hz & Hlen2 & Hdef2 & Hcaps2).
    exists y2. split; [done|]. split.
    { destruct (nonempty r1), (nonempty r2); simpl; lia. }
    split.
    + intros n [Hn|Hn]%elem_of_app; [|by apply Hdef2].
      rewrite Hcaps2; [by apply Hdef1|]. apply Hdisj. by apply definite_groups.
    + intros n Hn. rewrite elem_of_app in Hn. rewrite Hcaps2, Hcaps1; tauto.
  - apply NoDup_app in Hnd as (Hnd1 & Hdisj & Hnd2). unfold first_of.
    destruct (matcher r1 x k) eqn:Hm1.
    + intros [= ->]. apply (IH1 Hnd1) in Hm1 as (y & Hy & Hlen & _ & Hcaps).
      exists y. split; [done|]. split; [destruct (nonempty r1), (nonempty r2); simpl in *; lia|].
      split; [by intros n Hn; inversion Hn|]. intros n Hn. rewrite elem_of_app in Hn.
      apply Hcaps. tauto.
    + intros Hm2. apply (IH2 Hnd2) in Hm2 as (y & Hy & Hlen & _ & Hcaps).
      exists y. split; [done|]. split; [destruct (nonempty r1), (nonempty r2); simpl in *; lia|].
      split; [by intros n Hn; inversion Hn|]. intros n Hn. rewrite elem_of_app in Hn.
      apply Hcaps. tauto.
  - intros Hz. apply (repeat_reaches _ (groups r1)) in Hz as (y & Hy & Hlen & Hcaps).
    + exists y. split; [done|]. split; [lia|]. split; [by intros n Hn; inversion Hn|done].
    + intros x' k' z' Hz'. apply (IH1 Hnd) in Hz' as (y & Hy & Hlen & _ & Hcaps).
      exists y. split; [done|]. split; [simpl in Hlen; lia|]. intros n Hn.
      by rewrite Hcaps, group_without.
  - intros Hz. apply (IH1 Hnd) in Hz as (y1 & Hz & Hlen1 & _ & Hcaps1).
    apply (repeat_reaches _ (groups r1)) in Hz as (y & Hy & Hlen & Hcaps).
    + exists y. split; [done|]. split; [simpl in Hlen1; lia|].
      split; [by intros n Hn; inversion Hn|]. intros n Hn.
      by rewrite Hcaps, Hcaps1, group_without.
    + intros x' k' z' Hz'. apply (IH1 Hnd) in Hz' as (y & Hy & Hlen & _ & Hcaps).
      exists y. split; [done|]. split; [simpl in Hlen; lia|]. intros n Hn.
      by rewrite Hcaps, group_without.
  - assert (Honce : matcher r1 (without (groups r1) x) (progress x k) = Some z →
      ∃ y, k y = Some z ∧ length (rest y) + 0 ≤ length (rest x) ∧
           (∀ n, n ∈ [] → is_Some (group n (captures y))) ∧
           ∀ n, n ∉ groups r1 → group n (captures y) = group n (captures x)).
    { intros Hz. apply (IH1 Hnd) in Hz as (y & Hy & Hlen & _ & Hcaps).
      unfold progress in Hy. case_decide; [|done].
      exists y. split; [done|]. split; [lia|]. split; [by intros n Hn; inversion Hn|].
      intros n Hn. by rewrite Hcaps, group_without. }
    destruct greedy; unfold first_of.
    + destruct (matcher r1 _ _) eqn:Hm; [exact Honce|].
      intros Hk. exists x. split; [done|]. split; [lia|]. split; [by intros n Hn; inversion Hn|done].
    + destruct (k x) eqn:Hk; [|exact Honce].
      intros [= ->]. exists x. split; [done|]. split; [lia|]. split; [by intros n Hn; inversion Hn|done].
  - apply NoDup_cons in Hnd as [Hn Hnd].
    intros Hz. apply (IH1 Hnd) in Hz as (y & Hy & Hlen & Hdef & Hcaps).
    eexists. split; [exact Hy|]. split; [exact Hlen|]. split.
    + intros m [->|Hm]%elem_of_cons.
      * by rewrite group_capture.
      * rewrite group_capture_ne; [by apply Hdef|]. intros ->. by apply Hn, definite_groups.
    + intros m Hm. rewrite elem_of_cons in Hm.
      rewrite group_capture_ne by tauto. apply Hcaps. tauto.
  - destruct (xorb _ _); [|done]. intros Hk. exists x.
    split; [done|]. split; [lia|]. split; [by intros n Hn; inversion Hn|done].
Qed.

(** A match of a pattern that matches no empty text is not empty, and
    it captures the groups that always take part. *)
Lemma match_at_reached r b s text caps :
  NoDup (groups r) → match_at r b s = Some (text, caps) →
  (nonempty r = true → text ≠ []) ∧ ∀ n, n ∈ definite r → is_Some (group n caps).
Proof.
  intros Hnd. unfold match_at.
  destruct (matcher r _ Some) as [z|] eqn:Hz; [|done]. simpl. intros [= <- <-].
  apply (matcher_reaches r Hnd) in Hz as (y & [= ->] & Hlen & Hdef & _).
  split; [|done]. intros Hne. rewrite Hne in Hlen. unfold between. simpl in *.
  destruct s as [|c s]; [simpl in Hlen; lia|]. simpl in Hlen.
  replace (length (c :: s) - length (rest z)) with (S (length s - length (rest z)))
    by (simpl; lia). done.
Qed.

(** Every match [scan] finds is a match of the pattern somewhere. *)
Lemma scan_matched r skip b s text caps :
  Matched text caps ∈ scan r skip b s →
  ∃ b' s', match_at r b' s' = Some (text, caps).
Proof.
  revert skip b. induction s as [|c s IH]; intros skip b.
  - destruct skip; simpl; [|by intros Hin; inversion Hin].
    destruct (match_at r b []) as [[t cs]|] eqn:Hm; [|by intros Hin; inversion Hin].
    intros Hin. apply list_elem_of_singleton in Hin as [= <- <-]. eauto.
  - destruct skip as [|skip]; simpl; [|by apply IH].
    destruct (match_at r b (c :: s)) as [[t cs]|] eqn:Hm.
    + intros [[= <- <-]|Hin]%elem_of_cons; [eauto|].
      destruct (length t); [|by eapply IH].
      apply elem_of_cons in Hin as [[=]|Hin]. by eapply IH.
    + intros [[=]|Hin]%elem_of_cons. by eapply IH.
Qed.

(** A pattern that starts with a code unit matches only where that
    code unit stands. *)
Lemma match_at_first c r b s :
  ignoreCase = false → head s ≠ Some c → match_at (Seq (Char c) r) b s = None.
Proof.
  intros Hcase Hhead. unfold match_at. cbn [matcher]. unfold unit. cbn [rest].
  destruct s as [|ch s]; [done|]. unfold same. rewrite Hcase.
  rewrite bool_decide_eq_false_2; [done|]. intros ->. by apply Hhead.
Qed.

(** Where the separator matches nowhere, [split] leaves the string whole. *)
Lemma split_no_match r s :
  (∀ b s', s' `suffix_of` s → match_at r b s' = None) → split r s = [s].
Proof.
  intros Hno. unfold split. destruct s as [|c0 s0]; [by rewrite Hno|].
  set (s := c0 :: s0) in *. change [s] with [[] ++ s].
  generalize (@nil N) (None : option N). clearbody s. clear c0 s0.
  induction s as [|c s IH]; intros cur b; simpl.
  { by rewrite app_nil_r. }
  rewrite Hno by done. rewrite IH.
  - by rewrite <- app_assoc.
  - intros b' s' Hs'. apply Hno. by apply suffix_cons_r.
Qed.

End Matcher.

(** Checks against the language: *)
Example replace_empty_matches :
  replace_all false (Star true (Char 97)) (λ _, lit "-") (lit "ab") = lit "--b-".
Proof. vm_compute. reflexivity. Qed.

Example replace_lazy :
  replace_all true (Seq (Lit (lit "<b")) (Seq (Star false (Class any)) (Lit (lit "/b>"))))
    (λ _, []) (lit "x<B>1</b>y<b>2</B>z</b>") = lit "xyz</b>".
Proof. vm_compute. reflexivity. Qed.

Example split_runs :
  split false (Seq (Char 10) (Plus true (Char 10))) (LF ++ lit "a" ++ LF ++ LF ++ LF ++ lit "b" ++ LF)
  = [LF ++ lit "a"; lit "b" ++ LF].
Proof. vm_compute. reflexivity. Qed.

End RegExp.

(** ** Text out of HTML: [stripHtml] *)

Module Html.
Import JsString RegExp.

(** [/<script[\s\S]*?<\/script>/gi] *)
Definition script_element : pattern :=
  Seq (Lit (lit "<script")) (Seq (Star false (Class any)) (Lit (lit "</script>"))).

(** [/<style[\s\S]*?<\/style>/gi] *)
Definition style_element : pattern :=
  Seq (Lit (lit "<style")) (Seq (Star false (Class any)) (Lit (lit "</style>"))).

(** [/<\/?[^>]+>/g] *)
Definition tag : pattern :=
  Seq (Char 60) (Seq (Opt true (Char 47)) (Seq (Plus true (Class (none_of [62%N]))) (Char 62))).

(** [/\s+/g] *)
Definition white_space_run : pattern := Plus true (Class space).

Definition stripHtml (html : list N) : list N :=
  trim
    (replace_all false white_space_run (λ _, lit " ")
       (replace_all false tag (λ _, lit " ")
          (replace_all true style_element (λ _, [])
             (replace_all true script_element (λ _, []) html)))).

(** Every white space of [s] is a space, and no white space follows it. *)
Fixpoint collapsed (s : list N) : Prop :=
  match s with
  | [] => True
  | c :: s' =>
      (is_white_space c = true →
       c = 32%N ∧ ∀ d, head s' = Some d → is_white_space d = false) ∧
      collapsed s'
  end.

(** *** The white space left *)

Lemma repeat_class_greedy member n b s :
  length s ≤ n →
  ∃ run tail b',
    s = run ++ tail ∧ Forall (λ c, member c = true) run ∧
    (∀ c, head tail = Some c → member c = false) ∧
    repeat (λ x k, unit member (without [] x) k) true Some n
      (Position b s []) = Some (Position b' tail []).
Proof.
  revert b s. induction n as [|n IH]; intros b s Hn.
  - destruct s; [|simpl in Hn; lia]. by exists [], [], b.
  - destruct s as [|c s].
    { by exists [], [], b. }
    cbn [repeat]. unfold unit at 1. cbn [without rest captures].
    destruct (member c) eqn:Hc; cbn [first_of].
    + unfold progress. cbn [rest length List.filter]. rewrite decide_True by lia.
      destruct (IH (Some c) s) as (run & tail & b' & -> & Hrun & Htail & ->).
      { simpl in Hn. lia. }
      exists (c :: run), tail, b'. split; [done|]. split; [by constructor|]. done.
    + exists [], (c :: s), b. split; [done|]. split; [done|]. split; [|done].
      by intros c' [= <-].
Qed.

Lemma match_white_space_run b s :
  match s with
  | c :: s' =>
      if is_white_space c then
        ∃ run tail,
          s' = run ++ tail ∧ Forall (λ c, is_white_space c = true) run ∧
          (∀ c, head tail = Some c → is_white_space c = false) ∧
          match_at false white_space_run b s = Some (c :: run, [])
      else match_at false white_space_run b s = None
  | [] => match_at false white_space_run b s = None
  end.
Proof.
  unfold match_at, white_space_run. cbn [matcher groups].
  destruct s as [|c s]; [done|]. destruct (is_white_space c) eqn:Hc.
  2: { unfold unit. cbn [without rest captures before List.filter]. unfold space.
       by rewrite Hc. }
  destruct (repeat_class_greedy is_white_space (length s) (Some c) s (le_n _))
    as (run & tail & b' & -> & Hrun & Htail & Hrepeat).
  exists run, tail. split; [done|]. split; [done|]. split; [done|].
  unfold unit at 1. cbn [without rest captures before List.filter]. unfold space at 1.
  rewrite Hc. cbn [rest]. unfold space. rewrite Hrepeat. cbn [mbind option_bind]. unfold between. cbn [rest captures].
  replace (length (c :: run ++ tail) - length tail) with (S (length run))
    by (simpl; rewrite length_app; lia).
  by rewrite firstn_cons, take_app_length.
Qed.

(** Each run of white space has become one space. *)
Lemma collapsed_scanned b s ps :
  scanned false white_space_run b s ps →
  let out := mjoin ((λ p, match p with
                          | Unmatched c => [c]
                          | Matched _ _ => lit " "
                          end) <$> ps) in
  collapsed out ∧
  ∀ d, head out = Some d → is_white_space d = true →
       ∃ c, head s = Some c ∧ is_white_space c = true.
Proof.
  induction 1 as [b Hm|b caps Hm|b c s ps Hm _ [IH1 IH2]|b c s caps ps Hm _ _
                 |b c text s caps ps Hm _ [IH1 IH2]]; simpl.
  - done.
  - pose proof (match_white_space_run b []) as Hw. simpl in Hw. congruence.
  - pose proof (match_white_space_run b (c :: s)) as Hw. simpl in Hw.
    destruct (is_white_space c) eqn:Hc.
    { destruct Hw as (run & tail & _ & _ & _ & Hw). congruence. }
    split; [split; [congruence|done]|]. intros d [= <-]. congruence.
  - pose proof (match_white_space_run b (c :: s)) as Hw. simpl in Hw.
    destruct (is_white_space c); [|congruence].
    destruct Hw as (run & tail & _ & _ & _ & Hw). congruence.
  - pose proof (match_white_space_run b (c :: text ++ s)) as Hw. simpl in Hw.
    destruct (is_white_space c) eqn:Hc; [|congruence].
    destruct Hw as (run & tail & Heq & _ & Htail & Hw).
    rewrite Hw in Hm. injection Hm as -> _. apply app_inv_head in Heq as ->.
    split.
    + split; [|done]. intros _. split; [done|]. intros d Hd.
      destruct (is_white_space d) eqn:Hws; [|done].
      destruct (IH2 d Hd Hws) as (c' & Hc' & Hws'). by rewrite (Htail c' Hc') in Hws'.
    + intros d [= <-] _. eauto.
Qed.

Lemma collapsed_replace_white_space_run s :
  collapsed (replace_all false white_space_run (λ _, lit " ") s).
Proof. apply (collapsed_scanned None s), scan_scanned. Qed.

Lemma collapsed_app_inv x y : collapsed (x ++ y) → collapsed y.
Proof. induction x as [|c x IH]; [done|]. intros [_ Hx]. by apply IH. Qed.

Lemma collapsed_trimStart s : collapsed s → collapsed (trimStart s).
Proof.
  induction s as [|c s IH]; [done|]. intros Hs. simpl.
  destruct (is_white_space c); [|done]. apply IH, Hs.
Qed.

Lemma collapsed_app_l x y : collapsed (x ++ y) → collapsed x.
Proof.
  induction x as [|c x IH]; [done|]. intros [Hc Hx]. split; [|by apply IH].
  intros Hws. destruct (Hc Hws) as [-> Hnext]. split; [done|].
  intros d Hd. apply Hnext. by destruct x.
Qed.

Lemma trimEnd_split s :
  ∃ t, s = trimEnd s ++ t ∧ forallb is_white_space t = true.
Proof.
  induction s as [|c s (t & Hs & Ht)]; [by exists []|]. simpl.
  destruct (trimEnd s) as [|d u] eqn:Hu.
  - destruct (is_white_space c) eqn:Hc.
    + exists (c :: s). split; [done|]. simpl. rewrite Hc. simpl in Hs. by rewrite Hs.
    + exists t. split; [|done]. simpl in *. by rewrite <- Hs.
  - exists t. split; [|done]. simpl in *. congruence.
Qed.

Lemma trimEnd_last s c : last (trimEnd s) = Some c → is_white_space c = false.
Proof.
  induction s as [|d s IH]; [done|]. simpl.
  destruct (trimEnd s) as [|e u] eqn:Hu.
  - destruct (is_white_space d) eqn:Hd; [done|]. by intros [= <-].
  - rewrite last_cons_cons. apply IH.
Qed.

Lemma trimStart_split s :
  ∃ t, s = t ++ trimStart s ∧
       ∀ c, head (trimStart s) = Some c → is_white_space c = false.
Proof.
  induction s as [|c s (t & Hs & Ht)]; [by exists []|]. simpl.
  destruct (is_white_space c) eqn:Hc.
  - exists (c :: t). split; [by rewrite <- app_comm_cons, <- Hs|done].
  - exists []. split; [done|]. by intros d [= <-].
Qed.

Lemma collapsed_elem s c : collapsed s → c ∈ s → is_white_space c = true → c = 32%N.
Proof.
  induction s as [|d s IH]; [by intros _ Hin; inversion Hin|].
  intros [Hd Hs] Hin Hws. apply elem_of_cons in Hin as [->|Hin]; [by apply Hd|by apply IH].
Qed.

Lemma collapsed_next s i c :
  collapsed s → s !! i = Some c → is_white_space c = true →
  ∀ d, s !! S i = Some d → is_white_space d = false.
Proof.
  revert i. induction s as [|e s IH]; intros i; [done|]. intros [He Hs].
  destruct i as [|i]; simpl.
  - intros [= ->] Hws d Hd. apply (proj2 (He Hws)). by destruct s; simplify_eq/=.
  - by apply IH.
Qed.

Lemma stripHtml_collapsed (html : list N) :
  let text := stripHtml html in
  collapsed text ∧
  (∀ c, head text = Some c → is_white_space c = false) ∧
  (∀ c, last text = Some c → is_white_space c = false).
Proof.
  intros text. subst text. unfold stripHtml.
  set (spaced := replace_all false white_space_run _ _).
  pose proof (collapsed_replace_white_space_run
    (replace_all false tag (λ _, lit " ")
       (replace_all true style_element (λ _, [])
          (replace_all true script_element (λ _, []) html)))) as Hspaced.
  fold spaced in Hspaced. clearbody spaced. unfold trim.
  destruct (trimEnd_split spaced) as (t1 & Ht1 & _).
  pose proof (trimEnd_last spaced) as Hlast.
  destruct (trimStart_split (trimEnd spaced)) as (t2 & Ht2 & Hhead).
  set (text := trimStart (trimEnd spaced)) in *.
  split; [|split; [exact Hhead|]].
  - apply (collapsed_app_inv t2). rewrite <- Ht2. apply (collapsed_app_l _ t1).
    by rewrite <- Ht1.
  - intros c Hc. apply Hlast. rewrite Ht2. destruct text; [done|].
    by rewrite last_app_cons.
Qed.

Lemma stripHtml_trim (html : list N) : trim (stripHtml html) = stripHtml html.
Proof.
  destruct (stripHtml_collapsed html) as (_ & Hhead & Hlast). by apply Gmail.trim_keep.
Qed.

Lemma stripHtml_no_line_feed (html : list N) : 10%N ∉ stripHtml html.
Proof.
  destruct (stripHtml_collapsed html) as (Hcol & _). intros Hin.
  by apply (collapsed_elem _ _ Hcol) in Hin.
Qed.

(** X13.  The text [stripHtml] returns holds no white space but single
    spaces between two other code units: no line break, tab or
    no-break space is left, no two spaces follow each other, none comes
    first or last.  So trimming the text again changes nothing. *)
Theorem stripHtml_white_space (html : list N) :
  let text := stripHtml html in
  (∀ c, c ∈ text → is_white_space c = true → c = 32%N) ∧
  (∀ i c, text !! i = Some c → is_white_space c = true →
     0 < i ∧ ∃ d, text !! S i = Some d ∧ is_white_space d = false) ∧
  trim text = text.
Proof.
  intros text. destruct (stripHtml_collapsed html) as (Hcol & Hhead & Hlast).
  fold text in Hcol, Hhead, Hlast. clearbody text.
  split; [|split].
  - intros c. by apply collapsed_elem.
  - intros i c Hi Hws. split.
    + destruct i; [|lia]. destruct text as [|d u]; [done|]. injection Hi as ->.
      rewrite (Hhead c eq_refl) in Hws. done.
    + destruct (text !! S i) as [d|] eqn:Hd.
      * exists d. split; [done|]. exact (collapsed_next text i c Hcol Hi Hws d Hd).
      * exfalso. apply lookup_ge_None in Hd.
        assert (Hl : last text = Some c).
        { rewrite last_lookup. rewrite <- Hi. f_equal.
          apply lookup_lt_Some in Hi. lia. }
        rewrite (Hlast c Hl) in Hws. done.
  - apply Gmail.trim_keep; [exact Hhead|exact Hlast].
Qed.

Example stripHtml_sample :
  stripHtml (lit "<p>Hello,  <b>world</b></p><script>x<y</script> <style>p{}</style>" ++ LF ++ lit "bye < now")
  = lit "Hello, world bye < now".
Proof. vm_compute. reflexivity. Qed.

End Html.

(** ** Reading a message: [integrations/gmail.ts] *)

Module GmailMessage.
Import JsString.

(** A header of a message. *)
Record header := Header { name : list N; value : list N }.

(** A part of a message as the provider's API describes it: its
    [headers], its [mimeType], its [body.data] and its [parts]; an entry
    of [parts] that is no object is [None]. *)
#[warnings="-register-all"]
Inductive payload :=
  Payload (headers : option (list header)) (mimeType bodyData : option (list N))
          (parts : list (option payload)).

Definition headers_of (p : payload) : option (list header) :=
  match p with Payload headers _ _ _ => headers end.

(** [res.data] of [gmail.users.messages.get], as far as it is read. *)
Record message := Message {
  id : option (list N);
  threadId : option (list N);
  snippet : option (list N);
  internalDate : option (list N);
  payload_of : option payload
}.

Section Decode.
(** [Base64.decode] of the js-base64 package. *)
Variable Base64_decode : list N → list N.

(** [bodyData && mimeType === targetMimeType] *)
Definition direct_match (mimeType bodyData : option (list N)) (targetMimeType : list N)
    : bool :=
  Boolean bodyData && bool_decide (mimeType = Some targetMimeType).

(** [extractContentByMimeType] on a payload that is an object. *)
Fixpoint extract_from (p : payload) (targetMimeType : list N) : option (list N) :=
  match p with
  | Payload _ mimeType bodyData parts =>
      if direct_match mimeType bodyData targetMimeType
      then Some (Base64_decode (nullish bodyData []))
      else
        (fix search (parts : list (option payload)) : option (list N) :=
           match parts with
           | [] => None
           | part :: parts =>
               let content :=
                 match part with
                 | Some part => extract_from part targetMimeType
                 | None => None
                 end in
               if Boolean content then content else search parts
           end) parts
  end.

Definition extractContentByMimeType (p : option payload) (targetMimeType : list N)
    : option (list N) :=
  match p with
  | None => None
  | Some p => extract_from p targetMimeType
  end.

(** [extractEmailContent]: the text and the HTML of a message. *)
Definition extractEmailContent (p : option payload) : list N * option (list N) :=
  let plainText := extractContentByMimeType p (lit "text/plain") in
  let htmlContent := extractContentByMimeType p (lit "text/html") in
  let text :=
    match plainText with
    | Some plainText => plainText
    | None => if Boolean htmlContent then Html.stripHtml (nullish htmlContent []) else []
    end in
  (text, htmlContent).

(** [headers[h.name] = h.value] on an object that starts out empty: a
    string assigned to [__proto__] is dropped. *)
Definition set_header (headers : gmap (list N) (list N)) (h : header)
    : gmap (list N) (list N) :=
  if bool_decide (name h = lit "__proto__") then headers
  else <[name h := value h]> headers.

(** The message [gmailGetMessageText] makes of the provider's answer;
    [headers] holds the own properties of the object. *)
Definition message_content (data : option message) (messageId : list N)
    : GmailMessageContent.t :=
  let payload := data ≫= payload_of in
  let payloadHeaders := default [] (payload ≫= headers_of) in
  let headers := foldl set_header ∅ payloadHeaders in
  let '(text, html) := extractEmailContent payload in
  GmailMessageContent.Build
    (default messageId (data ≫= id))
    (data ≫= threadId) (data ≫= snippet) (data ≫= internalDate)
    headers text html.

(** The matches [extractContentByMimeType] can come upon, in the order
    of the document: the parts of the wanted type that have a body, not
    looking inside such a part. *)
Fixpoint candidates (p : payload) (targetMimeType : list N) : list (list N) :=
  match p with
  | Payload _ mimeType bodyData parts =>
      if direct_match mimeType bodyData targetMimeType
      then [Base64_decode (nullish bodyData [])]
      else
        (fix all (parts : list (option payload)) : list (list N) :=
           match parts with
           | [] => []
           | Some part :: parts => candidates part targetMimeType ++ all parts
           | None :: parts => all parts
           end) parts
  end.

(** *** The part that is read *)

Lemma extract_from_candidates (p : payload) (targetMimeType : list N) :
  (if Boolean (extract_from p targetMimeType) then extract_from p targetMimeType else None)
  = head (filter (λ c, c ≠ []) (candidates p targetMimeType)).
Proof.
  revert p. fix IH 1. intros [headers mimeType bodyData parts]. cbn [extract_from candidates].
  destruct (direct_match mimeType bodyData targetMimeType).
  { destruct (Base64_decode _) as [|c s] eqn:Hd; [done|].
    rewrite filter_cons_True by done. done. }
  induction parts as [|[part|] parts IHparts]; [done| |].
  - pose proof (IH part) as IHpart. rewrite filter_app.
    destruct (Boolean (extract_from part targetMimeType)) eqn:Hb.
    + rewrite Hb, IHpart.
      destruct (filter _ (candidates part targetMimeType)); [|done].
      by rewrite IHpart in Hb.
    + destruct (filter _ (candidates part targetMimeType)); [|done]. exact IHparts.
  - exact IHparts.
Qed.

(** X14.  [extractContentByMimeType] returns the decoded body of the
    payload itself when that has the wanted type and a body; otherwise
    the first decoded body that is not empty, in the order of the
    document, among the parts of the wanted type that have a body. *)
Theorem extractContentByMimeType_first_not_empty
    (headers : option (list header)) (mimeType bodyData : option (list N))
    (parts : list (option payload)) (targetMimeType : list N) :
  extractContentByMimeType (Some (Payload headers mimeType bodyData parts)) targetMimeType =
    if direct_match mimeType bodyData targetMimeType
    then Some (Base64_decode (nullish bodyData []))
    else head (filter (λ c, c ≠ [])
                 (candidates (Payload headers mimeType bodyData parts) targetMimeType)).
Proof.
  destruct (direct_match mimeType bodyData targetMimeType) eqn:Hd.
  { unfold extractContentByMimeType. cbn [extract_from]. by rewrite Hd. }
  rewrite <- extract_from_candidates. unfold extractContentByMimeType.
  cbn [extract_from]. rewrite Hd.
  induction parts as [|part parts IH]; [done|].
  destruct (Boolean (match part with
                     | Some part => extract_from part targetMimeType
                     | None => None
                     end)) eqn:Hb; [by rewrite Hb|]. exact IH.
Qed.

Lemma set_headers_lookup (hs : list header) (k : list N) :
  foldl set_header ∅ hs !! k =
    if bool_decide (k = lit "__proto__") then None
    else value <$> last (filter (λ h, name h = k) hs).
Proof.
  induction hs as [|h hs IH] using rev_ind.
  { simpl. rewrite lookup_empty. by case_bool_decide. }
  rewrite foldl_app, filter_app. simpl. unfold set_header at 1.
  destruct (decide (name h = lit "__proto__")) as [Hh|Hh].
  - rewrite bool_decide_eq_true_2 by done. rewrite IH. case_bool_decide as Hk; [done|].
    rewrite filter_cons_False, filter_nil, app_nil_r by congruence. done.
  - rewrite (bool_decide_eq_false_2 (name h = _)) by done.
    destruct (decide (name h = k)) as [<-|Hne].
    + rewrite lookup_insert_eq, bool_decide_eq_false_2 by done.
      rewrite filter_cons_True by done. by rewrite filter_nil, last_snoc.
    + rewrite lookup_insert_ne by done. rewrite IH.
      by rewrite filter_cons_False, filter_nil, app_nil_r.
Qed.

(** X15.  The [headers] object of the message read has, as its own
    property of a name, the value of the last header of that name the
    provider sent: a later header overwrites an earlier one of the same
    name.  It has no own property of a name no header bears, and none
    named [__proto__]. *)
Theorem message_content_headers (data : option message) (messageId k : list N) :
  GmailMessageContent.headers (message_content data messageId) !! k =
    if bool_decide (k = lit "__proto__") then None
    else value <$> last (filter (λ h, name h = k)
                           (default [] ((data ≫= payload_of) ≫= headers_of))).
Proof.
  unfold message_content. cbv zeta. destruct (extractEmailContent _) as [text html].
  cbn [GmailMessageContent.headers]. apply set_headers_lookup.
Qed.

End Decode.
End GmailMessage.

(** ** The articles of a message: [parseEmailToArticles] *)

Module EmailArticle.
Record t := Build {
  text : list N;
  link : option (list N);
  linkText : option (list N)
}.
End EmailArticle.

Module EmailLink.
Record t := Build {
  text : list N;
  url : list N
}.
End EmailLink.

Module StructuredEmailContent.
Record t := Build {
  subject : option (list N);
  from : option (list N);
  date : option (list N);
  articles : list EmailArticle.t;
  allLinks : list EmailLink.t
}.
End StructuredEmailContent.

Module EmailArticles.
Import JsString RegExp.

(** What a call comes to: a value returned, a value thrown, or a loop
    that does not end. *)
Inductive outcome (A : Type) :=
  | Returns (v : A)
  | Throws (e : Js.exn)
  | Loops.
Arguments Returns {A} v.
Arguments Throws {A} e.
Arguments Loops {A}.

(** [s.startsWith(p)] *)
Definition startsWith (s p : list N) : bool := bool_decide (take (length p) s = p).

(** [s.indexOf(sub)]; [None] stands for [-1]. *)
Fixpoint indexOf (s sub : list N) : option nat :=
  if startsWith s sub then Some 0
  else
    match s with
    | [] => None
    | _ :: s' => S <$> indexOf s' sub
    end.

(** [s.substring(start, finish)] for two indices that are not negative. *)
Definition substring (s : list N) (start finish : nat) : list N :=
  let a := start `min` length s in
  let b := finish `min` length s in
  take (a `max` b - a `min` b) (drop (a `min` b) s).

(** [s.slice(-n)] *)
Definition slice_from_end (n : nat) (s : list N) : list N := drop (length s - n) s.

(** [\s*] *)
Definition spaces : pattern := Star true (Class space).

Definition READ_MORE_PATTERNS : list pattern :=
  [ Seq (Lit (lit "read")) (Seq spaces (Lit (lit "more")));
    Seq (Lit (lit "continue")) (Seq spaces (Lit (lit "reading")));
    Seq (Lit (lit "full")) (Seq spaces (Group 1 (Alt (Lit (lit "story")) (Lit (lit "article")))));
    Seq (Lit (lit "learn")) (Seq spaces (Lit (lit "more")));
    Seq (Lit (lit "see")) (Seq spaces (Lit (lit "more")));
    Seq (Lit (lit "view")) (Seq spaces (Group 1 (Alt (Lit (lit "full")) (Lit (lit "more")))));
    Seq (Lit (lit "click")) (Seq spaces (Lit (lit "here")));
    Seq (Lit (lit "more")) (Seq spaces (Lit (lit "details")));
    Seq (Lit (lit "read")) (Seq spaces (Seq (Lit (lit "the"))
      (Seq spaces (Group 1 (Alt (Lit (lit "full")) (Lit (lit "rest")))))))
  ].

(** The quotation mark and the apostrophe. *)
Definition quotes : list N := [34; 39]%N.

(** [/<a[^>]+href=[Q]([^Q]+)[Q][^>]*>([\s\S]*?)<\/a>/gi], where [Q]
    stands for the two code units of [quotes]. *)
Definition linkRegex : pattern :=
  Seq (Lit (lit "<a"))
 (Seq (Plus true (Class (none_of [62%N])))
 (Seq (Lit (lit "href="))
 (Seq (Class (one_of quotes))
 (Seq (Group 1 (Plus true (Class (none_of quotes))))
 (Seq (Class (one_of quotes))
 (Seq (Star true (Class (none_of [62%N])))
 (Seq (Char 62)
 (Seq (Group 2 (Star false (Class any)))
      (Lit (lit "</a>")))))))))).

(** The turns of the loop [while ((match = linkRegex.exec(html)) !== null)]
    over the matches in [html], the links found so far being [links].
    [exec] starts where the last match ended: after an empty match it
    would find that match again. *)
Fixpoint links_of (pieces : list piece) (links : list EmailLink.t)
    : outcome (list EmailLink.t) :=
  match pieces with
  | [] => Returns links
  | Unmatched _ :: pieces => links_of pieces links
  | Matched matched caps :: pieces =>
      let url := group 1 caps in
      match group 2 caps with
      | None =>
          Throws (Js.Error (lit "Cannot read properties of undefined (reading 'replace')"))
      | Some inner =>
          let text := trim (Html.stripHtml inner) in
          let links :=
            if Boolean url && negb (startsWith (nullish url []) (lit "mailto:"))
               && negb (startsWith (nullish url []) (lit "#"))
            then links ++ [EmailLink.Build text (nullish url [])]
            else links in
          match matched with
          | [] => Loops
          | _ => links_of pieces links
          end
      end
  end.

Definition extractAllLinks (html : list N) : outcome (list EmailLink.t) :=
  links_of (scan true linkRegex 0 None html) [].

Definition isReadMoreLink (linkText : list N) : bool :=
  existsb (λ pattern, test true pattern linkText) READ_MORE_PATTERNS.

(** [/\n\n+/] *)
Definition paragraph_break : pattern := Seq (Char 10) (Plus true (Char 10)).

(** One turn of the loop over the links that ask to read more:
    the article pushed, if one is. *)
Definition article_of (html : list N) (link : EmailLink.t) : option EmailArticle.t :=
  match indexOf html (EmailLink.url link) with
  | None => None
  | Some linkIndex =>
      let beforeLink :=
        substring html (Z.to_nat (Z.max 0 (Z.of_nat linkIndex - 2000))) linkIndex in
      let textContent := trim (Html.stripHtml beforeLink) in
      let paragraphs :=
        List.filter (λ p, 50 <? length p) (split false paragraph_break textContent) in
      let articleText :=
        match last paragraphs with
        | Some paragraph => paragraph
        | None => slice_from_end 500 textContent
        end in
      if 20 <? length articleText
      then Some (EmailArticle.Build (trim articleText) (Some (EmailLink.url link))
                   (Some (EmailLink.text link)))
      else None
  end.

Definition parseEmailToArticles (message : GmailMessageContent.t)
    : outcome StructuredEmailContent.t :=
  let headers := GmailMessageContent.headers message in
  let result := StructuredEmailContent.Build
    (headers !! lit "Subject") (headers !! lit "From") (headers !! lit "Date") in
  if negb (Boolean (GmailMessageContent.html message)) then
    Returns (result
      (if Boolean (Some (GmailMessageContent.text message))
       then [EmailArticle.Build (GmailMessageContent.text message) None None]
       else [])
      [])
  else
    let html := nullish (GmailMessageContent.html message) [] in
    match extractAllLinks html with
    | Returns allLinks =>
        let readMoreLinks :=
          List.filter (λ link, isReadMoreLink (EmailLink.text link)) allLinks in
        let articles := omap (article_of html) readMoreLinks in
        let articles :=
          match articles with
          | [] =>
              let mainLink :=
                List.find (λ l, startsWith (EmailLink.url l) (lit "http")
                                && (0 <? length (EmailLink.text l))) allLinks in
              [EmailArticle.Build (GmailMessageContent.text message)
                 (EmailLink.url <$> mainLink) (EmailLink.text <$> mainLink)]
          | _ => articles
          end in
        Returns (result articles allLinks)
    | Throws e => Throws e
    | Loops => Loops
    end.

Example parseEmailToArticles_sample :
  parseEmailToArticles
    (GmailMessageContent.Build (lit "m1") None None None
       {[ lit "Subject" := lit "News" ]} (lit "plain")
       (Some (lit "<p>Rates rose again this week, and so did the price of bread.</p><A class='x' HREF='https://a.example/1'>Read  <b>more</b></A> <a href='#top'>top</a>")))
  = Returns (StructuredEmailContent.Build (Some (lit "News")) None None
      [EmailArticle.Build
         (lit "Rates rose again this week, and so did the price of bread. <A class='x' HREF='")
         (Some (lit "https://a.example/1")) (Some (lit "Read more"))]
      [EmailLink.Build (lit "Read more") (lit "https://a.example/1")]).
Proof. vm_compute. reflexivity. Qed.

(** *** The links found *)

Lemma linkRegex_match b s matched caps :
  match_at true linkRegex b s = Some (matched, caps) →
  matched ≠ [] ∧ is_Some (group 2 caps).
Proof.
  intros Hm. apply match_at_reached in Hm as [Hne Hdef].
  - split; [by apply Hne|]. apply Hdef. vm_compute. set_solver.
  - by apply (bool_decide_unpack _).
Qed.

(** A link [extractAllLinks] keeps. *)
Definition kept (l : EmailLink.t) : Prop :=
  EmailLink.url l ≠ [] ∧
  startsWith (EmailLink.url l) (lit "mailto:") = false ∧
  startsWith (EmailLink.url l) (lit "#") = false ∧
  trim (EmailLink.text l) = EmailLink.text l.

Lemma links_of_returns pieces links :
  (∀ matched caps, Matched matched caps ∈ pieces →
     matched ≠ [] ∧ is_Some (group 2 caps)) →
  Forall kept links →
  ∃ links', links_of pieces links = Returns links' ∧ Forall kept links'.
Proof.
  revert links. induction pieces as [|[c|matched caps] pieces IH]; intros links Hm Hl.
  - by exists links.
  - apply IH; [|done]. intros matched caps Hin. apply Hm. by right.
  - destruct (Hm matched caps) as [Hne [inner Hinner]]; [by left|].
    cbn [links_of]. rewrite Hinner.
    destruct matched as [|c matched]; [done|]. apply IH.
    { intros matched' caps' Hin. apply Hm. by right. }
    destruct (group 1 caps) as [[|d url]|]; cbn [Boolean andb nullish]; try done.
    destruct (startsWith (d :: url) (lit "mailto:")) eqn:Hmailto; cbn [negb andb]; [done|].
    destruct (startsWith (d :: url) (lit "#")) eqn:Hanchor; cbn [negb andb]; [done|].
    apply Forall_app. split; [done|]. apply Forall_singleton.
    split; [done|]. split; [done|]. split; [done|]. cbn [EmailLink.text].
    by rewrite Html.stripHtml_trim, Html.stripHtml_trim.
Qed.

(** X16.  [extractAllLinks] returns for every text: its loop comes to an
    end and nothing is thrown.  No link it returns has an empty address
    or one that starts with [mailto:] or [#], and the text of a link is
    trimmed. *)
Theorem extractAllLinks_returns (html : list N) :
  ∃ links, extractAllLinks html = Returns links ∧
    Forall (λ l, EmailLink.url l ≠ [] ∧
                 startsWith (EmailLink.url l) (lit "mailto:") = false ∧
                 startsWith (EmailLink.url l) (lit "#") = false ∧
                 trim (EmailLink.text l) = EmailLink.text l) links.
Proof.
  apply links_of_returns; [|done]. intros matched caps Hin.
  apply scan_matched in Hin as (b & s & Hm). by eapply linkRegex_match.
Qed.

(** *** The text of an article *)

Lemma split_paragraphs (html : list N) :
  split false paragraph_break (Html.stripHtml html) = [Html.stripHtml html].
Proof.
  apply split_no_match. intros b s' [pre Hs']. apply match_at_first; [done|].
  intros Hhead. apply (Html.stripHtml_no_line_feed html). rewrite Hs'.
  destruct s' as [|c s']; [done|]. injection Hhead as ->. set_solver.
Qed.

Lemma article_of_whole_context (html : list N) (link : EmailLink.t) :
  article_of html link =
    match indexOf html (EmailLink.url link) with
    | None => None
    | Some linkIndex =>
        let context :=
          Html.stripHtml
            (substring html (Z.to_nat (Z.max 0 (Z.of_nat linkIndex - 2000))) linkIndex) in
        if 20 <? length context
        then Some (EmailArticle.Build context (Some (EmailLink.url link))
                     (Some (EmailLink.text link)))
        else None
    end.
Proof.
  unfold article_of. destruct (indexOf html (EmailLink.url link)) as [linkIndex|]; [|done].
  cbv zeta. rewrite Html.stripHtml_trim, split_paragraphs.
  set (context := Html.stripHtml _).
  assert (Htext : match last (List.filter (λ p, 50 <? length p) [context]) with
                  | Some paragraph => paragraph
                  | None => slice_from_end 500 context
                  end = context).
  { cbn [List.filter]. destruct (50 <? length context) eqn:Hlen; [done|].
    apply Nat.ltb_ge in Hlen. cbn [last]. unfold slice_from_end.
    by replace (length context - 500) with 0 by lia. }
  rewrite Htext. unfold context. by rewrite Html.stripHtml_trim.
Qed.

(** X17.  The article made for a link that asks to read more has as its
    text all the text of the up to 2000 code units of HTML before the
    first place where the address of the link stands, as [stripHtml]
    gives it, if that is more than 20 code units long: no paragraph is
    picked out of it and nothing is cut off. *)
Theorem article_of_text (html : list N) (link : EmailLink.t) (article : EmailArticle.t) :
  article_of html link = Some article →
  ∃ linkIndex,
    indexOf html (EmailLink.url link) = Some linkIndex ∧
    EmailArticle.text article =
      Html.stripHtml (substring html (linkIndex - 2000) linkIndex) ∧
    20 < length (EmailArticle.text article) ∧
    EmailArticle.link article = Some (EmailLink.url link) ∧
    EmailArticle.linkText article = Some (EmailLink.text link).
Proof.
  rewrite article_of_whole_context.
  destruct (indexOf html (EmailLink.url link)) as [linkIndex|]; [|done]. cbv zeta.
  replace (Z.to_nat (Z.max 0 (Z.of_nat linkIndex - 2000))) with (linkIndex - 2000) by lia.
  destruct (20 <? length _) eqn:Hlen; [|done]. intros [= <-].
  apply Nat.ltb_lt in Hlen. exists linkIndex. by cbn.
Qed.

Lemma article_of_text_witness :
  let html := lit "<p>Rates rose again this week, and so did the price of bread.</p><a href='https://a.example/1'>Read more</a>" in
  let link := EmailLink.Build (lit "Read more") (lit "https://a.example/1") in
  let article :=
    EmailArticle.Build (lit "Rates rose again this week, and so did the price of bread. <a href='")
      (Some (lit "https://a.example/1")) (Some (lit "Read more")) in
  article_of html link = Some article ∧
  ∃ linkIndex,
    indexOf html (EmailLink.url link) = Some linkIndex ∧
    EmailArticle.text article =
      Html.stripHtml (substring html (linkIndex - 2000) linkIndex) ∧
    20 < length (EmailArticle.text article) ∧
    EmailArticle.link article = Some (EmailLink.url link) ∧
    EmailArticle.linkText article = Some (EmailLink.text link).
Proof.
  intros html link article.
  assert (H : article_of html link = Some article) by (vm_compute; reflexivity).
  split; [exact H|]. exact (article_of_text html link article H).
Defined.

(** *** The articles of a message *)

(** X18.  [parseEmailToArticles] returns for every message.  The
    articles are none only for a message with neither HTML nor text, and
    an article that has a link has the address and the text of one of
    the links listed. *)
Theorem parseEmailToArticles_returns (message : GmailMessageContent.t) :
  ∃ result,
    parseEmailToArticles message = Returns result ∧
    (StructuredEmailContent.articles result = [] ↔
       Boolean (GmailMessageContent.html message) = false ∧
       GmailMessageContent.text message = []) ∧
    ∀ article address,
      article ∈ StructuredEmailContent.articles result →
      EmailArticle.link article = Some address →
      ∃ l, l ∈ StructuredEmailContent.allLinks result ∧
           EmailLink.url l = address ∧
           EmailArticle.linkText article = Some (EmailLink.text l).
Proof.
  unfold parseEmailToArticles.
  destruct (Boolean (GmailMessageContent.html message)) eqn:Hhtml; cbn [negb].
  2: { eexists. split; [done|]. cbn. split.
       - destruct (GmailMessageContent.text message); cbn; split; try done.
         by intros [_ ?].
       - intros article address Hin. destruct (GmailMessageContent.text message); cbn in Hin.
         + by inversion Hin.
         + by apply list_elem_of_singleton in Hin as ->. }
  set (html := nullish _ _).
  destruct (links_of_returns (scan true linkRegex 0 None html) []) as (links & Hlinks & _).
  { intros matched caps Hin. apply scan_matched in Hin as (b & s & Hm).
    by eapply linkRegex_match. }
  { done. }
  unfold extractAllLinks. rewrite Hlinks. eexists. split; [done|].
  cbn [StructuredEmailContent.articles StructuredEmailContent.allLinks].
  set (readMoreLinks := List.filter _ links).
  set (mainLink := List.find _ links).
  split.
  - split; [|by intros [? _]]. by destruct (omap _ readMoreLinks).
  - intros article address Hin Hlink.
    destruct (omap (article_of html) readMoreLinks) as [|a articles] eqn:Harticles.
    + apply list_elem_of_singleton in Hin as ->. cbn in Hlink |- *.
      destruct mainLink as [l|] eqn:Hmain; [|done]. injection Hlink as <-.
      apply find_some in Hmain as [Hl _]. exists l. split; [|done].
      by apply list_elem_of_In.
    + rewrite <- Harticles in Hin. apply list_elem_of_omap in Hin as (l & Hl & Ha).
      rewrite article_of_whole_context in Ha.
      destruct (indexOf html (EmailLink.url l)); [|done]. cbv zeta in Ha.
      destruct (20 <? _); [|done]. injection Ha as <-. cbn in Hlink |- *.
      injection Hlink as <-. exists l. split; [|done].
      apply list_elem_of_In, filter_In in Hl as [Hl _]. by apply list_elem_of_In.
Qed.

End EmailArticles.

(** ** The personas of a domain: [config/personaLoader.ts] *)

Module Persona.
Record t := Build {
  name : list N;
  credentials : list N;
  expertise : list (list N);
  speakingStyle : list N
}.
End Persona.

Module DomainConfig.
Record t := Build {
  label : list N;
  keywords : list (list N);
  personas : list Persona.t
}.
End DomainConfig.

Module PersonaLoader.
Import JsString RegExp.

Section Domains.
(** The object of [personas.json], as [Object.entries] lists it. *)
Variable domains : list (list N * DomainConfig.t).
(** [String.prototype.toLowerCase] *)
Variable toLowerCase : list N → list N.

(** [new RegExp(`\\b${escaped}\\b`, "g")]: the backslash that the
    replacement puts before each code unit with a meaning in a pattern
    makes it stand for itself, so the keyword is matched as it is
    written, between two word boundaries. *)
Definition keyword_regex (keyword : list N) : pattern :=
  Seq WordBoundary (Seq (Lit (toLowerCase keyword)) WordBoundary).

(** The score of a domain: the matches of its keywords in the summary. *)
Definition score_of (lowerSummary : list N) (config : DomainConfig.t) : nat :=
  foldl (λ score keyword,
           match match_all false (keyword_regex keyword) lowerSummary with
           | Some matches => score + length matches
           | None => score
           end)
        0 (DomainConfig.keywords config).

(** [scores.sort((a, b) => b.score - a.score)]: the sort of the language
    is stable, so of two domains with the same score the one listed
    first stays first. *)
Fixpoint insert_by_score (s : list N * nat) (sorted : list (list N * nat))
    : list (list N * nat) :=
  match sorted with
  | [] => [s]
  | t :: sorted' =>
      if decide (s.2 < t.2) then t :: insert_by_score s sorted' else s :: sorted
  end.

Definition sort_by_score (scores : list (list N * nat)) : list (list N * nat) :=
  foldr insert_by_score [] scores.

(** [l.slice(0, finish)] for an integer [finish]. *)
Definition slice_to {A} (finish : Z) (l : list A) : list A :=
  take (Z.to_nat (if decide (finish < 0)%Z
                  then Z.max (Z.of_nat (length l) + finish) 0
                  else finish)) l.

Definition MIN_THRESHOLD : nat := 3.

Definition detectDomains (summary : list N) (maxDomains : Z) : list (list N) :=
  let lowerSummary := toLowerCase summary in
  let scores :=
    omap (λ entry : list N * DomainConfig.t,
            if bool_decide (entry.1 = lit "general") then None
            else
              let score := score_of lowerSummary entry.2 in
              if decide (0 < score) then Some (entry.1, score) else None)
         domains in
  let sorted := sort_by_score scores in
  let aboveThreshold := filter (λ s, MIN_THRESHOLD ≤ s.2) sorted in
  match aboveThreshold with
  | [] => [lit "general"]
  | _ => fst <$> slice_to maxDomains aboveThreshold
  end.

(** The names every object inherits. *)
Definition Object_prototype : list (list N) :=
  lit <$> [ "constructor"; "__defineGetter__"; "__defineSetter__"; "hasOwnProperty";
            "__lookupGetter__"; "__lookupSetter__"; "isPrototypeOf";
            "propertyIsEnumerable"; "toString"; "valueOf"; "__proto__";
            "toLocaleString" ]%string.

(** [domains[key]] for a key of the object itself. *)
Definition own (key : list N) : option DomainConfig.t :=
  snd <$> List.find (λ entry, bool_decide (entry.1 = key)) domains.

(** The loop of [getPersonasForDomains].  For a name the object inherits
    [domains[key]] is a function or an object without [personas], and
    spreading [undefined] throws. *)
Fixpoint push_personas (domainKeys : list (list N)) (personas : list Persona.t)
    : list Persona.t + Js.exn :=
  match domainKeys with
  | [] => inl personas
  | key :: domainKeys =>
      match own key with
      | Some domain => push_personas domainKeys (personas ++ DomainConfig.personas domain)
      | None =>
          if bool_decide (key ∈ Object_prototype)
          then inr (Js.Error (lit "Spread syntax requires ...iterable[Symbol.iterator] to be a function"))
          else push_personas domainKeys personas
      end
  end.

Definition getPersonasForDomains (domainKeys : list (list N)) : list Persona.t + Js.exn :=
  push_personas domainKeys [].

(** *** The domains detected *)

(** The keys and scores of the domains other than [general] that reach
    the threshold. *)
Definition contenders (summary : list N) : list (list N * nat) :=
  filter (λ s, s.1 ≠ lit "general" ∧ MIN_THRESHOLD ≤ s.2)
    ((λ entry : list N * DomainConfig.t,
        (entry.1, score_of (toLowerCase summary) entry.2)) <$> domains).

Lemma insert_by_score_Permutation s l : insert_by_score s l ≡ₚ s :: l.
Proof.
  induction l as [|t l IH]; [done|]. simpl. case_decide; [|done].
  rewrite IH. apply Permutation_swap.
Qed.

Lemma sort_by_score_Permutation l : sort_by_score l ≡ₚ l.
Proof.
  induction l as [|s l IH]; [done|]. simpl.
  by rewrite insert_by_score_Permutation, IH.
Qed.

Definition by_score : relation (list N * nat) := λ a b, b.2 ≤ a.2.

Lemma insert_by_score_sorted s l :
  StronglySorted by_score l → StronglySorted by_score (insert_by_score s l).
Proof.
  induction l as [|t l IH]; intros Hl; simpl.
  { repeat constructor. }
  apply StronglySorted_cons in Hl as [Ht Hl]. case_decide as Hs.
  - apply StronglySorted_cons. split; [|by apply IH].
    rewrite insert_by_score_Permutation. constructor; [|done]. unfold by_score. lia.
  - apply StronglySorted_cons. split; [|by apply StronglySorted_cons].
    constructor; [unfold by_score; lia|].
    eapply Forall_impl; [exact Ht|]. unfold by_score. intros u Hu. lia.
Qed.

Lemma sort_by_score_sorted l : StronglySorted by_score (sort_by_score l).
Proof.
  induction l as [|s l IH]; [constructor|]. simpl. by apply insert_by_score_sorted.
Qed.

Lemma filter_sorted (P : list N * nat → Prop) `{∀ s, Decision (P s)} l :
  StronglySorted by_score l → StronglySorted by_score (filter P l).
Proof.
  induction 1 as [|s l Hl IH Hs]; [constructor|].
  rewrite filter_cons. case_decide; [|done].
  constructor; [done|]. apply Forall_forall. intros t [_ Ht]%list_elem_of_filter.
  by eapply Forall_forall in Hs.
Qed.

Lemma scores_contenders summary :
  filter (λ s : list N * nat, MIN_THRESHOLD ≤ s.2)
    (omap (λ entry : list N * DomainConfig.t,
             if bool_decide (entry.1 = lit "general") then None
             else
               let score := score_of (toLowerCase summary) entry.2 in
               if decide (0 < score) then Some (entry.1, score) else None)
          domains)
  = contenders summary.
Proof.
  unfold contenders. generalize domains. intros l.
  induction l as [|[key config] l IH]; [done|].
  rewrite fmap_cons. cbn [omap list_omap fst snd]. unfold MIN_THRESHOLD in *.
  destruct (decide (key = lit "general")) as [Hkey|Hkey];
    [rewrite bool_decide_eq_true_2 by done|rewrite bool_decide_eq_false_2 by done].
  { rewrite filter_cons_False; [done|]. simpl. tauto. }
  cbv zeta. case_decide as Hscore.
  - rewrite !filter_cons. cbn [fst snd]. rewrite IH.
    repeat case_decide; try done; tauto.
  - rewrite IH, filter_cons_False; [done|]. simpl. lia.
Qed.

(** X19.  When no domain other than [general] scores 3 or more,
    [detectDomains] returns [general] alone.  Otherwise, asked for at
    least one domain, it returns the keys of the [maxDomains] domains
    with the highest scores among those that score 3 or more (all of
    them when they are fewer), by falling score: no domain left out
    scores more than one returned. *)
Theorem detectDomains_top (summary : list N) (maxDomains : Z) :
  (0 < maxDomains)%Z →
  (contenders summary = [] → detectDomains summary maxDomains = [lit "general"]) ∧
  (contenders summary ≠ [] →
   ∃ picked rest,
     detectDomains summary maxDomains = picked.*1 ∧
     contenders summary ≡ₚ picked ++ rest ∧
     length picked = Z.to_nat maxDomains `min` length (contenders summary) ∧
     StronglySorted (λ a b, b.2 ≤ a.2) picked ∧
     ∀ p r, p ∈ picked → r ∈ rest → r.2 ≤ p.2).
Proof.
  intros Hmax. unfold detectDomains. cbv zeta.
  set (scores := omap _ domains).
  pose proof (scores_contenders summary) as Hcand. cbv zeta in Hcand. fold scores in Hcand.
  set (above := filter _ (sort_by_score scores)).
  assert (Hperm : above ≡ₚ contenders summary).
  { unfold above. by rewrite sort_by_score_Permutation, Hcand. }
  assert (Hsorted : StronglySorted by_score above).
  { apply filter_sorted, sort_by_score_sorted. }
  clearbody above. split.
  - intros Hnil. rewrite Hnil in Hperm. by apply Permutation_nil_r in Hperm as ->.
  - intros Hne. destruct above as [|s above'] eqn:Habove.
    { apply Permutation_nil_l in Hperm. congruence. }
    rewrite <- Habove in *. clear Habove.
    unfold slice_to. rewrite decide_False by lia.
    exists (take (Z.to_nat maxDomains) above), (drop (Z.to_nat maxDomains) above).
    rewrite take_drop. split; [done|]. split; [done|].
    rewrite <- (take_drop (Z.to_nat maxDomains) above) in Hsorted.
    apply StronglySorted_app in Hsorted as (Hle & Hpicked & _).
    split; [by rewrite length_take, Hperm|]. split; [done|].
    intros p r Hp Hr. by apply Hle.
Qed.

(** *** The personas of the domains detected *)

Lemma own_key key config : (key, config) ∈ domains → is_Some (own key).
Proof.
  intros Hin. unfold own.
  destruct (List.find _ domains) as [entry|] eqn:Hfind; [by eexists|].
  apply list_elem_of_In in Hin. eapply find_none in Hfind; [|exact Hin].
  by rewrite bool_decide_eq_true_2 in Hfind.
Qed.

Lemma own_entry key config : own key = Some config → (key, config) ∈ domains.
Proof.
  unfold own. destruct (List.find _ domains) as [[k c]|] eqn:Hfind; [|done].
  intros [= <-]. apply find_some in Hfind as [Hin Hk].
  apply bool_decide_eq_true_1 in Hk. simpl in Hk. subst k. by apply list_elem_of_In.
Qed.

Lemma push_personas_returns keys personas :
  Forall (λ key, is_Some (own key) ∨ key ∉ Object_prototype) keys →
  ∃ more,
    push_personas keys personas = inl (personas ++ more) ∧
    ∀ p, p ∈ more →
      ∃ key config, key ∈ keys ∧ (key, config) ∈ domains ∧
                    p ∈ DomainConfig.personas config.
Proof.
  revert personas. induction keys as [|key keys IH]; intros personas Hkeys.
  { exists []. split; [by rewrite app_nil_r|]. by intros p Hp; inversion Hp. }
  apply Forall_cons in Hkeys as [Hkey Hkeys]. cbn [push_personas].
  destruct (own key) as [domain|] eqn:Hown.
  - destruct (IH (personas ++ DomainConfig.personas domain) Hkeys) as (more & -> & Hmore).
    exists (DomainConfig.personas domain ++ more). split; [by rewrite app_assoc|].
    intros p [Hp|Hp]%elem_of_app.
    + exists key, domain. split; [by left|]. split; [by apply own_entry|done].
    + destruct (Hmore p Hp) as (k & c & Hk & Hc & Hpc). exists k, c.
      split; [by right|done].
  - destruct Hkey as [[? [=]]|Hkey]. rewrite bool_decide_eq_false_2 by done.
    destruct (IH personas Hkeys) as (more & -> & Hmore). exists more. split; [done|].
    intros p Hp. destruct (Hmore p Hp) as (k & c & Hk & Hc & Hpc). exists k, c.
    split; [by right|done].
Qed.

(** X20.  For the domains [detectDomains] finds, [getPersonasForDomains]
    throws nothing, and each persona it returns is a persona of one of
    those domains. *)
Theorem getPersonasForDomains_detected (summary : list N) (maxDomains : Z) :
  ∃ personas,
    getPersonasForDomains (detectDomains summary maxDomains) = inl personas ∧
    ∀ p, p ∈ personas →
      ∃ key config,
        key ∈ detectDomains summary maxDomains ∧ (key, config) ∈ domains ∧
        p ∈ DomainConfig.personas config.
Proof.
  apply (push_personas_returns _ []). unfold detectDomains. cbv zeta.
  set (scores := omap _ domains).
  destruct (filter _ (sort_by_score scores)) as [|s above'] eqn:Habove.
  { apply Forall_singleton. right. by apply (bool_decide_unpack _). }
  rewrite <- Habove. clear Habove. apply Forall_fmap, Forall_forall. intros t Ht. left.
  unfold slice_to in Ht. apply subseteq_take in Ht.
  apply list_elem_of_filter in Ht as [_ Ht].
  rewrite sort_by_score_Permutation in Ht. unfold scores in Ht.
  apply list_elem_of_omap in Ht as ([key config] & Hin & Ht). cbn [fst snd] in Ht.
  case_bool_decide; [done|]. cbv zeta in Ht. case_decide; [|done].
  injection Ht as <-. simpl. by eapply own_key.
Qed.

End Domains.

(** [toLowerCase] on text in ASCII. *)
Definition ascii_toLowerCase (s : list N) : list N :=
  (λ c, if decide (65 ≤ c ≤ 90)%N then (c + 32)%N else c) <$> s.

Definition sample_domains : list (list N * DomainConfig.t) :=
  [ (lit "technology",
     DomainConfig.Build (lit "Technology") [lit "AI"; lit "software"] []);
    (lit "finance",
     DomainConfig.Build (lit "Finance") [lit "rates"; lit "bank"; lit "inflation"] []);
    (lit "health", DomainConfig.Build (lit "Health") [lit "health"] []);
    (lit "general", DomainConfig.Build (lit "General") [lit "the"] []) ].

Definition sample_summary : list N :=
  lit "The bank raised rates. AI software predicts rates; a bank using AI says the inflation is over. Health? AI again.".

Lemma detectDomains_top_witness :
  (0 < 1)%Z ∧
  contenders sample_domains ascii_toLowerCase sample_summary
    = [(lit "technology", 4); (lit "finance", 5)] ∧
  ∃ picked rest,
    detectDomains sample_domains ascii_toLowerCase sample_summary 1 = picked.*1 ∧
    contenders sample_domains ascii_toLowerCase sample_summary ≡ₚ picked ++ rest ∧
    length picked =
      Z.to_nat 1 `min` length (contenders sample_domains ascii_toLowerCase sample_summary) ∧
    StronglySorted (λ a b, b.2 ≤ a.2) picked ∧
    ∀ p r, p ∈ picked → r ∈ rest → r.2 ≤ p.2.
Proof.
  assert (H : (0 < 1)%Z) by lia.
  assert (Hc : contenders sample_domains ascii_toLowerCase sample_summary
               = [(lit "technology", 4); (lit "finance", 5)]) by (vm_compute; reflexivity).
  split; [exact H|]. split; [exact Hc|].
  apply (proj2 (detectDomains_top sample_domains ascii_toLowerCase sample_summary 1 H)).
  rewrite Hc. discriminate.
Defined.

Example detectDomains_sample :
  detectDomains sample_domains ascii_toLowerCase sample_summary 2
  = [lit "finance"; lit "technology"].
Proof. vm_compute. reflexivity. Qed.

End PersonaLoader.

(** ** The extractor's client: [integrations/extractor.ts] *)

Module ExtractRequest.
Record t := Build {
  html : list N;
  text : option (list N);
  fetchTimeout : option Z;
  maxFetchContent : option Z
}.
End ExtractRequest.

Module ExtractionResult.
Record t := Build {
  articles : list ExtractedArticle.t;
  all_links : list (list N * list N * bool);
  main_content : option (list N);
  articles_fetched : bool
}.
End ExtractionResult.

(** ** The rows of the database *)

(** Modelled from the spec: the [EmailAccount] model of the Prisma schema,
    which is not among the sources: a mail account of one user, with its
    access token, optional refresh token and expiry as stored. *)
Module EmailAccount.
Inductive Provider := GMAIL | OtherProvider (name : string).
Definition is_GMAIL (p : Provider) : bool :=
  match p with GMAIL => true | OtherProvider _ => false end.
Record t := Build {
  id : list N;
  userId : list N;
  provider : Provider;
  accessToken : option (list N);
  refreshToken : option (list N);
  expiresAt : option Z
}.
End EmailAccount.

(** Modelled from the spec: the [Newsletter] model of the Prisma schema,
    which is not among the sources: a subscription of one user with its
    cadence, active flag, selected senders, [lastRun] ([null] or a date)
    and [nextRun] (a date); a date is a time value or invalid. *)
Module Newsletter.
Record t := Build {
  id : list N;
  userId : list N;
  interval : Schedule.Interval;
  isActive : bool;
  selectedEmails : list (list N);
  lastRun : option (option Z);
  nextRun : option Z
}.
End Newsletter.

Module EmailSnapshot.
Record t := Build {
  id : list N;
  threadId : option (list N);
  snippet : option (list N);
  internalDate : option (list N);
  headers : gmap (list N) (list N)
}.
End EmailSnapshot.

(** Modelled from the spec: the [NewsletterHistory] model of the Prisma
    schema, which is not among the sources: one row per completed run;
    [summary] is kept as the two values it serialises. *)
Module NewsletterHistory.
Record t (PodcastResult : Type) := Build {
  id : list N;
  newsletterId : list N;
  fetchedEmailCount : nat;
  podcast : PodcastResult;
  emails : list EmailSnapshot.t
}.
Arguments Build {PodcastResult}.
Arguments id {PodcastResult}.
Arguments newsletterId {PodcastResult}.
Arguments fetchedEmailCount {PodcastResult}.
Arguments podcast {PodcastResult}.
Arguments emails {PodcastResult}.
End NewsletterHistory.

Module Db.
Record t (PodcastResult : Type) := Build {
  user : list (list N);
  emailAccount : list EmailAccount.t;
  newsletter : list Newsletter.t;
  newsletterHistory : list (NewsletterHistory.t PodcastResult)
}.
Arguments Build {PodcastResult}.
Arguments user {PodcastResult}.
Arguments emailAccount {PodcastResult}.
Arguments newsletter {PodcastResult}.
Arguments newsletterHistory {PodcastResult}.
End Db.

(** ** The results reported *)

(** [nextRun] stands for the ISO text of the time value it holds. *)
Module NewsletterResult.
Record t (PodcastResult : Type) := Build {
  newsletterId : list N;
  fetchedEmailCount : option nat;
  historyId : option (list N);
  podcast : option PodcastResult;
  nextRun : option Z;
  error : option (list N)
}.
Arguments Build {PodcastResult}.
Arguments newsletterId {PodcastResult}.
Arguments fetchedEmailCount {PodcastResult}.
Arguments historyId {PodcastResult}.
Arguments podcast {PodcastResult}.
Arguments nextRun {PodcastResult}.
Arguments error {PodcastResult}.
End NewsletterResult.

Module UserResult.
Record t (PodcastResult : Type) := Build {
  userId : list N;
  emailAccountId : option (list N);
  newsletters : list (NewsletterResult.t PodcastResult);
  error : option (list N)
}.
Arguments Build {PodcastResult}.
Arguments userId {PodcastResult}.
Arguments emailAccountId {PodcastResult}.
Arguments newsletters {PodcastResult}.
Arguments error {PodcastResult}.
End UserResult.

(** All the controller reads and writes: what lies outside the process
    ([ext]: the mail provider, the extractor, the synthesizer, the
    database server, the network), the tables, the credentials held by
    the credentials manager in use, and the requests sent to the
    extractor so far. *)
Module World.
Record t (X PodcastResult : Type) := Build {
  ext : X;
  db : Db.t PodcastResult;
  currentCredentials : GmailCredentials.t;
  extractorCalls : list ExtractRequest.t
}.
Arguments Build {X PodcastResult}.
Arguments ext {X PodcastResult}.
Arguments db {X PodcastResult}.
Arguments currentCredentials {X PodcastResult}.
Arguments extractorCalls {X PodcastResult}.
End World.

(** A user as [prisma.user.findMany] returns one, with the rows included. *)
Module UserWithRelations.
Record t := Build {
  id : list N;
  emailAccounts : list EmailAccount.t;
  newsletters : list Newsletter.t
}.
End UserWithRelations.

(** Modelled from the spec: [PodcastOptions] of [schemas/podcast], which
    is not among the sources: a format and the speakers with their
    voices, as [DEFAULT_PODCAST_OPTIONS] fills them. *)
Module PodcastOptions.
Record t := Build {
  format : list N;
  speakers : list (list N * list N)
}.
End PodcastOptions.

(** [NewsletterProcessingOptions], for options that are integers. *)
Module NewsletterProcessingOptions.
Record t := Build {
  maxEmailsPerNewsletter : Z;
  gmailFetchConcurrency : Z
}.
End NewsletterProcessingOptions.

(** The numbers a request body may carry: a field is absent or
    [Number(...)] makes an integer of it.  A field of which it makes
    [NaN] or a fraction is not covered. *)
Module RequestBody.
Record t := Build {
  maxEmailsPerNewsletter : option Z;
  gmailFetchConcurrency : option Z
}.
End RequestBody.

(** ** The controller: [controllers/userController.ts] *)

Module Controller.
Import JsString.

Definition DEFAULT_PODCAST_OPTIONS : PodcastOptions.t :=
  PodcastOptions.Build (lit "interview")
    [(lit "Host", lit "en-US-Studio-Q"); (lit "Guest", lit "en-US-Studio-O")].

(** [new Date(Date.UTC(d.getUTCFullYear(), d.getUTCMonth(), d.getUTCDate(), 0, 0, 0, 0))] *)
Definition startOfUtcDay (d : option Z) : option Z :=
  t ← d;
  JsDate.copy (JsDate.UTC (JsDate.YearFromTime t) (JsDate.MonthFromTime t)
                          (JsDate.DateFromTime t)).

(** The message's headers over the given articles. *)
Definition extracted_email (email : GmailMessageContent.t)
    (articles : list ExtractedArticle.t) : ExtractedEmail.t :=
  ExtractedEmail.Build
    (GmailMessageContent.headers email !! lit "Subject")
    (GmailMessageContent.headers email !! lit "From")
    (GmailMessageContent.headers email !! lit "Date")
    articles.

(** The single article made of the plain text. *)
Definition plain_text_email (email : GmailMessageContent.t) : ExtractedEmail.t :=
  extracted_email email [ExtractedArticle.of_text (GmailMessageContent.text email)].

(** What [extractEmailsContent]'s mapper awaits: nothing, or the answer
    to a request sent to the extractor. *)
Inductive extraction :=
  | PlainText (email : GmailMessageContent.t)
  | Requested (email : GmailMessageContent.t) (request : ExtractRequest.t).

(** How [createUsersPodcasts] answers: [res.json(...)] or [next(error)]. *)
Inductive response (PodcastResult : Type) :=
  | Json (ranAt : option Z) (userCount : nat) (result : list (UserResult.t PodcastResult))
  | Next (error : Js.exn).
Arguments Json {PodcastResult}.
Arguments Next {PodcastResult}.

Section WithCollaborators.
Context {X PodcastResult : Type}.

(** A computation: it changes the world and returns or throws. *)
Definition M (A : Type) : Type :=
  World.t X PodcastResult → World.t X PodcastResult * (A + Js.exn).

Definition ret {A} (a : A) : M A := λ w, (w, inl a).
Definition throw {A} (e : Js.exn) : M A := λ w, (w, inr e).
Definition bind {A B} (c : M A) (k : A → M B) : M B :=
  λ w, let '(w1, r) := c w in
       match r with inl a => k a w1 | inr e => (w1, inr e) end.
Definition try_catch {A} (c : M A) (handler : Js.exn → M A) : M A :=
  λ w, let '(w1, r) := c w in
       match r with inl a => (w1, inl a) | inr e => handler e w1 end.

Notation "'let*' x := c 'in' k" := (bind c (λ x, k))
  (at level 10, x name, c at level 100, k at level 200, only parsing).

(** The collaborators.  Each answers from the state of the outside and
    changes it; a call to one may fail.  [prisma_fault] is consulted by
    every database call and says whether it fails, [prisma_cuid] gives the
    identifier of a created row, and [completion_order] the order in which
    concurrent operations complete. *)
Variable gmailListMessageIds :
  GmailCredentials.t → list N → Z → X → X * (GmailListResult.t + Js.exn).
Variable gmailGetMessageText :
  GmailCredentials.t → list N → X → X * (GmailMessageResult.t + Js.exn).
Variable extractEmailContent : ExtractRequest.t → X → X * (ExtractionResult.t + Js.exn).
Variable createPodcastFromText :
  list N → PodcastOptions.t → X → X * (PodcastResult + Js.exn).
Variable encrypt : list N → list N + Js.exn.
Variable decrypt : list N → list N + Js.exn.
Variable prisma_fault : X → X * option Js.exn.
Variable prisma_cuid : X → X * list N.
Variable completion_order : X → nat → nat.

Definition with_ext (x : X) (w : World.t X PodcastResult) : World.t X PodcastResult :=
  World.Build x (World.db w) (World.currentCredentials w) (World.extractorCalls w).
Definition with_db (d : Db.t PodcastResult) (w : World.t X PodcastResult)
    : World.t X PodcastResult :=
  World.Build (World.ext w) d (World.currentCredentials w) (World.extractorCalls w).
Definition with_credentials (c : GmailCredentials.t) (w : World.t X PodcastResult)
    : World.t X PodcastResult :=
  World.Build (World.ext w) (World.db w) c (World.extractorCalls w).
Definition with_extractorCalls (l : list ExtractRequest.t) (w : World.t X PodcastResult)
    : World.t X PodcastResult :=
  World.Build (World.ext w) (World.db w) (World.currentCredentials w) l.

(** A call to a collaborator. *)
Definition external {A} (f : X → X * (A + Js.exn)) : M A :=
  λ w, let '(x, r) := f (World.ext w) in (with_ext x w, r).

(** A value that is computed or thrown. *)
Definition lift {A} (r : A + Js.exn) : M A := λ w, (w, r).

(** *** The database calls *)

Definition prisma {A} (query : M A) : M A :=
  λ w, let '(x, fault) := prisma_fault (World.ext w) in
       match fault with
       | Some e => (with_ext x w, inr e)
       | None => query (with_ext x w)
       end.

Definition RecordNotFound : Js.exn := Js.Error (lit "Record to update not found.").

(** [prisma.emailAccount.update({ where: { id }, data: { accessToken, expiresAt } })] *)
Definition prisma_emailAccount_update (id accessToken : list N) (expiresAt : option Z)
    : M unit :=
  prisma (λ w,
    let rows := Db.emailAccount (World.db w) in
    if existsb (λ a, bool_decide (EmailAccount.id a = id)) rows then
      (with_db (Db.Build (Db.user (World.db w))
                  ((λ a, if bool_decide (EmailAccount.id a = id)
                         then EmailAccount.Build (EmailAccount.id a) (EmailAccount.userId a)
                                (EmailAccount.provider a) (Some accessToken)
                                (EmailAccount.refreshToken a) expiresAt
                         else a) <$> rows)
                  (Db.newsletter (World.db w)) (Db.newsletterHistory (World.db w))) w,
       inl ())
    else (w, inr RecordNotFound)).

(** [prisma.newsletterHistory.create({ data })] *)
Definition prisma_newsletterHistory_create (newsletterId : list N) (fetchedEmailCount : nat)
    (podcast : PodcastResult) (emails : list EmailSnapshot.t)
    : M (NewsletterHistory.t PodcastResult) :=
  prisma (λ w,
    let '(x, id) := prisma_cuid (World.ext w) in
    let row := NewsletterHistory.Build id newsletterId fetchedEmailCount podcast emails in
    (with_db (Db.Build (Db.user (World.db w)) (Db.emailAccount (World.db w))
                (Db.newsletter (World.db w))
                (Db.newsletterHistory (World.db w) ++ [row])) (with_ext x w),
     inl row)).

(** The rows with [lastRun] and [nextRun] set where the id is [id]. *)
Definition newsletter_rows_update (id : list N) (lastRun nextRun : option Z)
    (rows : list Newsletter.t) : list Newsletter.t :=
  (λ n, if bool_decide (Newsletter.id n = id)
        then Newsletter.Build (Newsletter.id n) (Newsletter.userId n)
               (Newsletter.interval n) (Newsletter.isActive n)
               (Newsletter.selectedEmails n) (Some lastRun) nextRun
        else n) <$> rows.

(** [prisma.newsletter.update({ where: { id }, data: { lastRun, nextRun } })] *)
Definition prisma_newsletter_update (id : list N) (lastRun nextRun : option Z) : M unit :=
  prisma (λ w,
    let rows := Db.newsletter (World.db w) in
    if existsb (λ n, bool_decide (Newsletter.id n = id)) rows then
      (with_db (Db.Build (Db.user (World.db w)) (Db.emailAccount (World.db w))
                  (newsletter_rows_update id lastRun nextRun rows)
                  (Db.newsletterHistory (World.db w))) w,
       inl ())
    else (w, inr RecordNotFound)).

(** [nextRun: { gte: start, lt: end }] *)
Definition in_window (start end_ nextRun : option Z) : bool :=
  match start, end_, nextRun with
  | Some s, Some e, Some t => bool_decide (s ≤ t < e)%Z
  | _, _, _ => false
  end.

(** [prisma.user.findMany({ include: { emailAccounts: { where: { provider:
    GMAIL } }, newsletters: { where: { isActive: true, nextRun: { gte:
    start, lt: end } } } } })] *)
Definition prisma_user_findMany (start end_ : option Z) : M (list UserWithRelations.t) :=
  prisma (λ w,
    (w, inl ((λ id,
      UserWithRelations.Build id
        (List.filter (λ a, bool_decide (EmailAccount.userId a = id) &&
                           EmailAccount.is_GMAIL (EmailAccount.provider a))
                     (Db.emailAccount (World.db w)))
        (List.filter (λ n, bool_decide (Newsletter.userId n = id) &&
                           Newsletter.isActive n &&
                           in_window start end_ (Newsletter.nextRun n))
                     (Db.newsletter (World.db w))))
      <$> Db.user (World.db w)))).

(** *** The credentials *)

Definition getGmailCredentials (emailAccount : EmailAccount.t)
    : option GmailCredentials.t + Js.exn :=
  if negb (Boolean (EmailAccount.accessToken emailAccount)) then inl None
  else
    match decrypt (nullish (EmailAccount.accessToken emailAccount) []) with
    | inr e => inr e
    | inl accessToken =>
        if Boolean (EmailAccount.refreshToken emailAccount) then
          match decrypt (nullish (EmailAccount.refreshToken emailAccount) []) with
          | inr e => inr e
          | inl refreshToken =>
              inl (Some (GmailCredentials.Build accessToken (Some refreshToken)
                           (EmailAccount.expiresAt emailAccount)))
          end
        else inl (Some (GmailCredentials.Build accessToken None
                          (EmailAccount.expiresAt emailAccount)))
    end.

(** The manager [createCredentialsUpdater] returns is known by the
    account it writes to; the credentials it holds are the world's. *)
Definition createCredentialsUpdater (emailAccountId : list N)
    (credentials : GmailCredentials.t) : M (list N) :=
  λ w, (with_credentials credentials w, inl emailAccountId).

Definition getCredentials : M GmailCredentials.t :=
  λ w, (w, inl (World.currentCredentials w)).

(** [updateIfRefreshed]: the assignment, the encryption and the write to
    the database, taken as one step: nothing else of the job completes
    between the assignment and the answer of the database. *)
Definition updateIfRefreshed (emailAccountId : list N)
    (refreshed : option RefreshedCredentials.t) : M unit :=
  match refreshed with
  | None => ret ()
  | Some refreshed =>
      let* _ := (λ w, (with_credentials
                   (GmailCredentials.Build
                      (RefreshedCredentials.accessToken refreshed)
                      (GmailCredentials.refreshToken (World.currentCredentials w))
                      (RefreshedCredentials.expiresAt refreshed)) w, inl ())) in
      let* accessToken := lift (encrypt (RefreshedCredentials.accessToken refreshed)) in
      prisma_emailAccount_update emailAccountId accessToken
        (RefreshedCredentials.expiresAt refreshed)
  end.

(** [updateIfRefreshed] among the other operations of a job: what they
    do while the call awaits the database, [before] the write is carried
    out and [after] it, until the call goes on. *)
Definition updateIfRefreshed_among
    (before after : World.t X PodcastResult → World.t X PodcastResult)
    (emailAccountId : list N) (refreshed : option RefreshedCredentials.t) : M unit :=
  match refreshed with
  | None => ret ()
  | Some refreshed =>
      let* _ := (λ w, (with_credentials
                   (GmailCredentials.Build
                      (RefreshedCredentials.accessToken refreshed)
                      (GmailCredentials.refreshToken (World.currentCredentials w))
                      (RefreshedCredentials.expiresAt refreshed)) w, inl ())) in
      let* accessToken := lift (encrypt (RefreshedCredentials.accessToken refreshed)) in
      λ w, let '(w1, r) :=
             prisma_emailAccount_update emailAccountId accessToken
               (RefreshedCredentials.expiresAt refreshed) (before w) in
           (after w1, r)
  end.

(** Operations that leave the credentials held by the manager and the
    database as they are. *)
Definition aside (step : World.t X PodcastResult → World.t X PodcastResult) : Prop :=
  ∀ w, World.currentCredentials (step w) = World.currentCredentials w ∧
       World.db (step w) = World.db w.

(** *** The stages *)

(** [await mapWithConcurrency(items, concurrency, mapper)], the mapper
    given by what it does when called and when what it awaits completes.
    The caller goes on from the world as it is when the call settles:
    what the operations of a rejected call do after that, the steps
    [Executor.resume] takes from the rejected state, is not followed
    into the rest of the job. *)
Definition mapWithConcurrency {T P R} (items : list T) (concurrency : Z)
    (call : T → nat → World.t X PodcastResult → World.t X PodcastResult * P)
    (settle : P → M R) : M (list R) :=
  λ w, let '(w1, r) := Executor.await_mapWithConcurrency items concurrency call settle
                         (completion_order (World.ext w)) w in
       (w1, match r with inl results => inl (Js.elements results) | inr e => inr e end).

(** The mapper of [fetchNewsletterEmails] reads the credentials and sends
    the request when called ... *)
Definition fetch_call (id : list N) (index : nat) (w : World.t X PodcastResult)
    : World.t X PodcastResult * (list N * GmailCredentials.t) :=
  (w, (id, World.currentCredentials w)).

(** ... and goes on when the answer is there, storing refreshed
    credentials before anything else completes. *)
Definition fetch_settle (credentialsManager : list N)
    (request : list N * GmailCredentials.t) : M GmailMessageContent.t :=
  let* result := external (gmailGetMessageText request.2 request.1) in
  let* _ := updateIfRefreshed credentialsManager (GmailMessageResult.refreshedCredentials result) in
  ret (GmailMessageResult.message result).

Definition fetchNewsletterEmails (credentialsManager : list N) (newsletter : Newsletter.t)
    (options : NewsletterProcessingOptions.t) (startDate : option Z)
    : M (list GmailMessageContent.t) :=
  let afterUnixSeconds :=
    (t ← default startDate (Newsletter.lastRun newsletter); Some (t / 1000)%Z) in
  let q := Gmail.buildGmailQuery (Newsletter.selectedEmails newsletter) afterUnixSeconds in
  let* credentials := getCredentials in
  let* listResult := external (gmailListMessageIds credentials q
                  (Z.max 1 (Z.min 50 (NewsletterProcessingOptions.maxEmailsPerNewsletter options)))) in
  let* _ := updateIfRefreshed credentialsManager (GmailListResult.refreshedCredentials listResult) in
  let* emails := mapWithConcurrency (GmailListResult.messageIds listResult)
             (Z.max 1 (Z.min 20 (NewsletterProcessingOptions.gmailFetchConcurrency options)))
             fetch_call (fetch_settle credentialsManager) in
  ret emails.

(** [{ html: email.html, text: email.text, fetchTimeout: 30, maxFetchContent: 5000 }] *)
Definition extract_request (email : GmailMessageContent.t) : ExtractRequest.t :=
  ExtractRequest.Build (nullish (GmailMessageContent.html email) [])
    (Some (GmailMessageContent.text email)) (Some 30%Z) (Some 5000%Z).

(** The requests [extractEmailsContent] sends for a list of messages:
    one for each message with HTML. *)
Definition extract_requests (emails : list GmailMessageContent.t) : list ExtractRequest.t :=
  omap (λ email, if Boolean (GmailMessageContent.html email)
                 then Some (extract_request email) else None) emails.

(** The mapper of [extractEmailsContent]: without HTML it returns at
    once; otherwise it sends the HTML to the extractor ... *)
Definition extract_call (email : GmailMessageContent.t) (index : nat)
    (w : World.t X PodcastResult) : World.t X PodcastResult * extraction :=
  if negb (Boolean (GmailMessageContent.html email)) then (w, PlainText email)
  else
    let request := extract_request email in
    (with_extractorCalls (World.extractorCalls w ++ [request]) w, Requested email request).

(** ... and takes its articles, or, when the extractor fails, falls back
    to the plain text. *)
Definition extract_settle (pending : extraction) : M ExtractedEmail.t :=
  match pending with
  | PlainText email => ret (plain_text_email email)
  | Requested email request =>
      try_catch
        (let* extracted := external (extractEmailContent request) in
         ret (extracted_email email (ExtractionResult.articles extracted)))
        (λ err, ret (plain_text_email email))
  end.

Definition extractEmailsContent (emails : list GmailMessageContent.t)
    : M (list ExtractedEmail.t) :=
  mapWithConcurrency emails 4 extract_call extract_settle.

Definition generateNewsletterPodcast (combinedText : list N) : M PodcastResult :=
  external (createPodcastFromText combinedText DEFAULT_PODCAST_OPTIONS).

Definition saveNewsletterHistory (newsletterId : list N)
    (emails : list GmailMessageContent.t) (podcast : PodcastResult) : M (list N) :=
  let* history := prisma_newsletterHistory_create newsletterId (length emails) podcast
              ((λ e, EmailSnapshot.Build (GmailMessageContent.id e)
                       (GmailMessageContent.threadId e) (GmailMessageContent.snippet e)
                       (GmailMessageContent.internalDate e) (GmailMessageContent.headers e))
               <$> emails) in
  ret (NewsletterHistory.id history).

Definition updateNewsletterSchedule (newsletterId : list N) (now : option Z)
    (interval : Schedule.Interval) : M (option Z) :=
  let nextRun := Schedule.addInterval now interval in
  let* _ := prisma_newsletter_update newsletterId now nextRun in
  ret nextRun.

(** [d.toISOString()] throws on an invalid date. *)
Definition toISOString (d : option Z) : M Z :=
  match d with
  | Some t => ret t
  | None => throw (Js.Error (lit "Invalid time value"))
  end.

(** The steps before the schedule is updated. *)
Definition before_reschedule (credentialsManager : list N) (newsletter : Newsletter.t)
    (options : NewsletterProcessingOptions.t) (startDate : option Z)
    : M (list GmailMessageContent.t * PodcastResult * list N) :=
  let* emails := fetchNewsletterEmails credentialsManager newsletter options startDate in
  let* extractedEmails := extractEmailsContent emails in
  let combinedText := Compose.buildPodcastInput extractedEmails in
  let* podcast := generateNewsletterPodcast combinedText in
  let* historyId := saveNewsletterHistory (Newsletter.id newsletter) emails podcast in
  ret (emails, podcast, historyId).

Definition processNewsletter (credentialsManager : list N) (newsletter : Newsletter.t)
    (options : NewsletterProcessingOptions.t) (startDate now : option Z)
    : M (NewsletterResult.t PodcastResult) :=
  try_catch
    (let* emails := fetchNewsletterEmails credentialsManager newsletter options startDate in
     let* extractedEmails := extractEmailsContent emails in
     let combinedText := Compose.buildPodcastInput extractedEmails in
     let* podcast := generateNewsletterPodcast combinedText in
     let* historyId := saveNewsletterHistory (Newsletter.id newsletter) emails podcast in
     let* nextRun := updateNewsletterSchedule (Newsletter.id newsletter) now
                 (Newsletter.interval newsletter) in
     let* nextRunText := toISOString nextRun in
     ret (NewsletterResult.Build (Newsletter.id newsletter) (Some (length emails))
            (Some historyId) (Some podcast) (Some nextRunText) None))
    (λ e, ret (NewsletterResult.Build (Newsletter.id newsletter) None None None None
                 (Some (Js.message_of e)))).

(** The result reported for a run that threw [e]. *)
Definition failure_result (newsletter : Newsletter.t) (e : Js.exn)
    : NewsletterResult.t PodcastResult :=
  NewsletterResult.Build (Newsletter.id newsletter) None None None None
    (Some (Js.message_of e)).

(** A computation that leaves the newsletter table as it finds it. *)
Definition keeps_newsletters {A} (c : M A) : Prop :=
  ∀ w, Db.newsletter (World.db (c w).1) = Db.newsletter (World.db w).

(** A computation that leaves what [table] reads of the database as it
    finds it. *)
Definition keeps {A B} (table : Db.t PodcastResult → B) (c : M A) : Prop :=
  ∀ w, table (World.db (c w).1) = table (World.db w).

(** [row'] is [row], or it is [row] with the schedule a run at [now]
    gave it, and then [row] is one of the subscriptions [ids]. *)
Definition rescheduled (now : option Z) (ids : list (list N))
    (row row' : Newsletter.t) : Prop :=
  row' = row ∨
  (Newsletter.id row ∈ ids ∧
   ∃ nextRun, row' = Newsletter.Build (Newsletter.id row) (Newsletter.userId row)
                       (Newsletter.interval row) (Newsletter.isActive row)
                       (Newsletter.selectedEmails row) (Some now) nextRun).

(** The rows [prisma_user_findMany] includes for some user. *)
Definition due (start end_ : option Z) (users : list (list N)) (row : Newsletter.t) : bool :=
  bool_decide (Newsletter.userId row ∈ users) && Newsletter.isActive row &&
  in_window start end_ (Newsletter.nextRun row).

(** [h'] is [h] with rows added after it for runs of the subscriptions
    [ids], at most one for each and in their order, and the history a
    result of [results] reports is one of these rows. *)
Definition recorded (ids : list (list N))
    (results : list (NewsletterResult.t PodcastResult))
    (h h' : list (NewsletterHistory.t PodcastResult)) : Prop :=
  ∃ rows,
    h' = h ++ rows ∧
    (NewsletterHistory.newsletterId <$> rows) `sublist_of` ids ∧
    ∀ result historyId,
      result ∈ results → NewsletterResult.historyId result = Some historyId →
      ∃ row, row ∈ rows ∧ NewsletterHistory.id row = historyId ∧
             NewsletterHistory.newsletterId row = NewsletterResult.newsletterId result.

(** The account [a'] is [a], or it is [a] with another access token and
    expiry, and then [a] is one of the accounts [ids]. *)
Definition refreshed (ids : list (list N)) (a a' : EmailAccount.t) : Prop :=
  a' = a ∨
  (EmailAccount.id a ∈ ids ∧
   ∃ accessToken expiresAt,
     a' = EmailAccount.Build (EmailAccount.id a) (EmailAccount.userId a)
            (EmailAccount.provider a) (Some accessToken)
            (EmailAccount.refreshToken a) expiresAt).

(** The database [d'] has the users of [d] and its accounts, refreshed. *)
Definition accounts_refreshed (ids : list (list N)) (d d' : Db.t PodcastResult) : Prop :=
  Db.user d' = Db.user d ∧
  Forall2 (refreshed ids) (Db.emailAccount d) (Db.emailAccount d').

(** A computation that does no more to users and accounts. *)
Definition refreshes {A} (ids : list (list N)) (c : M A) : Prop :=
  ∀ w, accounts_refreshed ids (World.db w) (World.db (c w).1).

(** *** The job *)

(** [for (const newsletter of user.newsletters)] *)
Fixpoint process_newsletters (credentialsManager : list N) (newsletters : list Newsletter.t)
    (options : NewsletterProcessingOptions.t) (start now : option Z)
    (results : list (NewsletterResult.t PodcastResult))
    : M (list (NewsletterResult.t PodcastResult)) :=
  match newsletters with
  | [] => ret results
  | newsletter :: newsletters =>
      let* result := processNewsletter credentialsManager newsletter options start now in
      process_newsletters credentialsManager newsletters options start now
        (results ++ [result])
  end.

(** The body of [for (const user of users)]. *)
Definition process_user (user : UserWithRelations.t)
    (options : NewsletterProcessingOptions.t) (start now : option Z)
    : M (UserResult.t PodcastResult) :=
  match UserWithRelations.emailAccounts user with
  | [] =>
      ret (UserResult.Build (UserWithRelations.id user) None []
             (Some (lit "No Gmail email account found for user")))
  | gmailAccount :: _ =>
      let* credentials := lift (getGmailCredentials gmailAccount) in
      match credentials with
      | None =>
          ret (UserResult.Build (UserWithRelations.id user)
                 (Some (EmailAccount.id gmailAccount)) []
                 (Some (lit "No Gmail email account with accessToken found for user")))
      | Some credentials =>
          let* credentialsManager := createCredentialsUpdater (EmailAccount.id gmailAccount)
                                 credentials in
          let* newsletters := process_newsletters credentialsManager
                          (UserWithRelations.newsletters user) options start now [] in
          ret (UserResult.Build (UserWithRelations.id user)
                 (Some (EmailAccount.id gmailAccount)) newsletters None)
      end
  end.

Fixpoint process_users (users : list UserWithRelations.t)
    (options : NewsletterProcessingOptions.t) (start now : option Z)
    (perUserResults : list (UserResult.t PodcastResult))
    : M (list (UserResult.t PodcastResult)) :=
  match users with
  | [] => ret perUserResults
  | user :: users =>
      let* userResult := process_user user options start now in
      process_users users options start now (perUserResults ++ [userResult])
  end.

(** The subscriptions of a list are run one after the other, each by
    [processNewsletter] from the world the one before has left, and give
    these results. *)
Inductive runs (credentialsManager : list N) (options : NewsletterProcessingOptions.t)
    (start now : option Z)
    : World.t X PodcastResult → list Newsletter.t →
      World.t X PodcastResult → list (NewsletterResult.t PodcastResult) → Prop :=
  | runs_nil w : runs credentialsManager options start now w [] w []
  | runs_cons w newsletter w1 result newsletters w2 results :
      processNewsletter credentialsManager newsletter options start now w
        = (w1, inl result) →
      runs credentialsManager options start now w1 newsletters w2 results →
      runs credentialsManager options start now w (newsletter :: newsletters) w2
           (result :: results).

(** [createUsersPodcasts], run at the instant [now] on a request with
    the given body. *)
Definition createUsersPodcasts (body : RequestBody.t) (now : Z)
    (w : World.t X PodcastResult) : World.t X PodcastResult * response PodcastResult :=
  let start := startOfUtcDay (Some now) in
  let end_ := (t ← start; JsDate.TimeClip (t + 24 * 60 * 60 * 1000)%Z) in
  let options :=
    NewsletterProcessingOptions.Build
      (default 10%Z (RequestBody.maxEmailsPerNewsletter body))
      (default 8%Z (RequestBody.gmailFetchConcurrency body)) in
  let '(w1, r) :=
    (let* users := prisma_user_findMany start end_ in
     let* perUserResults := process_users users options start (Some now) [] in
     ret (Json (Some now) (length users) perUserResults)) w in
  (w1, match r with inl answer => answer | inr error => Next error end).

(** *** What leaves the newsletter table alone *)

Lemma keeps_ret {A} (a : A) : keeps_newsletters (ret a).
Proof. done. Qed.

Lemma keeps_throw {A} e : keeps_newsletters (throw (A:=A) e).
Proof. done. Qed.

Lemma keeps_lift {A} (r : A + Js.exn) : keeps_newsletters (lift r).
Proof. done. Qed.

Lemma keeps_external {A} (f : X → X * (A + Js.exn)) : keeps_newsletters (external f).
Proof. intros w. unfold external. by destruct (f (World.ext w)). Qed.

Lemma keeps_bind {A B} (c : M A) (k : A → M B) :
  keeps_newsletters c → (∀ a, keeps_newsletters (k a)) → keeps_newsletters (bind c k).
Proof.
  intros Hc Hk w. unfold bind. specialize (Hc w).
  destruct (c w) as [w1 [a|e]]; simpl in *; [|done]. by rewrite Hk.
Qed.

Lemma keeps_try_catch {A} (c : M A) (handler : Js.exn → M A) :
  keeps_newsletters c → (∀ e, keeps_newsletters (handler e)) →
  keeps_newsletters (try_catch c handler).
Proof.
  intros Hc Hh w. unfold try_catch. specialize (Hc w).
  destruct (c w) as [w1 [a|e]]; simpl in *; [done|]. by rewrite Hh.
Qed.

Lemma keeps_prisma {A} (query : M A) :
  keeps_newsletters query → keeps_newsletters (prisma query).
Proof.
  intros Hq w. unfold prisma. destruct (prisma_fault (World.ext w)) as [x [e|]]; [done|].
  by rewrite Hq.
Qed.

Lemma keeps_updateIfRefreshed emailAccountId refreshed :
  keeps_newsletters (updateIfRefreshed emailAccountId refreshed).
Proof.
  destruct refreshed as [refreshed|]; [|apply keeps_ret]. simpl.
  apply keeps_bind; [done|]. intros _. apply keeps_bind; [apply keeps_lift|].
  intros accessToken. apply keeps_prisma. intros w. simpl.
  by destruct (existsb _ (Db.emailAccount (World.db w))).
Qed.

Lemma keeps_mapWithConcurrency {T P R} (items : list T) (concurrency : Z)
    (call : T → nat → World.t X PodcastResult → World.t X PodcastResult * P)
    (settle : P → M R) :
  (∀ x i w, Db.newsletter (World.db (call x i w).1) = Db.newsletter (World.db w)) →
  (∀ p, keeps_newsletters (settle p)) →
  keeps_newsletters (mapWithConcurrency items concurrency call settle).
Proof.
  intros Hcall Hsettle w. unfold mapWithConcurrency.
  pose proof (Executor.await_mapWithConcurrency_world items concurrency call settle
    (λ w', Db.newsletter (World.db w') = Db.newsletter (World.db w))
    (completion_order (World.ext w)) w) as Hworld.
  destruct (Executor.await_mapWithConcurrency _ _ _ _ _ _) as [w1 r]. simpl in *.
  apply Hworld; [| |done].
  - intros i x w' _ <-. apply Hcall.
  - intros i x w2 w' _ <-. apply Hsettle.
Qed.

Lemma keeps_fetchNewsletterEmails credentialsManager newsletter options startDate :
  keeps_newsletters (fetchNewsletterEmails credentialsManager newsletter options startDate).
Proof.
  unfold fetchNewsletterEmails. apply keeps_bind; [done|]. intros credentials.
  apply keeps_bind; [apply keeps_external|]. intros listResult.
  apply keeps_bind; [apply keeps_updateIfRefreshed|]. intros _.
  apply keeps_bind; [|intros; apply keeps_ret].
  apply keeps_mapWithConcurrency; [done|]. intros p. unfold fetch_settle.
  apply keeps_bind; [apply keeps_external|]. intros result.
  apply keeps_bind; [apply keeps_updateIfRefreshed|]. intros _. apply keeps_ret.
Qed.

Lemma keeps_extractEmailsContent emails : keeps_newsletters (extractEmailsContent emails).
Proof.
  apply keeps_mapWithConcurrency.
  - intros x i w. unfold extract_call. by destruct (negb _).
  - intros [email|email request]; [apply keeps_ret|]. simpl.
    apply keeps_try_catch; [|intros; apply keeps_ret].
    apply keeps_bind; [apply keeps_external|]. intros; apply keeps_ret.
Qed.

Lemma keeps_saveNewsletterHistory newsletterId emails podcast :
  keeps_newsletters (saveNewsletterHistory newsletterId emails podcast).
Proof.
  unfold saveNewsletterHistory. apply keeps_bind; [|intros; apply keeps_ret].
  apply keeps_prisma. intros w. by destruct (prisma_cuid (World.ext w)).
Qed.

(** No step before the last writes to the newsletter table. *)
Lemma keeps_before_reschedule credentialsManager newsletter options startDate :
  keeps_newsletters (before_reschedule credentialsManager newsletter options startDate).
Proof.
  unfold before_reschedule.
  apply keeps_bind; [apply keeps_fetchNewsletterEmails|]. intros emails.
  apply keeps_bind; [apply keeps_extractEmailsContent|]. intros extractedEmails.
  apply keeps_bind; [apply keeps_external|]. intros podcast.
  apply keeps_bind; [apply keeps_saveNewsletterHistory|]. intros; apply keeps_ret.
Qed.

(** *** The extraction step *)

Lemma extract_mapper_returns email index w1 w2 :
  ∃ v, (extract_settle (extract_call email index w1).2 w2).2 = inl v ∧
       (Boolean (GmailMessageContent.html email) = false → v = plain_text_email email).
Proof.
  unfold extract_call. destruct (Boolean (GmailMessageContent.html email)); simpl.
  - unfold try_catch, bind, external.
    destruct (extractEmailContent _ _) as [x [extracted|e]]; simpl;
      eexists; (split; [reflexivity|done]).
  - eauto.
Qed.

Lemma extract_mapper_result email index w1 w2 :
  ∃ v, (extract_settle (extract_call email index w1).2 w2).2 = inl v ∧
       (Boolean (GmailMessageContent.html email) = false → v = plain_text_email email) ∧
       (Boolean (GmailMessageContent.html email) = true →
          v = match (extractEmailContent (extract_request email) (World.ext w2)).2 with
              | inl answer => extracted_email email (ExtractionResult.articles answer)
              | inr _ => plain_text_email email
              end).
Proof.
  unfold extract_call. destruct (Boolean (GmailMessageContent.html email)); simpl.
  - unfold try_catch, bind, external.
    destruct (extractEmailContent _ _) as [x [extracted|e]]; simpl;
      eexists; (split; [reflexivity|done]).
  - eexists. split; [reflexivity|]. split; done.
Qed.

Lemma lookup_all {A} (l : list A) : omap (λ i, l !! i) (seq 0 (length l)) = l.
Proof.
  induction l as [|x l IH] using rev_ind; [done|].
  rewrite length_app, seq_app, omap_app. cbn [length seq omap list_omap Nat.add].
  rewrite list_lookup_middle by done. f_equal. rewrite <- IH at 2.
  apply list_omap_ext, Forall2_same_length_lookup. split; [done|].
  intros k i j Hi Hj. assert (j = i) as -> by congruence.
  apply lookup_seq in Hi as [-> Hk]. by rewrite lookup_app_l by lia.
Qed.

Lemma extract_requests_app emails1 emails2 :
  extract_requests (emails1 ++ emails2) = extract_requests emails1 ++ extract_requests emails2.
Proof. apply omap_app. Qed.

(** C7.  The fallback is the single article made of the plain text.  For
    a message without HTML the mapper leaves the world as it is, so no
    request reaches the extractor, and returns the fallback; for a
    message with HTML it sends one request, and when the extractor fails
    it returns the fallback instead of failing.  The step as a whole
    never fails and gives one result per message: the fallback for each
    message without HTML, and for a message with HTML the articles the
    extractor answers its request with, or the fallback when the
    extractor fails; a message for which every call of the extractor
    fails yields the fallback.  The requests the step sends are those for
    the messages with HTML, one each and in their order, so the step
    leaves the world untouched when no message has HTML. *)
Theorem extractEmailsContent_fallback
    (email : GmailMessageContent.t) (index : nat) (w w' : World.t X PodcastResult) :
  ExtractedEmail.articles (plain_text_email email) =
    [ExtractedArticle.of_text (GmailMessageContent.text email)] ∧
  ExtractedArticle.text (ExtractedArticle.of_text (GmailMessageContent.text email)) =
    GmailMessageContent.text email ∧
  (Boolean (GmailMessageContent.html email) = false →
     extract_call email index w = (w, PlainText email) ∧
     extract_settle (PlainText email) w' = (w', inl (plain_text_email email))) ∧
  (Boolean (GmailMessageContent.html email) = true →
     ∃ request,
       extract_call email index w =
         (with_extractorCalls (World.extractorCalls w ++ [request]) w,
          Requested email request) ∧
       ∀ x e, extractEmailContent request (World.ext w') = (x, inr e) →
         extract_settle (Requested email request) w' =
           (with_ext x w', inl (plain_text_email email))) ∧
  (∀ emails w0, ∃ extracted,
     (extractEmailsContent emails w0).2 = inl extracted ∧
     length extracted = length emails ∧
     (∀ i e, emails !! i = Some e → Boolean (GmailMessageContent.html e) = false →
        extracted !! i = Some (plain_text_email e)) ∧
     (∀ i e, emails !! i = Some e → Boolean (GmailMessageContent.html e) = true →
        ∃ x, extracted !! i =
             Some (match (extractEmailContent (extract_request e) x).2 with
                   | inl answer => extracted_email e (ExtractionResult.articles answer)
                   | inr _ => plain_text_email e
                   end)) ∧
     (∀ i e, emails !! i = Some e →
        (∀ x, ∃ err, (extractEmailContent (extract_request e) x).2 = inr err) →
        extracted !! i = Some (plain_text_email e)) ∧
     World.extractorCalls (extractEmailsContent emails w0).1 =
       World.extractorCalls w0 ++ extract_requests emails ∧
     ((∀ e, e ∈ emails → Boolean (GmailMessageContent.html e) = false) →
        (extractEmailsContent emails w0).1 = w0)).
Proof.
  split; [done|]. split; [done|]. split; [|split].
  - intros Hhtml. unfold extract_call. by rewrite Hhtml.
  - intros Hhtml. unfold extract_call. rewrite Hhtml. simpl. eexists. split; [done|].
    intros x e He. unfold extract_settle, try_catch, bind, external. by rewrite He.
  - intros emails w0. unfold extractEmailsContent, mapWithConcurrency.
    set (result_of := λ (e : GmailMessageContent.t) (x : X),
           match (extractEmailContent (extract_request e) x).2 with
           | inl answer => extracted_email e (ExtractionResult.articles answer)
           | inr _ => plain_text_email e
           end).
    destruct (Executor.await_mapWithConcurrency_returns emails 4 extract_call extract_settle
      (λ i v, ∀ e, emails !! i = Some e →
                (Boolean (GmailMessageContent.html e) = false → v = plain_text_email e) ∧
                (Boolean (GmailMessageContent.html e) = true → ∃ x, v = result_of e x))
      (completion_order (World.ext w0)) w0) as (rs & Hrs & Hlen & Hat).
    { intros i x w1 w2 Hx.
      destruct (extract_mapper_result x i w1 w2) as (v & Hv & Hplain & Hhtml).
      exists v. split; [done|]. intros e He. assert (e = x) as -> by congruence.
      split; [done|]. intros Hh. exists (World.ext w2). by apply Hhtml. }
    pose proof (Executor.await_mapWithConcurrency_world emails 4 extract_call extract_settle
      (λ w, w = w0) (completion_order (World.ext w0)) w0) as Hworld.
    pose proof (Executor.await_mapWithConcurrency_calls emails 4 extract_call extract_settle
      (λ cs w, World.extractorCalls w =
               World.extractorCalls w0 ++ extract_requests (omap (λ i, emails !! i) cs))
      (completion_order (World.ext w0)) w0) as Hcalls.
    destruct (Executor.await_mapWithConcurrency _ _ _ _ _ _) as [w1 r]. simpl in *.
    subst r. exists (Js.elements rs).
    assert (Hfull : rs = Some <$> Js.elements rs).
    { apply Js.elements_full. intros i Hi. destruct (Hat i) as (v & Hv & _); [lia|eauto]. }
    assert (Hget : ∀ i e, emails !! i = Some e →
      ∃ v, Js.elements rs !! i = Some v ∧
           (Boolean (GmailMessageContent.html e) = false → v = plain_text_email e) ∧
           (Boolean (GmailMessageContent.html e) = true → ∃ x, v = result_of e x)).
    { intros i e He. destruct (Hat i) as (v & Hv & HQ).
      { by eapply lookup_lt_Some. }
      rewrite Hfull, list_lookup_fmap in Hv.
      destruct (Js.elements rs !! i) as [v'|]; [|done]. injection Hv as ->.
      exists v. split; [done|]. by apply HQ. }
    split; [done|]. split; [|split; [|split; [|split; [|split]]]].
    + rewrite <- Hlen. rewrite Hfull at 2. by rewrite length_fmap.
    + intros i e He Hhtml. destruct (Hget i e He) as (v & -> & Hplain & _).
      by rewrite (Hplain Hhtml).
    + intros i e He Hhtml. destruct (Hget i e He) as (v & -> & _ & Hres).
      destruct (Hres Hhtml) as [x ->]. by exists x.
    + intros i e He Hfail. destruct (Hget i e He) as (v & -> & Hplain & Hres).
      destruct (Boolean (GmailMessageContent.html e)) eqn:Hhtml.
      * destruct (Hres eq_refl) as [x ->]. unfold result_of.
        destruct (Hfail x) as [err ->]. done.
      * by rewrite Hplain.
    + rewrite Hcalls.
      * by rewrite lookup_all.
      * intros i x w2 w3 Hx. destruct (extract_mapper_result x i w2 w3) as (v & Hv & _).
        eauto.
      * intros i x cs w2 Hx HQ. rewrite omap_app, extract_requests_app.
        cbn [omap list_omap]. rewrite Hx. unfold extract_call, extract_requests at 2.
        cbn [omap list_omap].
        destruct (Boolean (GmailMessageContent.html x)); simpl.
        -- by rewrite HQ, <- (assoc (++)).
        -- by rewrite HQ, app_nil_r.
      * intros i x w2 cs w3 Hx HQ. unfold extract_call.
        destruct (Boolean (GmailMessageContent.html x)); simpl; [|done].
        unfold try_catch, bind, external.
        by destruct (extractEmailContent _ _) as [x' [extracted|e]].
      * by rewrite app_nil_r.
    + intros Hall. apply Hworld; [| |done].
      * intros i x w2 Hx ->. unfold extract_call.
        rewrite Hall; [done|]. apply list_elem_of_lookup. eauto.
      * intros i x w2 w3 Hx ->. unfold extract_call.
        rewrite Hall; [done|]. apply list_elem_of_lookup. eauto.
Qed.

(** *** The pipeline of one subscription *)

(** [processNewsletter] seen as the steps before the rescheduling,
    then the rescheduling. *)
Lemma processNewsletter_unfold credentialsManager newsletter options startDate now w :
  processNewsletter credentialsManager newsletter options startDate now w =
  match before_reschedule credentialsManager newsletter options startDate w with
  | (w1, inr e) => (w1, inl (failure_result newsletter e))
  | (w1, inl (emails, podcast, historyId)) =>
      try_catch
        (let* nextRun := updateNewsletterSchedule (Newsletter.id newsletter) now
                           (Newsletter.interval newsletter) in
         let* nextRunText := toISOString nextRun in
         ret (NewsletterResult.Build (Newsletter.id newsletter) (Some (length emails))
                (Some historyId) (Some podcast) (Some nextRunText) None))
        (λ e, ret (failure_result newsletter e)) w1
  end.
Proof.
  unfold processNewsletter, before_reschedule, try_catch, bind.
  destruct (fetchNewsletterEmails _ _ _ _ w) as [w1 [emails|e]]; [|done].
  destruct (extractEmailsContent emails w1) as [w2 [extractedEmails|e]]; [|done].
  destruct (generateNewsletterPodcast _ w2) as [w3 [podcast|e]]; [|done].
  by destruct (saveNewsletterHistory _ emails podcast w3) as [w4 [historyId|e]].
Qed.

(** What the rescheduling does to the table and reports. *)
Lemma reschedule_cases newsletter now w1 w2 result
    (emails : list GmailMessageContent.t) historyId (podcast : PodcastResult) :
  try_catch
    (let* nextRun := updateNewsletterSchedule (Newsletter.id newsletter) now
                       (Newsletter.interval newsletter) in
     let* nextRunText := toISOString nextRun in
     ret (NewsletterResult.Build (Newsletter.id newsletter) (Some (length emails))
            (Some historyId) (Some podcast) (Some nextRunText) None))
    (λ e, ret (failure_result newsletter e)) w1 = (w2, inl result) →
  (NewsletterResult.error result = None ∧
   NewsletterResult.nextRun result =
     Schedule.addInterval now (Newsletter.interval newsletter) ∧
   is_Some (Schedule.addInterval now (Newsletter.interval newsletter)) ∧
   existsb (λ n, bool_decide (Newsletter.id n = Newsletter.id newsletter))
           (Db.newsletter (World.db w1)) = true ∧
   Db.newsletter (World.db w2) =
     newsletter_rows_update (Newsletter.id newsletter) now
       (Schedule.addInterval now (Newsletter.interval newsletter))
       (Db.newsletter (World.db w1))) ∨
  (∃ e, result = failure_result newsletter e).
Proof.
  unfold updateNewsletterSchedule, prisma_newsletter_update, prisma, toISOString.
  unfold try_catch, bind, ret, throw.
  destruct (prisma_fault (World.ext w1)) as [x [e|]]; [intros [= <- <-]; eauto|].
  simpl. destruct (existsb _ _) eqn:Hrow; [|intros [= <- <-]; eauto].
  destruct (Schedule.addInterval now (Newsletter.interval newsletter)) as [t|] eqn:Hnext;
    [|intros [= <- <-]; eauto].
  intros [= <- <-]. left. simpl. eauto 10.
Qed.

Lemma processNewsletter_returns credentialsManager newsletter options startDate now w :
  ∃ w1 result,
    processNewsletter credentialsManager newsletter options startDate now w
      = (w1, inl result) ∧
    NewsletterResult.newsletterId result = Newsletter.id newsletter.
Proof.
  rewrite processNewsletter_unfold.
  destruct (before_reschedule _ _ _ _ w) as [w1 [[[emails podcast] historyId]|e]];
    [|by eexists _, _].
  unfold try_catch.
  destruct (bind _ _ w1) as [w2 [result|e]] eqn:Hbody; [|by eexists _, _].
  exists w2, result. split; [done|].
  unfold bind in Hbody.
  destruct (updateNewsletterSchedule _ _ _ w1) as [w3 [nextRun|e]]; [|done].
  destruct (toISOString nextRun w3) as [w4 [text|e]]; [|done].
  by injection Hbody as _ <-.
Qed.

Lemma process_newsletters_returns credentialsManager newsletters options start now results w :
  ∃ w1 rs,
    process_newsletters credentialsManager newsletters options start now results w
      = (w1, inl (results ++ rs)) ∧
    NewsletterResult.newsletterId <$> rs = Newsletter.id <$> newsletters.
Proof.
  revert results w. induction newsletters as [|n newsletters IH]; intros results w.
  - exists w, []. by rewrite app_nil_r.
  - simpl. unfold bind.
    destruct (processNewsletter_returns credentialsManager n options start now w)
      as (w1 & result & -> & Hid).
    destruct (IH (results ++ [result]) w1) as (w2 & rs & -> & Hids).
    exists w2, (result :: rs). split.
    + by rewrite <- (assoc (++)).
    + rewrite !fmap_cons. by rewrite Hid, Hids.
Qed.

Lemma process_user_returns user options start now w gmailAccount credentials :
  head (UserWithRelations.emailAccounts user) = Some gmailAccount →
  getGmailCredentials gmailAccount = inl (Some credentials) →
  ∃ w1 userResult,
    process_user user options start now w = (w1, inl userResult) ∧
    UserResult.userId userResult = UserWithRelations.id user ∧
    NewsletterResult.newsletterId <$> UserResult.newsletters userResult =
      Newsletter.id <$> UserWithRelations.newsletters user.
Proof.
  intros Hacct Hcred. unfold process_user.
  destruct (UserWithRelations.emailAccounts user) as [|a accts]; [done|].
  injection Hacct as ->. unfold bind, lift. rewrite Hcred. simpl.
  destruct (process_newsletters_returns (EmailAccount.id gmailAccount)
    (UserWithRelations.newsletters user) options start now []
    (with_credentials credentials w)) as (w1 & rs & -> & Hids).
  by eexists _, _.
Qed.

Lemma process_users_returns users options start now results w :
  (∀ u a, u ∈ users → head (UserWithRelations.emailAccounts u) = Some a →
          ∃ c, getGmailCredentials a = inl c) →
  ∃ w1 rs,
    process_users users options start now results w = (w1, inl (results ++ rs)) ∧
    Forall2 (λ u r,
               UserResult.userId r = UserWithRelations.id u ∧
               (UserResult.error r = None →
                NewsletterResult.newsletterId <$> UserResult.newsletters r =
                  Newsletter.id <$> UserWithRelations.newsletters u))
            users rs.
Proof.
  revert results w. induction users as [|u users IH]; intros results w Hcreds.
  - exists w, []. by rewrite app_nil_r.
  - simpl. unfold bind.
    assert (∃ w1 r, process_user u options start now w = (w1, inl r) ∧
              UserResult.userId r = UserWithRelations.id u ∧
              (UserResult.error r = None →
               NewsletterResult.newsletterId <$> UserResult.newsletters r =
                 Newsletter.id <$> UserWithRelations.newsletters u))
      as (w1 & r & -> & Hid & Hnl).
    { destruct (UserWithRelations.emailAccounts u) as [|a accts] eqn:Haccts.
      - unfold process_user. rewrite Haccts. by eexists _, _.
      - destruct (Hcreds u a) as [[c|] Hc]; [left|by rewrite Haccts| |].
        + destruct (process_user_returns u options start now w a c)
            as (w1 & r & Hr & Hu & Hn); [by rewrite Haccts|done|]. eauto 10.
        + unfold process_user. rewrite Haccts. unfold bind, lift. rewrite Hc.
          by eexists _, _. }
    destruct (IH (results ++ [r]) w1) as (w2 & rs & -> & Hall).
    { intros u' a' Hu'. apply Hcreds. by right. }
    exists w2, (r :: rs). split; [by rewrite <- (assoc (++))|].
    by constructor.
Qed.

(** The loop over the users stops only where the credentials of a
    user's account cannot be read. *)
Lemma process_users_cases users options start now results w :
  (∃ w1 rs,
     process_users users options start now results w = (w1, inl (results ++ rs)) ∧
     Forall2 (λ u r,
                UserResult.userId r = UserWithRelations.id u ∧
                (UserResult.error r = None →
                 NewsletterResult.newsletterId <$> UserResult.newsletters r =
                   Newsletter.id <$> UserWithRelations.newsletters u))
             users rs) ∨
  (∃ w1 e u a,
     process_users users options start now results w = (w1, inr e) ∧
     u ∈ users ∧ head (UserWithRelations.emailAccounts u) = Some a ∧
     getGmailCredentials a = inr e).
Proof.
  revert results w. induction users as [|u users IH]; intros results w.
  - left. exists w, []. by rewrite app_nil_r.
  - cbn [process_users]. unfold bind.
    assert ((∃ w1 r, process_user u options start now w = (w1, inl r) ∧
               UserResult.userId r = UserWithRelations.id u ∧
               (UserResult.error r = None →
                NewsletterResult.newsletterId <$> UserResult.newsletters r =
                  Newsletter.id <$> UserWithRelations.newsletters u)) ∨
            (∃ e a, process_user u options start now w = (w, inr e) ∧
               head (UserWithRelations.emailAccounts u) = Some a ∧
               getGmailCredentials a = inr e))
      as [(w1 & r & Hr & Hid & Hnl)|(e & a & He & Ha & Hcred)].
    { destruct (UserWithRelations.emailAccounts u) as [|a accts] eqn:Haccts.
      - left. unfold process_user. rewrite Haccts. by eexists _, _.
      - destruct (getGmailCredentials a) as [[c|]|e] eqn:Hc.
        + left. destruct (process_user_returns u options start now w a c)
            as (w1 & r & Hr & Hu & Hn); [by rewrite Haccts|done|]. eauto 10.
        + left. unfold process_user. rewrite Haccts. unfold bind, lift. rewrite Hc.
          by eexists _, _.
        + right. exists e, a. unfold process_user. rewrite Haccts.
          unfold bind, lift. by rewrite Hc. }
    + rewrite Hr.
      destruct (IH (results ++ [r]) w1)
        as [(w2 & rs & Hrun & Hall)|(w2 & e & u' & a & Hrun & Hu' & Ha & Hcred)].
      * left. exists w2, (r :: rs). rewrite Hrun. split; [by rewrite <- (assoc (++))|].
        by constructor.
      * right. exists w2, e, u', a. split; [done|]. split; [by right|done].
    + right. rewrite He. exists w, e, u, a. split; [done|]. split; [by left|done].
Qed.

Lemma process_newsletters_runs credentialsManager newsletters options start now results w :
  ∃ w1 rs,
    process_newsletters credentialsManager newsletters options start now results w
      = (w1, inl (results ++ rs)) ∧
    runs credentialsManager options start now w newsletters w1 rs.
Proof.
  revert results w. induction newsletters as [|n newsletters IH]; intros results w.
  - exists w, []. rewrite app_nil_r. split; [done|]. constructor.
  - simpl. unfold bind.
    destruct (processNewsletter_returns credentialsManager n options start now w)
      as (w1 & result & Hrun & _). rewrite Hrun.
    destruct (IH (results ++ [result]) w1) as (w2 & rs & -> & Hruns).
    exists w2, (result :: rs). split; [by rewrite <- (assoc (++))|].
    by econstructor.
Qed.

Lemma runs_results credentialsManager options start now w newsletters w1 rs :
  runs credentialsManager options start now w newsletters w1 rs →
  NewsletterResult.newsletterId <$> rs = Newsletter.id <$> newsletters.
Proof.
  induction 1 as [|w n w1 result ns w2 rs Hrun _ IH]; [done|].
  rewrite !fmap_cons, IH. f_equal.
  destruct (processNewsletter_returns credentialsManager n options start now w)
    as (w1' & result' & Hrun' & Hid). congruence.
Qed.

(** C3.  When a step before the rescheduling throws, [processNewsletter]
    returns, with the world as that step left it, a result that carries
    the subscription's identifier and the error's message, and the
    newsletter table is the one it started from: no [lastRun] or
    [nextRun] has changed.  The loop over the subscriptions then goes on
    with the next one from that world: [processNewsletter] returns a
    result in every case, so every subscription of the user is run by
    it, each from the world the one before has left, and the loop yields
    their results in order.  A user whose credentials are read has the
    subscriptions run in this way and gets a result that holds theirs,
    and the loop over the users goes on with the users after, whatever
    failed in the subscriptions.  The loop over the users yields one
    result per user, or it is stopped by the error of reading the
    credentials of a user's account, which is thrown outside
    [processNewsletter]; nothing else stops it. *)
Theorem processNewsletter_contains_failures
    (credentialsManager : list N) (newsletter : Newsletter.t)
    (options : NewsletterProcessingOptions.t) (startDate now : option Z)
    (w : World.t X PodcastResult) :
  (∀ w1 e,
     before_reschedule credentialsManager newsletter options startDate w = (w1, inr e) →
     processNewsletter credentialsManager newsletter options startDate now w =
       (w1, inl (failure_result newsletter e)) ∧
     NewsletterResult.newsletterId (failure_result newsletter e) =
       Newsletter.id newsletter ∧
     NewsletterResult.error (failure_result newsletter e) = Some (Js.message_of e) ∧
     Db.newsletter (World.db w1) = Db.newsletter (World.db w) ∧
     ∀ newsletters results,
       process_newsletters credentialsManager (newsletter :: newsletters) options
         startDate now results w =
       process_newsletters credentialsManager newsletters options startDate now
         (results ++ [failure_result newsletter e]) w1) ∧
  (∃ w1 result,
     processNewsletter credentialsManager newsletter options startDate now w =
       (w1, inl result) ∧
     NewsletterResult.newsletterId result = Newsletter.id newsletter) ∧
  (∀ newsletters results, ∃ w1 rs,
     process_newsletters credentialsManager newsletters options startDate now results w =
       (w1, inl (results ++ rs)) ∧
     runs credentialsManager options startDate now w newsletters w1 rs ∧
     NewsletterResult.newsletterId <$> rs = Newsletter.id <$> newsletters) ∧
  (∀ user users gmailAccount credentials results,
     head (UserWithRelations.emailAccounts user) = Some gmailAccount →
     getGmailCredentials gmailAccount = inl (Some credentials) →
     ∃ w1 rs,
       runs (EmailAccount.id gmailAccount) options startDate now
            (with_credentials credentials w) (UserWithRelations.newsletters user) w1 rs ∧
       let userResult :=
         UserResult.Build (UserWithRelations.id user)
           (Some (EmailAccount.id gmailAccount)) rs None in
       process_user user options startDate now w = (w1, inl userResult) ∧
       process_users (user :: users) options startDate now results w =
       process_users users options startDate now (results ++ [userResult]) w1) ∧
  (∀ users results,
     (∃ w1 rs,
        process_users users options startDate now results w = (w1, inl (results ++ rs)) ∧
        Forall2 (λ u r,
                   UserResult.userId r = UserWithRelations.id u ∧
                   (UserResult.error r = None →
                    NewsletterResult.newsletterId <$> UserResult.newsletters r =
                      Newsletter.id <$> UserWithRelations.newsletters u))
                users rs) ∨
     (∃ w1 e u a,
        process_users users options startDate now results w = (w1, inr e) ∧
        u ∈ users ∧ head (UserWithRelations.emailAccounts u) = Some a ∧
        getGmailCredentials a = inr e)).
Proof.
  split; [|split; [|split; [|split]]].
  - intros w1 e Hfail.
    assert (Hrun : processNewsletter credentialsManager newsletter options startDate now w =
                   (w1, inl (failure_result newsletter e))).
    { by rewrite processNewsletter_unfold, Hfail. }
    split; [done|]. split; [done|]. split; [done|]. split.
    + pose proof (keeps_before_reschedule credentialsManager newsletter options startDate w)
        as Hkeep.
      by rewrite Hfail in Hkeep.
    + intros newsletters results. cbn [process_newsletters]. unfold bind at 1.
      by rewrite Hrun.
  - apply processNewsletter_returns.
  - intros newsletters results.
    destruct (process_newsletters_runs credentialsManager newsletters options startDate now
                results w) as (w1 & rs & Hloop & Hruns).
    exists w1, rs. split; [done|]. split; [done|]. by eapply runs_results.
  - intros user users gmailAccount credentials results Hacct Hcred.
    destruct (process_newsletters_runs (EmailAccount.id gmailAccount)
      (UserWithRelations.newsletters user) options startDate now []
      (with_credentials credentials w)) as (w1 & rs & Hloop & Hruns).
    exists w1, rs. split; [done|]. cbv zeta.
    assert (Huser : process_user user options startDate now w =
      (w1, inl (UserResult.Build (UserWithRelations.id user)
                  (Some (EmailAccount.id gmailAccount)) rs None))).
    { unfold process_user.
      destruct (UserWithRelations.emailAccounts user) as [|a accts]; [done|].
      injection Hacct as ->. unfold bind, lift. rewrite Hcred.
      unfold createCredentialsUpdater. by rewrite Hloop. }
    split; [done|]. cbn [process_users]. unfold bind at 1. by rewrite Huser.
  - intros users results. apply process_users_cases.
Qed.

(** C4.  When [processNewsletter] reports no error, the newsletter table
    is the one it started from with [lastRun] set to the run instant and
    [nextRun] to [addInterval] of it and the cadence in the rows of the
    subscription, of which there is one; the other rows are as they
    were, the result reports that [nextRun], and the steps before the
    rescheduling leave the whole table as it is. *)
Theorem processNewsletter_reschedules
    (credentialsManager : list N) (newsletter : Newsletter.t)
    (options : NewsletterProcessingOptions.t) (startDate now : option Z)
    (w w1 : World.t X PodcastResult) (result : NewsletterResult.t PodcastResult) :
  processNewsletter credentialsManager newsletter options startDate now w =
    (w1, inl result) →
  NewsletterResult.error result = None →
  let nextRun := Schedule.addInterval now (Newsletter.interval newsletter) in
  NewsletterResult.nextRun result = nextRun ∧
  Db.newsletter (World.db w1) =
    newsletter_rows_update (Newsletter.id newsletter) now nextRun
      (Db.newsletter (World.db w)) ∧
  (∃ row, row ∈ Db.newsletter (World.db w1) ∧
          Newsletter.id row = Newsletter.id newsletter) ∧
  (∀ row, row ∈ Db.newsletter (World.db w1) →
     Newsletter.id row = Newsletter.id newsletter →
     Newsletter.lastRun row = Some now ∧ Newsletter.nextRun row = nextRun ∧
     Newsletter.nextRun row =
       Schedule.addInterval (default None (Newsletter.lastRun row))
                            (Newsletter.interval newsletter)) ∧
  (∀ row, row ∈ Db.newsletter (World.db w) →
     Newsletter.id row ≠ Newsletter.id newsletter →
     row ∈ Db.newsletter (World.db w1)) ∧
  (∀ w0, Db.newsletter
           (World.db (before_reschedule credentialsManager newsletter options
                        startDate w0).1) =
         Db.newsletter (World.db w0)).
Proof.
  intros Hrun Hok nextRun. rewrite processNewsletter_unfold in Hrun.
  pose proof (keeps_before_reschedule credentialsManager newsletter options startDate)
    as Hkeep.
  pose proof (Hkeep w) as Hkeep_w.
  destruct (before_reschedule _ _ _ _ w) as [w2 [[[emails podcast] historyId]|e]].
  2: { injection Hrun as _ <-. done. }
  simpl in Hkeep_w.
  destruct (reschedule_cases _ _ _ _ _ _ _ _ Hrun)
    as [(_ & Hnext & _ & Hrow & Htable)|[e ->]]; [|done].
  rewrite Hkeep_w in Htable, Hrow. fold nextRun in Hnext, Htable.
  split; [done|]. split; [done|]. rewrite Htable. unfold newsletter_rows_update.
  split; [|split; [|split; [|done]]].
  - apply existsb_exists in Hrow as (row & Hin & Hid).
    apply bool_decide_eq_true in Hid.
    eexists. split.
    + apply list_elem_of_fmap. exists row. split; [done|]. by apply list_elem_of_In.
    + rewrite bool_decide_true by done. done.
  - intros row (row0 & -> & Hin)%list_elem_of_fmap.
    case_bool_decide as Hid; [done|]. intros Hid'. done.
  - intros row Hin Hne. apply list_elem_of_fmap. exists row. split; [|done].
    by rewrite bool_decide_false.
Qed.

(** *** The day of the job *)

Lemma startOfUtcDay_Day (t : Z) :
  JsDate.in_range t → ¬ (0 ≤ JsDate.YearFromTime t ≤ 99)%Z →
  startOfUtcDay (Some t) = Some (JsDate.Day t * JsDate.msPerDay)%Z.
Proof.
  intros Ht Hy. unfold startOfUtcDay, JsDate.UTC. cbn [mbind option_bind].
  rewrite decide_False by done.
  rewrite <- (Z.add_0_r (JsDate.DateFromTime t)), JsDate.MakeDay_current.
  unfold JsDate.copy, JsDate.TimeClip, JsDate.MakeDate, JsDate.MakeTime.
  unfold JsDate.in_range, JsDate.Day, JsDate.msPerDay in *.
  assert (Hin : ¬ (8640000000000000 <
                   Z.abs ((t / 86400000 + 0) * 86400000 + (0 * 3600000 + 0 * 60000 + 0 * 1000 + 0)))%Z)
    by (Z.div_mod_to_equations; lia).
  rewrite decide_False by done. cbn [mbind option_bind]. rewrite decide_False by done.
  f_equal. lia.
Qed.

(** X1.  For a valid date outside the years 0 to 99, [startOfUtcDay]
    is the midnight that starts the date's UTC day: the latest multiple
    of 86,400,000 ms at or before it, less than a day back, on the same
    day of the same month and year.  Two instants of one UTC day have the
    same start, and the start of a start is itself.  For a date in the
    years 0 to 99, [Date.UTC] reads the year as one of the twentieth
    century, and the result lies after the date instead of before it. *)
Theorem startOfUtcDay_midnight (t : Z) :
  JsDate.in_range t →
  (¬ (0 ≤ JsDate.YearFromTime t ≤ 99)%Z →
     ∃ start,
       startOfUtcDay (Some t) = Some start ∧
       (start mod JsDate.msPerDay = 0)%Z ∧
       (start ≤ t < start + JsDate.msPerDay)%Z ∧
       JsDate.civil start = JsDate.civil t ∧
       startOfUtcDay (Some start) = Some start ∧
       ∀ t', JsDate.in_range t' → JsDate.Day t' = JsDate.Day t →
             startOfUtcDay (Some t') = Some start) ∧
  ((0 ≤ JsDate.YearFromTime t ≤ 99)%Z →
     ∃ start,
       startOfUtcDay (Some t) = Some start ∧
       (t < start)%Z ∧
       (1900 ≤ JsDate.YearFromTime start)%Z).
Proof.
  intros Ht. split.
  - intros Hy. exists (JsDate.Day t * JsDate.msPerDay)%Z.
    assert (Hday : JsDate.Day (JsDate.Day t * JsDate.msPerDay) = JsDate.Day t).
    { unfold JsDate.Day, JsDate.msPerDay. Z.div_mod_to_equations. lia. }
    assert (Hrange : JsDate.in_range (JsDate.Day t * JsDate.msPerDay)).
    { unfold JsDate.in_range, JsDate.Day, JsDate.msPerDay in *.
      Z.div_mod_to_equations. lia. }
    assert (Hcivil : JsDate.civil (JsDate.Day t * JsDate.msPerDay) = JsDate.civil t).
    { unfold JsDate.civil, JsDate.DateFromTime, JsDate.MonthFromTime,
        JsDate.InLeapYear, JsDate.DayWithinYear, JsDate.YearFromTime.
      by rewrite Hday. }
    split; [by apply startOfUtcDay_Day|].
    split; [unfold JsDate.msPerDay; Z.div_mod_to_equations; lia|].
    split; [unfold JsDate.Day, JsDate.msPerDay; Z.div_mod_to_equations; lia|].
    split; [done|]. split.
    + rewrite startOfUtcDay_Day; [by rewrite Hday|done|].
      injection Hcivil as Hyear _ _. by rewrite Hyear.
    + intros t' Ht' Hsame. rewrite startOfUtcDay_Day; [by rewrite Hsame|done|].
      unfold JsDate.YearFromTime in *. by rewrite Hsame.
  - intros Hy. unfold startOfUtcDay, JsDate.UTC. cbn [mbind option_bind].
    rewrite decide_True by done.
    pose proof (JsDate.month_of_day_range (JsDate.InLeapYear t) (JsDate.DayWithinYear t))
      as Hm. fold (JsDate.MonthFromTime t) in Hm.
    pose proof (JsDate.DateFromTime_range t) as Hd.
    destruct (Schedule.DaysInMonth_cases (1900 + JsDate.YearFromTime t)
                (JsDate.MonthFromTime t) Hm) as [Hlen _].
    destruct (Schedule.DaysInMonth_cases (JsDate.YearFromTime t)
                (JsDate.MonthFromTime t) Hm) as [Hlen0 _].
    set (day := JsDate.MakeDay (1900 + JsDate.YearFromTime t) (JsDate.MonthFromTime t)
                  (JsDate.DateFromTime t)).
    assert (Hday : (JsDate.DayFromYear 1900 ≤ day ≤ JsDate.DayFromYear 2000 + 400)%Z).
    { unfold day. rewrite JsDate.MakeDay_month by done.
      pose proof (JsDate.DayFromYear_mono 1900 (1900 + JsDate.YearFromTime t)).
      pose proof (JsDate.DayFromYear_mono (1900 + JsDate.YearFromTime t) 2000).
      assert (0 ≤ JsDate.month_start
                    (if decide (JsDate.DaysInYear (1900 + JsDate.YearFromTime t) = 366)
                     then 1 else 0) (JsDate.MonthFromTime t) ≤ 335)%Z.
      { assert (JsDate.MonthFromTime t = 0 ∨ JsDate.MonthFromTime t = 1 ∨
                JsDate.MonthFromTime t = 2 ∨ JsDate.MonthFromTime t = 3 ∨
                JsDate.MonthFromTime t = 4 ∨ JsDate.MonthFromTime t = 5 ∨
                JsDate.MonthFromTime t = 6 ∨ JsDate.MonthFromTime t = 7 ∨
                JsDate.MonthFromTime t = 8 ∨ JsDate.MonthFromTime t = 9 ∨
                JsDate.MonthFromTime t = 10 ∨ JsDate.MonthFromTime t = 11)%Z
          as Hcases by lia.
        destruct (decide (JsDate.DaysInYear (1900 + JsDate.YearFromTime t) = 366)%Z);
        destruct Hcases as [->|[->|[->|[->|[->|[->|[->|[->|[->|[->|[->| ->]]]]]]]]]]];
          simpl; lia. }
      lia. }
    change (JsDate.DayFromYear 1900) with (-25567)%Z in Hday.
    change (JsDate.DayFromYear 2000) with 10957%Z in Hday.
    pose proof (JsDate.YearFromTime_spec t) as Hspec.
    pose proof (JsDate.DayFromYear_mono (JsDate.YearFromTime t + 1) 100) as Hmono.
    unfold JsDate.TimeFromYear in Hspec.
    change (JsDate.DayFromYear 100) with (-683003)%Z in Hmono.
    unfold JsDate.copy, JsDate.TimeClip, JsDate.MakeDate, JsDate.MakeTime, JsDate.msPerDay in *.
    rewrite decide_False by lia. cbn [mbind option_bind]. rewrite decide_False by lia.
    eexists. split; [done|]. split; [lia|].
    unfold JsDate.YearFromTime.
    assert (JsDate.Day (day * 86400000 + (0 * 3600000 + 0 * 60000 + 0 * 1000 + 0)) = day)
      as -> by (unfold JsDate.Day, JsDate.msPerDay; Z.div_mod_to_equations; lia).
    pose proof (JsDate.YearFromDay_spec day) as Hyd.
    destruct (decide (1900 ≤ JsDate.YearFromDay day)%Z); [done|].
    pose proof (JsDate.DayFromYear_mono (JsDate.YearFromDay day + 1) 1900).
    change (JsDate.DayFromYear 1900) with (-25567)%Z in *. lia.
Qed.

(** X2.  The job selects the subscriptions whose [nextRun] lies in
    [start, start + 24 h), with [start] the start of the UTC day of
    [now].  The instant [now] itself lies in that window.  The [nextRun]
    a weekly, biweekly or monthly subscription is given by a run at [now]
    lies outside it, so a second run on the same day does not select the
    subscription again; under any other cadence [nextRun] is [now], inside
    the window, and the subscription stays due. *)
Theorem rescheduled_leaves_window (now : Z) :
  JsDate.in_range now → JsDate.in_range (now + JsDate.msPerDay) →
  ¬ (0 ≤ JsDate.YearFromTime now ≤ 99)%Z →
  let start := startOfUtcDay (Some now) in
  let end_ := (t ← start; JsDate.TimeClip (t + 24 * 60 * 60 * 1000)%Z) in
  in_window start end_ (Some now) = true ∧
  (∀ i, i = Schedule.WEEKLY ∨ i = Schedule.BIWEEKLY ∨ i = Schedule.MONTHLY →
     in_window start end_ (Schedule.addInterval (Some now) i) = false) ∧
  (∀ name, in_window start end_
             (Schedule.addInterval (Some now) (Schedule.OtherInterval name)) = true).
Proof.
  intros Hnow Hnext Hy start end_. subst start end_.
  rewrite (startOfUtcDay_Day now Hnow Hy). cbn [mbind option_bind].
  assert (Hday : (JsDate.Day now * JsDate.msPerDay ≤ now
                  < JsDate.Day now * JsDate.msPerDay + JsDate.msPerDay)%Z).
  { unfold JsDate.Day, JsDate.msPerDay. Z.div_mod_to_equations. lia. }
  unfold JsDate.TimeClip, JsDate.in_range, JsDate.msPerDay in *.
  rewrite decide_False by lia. unfold in_window.
  split; [apply bool_decide_eq_true; lia|]. split.
  - intros i Hi.
    destruct (Schedule.addInterval (Some now) i) as [t'|] eqn:Hnext'; [|done].
    apply bool_decide_eq_false.
    pose proof (Schedule.addInterval_later now i t' Hnow Hnext') as Hlater.
    unfold JsDate.msPerDay in Hlater.
    destruct Hi as [->|[->| ->]]; lia.
  - intros name. unfold Schedule.addInterval. rewrite (Schedule.copy_in_range now Hnow).
    apply bool_decide_eq_true. lia.
Qed.

(** *** What is read of the database apart from the accounts *)

Section Keeps.
Context {B : Type}.
Variable table : Db.t PodcastResult → B.
Hypothesis table_accounts : ∀ d accounts,
  table (Db.Build (Db.user d) accounts (Db.newsletter d) (Db.newsletterHistory d)) = table d.

Lemma keeps_table_bind {A C} (c : M A) (k : A → M C) :
  keeps table c → (∀ a, keeps table (k a)) → keeps table (bind c k).
Proof.
  intros Hc Hk w. unfold bind. specialize (Hc w).
  destruct (c w) as [w1 [a|e]]; simpl in *; [|done]. by rewrite Hk.
Qed.

Lemma keeps_table_try_catch {A} (c : M A) (handler : Js.exn → M A) :
  keeps table c → (∀ e, keeps table (handler e)) → keeps table (try_catch c handler).
Proof.
  intros Hc Hh w. unfold try_catch. specialize (Hc w).
  destruct (c w) as [w1 [a|e]]; simpl in *; [done|]. by rewrite Hh.
Qed.

Lemma keeps_table_external {A} (f : X → X * (A + Js.exn)) : keeps table (external f).
Proof. intros w. unfold external. by destruct (f (World.ext w)). Qed.

Lemma keeps_table_prisma {A} (query : M A) : keeps table query → keeps table (prisma query).
Proof.
  intros Hq w. unfold prisma. destruct (prisma_fault (World.ext w)) as [x [e|]]; [done|].
  by rewrite Hq.
Qed.

Lemma keeps_table_updateIfRefreshed emailAccountId refreshed :
  keeps table (updateIfRefreshed emailAccountId refreshed).
Proof.
  destruct refreshed as [refreshed|]; [|done]. simpl.
  apply keeps_table_bind; [done|]. intros _. apply keeps_table_bind; [done|].
  intros accessToken. apply keeps_table_prisma. intros w. simpl.
  destruct (existsb _ (Db.emailAccount (World.db w))); [|done]. simpl.
  apply table_accounts.
Qed.

Lemma keeps_table_mapWithConcurrency {T P R} (items : list T) (concurrency : Z)
    (call : T → nat → World.t X PodcastResult → World.t X PodcastResult * P)
    (settle : P → M R) :
  (∀ x i w, table (World.db (call x i w).1) = table (World.db w)) →
  (∀ p, keeps table (settle p)) →
  keeps table (mapWithConcurrency items concurrency call settle).
Proof.
  intros Hcall Hsettle w. unfold mapWithConcurrency.
  pose proof (Executor.await_mapWithConcurrency_world items concurrency call settle
    (λ w', table (World.db w') = table (World.db w))
    (completion_order (World.ext w)) w) as Hworld.
  destruct (Executor.await_mapWithConcurrency _ _ _ _ _ _) as [w1 r]. simpl in *.
  apply Hworld; [| |done].
  - intros i x w' _ <-. apply Hcall.
  - intros i x w2 w' _ <-. apply Hsettle.
Qed.

Lemma keeps_table_fetchNewsletterEmails credentialsManager newsletter options startDate :
  keeps table (fetchNewsletterEmails credentialsManager newsletter options startDate).
Proof.
  unfold fetchNewsletterEmails. apply keeps_table_bind; [done|]. intros credentials.
  apply keeps_table_bind; [apply keeps_table_external|]. intros listResult.
  apply keeps_table_bind; [apply keeps_table_updateIfRefreshed|]. intros _.
  apply keeps_table_bind; [|done].
  apply keeps_table_mapWithConcurrency; [done|]. intros p. unfold fetch_settle.
  apply keeps_table_bind; [apply keeps_table_external|]. intros result.
  by apply keeps_table_bind; [apply keeps_table_updateIfRefreshed|].
Qed.

Lemma keeps_table_extractEmailsContent emails : keeps table (extractEmailsContent emails).
Proof.
  apply keeps_table_mapWithConcurrency.
  - intros x i w. unfold extract_call. by destruct (negb _).
  - intros [email|email request]; [done|]. simpl.
    apply keeps_table_try_catch; [|done].
    by apply keeps_table_bind; [apply keeps_table_external|].
Qed.

End Keeps.

(** *** The history of runs *)

Lemma keeps_history_fetch_extract_generate credentialsManager newsletter options startDate :
  keeps Db.newsletterHistory
    (let* emails := fetchNewsletterEmails credentialsManager newsletter options startDate in
     let* extractedEmails := extractEmailsContent emails in
     let* podcast := generateNewsletterPodcast (Compose.buildPodcastInput extractedEmails) in
     ret (emails, podcast)).
Proof.
  apply keeps_table_bind; [by apply keeps_table_fetchNewsletterEmails|]. intros emails.
  apply keeps_table_bind; [by apply keeps_table_extractEmailsContent|].
  intros extractedEmails.
  by apply keeps_table_bind; [apply keeps_table_external|].
Qed.

(** The row a run saves. *)
Lemma saveNewsletterHistory_row newsletterId emails (podcast : PodcastResult) w :
  match saveNewsletterHistory newsletterId emails podcast w with
  | (w1, inl historyId) =>
      ∃ row,
        Db.newsletterHistory (World.db w1) = Db.newsletterHistory (World.db w) ++ [row] ∧
        NewsletterHistory.id row = historyId ∧
        NewsletterHistory.newsletterId row = newsletterId ∧
        NewsletterHistory.fetchedEmailCount row = length emails ∧
        NewsletterHistory.podcast row = podcast ∧
        EmailSnapshot.id <$> NewsletterHistory.emails row = GmailMessageContent.id <$> emails
  | (w1, inr e) => Db.newsletterHistory (World.db w1) = Db.newsletterHistory (World.db w)
  end.
Proof.
  unfold saveNewsletterHistory, prisma_newsletterHistory_create, prisma, bind, ret.
  destruct (prisma_fault (World.ext w)) as [x [e|]]; [done|]. simpl.
  destruct (prisma_cuid x) as [x1 id]. simpl. eexists. split; [done|].
  do 4 (split; [done|]). simpl. by rewrite <- list_fmap_compose.
Qed.

Lemma keeps_history_reschedule newsletter now result0 :
  keeps Db.newsletterHistory
    (try_catch
       (let* nextRun := updateNewsletterSchedule (Newsletter.id newsletter) now
                          (Newsletter.interval newsletter) in
        let* nextRunText := toISOString nextRun in
        ret (result0 nextRunText))
       (λ e, ret (failure_result newsletter e))).
Proof.
  apply keeps_table_try_catch; [|done].
  apply keeps_table_bind.
  - unfold updateNewsletterSchedule. apply keeps_table_bind; [|done].
    apply keeps_table_prisma. intros w. simpl.
    by destruct (existsb _ (Db.newsletter (World.db w))).
  - intros nextRun. apply keeps_table_bind; [|done]. by destruct nextRun.
Qed.

(** X4.  A run adds a row to the history exactly when its steps up to
    the saving of the history succeed.  The row is the last of the table
    and carries the subscription's identifier, the number of messages
    fetched, the podcast and a snapshot of each message, in order; a
    result without error reports that row's identifier and that number.
    The row stays when the rescheduling after it fails: then the result
    carries an error although the run is recorded.  When a step before
    fails, the history is as it was. *)
Theorem processNewsletter_history
    (credentialsManager : list N) (newsletter : Newsletter.t)
    (options : NewsletterProcessingOptions.t) (startDate now : option Z)
    (w w1 : World.t X PodcastResult) (result : NewsletterResult.t PodcastResult) :
  processNewsletter credentialsManager newsletter options startDate now w =
    (w1, inl result) →
  match before_reschedule credentialsManager newsletter options startDate w with
  | (w2, inl (emails, podcast, historyId)) =>
      (∃ row,
         Db.newsletterHistory (World.db w1) = Db.newsletterHistory (World.db w) ++ [row] ∧
         NewsletterHistory.id row = historyId ∧
         NewsletterHistory.newsletterId row = Newsletter.id newsletter ∧
         NewsletterHistory.fetchedEmailCount row = length emails ∧
         NewsletterHistory.podcast row = podcast ∧
         EmailSnapshot.id <$> NewsletterHistory.emails row =
           GmailMessageContent.id <$> emails) ∧
      (NewsletterResult.error result = None →
         NewsletterResult.historyId result = Some historyId ∧
         NewsletterResult.fetchedEmailCount result = Some (length emails) ∧
         NewsletterResult.podcast result = Some podcast) ∧
      (∀ x e, prisma_fault (World.ext w2) = (x, Some e) →
         result = failure_result newsletter e ∧
         Db.newsletter (World.db w1) = Db.newsletter (World.db w))
  | (w2, inr e) =>
      result = failure_result newsletter e ∧
      Db.newsletterHistory (World.db w1) = Db.newsletterHistory (World.db w)
  end.
Proof.
  intros Hrun. rewrite processNewsletter_unfold in Hrun.
  pose proof (keeps_before_reschedule credentialsManager newsletter options startDate w)
    as Hkeep.
  assert (Hbefore :
    match before_reschedule credentialsManager newsletter options startDate w with
    | (w2, inl (emails, podcast, historyId)) =>
        ∃ row,
          Db.newsletterHistory (World.db w2) = Db.newsletterHistory (World.db w) ++ [row] ∧
          NewsletterHistory.id row = historyId ∧
          NewsletterHistory.newsletterId row = Newsletter.id newsletter ∧
          NewsletterHistory.fetchedEmailCount row = length emails ∧
          NewsletterHistory.podcast row = podcast ∧
          EmailSnapshot.id <$> NewsletterHistory.emails row =
            GmailMessageContent.id <$> emails
    | (w2, inr e) => Db.newsletterHistory (World.db w2) = Db.newsletterHistory (World.db w)
    end).
  { pose proof (keeps_history_fetch_extract_generate credentialsManager newsletter options
                  startDate w) as Hfront.
    unfold before_reschedule, bind, ret in *.
    destruct (fetchNewsletterEmails _ _ _ _ w) as [w2 [emails|e]]; [|done].
    destruct (extractEmailsContent emails w2) as [w3 [extractedEmails|e]]; [|done].
    destruct (generateNewsletterPodcast _ w3) as [w4 [podcast|e]]; [|done].
    simpl in Hfront.
    pose proof (saveNewsletterHistory_row (Newsletter.id newsletter) emails podcast w4)
      as Hrow.
    destruct (saveNewsletterHistory _ emails podcast w4) as [w5 [historyId|e]];
      by rewrite <- Hfront. }
  destruct (before_reschedule _ _ _ _ w) as [w2 [[[emails podcast] historyId]|e]].
  2: { by injection Hrun as <- <-. }
  simpl in Hkeep.
  pose proof (keeps_history_reschedule newsletter now
    (λ nextRunText, NewsletterResult.Build (Newsletter.id newsletter) (Some (length emails))
       (Some historyId) (Some podcast) (Some nextRunText) None) w2) as Hhist.
  cbv beta in Hhist. rewrite Hrun in Hhist. simpl in Hhist.
  split; [by rewrite Hhist|]. split.
  - intros Hok.
    destruct (reschedule_cases _ _ _ _ _ _ _ _ Hrun) as [_|[e ->]]; [|done].
    revert Hrun. unfold try_catch, bind, ret.
    destruct (updateNewsletterSchedule _ _ _ w2) as [w3 [nextRun|e]].
    + destruct (toISOString nextRun w3) as [w4 [text|e]]; intros [= <- <-]; done.
    + intros [= <- <-]. done.
  - intros x e Hfault. revert Hrun.
    unfold updateNewsletterSchedule, prisma_newsletter_update, prisma, try_catch, bind, ret.
    rewrite Hfault. intros [= <- <-]. by rewrite <- Hkeep.
Qed.

(** *** The messages fetched *)

(** What [mapWithConcurrency] returns: a result of each operation, at the
    index of its item. *)
Lemma mapWithConcurrency_results {T P R} (items : list T) (concurrency : Z)
    (call : T → nat → World.t X PodcastResult → World.t X PodcastResult * P)
    (settle : P → M R) (Q : nat → R → Prop) w w1 results :
  (∀ i x w2 w3 v, items !! i = Some x →
     (settle (call x i w2).2 w3).2 = inl v → Q i v) →
  mapWithConcurrency items concurrency call settle w = (w1, inl results) →
  length results = length items ∧
  ∀ i, i < length items → ∃ v, results !! i = Some v ∧ Q i v.
Proof.
  intros HQ. unfold mapWithConcurrency.
  pose proof (Executor.await_mapWithConcurrency_fulfilled items concurrency call settle Q
    (completion_order (World.ext w)) w) as Hfull.
  destruct (Executor.await_mapWithConcurrency _ _ _ _ _ _) as [w2 [rs|e]]; [|done].
  intros [= <- <-]. destruct (Hfull rs HQ eq_refl) as [Hlen Hat].
  assert (Hrs : rs = Some <$> Js.elements rs).
  { apply Js.elements_full. intros i Hi. destruct (Hat i) as (v & Hv & _); [lia|eauto]. }
  split.
  - rewrite <- Hlen. rewrite Hrs at 2. by rewrite length_fmap.
  - intros i Hi. destruct (Hat i Hi) as (v & Hv & HQv). exists v. split; [|done].
    rewrite Hrs, list_lookup_fmap in Hv.
    destruct (Js.elements rs !! i) as [v'|]; [|done]. by injection Hv as ->.
Qed.

(** X5.  For options that are integers.  When [fetchNewsletterEmails]
    returns, the provider was asked for the messages matching the
    subscription's query, bounded by the time of the last run or, when
    there was none, by the start date, and for at most
    [maxEmailsPerNewsletter] of them, clamped to 1..50; and it returns
    one message per identifier listed, in the order of the listing, each
    as the provider gave it for that identifier.  So if the provider
    lists no more identifiers than it is asked for, at most 50 messages
    are fetched.  On integers the two clamps of the code,
    [Math.max(1, Math.min(50, .))] and [Math.max(1, Math.min(20, .))],
    are the integer ones, and the second makes between 1 and 20
    workers. *)
Theorem fetchNewsletterEmails_messages
    (credentialsManager : list N) (newsletter : Newsletter.t)
    (options : NewsletterProcessingOptions.t) (startDate : option Z)
    (w w1 : World.t X PodcastResult) (emails : list GmailMessageContent.t) :
  fetchNewsletterEmails credentialsManager newsletter options startDate w =
    (w1, inl emails) →
  ∃ maxResults x listResult,
    (1 ≤ maxResults ≤ 50)%Z ∧
    (1 ≤ NewsletterProcessingOptions.maxEmailsPerNewsletter options ≤ 50 →
       maxResults = NewsletterProcessingOptions.maxEmailsPerNewsletter options)%Z ∧
    gmailListMessageIds (World.currentCredentials w)
      (Gmail.buildGmailQuery (Newsletter.selectedEmails newsletter)
         (t ← default startDate (Newsletter.lastRun newsletter); Some (t / 1000)%Z))
      maxResults (World.ext w) = (x, inl listResult) ∧
    length emails = length (GmailListResult.messageIds listResult) ∧
    (∀ i id, GmailListResult.messageIds listResult !! i = Some id →
       ∃ email credentials x1 x2 result,
         emails !! i = Some email ∧
         gmailGetMessageText credentials id x1 = (x2, inl result) ∧
         GmailMessageResult.message result = email) ∧
    ((Z.of_nat (length (GmailListResult.messageIds listResult)) ≤ maxResults)%Z →
       length emails ≤ 50) ∧
    JsNumber.max (JsNumber.of_Z 1)
      (JsNumber.min (JsNumber.of_Z 50)
         (JsNumber.of_Z (NewsletterProcessingOptions.maxEmailsPerNewsletter options))) =
      JsNumber.of_Z maxResults ∧
    ∃ workers,
      1 ≤ workers ≤ 20 ∧
      Executor.workers_made
        (JsNumber.max (JsNumber.of_Z 1)
           (JsNumber.min (JsNumber.of_Z 20)
              (JsNumber.of_Z (NewsletterProcessingOptions.gmailFetchConcurrency options)))) =
        Some workers ∧
      workers =
        Executor.worker_count
          (Z.max 1 (Z.min 20 (NewsletterProcessingOptions.gmailFetchConcurrency options))).
Proof.
  unfold fetchNewsletterEmails, bind, getCredentials, external, ret.
  set (q := Gmail.buildGmailQuery _ _).
  set (maxResults := Z.max 1 (Z.min 50 _)).
  destruct (gmailListMessageIds (World.currentCredentials w) q maxResults (World.ext w))
    as [x [listResult|e]] eqn:Hlist; [|done].
  destruct (updateIfRefreshed _ _ _) as [w2 [[]|e]]; [|done].
  destruct (mapWithConcurrency _ _ _ _ w2) as [w3 [results|e]] eqn:Hmap; [|done].
  intros [= <- <-].
  set (Q := λ (i : nat) (email : GmailMessageContent.t),
         ∃ id credentials x1 x2 result,
           GmailListResult.messageIds listResult !! i = Some id ∧
           gmailGetMessageText credentials id x1 = (x2, inl result) ∧
           GmailMessageResult.message result = email).
  assert (HQ : ∀ i id w4 w5 v, GmailListResult.messageIds listResult !! i = Some id →
            (fetch_settle credentialsManager (fetch_call id i w4).2 w5).2 = inl v → Q i v).
  { intros i id w4 w5 v Hid. unfold fetch_call, fetch_settle, bind, external, ret. simpl.
    destruct (gmailGetMessageText _ id (World.ext w5)) as [x2 [result|e]] eqn:Hget; [|done].
    destruct (updateIfRefreshed _ _ _) as [w6 [[]|e]]; [|done].
    intros [= <-]. unfold Q. eauto 10. }
  destruct (mapWithConcurrency_results _ _ _ _ Q _ _ _ HQ Hmap) as [Hlen Hat].
  exists maxResults, x, listResult.
  split; [subst maxResults; lia|]. split; [subst maxResults; lia|].
  split; [done|]. split; [done|]. split; [|split; [|split]].
  - intros i id Hid. destruct (Hat i) as (email & Hemail & Hgot).
    { by eapply lookup_lt_Some. }
    destruct Hgot as (id' & credentials & x1 & x2 & result & Hid' & Hget & Hmsg).
    assert (id' = id) as -> by congruence. eauto 10.
  - subst maxResults. lia.
  - by rewrite JsNumber.min_of_Z, JsNumber.max_of_Z.
  - rewrite JsNumber.min_of_Z, JsNumber.max_of_Z.
    set (k := Z.max 1 (Z.min 20 _)).
    exists (Executor.worker_count k). split; [unfold Executor.worker_count; lia|].
    split; [|done]. apply (Executor.workers_made_of_Z _ k); [done|lia].
Qed.

(** *** Refreshed credentials *)

(** On its own [updateIfRefreshed] is [updateIfRefreshed_among] with
    nothing done meanwhile. *)
Lemma updateIfRefreshed_alone emailAccountId refreshed w :
  updateIfRefreshed emailAccountId refreshed w =
  updateIfRefreshed_among (λ w', w') (λ w', w') emailAccountId refreshed w.
Proof.
  destruct refreshed as [refreshed|]; [|done].
  unfold updateIfRefreshed, updateIfRefreshed_among, bind, lift.
  destruct (encrypt _) as [stored|e]; [|done].
  by destruct (prisma_emailAccount_update _ _ _ _) as [w1 r].
Qed.

(** What a call leaves behind when the operations that run meanwhile
    keep off the credentials and the database. *)
Lemma updateIfRefreshed_among_run before after emailAccountId refreshed w w1 r :
  aside before → aside after →
  updateIfRefreshed_among before after emailAccountId (Some refreshed) w = (w1, r) →
  World.currentCredentials w1 =
    GmailCredentials.Build (RefreshedCredentials.accessToken refreshed)
      (GmailCredentials.refreshToken (World.currentCredentials w))
      (RefreshedCredentials.expiresAt refreshed) ∧
  match r with
  | inl _ =>
      ∃ stored,
        encrypt (RefreshedCredentials.accessToken refreshed) = inl stored ∧
        existsb (λ a, bool_decide (EmailAccount.id a = emailAccountId))
                (Db.emailAccount (World.db w)) = true ∧
        World.db w1 =
          Db.Build (Db.user (World.db w))
            ((λ a, if bool_decide (EmailAccount.id a = emailAccountId)
                   then EmailAccount.Build (EmailAccount.id a) (EmailAccount.userId a)
                          (EmailAccount.provider a) (Some stored)
                          (EmailAccount.refreshToken a)
                          (RefreshedCredentials.expiresAt refreshed)
                   else a) <$> Db.emailAccount (World.db w))
            (Db.newsletter (World.db w)) (Db.newsletterHistory (World.db w))
  | inr e =>
      World.db w1 = World.db w ∧
      (encrypt (RefreshedCredentials.accessToken refreshed) = inr e ∨
       (∃ x0 x, prisma_fault x0 = (x, Some e)) ∨
       (e = RecordNotFound ∧
        ∀ a, a ∈ Db.emailAccount (World.db w) → EmailAccount.id a ≠ emailAccountId))
  end.
Proof.
  intros Hbefore Hafter.
  unfold updateIfRefreshed_among, bind, lift.
  destruct (encrypt _) as [stored|e'] eqn:Henc.
  2: { intros [= <- <-]. split; [done|]. split; [done|]. by left. }
  set (c := GmailCredentials.Build _ _ _).
  destruct (Hbefore (with_credentials c w)) as [Hc Hdb].
  set (w' := before (with_credentials c w)) in *.
  unfold prisma_emailAccount_update, prisma.
  destruct (prisma_fault (World.ext w')) as [x [e'|]] eqn:Hfault.
  { intros [= <- <-]. destruct (Hafter (with_ext x w')) as [Hc1 Hdb1].
    split; [by rewrite Hc1|]. split; [by rewrite Hdb1|]. right. left. eauto. }
  cbv beta zeta. change (World.db (with_ext x w')) with (World.db w'). rewrite Hdb.
  change (World.db (with_credentials c w)) with (World.db w).
  destruct (existsb _ (Db.emailAccount (World.db w))) eqn:Hrow.
  - intros [= <- <-].
    match goal with |- context [after ?w2] => destruct (Hafter w2) as [Hc1 Hdb1] end.
    split; [by rewrite Hc1|]. exists stored. split; [done|]. split; [done|].
    by rewrite Hdb1.
  - intros [= <- <-]. destruct (Hafter (with_ext x w')) as [Hc1 Hdb1].
    split; [by rewrite Hc1|]. split; [by rewrite Hdb1|]. right. right.
    split; [done|]. intros a Hin Hid.
    assert (existsb (λ a, bool_decide (EmailAccount.id a = emailAccountId))
              (Db.emailAccount (World.db w)) = true); [|congruence].
    apply existsb_exists. exists a. split; [by apply list_elem_of_In|].
    by apply bool_decide_eq_true.
Qed.

(** X6.  A call of [updateIfRefreshed] among operations that keep off
    the credentials of its manager and the database while it awaits the
    write, as when it runs on its own.  After it has stored refreshed
    credentials, the
    manager holds the new access token and expiry with the refresh token
    it had, the account's row holds the encrypted token and the expiry,
    and the other rows are as they were.  If [decrypt] undoes [encrypt]
    on the token and the encrypted token is not empty,
    [getGmailCredentials] on the account's row does not answer [null],
    and the credentials it returns carry the new token and expiry: the
    next job reads back what this one stored. *)
Theorem updateIfRefreshed_read_back
    (before after : World.t X PodcastResult → World.t X PodcastResult)
    (emailAccountId : list N) (refreshed : RefreshedCredentials.t) (stored : list N)
    (w w1 : World.t X PodcastResult) :
  aside before → aside after →
  encrypt (RefreshedCredentials.accessToken refreshed) = inl stored →
  stored ≠ [] →
  decrypt stored = inl (RefreshedCredentials.accessToken refreshed) →
  updateIfRefreshed_among before after emailAccountId (Some refreshed) w = (w1, inl ()) →
  World.currentCredentials w1 =
    GmailCredentials.Build (RefreshedCredentials.accessToken refreshed)
      (GmailCredentials.refreshToken (World.currentCredentials w))
      (RefreshedCredentials.expiresAt refreshed) ∧
  (∃ a, a ∈ Db.emailAccount (World.db w1) ∧ EmailAccount.id a = emailAccountId) ∧
  (∀ a, a ∈ Db.emailAccount (World.db w1) → EmailAccount.id a = emailAccountId →
     EmailAccount.accessToken a = Some stored ∧
     EmailAccount.expiresAt a = RefreshedCredentials.expiresAt refreshed ∧
     getGmailCredentials a ≠ inl None ∧
     ∀ c, getGmailCredentials a = inl (Some c) →
       GmailCredentials.accessToken c = RefreshedCredentials.accessToken refreshed ∧
       GmailCredentials.expiresAt c = RefreshedCredentials.expiresAt refreshed) ∧
  (∀ a, a ∈ Db.emailAccount (World.db w) → EmailAccount.id a ≠ emailAccountId →
     a ∈ Db.emailAccount (World.db w1)) ∧
  Db.newsletter (World.db w1) = Db.newsletter (World.db w) ∧
  Db.newsletterHistory (World.db w1) = Db.newsletterHistory (World.db w) ∧
  (∀ w', updateIfRefreshed emailAccountId (Some refreshed) w' =
         updateIfRefreshed_among (λ w'', w'') (λ w'', w'') emailAccountId
           (Some refreshed) w').
Proof.
  intros Hbefore Hafter Henc Hne Hdec Hrun.
  destruct (updateIfRefreshed_among_run _ _ _ _ _ _ _ Hbefore Hafter Hrun)
    as (Hcred & stored' & Henc' & Hrow & Hdb).
  assert (stored' = stored) as -> by congruence.
  rewrite Hdb. cbn [Db.emailAccount Db.newsletter Db.newsletterHistory].
  split; [done|]. split; [|split; [|split; [|split; [done|split; [done|]]]]].
  - apply existsb_exists in Hrow as (a & Hin & Hid). apply bool_decide_eq_true in Hid.
    eexists. split.
    + apply list_elem_of_fmap. exists a. split; [done|]. by apply list_elem_of_In.
    + by rewrite bool_decide_true.
  - intros a (a0 & -> & Hin)%list_elem_of_fmap.
    case_bool_decide as Hid; [|done]. intros _. simpl.
    split; [done|]. split; [done|].
    unfold getGmailCredentials. simpl.
    destruct stored as [|c0 stored']; [done|]. simpl. rewrite Hdec.
    destruct (Boolean (EmailAccount.refreshToken a0)).
    + destruct (decrypt (nullish (EmailAccount.refreshToken a0) [])) as [refreshToken|e].
      * split; [done|]. by intros c [= <-].
      * split; [done|]. by intros c [=].
    + split; [done|]. by intros c [= <-].
  - intros a Hin Hid. apply list_elem_of_fmap. exists a. split; [|done].
    by rewrite bool_decide_false.
  - intros w'. apply updateIfRefreshed_alone.
Qed.

(** X7.  A call of [updateIfRefreshed] among operations that keep off
    the credentials of its manager and the database while it awaits the
    write, as when it runs on its own.  It replaces the credentials the
    manager holds before it writes to the database.  When the encryption
    or the write fails, the error is thrown to the caller and the
    database is as it was, while the manager already holds the refreshed
    token: later requests of the same job use it.  A failing encryption
    is thrown before the database is called at all, whatever else runs.
    Without refreshed credentials nothing changes. *)
Theorem updateIfRefreshed_failure
    (before after : World.t X PodcastResult → World.t X PodcastResult)
    (emailAccountId : list N) (refreshed : RefreshedCredentials.t)
    (w w1 : World.t X PodcastResult) (e : Js.exn) :
  aside before → aside after →
  updateIfRefreshed_among before after emailAccountId (Some refreshed) w = (w1, inr e) →
  World.db w1 = World.db w ∧
  World.currentCredentials w1 =
    GmailCredentials.Build (RefreshedCredentials.accessToken refreshed)
      (GmailCredentials.refreshToken (World.currentCredentials w))
      (RefreshedCredentials.expiresAt refreshed) ∧
  (encrypt (RefreshedCredentials.accessToken refreshed) = inr e ∨
   (∃ x0 x, prisma_fault x0 = (x, Some e)) ∨
   (e = RecordNotFound ∧
    ∀ a, a ∈ Db.emailAccount (World.db w) → EmailAccount.id a ≠ emailAccountId)) ∧
  updateIfRefreshed_among before after emailAccountId None w = (w, inl ()) ∧
  (∀ before' after' e' w',
     encrypt (RefreshedCredentials.accessToken refreshed) = inr e' →
     updateIfRefreshed_among before' after' emailAccountId (Some refreshed) w' =
       (with_credentials
          (GmailCredentials.Build (RefreshedCredentials.accessToken refreshed)
             (GmailCredentials.refreshToken (World.currentCredentials w'))
             (RefreshedCredentials.expiresAt refreshed)) w', inr e')) ∧
  (∀ w', updateIfRefreshed emailAccountId (Some refreshed) w' =
         updateIfRefreshed_among (λ w'', w'') (λ w'', w'') emailAccountId
           (Some refreshed) w').
Proof.
  intros Hbefore Hafter Hrun.
  destruct (updateIfRefreshed_among_run _ _ _ _ _ _ _ Hbefore Hafter Hrun)
    as (Hcred & Hdb & Hwhy).
  split; [done|]. split; [done|]. split; [done|]. split; [done|]. split.
  - intros before' after' e' w' Henc.
    unfold updateIfRefreshed_among, bind, lift. by rewrite Henc.
  - intros w'. apply updateIfRefreshed_alone.
Qed.

Lemma rescheduled_refl now ids (rows : list Newsletter.t) :
  Forall2 (rescheduled now ids) rows rows.
Proof. apply Forall2_same_length_lookup_2; [done|]. intros i r r' Hr Hr'. left. congruence. Qed.

Lemma rescheduled_mono now ids ids' (rows rows' : list Newsletter.t) :
  (∀ id, id ∈ ids → id ∈ ids') →
  Forall2 (rescheduled now ids) rows rows' → Forall2 (rescheduled now ids') rows rows'.
Proof.
  intros Hsub Hrows. eapply Forall2_impl; [exact Hrows|].
  intros r r' [->|(Hin & next & ->)]; [by left|]. right. eauto.
Qed.

Lemma rescheduled_trans now ids (rows rows' rows'' : list Newsletter.t) :
  Forall2 (rescheduled now ids) rows rows' → Forall2 (rescheduled now ids) rows' rows'' →
  Forall2 (rescheduled now ids) rows rows''.
Proof.
  intros H1. revert rows''. induction H1 as [|r r' rows rows' Hr _ IH]; intros rows'' H2.
  - by inversion H2.
  - inversion H2 as [|? r'' ? rows2 Hr' Hrest]; subst. constructor; [|by apply IH].
    destruct Hr as [->|(Hin & next & ->)]; [done|].
    destruct Hr' as [->|(Hin' & next' & ->)]; [right; eauto|]. right. simpl. eauto.
Qed.

Lemma rescheduled_rows_update now id nextRun (rows : list Newsletter.t) :
  Forall2 (rescheduled now [id]) rows (newsletter_rows_update id now nextRun rows).
Proof.
  unfold newsletter_rows_update. apply Forall2_fmap_r, Forall_Forall2_diag, Forall_forall.
  intros r _. unfold compose. case_bool_decide as Hid; [|by left]. right.
  split; [rewrite Hid; by apply list_elem_of_singleton|eauto].
Qed.

Lemma processNewsletter_rescheduled credentialsManager newsletter options startDate now w :
  Forall2 (rescheduled now [Newsletter.id newsletter])
    (Db.newsletter (World.db w))
    (Db.newsletter (World.db
       (processNewsletter credentialsManager newsletter options startDate now w).1)).
Proof.
  rewrite processNewsletter_unfold.
  pose proof (keeps_before_reschedule credentialsManager newsletter options startDate w)
    as Hkeep.
  destruct (before_reschedule _ _ _ _ w) as [w2 [[[emails podcast] historyId]|e]];
    simpl in *; [|rewrite Hkeep; apply rescheduled_refl].
  rewrite <- Hkeep.
  unfold updateNewsletterSchedule, prisma_newsletter_update, prisma, toISOString.
  unfold try_catch, bind, ret, throw.
  destruct (prisma_fault (World.ext w2)) as [x [e|]]; [apply rescheduled_refl|]. simpl.
  destruct (existsb _ _); [|apply rescheduled_refl].
  destruct (Schedule.addInterval now (Newsletter.interval newsletter)); simpl;
    apply rescheduled_rows_update.
Qed.

Lemma process_newsletters_rescheduled credentialsManager newsletters options start now
    results w :
  Forall2 (rescheduled now (Newsletter.id <$> newsletters))
    (Db.newsletter (World.db w))
    (Db.newsletter (World.db
       (process_newsletters credentialsManager newsletters options start now results w).1)).
Proof.
  revert results w. induction newsletters as [|n newsletters IH]; intros results w.
  - apply rescheduled_refl.
  - simpl. unfold bind.
    pose proof (processNewsletter_rescheduled credentialsManager n options start now w)
      as Hn.
    destruct (processNewsletter_returns credentialsManager n options start now w)
      as (w1 & result & Hrun & _).
    rewrite Hrun in *. simpl in Hn.
    eapply rescheduled_trans.
    + eapply rescheduled_mono; [|exact Hn].
      intros id ->%list_elem_of_singleton. rewrite ?fmap_cons. by left.
    + eapply rescheduled_mono; [|apply IH]. intros id Hid. rewrite ?fmap_cons. by right.
Qed.

Lemma process_user_rescheduled user options start now w :
  Forall2 (rescheduled now (Newsletter.id <$> UserWithRelations.newsletters user))
    (Db.newsletter (World.db w))
    (Db.newsletter (World.db (process_user user options start now w).1)).
Proof.
  unfold process_user.
  destruct (UserWithRelations.emailAccounts user) as [|a accts]; [apply rescheduled_refl|].
  unfold bind, lift, createCredentialsUpdater.
  destruct (getGmailCredentials a) as [[credentials|]|e]; simpl;
    [|apply rescheduled_refl..].
  pose proof (process_newsletters_rescheduled (EmailAccount.id a)
    (UserWithRelations.newsletters user) options start now []
    (with_credentials credentials w)) as Hn.
  by destruct (process_newsletters _ _ _ _ _ _ _) as [w1 [rs|e]].
Qed.

Lemma process_users_rescheduled users options start now results w :
  Forall2 (rescheduled now
             (Newsletter.id <$> mjoin (UserWithRelations.newsletters <$> users)))
    (Db.newsletter (World.db w))
    (Db.newsletter (World.db (process_users users options start now results w).1)).
Proof.
  revert results w. induction users as [|u users IH]; intros results w.
  - apply rescheduled_refl.
  - simpl. unfold bind.
    pose proof (process_user_rescheduled u options start now w) as Hu.
    destruct (process_user u options start now w) as [w1 [r|e]]; simpl in *.
    + eapply rescheduled_trans.
      * eapply rescheduled_mono; [|exact Hu]. intros id Hid.
        rewrite fmap_app. apply elem_of_app. by left.
      * eapply rescheduled_mono; [|apply IH]. intros id Hid.
        rewrite fmap_app. apply elem_of_app. by right.
    + eapply rescheduled_mono; [|exact Hu]. intros id Hid.
      rewrite fmap_app. apply elem_of_app. by left.
Qed.

(** X8.  What a job does to the newsletter table: it adds and removes no
    row, and every row is as it was, or has [lastRun] set to the job's
    instant and a new [nextRun], all else unchanged, and then it has the
    identifier of a subscription that was due: active, with [nextRun] in
    the window of the day and belonging to a user.  Where identifiers
    are unique, a row that is inactive, lies outside the window or has
    no user is left as it was. *)
Theorem createUsersPodcasts_reschedules_due_only
    (body : RequestBody.t) (now : Z) (w : World.t X PodcastResult) :
  let start := startOfUtcDay (Some now) in
  let end_ := (t ← start; JsDate.TimeClip (t + 24 * 60 * 60 * 1000)%Z) in
  let rows := Db.newsletter (World.db w) in
  let rows' := Db.newsletter (World.db (createUsersPodcasts body now w).1) in
  let due_ids := Newsletter.id <$> List.filter (due start end_ (Db.user (World.db w))) rows in
  Forall2 (rescheduled (Some now) due_ids) rows rows' ∧
  Newsletter.id <$> rows' = Newsletter.id <$> rows ∧
  (NoDup (Newsletter.id <$> rows) →
   ∀ i row, rows !! i = Some row → due start end_ (Db.user (World.db w)) row = false →
            rows' !! i = Some row).
Proof.
  intros start end_ rows rows' due_ids.
  assert (Hall : Forall2 (rescheduled (Some now) due_ids) rows rows').
  { subst rows'. unfold createUsersPodcasts. fold start. fold end_.
    unfold bind, prisma_user_findMany, prisma.
    destruct (prisma_fault (World.ext w)) as [x [e|]]; [apply rescheduled_refl|].
    set (users := (λ id, UserWithRelations.Build id _ _) <$> _).
    set (options := NewsletterProcessingOptions.Build _ _).
    pose proof (process_users_rescheduled users options start (Some now) [] (with_ext x w))
      as Hrun.
    assert (Hsame : Db.newsletter (World.db
              (let '(w1, r) :=
                 match process_users users options start (Some now) [] (with_ext x w) with
                 | (w1, inl a) => ret (Json (Some now) (length users) a) w1
                 | (w1, inr e) => (w1, inr e)
                 end in
               (w1, match r with inl answer => answer | inr error => Next error end)).1) =
            Db.newsletter (World.db
              (process_users users options start (Some now) [] (with_ext x w)).1)).
    { by destruct (process_users _ _ _ _ _ _) as [w1 [a|e]]. }
    simpl in Hsame. simpl. rewrite Hsame.
    eapply rescheduled_mono; [|exact Hrun].
    intros id (n & -> & Hn)%list_elem_of_fmap.
    apply list_elem_of_join in Hn as (ns & Hn & Hns).
    apply list_elem_of_fmap in Hns as (u & -> & Hu).
    apply list_elem_of_fmap in Hu as (uid & -> & Huid).
    cbn [UserWithRelations.newsletters] in Hn.
    apply list_elem_of_In, filter_In in Hn as [Hin Hdue].
    apply list_elem_of_fmap. exists n. split; [done|].
    apply list_elem_of_In, filter_In. split; [done|]. unfold due.
    apply andb_prop in Hdue as [[Hid Hact]%andb_prop Hwin].
    apply bool_decide_eq_true in Hid. rewrite Hact, Hwin, !andb_true_r.
    apply bool_decide_eq_true. by rewrite Hid. }
  split; [done|]. split.
  - clear -Hall. induction Hall as [|r r' l l' Hr _ IH]; [done|].
    rewrite !fmap_cons, IH. f_equal. by destruct Hr as [->|(_ & next & ->)].
  - intros Hnodup i row Hrow Hnot.
    destruct (Forall2_lookup_l _ _ _ _ _ Hall Hrow) as (row' & Hrow' & [->|(Hin & _)]);
      [done|].
    exfalso. apply list_elem_of_fmap in Hin as (row0 & Hid & Hin).
    apply list_elem_of_In, filter_In in Hin as [Hin Hdue].
    apply list_elem_of_In, list_elem_of_lookup in Hin as [j Hj].
    assert (i = j) as ->.
    { eapply NoDup_lookup; [exact Hnodup| |];
        rewrite list_lookup_fmap; [by rewrite Hrow|by rewrite Hj, Hid]. }
    assert (row0 = row) as -> by (unfold rows in *; congruence). congruence.
Qed.

(** *** A token that cannot be decrypted *)

Lemma process_users_app users1 users2 options start now results w :
  process_users (users1 ++ users2) options start now results w =
  match process_users users1 options start now results w with
  | (w1, inl rs) => process_users users2 options start now rs w1
  | (w1, inr e) => (w1, inr e)
  end.
Proof.
  revert results w. induction users1 as [|u users1 IH]; intros results w; [done|].
  simpl. unfold bind. destruct (process_user u options start now w) as [w1 [r|e]]; [|done].
  apply IH.
Qed.

(** X9.  The decryption of a stored token is not inside any [try]
    but the outermost one.  When the tokens of the first account of a
    user cannot be decrypted, the job stops there: it answers through
    [next] with the error thrown, the results of the users before are
    not reported although their subscriptions have been processed, and
    the users after are not processed at all. *)
Theorem createUsersPodcasts_undecryptable_token
    (body : RequestBody.t) (now : Z) (w w0 : World.t X PodcastResult)
    (before after : list UserWithRelations.t) (user : UserWithRelations.t)
    (gmailAccount : EmailAccount.t) (e : Js.exn) :
  let start := startOfUtcDay (Some now) in
  let end_ := (t ← start; JsDate.TimeClip (t + 24 * 60 * 60 * 1000)%Z) in
  let options :=
    NewsletterProcessingOptions.Build
      (default 10%Z (RequestBody.maxEmailsPerNewsletter body))
      (default 8%Z (RequestBody.gmailFetchConcurrency body)) in
  prisma_user_findMany start end_ w = (w0, inl (before ++ user :: after)) →
  (∀ u a, u ∈ before → head (UserWithRelations.emailAccounts u) = Some a →
          ∃ c, getGmailCredentials a = inl c) →
  head (UserWithRelations.emailAccounts user) = Some gmailAccount →
  getGmailCredentials gmailAccount = inr e →
  ∃ w1 results,
    process_users before options start (Some now) [] w0 = (w1, inl results) ∧
    length results = length before ∧
    createUsersPodcasts body now w = (w1, Next e).
Proof.
  intros start end_ options Hfind Hbefore Hacct Hcred.
  destruct (process_users_returns before options start (Some now) [] w0 Hbefore)
    as (w1 & rs & Hrun & Hall).
  exists w1, rs. split; [done|]. split; [by apply Forall2_length in Hall|].
  unfold createUsersPodcasts. fold start. fold end_. fold options.
  unfold bind at 1. rewrite Hfind. unfold bind at 1.
  rewrite process_users_app, Hrun. simpl. unfold bind at 1.
  unfold process_user.
  destruct (UserWithRelations.emailAccounts user) as [|a accts]; [done|].
  injection Hacct as ->. unfold bind, lift. by rewrite Hcred.
Qed.

(** *** What a job adds to the history *)

Lemma recorded_nil ids h : recorded ids [] h h.
Proof.
  exists []. split; [by rewrite app_nil_r|]. split; [apply sublist_nil_l|].
  by intros result historyId Hin; inversion Hin.
Qed.

Lemma recorded_unreported ids results h h' :
  recorded ids results h h' → recorded ids [] h h'.
Proof.
  intros (rows & Hrows & Hsub & _). exists rows. split; [done|]. split; [done|].
  by intros result historyId Hin; inversion Hin.
Qed.

Lemma recorded_app ids1 ids2 results1 results2 h h1 h2 :
  recorded ids1 results1 h h1 → recorded ids2 results2 h1 h2 →
  recorded (ids1 ++ ids2) (results1 ++ results2) h h2.
Proof.
  intros (rows1 & -> & Hsub1 & Hrep1) (rows2 & -> & Hsub2 & Hrep2).
  exists (rows1 ++ rows2). split; [by rewrite app_assoc|]. split.
  - rewrite fmap_app. by apply sublist_app.
  - intros result historyId [Hin|Hin]%elem_of_app Hid.
    + destruct (Hrep1 _ _ Hin Hid) as (row & Hrow & Hr). exists row.
      split; [apply elem_of_app; by left|done].
    + destruct (Hrep2 _ _ Hin Hid) as (row & Hrow & Hr). exists row.
      split; [apply elem_of_app; by right|done].
Qed.

Lemma fmap_join_fmap {A B C D} (h : C → D) (f : B → list C) (g : A → B) (l : list A) :
  h <$> mjoin (f <$> (g <$> l)) = mjoin ((λ a, h <$> f (g a)) <$> l).
Proof.
  induction l as [|a l IH]; [done|].
  rewrite !fmap_cons. change (mjoin (f (g a) :: (f <$> (g <$> l))))
    with (f (g a) ++ mjoin (f <$> (g <$> l))).
  by rewrite fmap_app, IH.
Qed.

Lemma before_reschedule_history credentialsManager newsletter options startDate w :
  match before_reschedule credentialsManager newsletter options startDate w with
  | (w2, inl (emails, podcast, historyId)) =>
      ∃ row,
        Db.newsletterHistory (World.db w2) = Db.newsletterHistory (World.db w) ++ [row] ∧
        NewsletterHistory.id row = historyId ∧
        NewsletterHistory.newsletterId row = Newsletter.id newsletter
  | (w2, inr e) => Db.newsletterHistory (World.db w2) = Db.newsletterHistory (World.db w)
  end.
Proof.
  pose proof (keeps_history_fetch_extract_generate credentialsManager newsletter options
                startDate w) as Hfront.
  unfold before_reschedule, bind, ret in *.
  destruct (fetchNewsletterEmails _ _ _ _ w) as [w2 [emails|e]]; [|done].
  destruct (extractEmailsContent emails w2) as [w3 [extractedEmails|e]]; [|done].
  destruct (generateNewsletterPodcast _ w3) as [w4 [podcast|e]]; [|done].
  simpl in Hfront.
  pose proof (saveNewsletterHistory_row (Newsletter.id newsletter) emails podcast w4)
    as Hrow.
  destruct (saveNewsletterHistory _ emails podcast w4) as [w5 [historyId|e]];
    rewrite <- Hfront; [|done].
  destruct Hrow as (row & Hrows & Hid & Hnid & _). eauto.
Qed.

Lemma processNewsletter_recorded credentialsManager newsletter options startDate now w :
  ∃ w1 result,
    processNewsletter credentialsManager newsletter options startDate now w
      = (w1, inl result) ∧
    recorded [Newsletter.id newsletter] [result]
      (Db.newsletterHistory (World.db w)) (Db.newsletterHistory (World.db w1)).
Proof.
  destruct (processNewsletter_returns credentialsManager newsletter options startDate now w)
    as (w1 & result & Hrun & Hnid).
  exists w1, result. split; [done|].
  rewrite processNewsletter_unfold in Hrun.
  pose proof (before_reschedule_history credentialsManager newsletter options startDate w)
    as Hbefore.
  destruct (before_reschedule _ _ _ _ w) as [w2 [[[emails podcast] historyId]|e]].
  2: { injection Hrun as <- <-. rewrite Hbefore. exists [].
       split; [by rewrite app_nil_r|]. split; [apply sublist_nil_l|].
       by intros result hid ->%list_elem_of_singleton. }
  destruct Hbefore as (row & Hrows & Hid & Hrow).
  pose proof (keeps_history_reschedule newsletter now
    (λ nextRunText, NewsletterResult.Build (Newsletter.id newsletter) (Some (length emails))
       (Some historyId) (Some podcast) (Some nextRunText) None) w2) as Hhist.
  cbv beta in Hhist. rewrite Hrun in Hhist. simpl in Hhist.
  exists [row]. split; [by rewrite Hhist|]. split; [by rewrite fmap_cons, Hrow|].
  intros r hid ->%list_elem_of_singleton Hhid. exists row.
  split; [by apply list_elem_of_singleton|]. rewrite Hnid. split; [|done].
  revert Hrun Hhid. unfold try_catch, bind, ret.
  destruct (updateNewsletterSchedule _ _ _ w2) as [w3 [nextRun|e]].
  - destruct (toISOString nextRun w3) as [w4 [text|e]]; intros [= <- <-]; simpl; congruence.
  - intros [= <- <-]. done.
Qed.

Lemma process_newsletters_recorded credentialsManager newsletters options start now
    results w :
  ∃ w1 rs,
    process_newsletters credentialsManager newsletters options start now results w
      = (w1, inl (results ++ rs)) ∧
    recorded (Newsletter.id <$> newsletters) rs
      (Db.newsletterHistory (World.db w)) (Db.newsletterHistory (World.db w1)).
Proof.
  revert results w. induction newsletters as [|n newsletters IH]; intros results w.
  - exists w, []. split; [by rewrite app_nil_r|]. apply recorded_nil.
  - simpl. unfold bind.
    destruct (processNewsletter_recorded credentialsManager n options start now w)
      as (w1 & result & -> & Hn).
    destruct (IH (results ++ [result]) w1) as (w2 & rs & -> & Hrest).
    exists w2, (result :: rs). split; [by rewrite <- (assoc (++))|].
    exact (recorded_app [Newsletter.id n] _ [result] rs _ _ _ Hn Hrest).
Qed.

Lemma process_user_recorded user options start now w :
  match process_user user options start now w with
  | (w1, inl userResult) =>
      recorded (Newsletter.id <$> UserWithRelations.newsletters user)
        (UserResult.newsletters userResult)
        (Db.newsletterHistory (World.db w)) (Db.newsletterHistory (World.db w1))
  | (w1, inr e) =>
      Db.newsletterHistory (World.db w1) = Db.newsletterHistory (World.db w)
  end.
Proof.
  unfold process_user.
  destruct (UserWithRelations.emailAccounts user) as [|a accts]; [apply recorded_nil|].
  unfold bind, lift, createCredentialsUpdater.
  destruct (getGmailCredentials a) as [[credentials|]|e]; simpl;
    [|apply recorded_nil|done].
  destruct (process_newsletters_recorded (EmailAccount.id a)
    (UserWithRelations.newsletters user) options start now []
    (with_credentials credentials w)) as (w1 & rs & -> & Hrs).
  exact Hrs.
Qed.

Lemma process_users_recorded users options start now results w :
  match process_users users options start now results w with
  | (w1, inl perUserResults) =>
      ∃ rs, perUserResults = results ++ rs ∧
        recorded (Newsletter.id <$> mjoin (UserWithRelations.newsletters <$> users))
          (mjoin (UserResult.newsletters <$> rs))
          (Db.newsletterHistory (World.db w)) (Db.newsletterHistory (World.db w1))
  | (w1, inr e) =>
      recorded (Newsletter.id <$> mjoin (UserWithRelations.newsletters <$> users)) []
        (Db.newsletterHistory (World.db w)) (Db.newsletterHistory (World.db w1))
  end.
Proof.
  revert results w. induction users as [|u users IH]; intros results w.
  - exists []. split; [by rewrite app_nil_r|]. apply recorded_nil.
  - simpl. unfold bind. rewrite fmap_app.
    pose proof (process_user_recorded u options start now w) as Hu.
    destruct (process_user u options start now w) as [w1 [r|e]].
    + specialize (IH (results ++ [r]) w1).
      destruct (process_users users options start now (results ++ [r]) w1)
        as [w2 [perUserResults|e]].
      * destruct IH as (rs & -> & Hrest). exists (r :: rs).
        split; [by rewrite <- (assoc (++))|]. rewrite fmap_cons. simpl.
        by eapply recorded_app.
      * exact (recorded_app _ _ [] [] _ _ _ (recorded_unreported _ _ _ _ Hu) IH).
    + rewrite Hu. exists []. split; [by rewrite app_nil_r|].
      split; [apply sublist_nil_l|]. by intros ? ? Hin; inversion Hin.
Qed.

(** X21.  What a job does to the history: it only adds rows after those
    there.  Each row added records the run of a subscription that was
    due, the rows follow the order in which the subscriptions are
    processed, user by user, and no subscription gets more than one.
    When the job answers with its report, every history the report
    names is one of the rows added, with the subscription of the result
    that names it.  This holds whatever fails during the job. *)
Theorem createUsersPodcasts_history_appended
    (body : RequestBody.t) (now : Z) (w : World.t X PodcastResult) :
  let start := startOfUtcDay (Some now) in
  let end_ := (t ← start; JsDate.TimeClip (t + 24 * 60 * 60 * 1000)%Z) in
  let due_ids :=
    mjoin ((λ user,
              Newsletter.id <$>
                List.filter (λ n, bool_decide (Newsletter.userId n = user) &&
                                  Newsletter.isActive n &&
                                  in_window start end_ (Newsletter.nextRun n))
                            (Db.newsletter (World.db w)))
           <$> Db.user (World.db w)) in
  ∃ rows,
    Db.newsletterHistory (World.db (createUsersPodcasts body now w).1) =
      Db.newsletterHistory (World.db w) ++ rows ∧
    (NewsletterHistory.newsletterId <$> rows) `sublist_of` due_ids ∧
    ∀ ranAt userCount report userResult result historyId,
      (createUsersPodcasts body now w).2 = Json ranAt userCount report →
      userResult ∈ report → result ∈ UserResult.newsletters userResult →
      NewsletterResult.historyId result = Some historyId →
      ∃ row, row ∈ rows ∧ NewsletterHistory.id row = historyId ∧
             NewsletterHistory.newsletterId row = NewsletterResult.newsletterId result.
Proof.
  intros start end_ due_ids. unfold createUsersPodcasts. fold start. fold end_.
  unfold bind, prisma_user_findMany, prisma.
  destruct (prisma_fault (World.ext w)) as [x [e|]].
  { exists []. simpl. split; [by rewrite app_nil_r|]. split; [apply sublist_nil_l|]. done. }
  set (users := (λ id, UserWithRelations.Build id _ _) <$> _).
  set (options := NewsletterProcessingOptions.Build _ _).
  assert (Hids : Newsletter.id <$> mjoin (UserWithRelations.newsletters <$> users) = due_ids).
  { unfold users, due_ids. change (World.db (with_ext x w)) with (World.db w).
    apply (fmap_join_fmap Newsletter.id UserWithRelations.newsletters). }
  pose proof (process_users_recorded users options start (Some now) [] (with_ext x w))
    as Hrun.
  rewrite Hids in Hrun.
  destruct (process_users users options start (Some now) [] (with_ext x w))
    as [w1 [perUserResults|e]].
  - destruct Hrun as (rs & -> & rows & Hrows & Hsub & Hrep).
    exists rows. unfold ret. cbn [fst snd app]. split; [exact Hrows|]. split; [exact Hsub|].
    intros ranAt userCount report userResult result historyId [= _ _ <-] Huser Hresult.
    apply Hrep. apply list_elem_of_join. exists (UserResult.newsletters userResult).
    split; [done|]. apply list_elem_of_fmap. eauto.
  - destruct Hrun as (rows & Hrows & Hsub & _). exists rows. cbn [fst snd].
    split; [exact Hrows|]. split; [exact Hsub|]. by intros.
Qed.

(** *** What a job does to the accounts *)

Lemma accounts_refreshed_refl ids d : accounts_refreshed ids d d.
Proof. split; [done|]. apply Forall_Forall2_diag, Forall_forall. by left. Qed.

Lemma accounts_refreshed_trans ids d d1 d2 :
  accounts_refreshed ids d d1 → accounts_refreshed ids d1 d2 → accounts_refreshed ids d d2.
Proof.
  intros [Hu1 H1] [Hu2 H2]. split; [congruence|].
  revert H2. generalize (Db.emailAccount d2). clear Hu1 Hu2.
  induction H1 as [|a a1 l l1 Ha _ IH]; intros l2 H2; inversion H2 as [|? a2 ? l2' Ha2 Hl2];
    subst; constructor; [|by apply IH].
  destruct Ha as [->|(Hin & token & expiry & ->)]; [done|].
  destruct Ha2 as [->|(_ & token2 & expiry2 & ->)]; right; simpl; eauto.
Qed.

Lemma accounts_refreshed_mono ids ids' d d' :
  ids ⊆ ids' → accounts_refreshed ids d d' → accounts_refreshed ids' d d'.
Proof.
  intros Hsub [Hu Ha]. split; [done|]. eapply Forall2_impl; [exact Ha|].
  intros a a' [->|(Hin & Hrest)]; [by left|right]. split; [by apply Hsub|done].
Qed.

Lemma refreshes_mono {A} ids ids' (c : M A) : ids ⊆ ids' → refreshes ids c → refreshes ids' c.
Proof. intros Hsub Hc w. by eapply accounts_refreshed_mono. Qed.

Lemma refreshes_same {A} ids (c : M A) :
  (∀ w, Db.user (World.db (c w).1) = Db.user (World.db w) ∧
        Db.emailAccount (World.db (c w).1) = Db.emailAccount (World.db w)) →
  refreshes ids c.
Proof.
  intros Hc w. destruct (Hc w) as [Hu Ha]. split; [done|]. rewrite Ha.
  apply Forall_Forall2_diag, Forall_forall. by left.
Qed.

Lemma refreshes_bind {A C} ids (c : M A) (k : A → M C) :
  refreshes ids c → (∀ a, refreshes ids (k a)) → refreshes ids (bind c k).
Proof.
  intros Hc Hk w. unfold bind. specialize (Hc w).
  destruct (c w) as [w1 [a|e]]; cbn [fst] in *; [|done].
  eapply accounts_refreshed_trans; [exact Hc|apply Hk].
Qed.

Lemma refreshes_try_catch {A} ids (c : M A) (handler : Js.exn → M A) :
  refreshes ids c → (∀ e, refreshes ids (handler e)) → refreshes ids (try_catch c handler).
Proof.
  intros Hc Hh w. unfold try_catch. specialize (Hc w).
  destruct (c w) as [w1 [a|e]]; cbn [fst] in *; [done|].
  eapply accounts_refreshed_trans; [exact Hc|apply Hh].
Qed.

Lemma refreshes_external {A} ids (f : X → X * (A + Js.exn)) : refreshes ids (external f).
Proof. apply refreshes_same. intros w. unfold external. by destruct (f (World.ext w)). Qed.

Lemma refreshes_prisma {A} ids (query : M A) :
  refreshes ids query → refreshes ids (prisma query).
Proof.
  intros Hq w. unfold prisma. destruct (prisma_fault (World.ext w)) as [x [e|]].
  - apply accounts_refreshed_refl.
  - apply (Hq (with_ext x w)).
Qed.

Lemma refreshes_updateIfRefreshed emailAccountId refreshed :
  refreshes [emailAccountId] (updateIfRefreshed emailAccountId refreshed).
Proof.
  destruct refreshed as [refreshed|]; [|by apply refreshes_same]. cbn [updateIfRefreshed].
  apply refreshes_bind; [by apply refreshes_same|]. intros _.
  apply refreshes_bind; [by apply refreshes_same|]. intros accessToken.
  unfold prisma_emailAccount_update. apply refreshes_prisma. intros w. cbv beta zeta.
  destruct (existsb _ (Db.emailAccount (World.db w))); [|apply accounts_refreshed_refl].
  split; [done|]. cbn [fst with_db World.db Db.emailAccount].
  apply Forall2_fmap_r, Forall_Forall2_diag, Forall_forall. intros a _. unfold compose.
  case_bool_decide as Hid; [|by left]. right.
  split; [rewrite Hid; by apply list_elem_of_singleton|eauto].
Qed.

Lemma refreshes_mapWithConcurrency {T P R} ids (items : list T) (concurrency : Z)
    (call : T → nat → World.t X PodcastResult → World.t X PodcastResult * P)
    (settle : P → M R) :
  (∀ x i w, accounts_refreshed ids (World.db w) (World.db (call x i w).1)) →
  (∀ p, refreshes ids (settle p)) →
  refreshes ids (mapWithConcurrency items concurrency call settle).
Proof.
  intros Hcall Hsettle w. unfold mapWithConcurrency.
  pose proof (Executor.await_mapWithConcurrency_world items concurrency call settle
    (λ w', accounts_refreshed ids (World.db w) (World.db w'))
    (completion_order (World.ext w)) w) as Hworld.
  destruct (Executor.await_mapWithConcurrency _ _ _ _ _ _) as [w1 r]. cbn [fst] in *.
  apply Hworld; [| |apply accounts_refreshed_refl].
  - intros i x w' _ Hw'. eapply accounts_refreshed_trans; [exact Hw'|apply Hcall].
  - intros i x w2 w' _ Hw'. eapply accounts_refreshed_trans; [exact Hw'|apply Hsettle].
Qed.

Lemma refreshes_processNewsletter credentialsManager newsletter options startDate now :
  refreshes [credentialsManager]
    (processNewsletter credentialsManager newsletter options startDate now).
Proof.
  unfold processNewsletter. apply refreshes_try_catch; [|by intros e; apply refreshes_same].
  apply refreshes_bind.
  { unfold fetchNewsletterEmails.
    apply refreshes_bind; [by apply refreshes_same|]. intros credentials.
    apply refreshes_bind; [apply refreshes_external|]. intros listResult.
    apply refreshes_bind; [apply refreshes_updateIfRefreshed|]. intros _.
    apply refreshes_bind; [|by intros; apply refreshes_same].
    apply refreshes_mapWithConcurrency; [intros; apply accounts_refreshed_refl|].
    intros p. unfold fetch_settle.
    apply refreshes_bind; [apply refreshes_external|]. intros result.
    apply refreshes_bind; [apply refreshes_updateIfRefreshed|].
    by intros; apply refreshes_same. }
  intros emails. apply refreshes_bind.
  { apply refreshes_mapWithConcurrency.
    - intros x i w. unfold extract_call. destruct (negb _); apply accounts_refreshed_refl.
    - intros [email|email request]; [by apply refreshes_same|]. cbn [extract_settle].
      apply refreshes_try_catch; [|by intros; apply refreshes_same].
      apply refreshes_bind; [apply refreshes_external|]. by intros; apply refreshes_same. }
  intros extractedEmails.
  apply refreshes_bind; [apply refreshes_external|]. intros podcast.
  apply refreshes_bind.
  { unfold saveNewsletterHistory. apply refreshes_bind; [|by intros; apply refreshes_same].
    unfold prisma_newsletterHistory_create. apply refreshes_prisma, refreshes_same.
    intros w. cbv beta zeta. by destruct (prisma_cuid (World.ext w)). }
  intros historyId. apply refreshes_bind.
  { unfold updateNewsletterSchedule. apply refreshes_bind; [|by intros; apply refreshes_same].
    unfold prisma_newsletter_update. apply refreshes_prisma, refreshes_same.
    intros w. cbv beta zeta. by destruct (existsb _ (Db.newsletter (World.db w))). }
  intros nextRun. apply refreshes_bind; [|by intros; apply refreshes_same].
  apply refreshes_same. intros w. by destruct nextRun.
Qed.

Lemma refreshes_process_newsletters credentialsManager newsletters options start now results :
  refreshes [credentialsManager]
    (process_newsletters credentialsManager newsletters options start now results).
Proof.
  revert results. induction newsletters as [|n newsletters IH]; intros results.
  - by apply refreshes_same.
  - cbn [process_newsletters].
    apply refreshes_bind; [apply refreshes_processNewsletter|]. intros result. apply IH.
Qed.

(** The account a job uses for a user: the first one listed. *)
Definition account_used (user : UserWithRelations.t) : list (list N) :=
  match UserWithRelations.emailAccounts user with
  | [] => []
  | gmailAccount :: _ => [EmailAccount.id gmailAccount]
  end.

Lemma refreshes_process_user user options start now :
  refreshes (account_used user) (process_user user options start now).
Proof.
  unfold process_user, account_used.
  destruct (UserWithRelations.emailAccounts user) as [|a accts]; [by apply refreshes_same|].
  intros w. unfold bind, lift, createCredentialsUpdater.
  destruct (getGmailCredentials a) as [[credentials|]|e]; cbn [fst];
    [|apply accounts_refreshed_refl..].
  pose proof (refreshes_process_newsletters (EmailAccount.id a)
    (UserWithRelations.newsletters user) options start now []
    (with_credentials credentials w)) as Hn.
  by destruct (process_newsletters _ _ _ _ _ _ _) as [w1 [rs|e]].
Qed.

Lemma refreshes_process_users users options start now results :
  refreshes (mjoin (account_used <$> users))
    (process_users users options start now results).
Proof.
  revert results. induction users as [|u users IH]; intros results.
  - by apply refreshes_same.
  - cbn [process_users]. rewrite fmap_cons.
    change (mjoin (account_used u :: (account_used <$> users)))
      with (account_used u ++ mjoin (account_used <$> users)).
    apply refreshes_bind.
    + eapply refreshes_mono; [|apply refreshes_process_user]. set_solver.
    + intros userResult. eapply refreshes_mono; [|apply IH]. set_solver.
Qed.

(** X22.  What a job does to users and accounts: the users are left as
    they are; no account is added or removed, and an account is left as
    it is or gets another access token and expiry, all else unchanged,
    and then it is the account the job uses for a user, the first Gmail
    account listed for them.  So no refresh token, owner or provider
    ever changes, whatever fails during the job.  The operations a
    rejected batch of fetches leaves running do no more: in whatever
    world they go on and however far, they change users and accounts
    only in this way, and only the account of their manager; and such
    changes, one after the other, are again such a change. *)
Theorem createUsersPodcasts_refreshes_accounts_only
    (body : RequestBody.t) (now : Z) (w : World.t X PodcastResult) :
  let accounts := Db.emailAccount (World.db w) in
  let w1 := (createUsersPodcasts body now w).1 in
  let used :=
    mjoin ((λ user,
              match List.filter (λ a, bool_decide (EmailAccount.userId a = user) &&
                                      EmailAccount.is_GMAIL (EmailAccount.provider a))
                                accounts with
              | [] => []
              | gmailAccount :: _ => [EmailAccount.id gmailAccount]
              end) <$> Db.user (World.db w)) in
  Db.user (World.db w1) = Db.user (World.db w) ∧
  Forall2 (refreshed used) accounts (Db.emailAccount (World.db w1)) ∧
  Forall2 (λ a a', EmailAccount.id a' = EmailAccount.id a ∧
                   EmailAccount.userId a' = EmailAccount.userId a ∧
                   EmailAccount.provider a' = EmailAccount.provider a ∧
                   EmailAccount.refreshToken a' = EmailAccount.refreshToken a)
          accounts (Db.emailAccount (World.db w1)) ∧
  (∀ credentialsManager messageIds concurrency w' s,
     Executor.reachable messageIds concurrency fetch_call
       (fetch_settle credentialsManager) w' s →
     accounts_refreshed [credentialsManager] (World.db w') (World.db (Executor.world s))) ∧
  (∀ ids d d1 d2, accounts_refreshed ids d d1 → accounts_refreshed ids d1 d2 →
                  accounts_refreshed ids d d2).
Proof.
  intros accounts w1 used.
  assert (Hbatch : ∀ credentialsManager messageIds concurrency w' s,
     Executor.reachable messageIds concurrency fetch_call
       (fetch_settle credentialsManager) w' s →
     accounts_refreshed [credentialsManager] (World.db w') (World.db (Executor.world s))).
  { intros credentialsManager messageIds concurrency w' s.
    apply (Executor.reachable_world messageIds concurrency fetch_call
             (fetch_settle credentialsManager)
             (λ w'', accounts_refreshed [credentialsManager] (World.db w') (World.db w''))).
    - by intros i x w'' _ Hw''.
    - intros i x w2 w'' _ Hw''. eapply accounts_refreshed_trans; [exact Hw''|].
      set (p := (fetch_call x i w2).2). unfold fetch_settle.
      apply (refreshes_bind [credentialsManager]); [apply refreshes_external|].
      intros result.
      apply refreshes_bind; [apply refreshes_updateIfRefreshed|].
      by intros; apply refreshes_same.
    - apply accounts_refreshed_refl. }
  assert (Hall : accounts_refreshed used (World.db w) (World.db w1)).
  { subst w1. unfold createUsersPodcasts.
    set (start := startOfUtcDay (Some now)).
    set (end_ := (t ← start; JsDate.TimeClip (t + 24 * 60 * 60 * 1000)%Z)).
    unfold bind, prisma_user_findMany, prisma.
    destruct (prisma_fault (World.ext w)) as [x [e|]]; [apply accounts_refreshed_refl|].
    set (users := (λ id, UserWithRelations.Build id _ _) <$> _).
    set (options := NewsletterProcessingOptions.Build _ _).
    assert (Hused : mjoin (account_used <$> users) = used).
    { unfold users, used, accounts. change (World.db (with_ext x w)) with (World.db w).
      generalize (Db.user (World.db w)). intros ids. f_equal.
      rewrite <- list_fmap_compose. done. }
    pose proof (refreshes_process_users users options start (Some now) []
                  (with_ext x w)) as Hrun.
    rewrite Hused in Hrun.
    destruct (process_users users options start (Some now) [] (with_ext x w))
      as [w2 [perUserResults|e]]; exact Hrun. }
  destruct Hall as [Huser Haccounts]. split; [done|]. split; [done|].
  split; [|split; [exact Hbatch|exact accounts_refreshed_trans]].
  eapply Forall2_impl; [exact Haccounts|].
  by intros a a' [->|(_ & token & expiry & ->)].
Qed.

End WithCollaborators.
End Controller.

(** ** A job run on a small world *)

(** One user with a mail account and three subscriptions, two of them
    due today, and a user without an account.  The first listing of
    messages fails, the later ones give three messages, the second with
    HTML; the extractor is down; the synthesizer returns the text it is
    given. *)
Module Scenario.
Import JsString.
Local Open Scope Z_scope.

Definition list_messages (c : GmailCredentials.t) (q : list N) (max : Z) (x : nat)
    : nat * (GmailListResult.t + Js.exn) :=
  match x with
  | O => (1%nat, inr (Js.Error (lit "list failed")))
  | _ => (S x, inl (GmailListResult.Build [lit "m1"; lit "m2"; lit "m3"] None))
  end.

Definition get_message (c : GmailCredentials.t) (id : list N) (x : nat)
    : nat * (GmailMessageResult.t + Js.exn) :=
  (S x, inl (GmailMessageResult.Build
               (GmailMessageContent.Build id None None None
                  {[ lit "Subject" := lit "Hello" ]} (lit "body " ++ id)
                  (if bool_decide (id = lit "m2") then Some (lit "<p>") else None))
               None)).

Definition extractor_down (r : ExtractRequest.t) (x : nat)
    : nat * (ExtractionResult.t + Js.exn) :=
  (S x, inr (Js.Error (lit "extractor down"))).

Definition echo_podcast (text : list N) (o : PodcastOptions.t) (x : nat)
    : nat * (list N + Js.exn) :=
  (S x, inl text).

Definition no_crypt (s : list N) : list N + Js.exn := inl s.
Definition undecryptable (s : list N) : list N + Js.exn := inr (Js.Error (lit "bad key")).
Definition no_fault (x : nat) : nat * option Js.exn := (x, None).
Definition cuid (x : nat) : nat * list N := (S x, lit "h1").
Definition order (x : nat) (n : nat) : nat := (n + x)%nat.

Definition now : Z := 1705312800000.

Definition n1 : Newsletter.t :=
  Newsletter.Build (lit "n1") (lit "u1") Schedule.WEEKLY true [lit "news@a.com"]
    None (Some 1705280400000).
Definition n2 : Newsletter.t :=
  Newsletter.Build (lit "n2") (lit "u1") Schedule.BIWEEKLY true []
    (Some (Some 1704067200000)) (Some 1705284000000).
Definition n3 : Newsletter.t :=
  Newsletter.Build (lit "n3") (lit "u1") Schedule.MONTHLY true []
    None (Some 1706284000000).
Definition a1 : EmailAccount.t :=
  EmailAccount.Build (lit "a1") (lit "u1") EmailAccount.GMAIL (Some (lit "tok")) None None.

Definition w0 : World.t nat (list N) :=
  World.Build 0%nat (Db.Build [lit "u1"; lit "u2"] [a1] [n1; n2; n3] [])
    (GmailCredentials.Build [] None None) [].

Definition job : World.t nat (list N) * Controller.response (list N) :=
  Controller.createUsersPodcasts list_messages get_message extractor_down echo_podcast
    no_crypt no_crypt no_fault cuid order (RequestBody.Build None None) now w0.

(** The report names both users and both due subscriptions, the failed
    one with its error, the other with its next run a fortnight on. *)
Example job_report :
  ∃ podcast,
    job.2 =
    Controller.Json (Some now) 2
      [ UserResult.Build (lit "u1") (Some (lit "a1"))
          [ NewsletterResult.Build (lit "n1") None None None None
              (Some (lit "list failed"));
            NewsletterResult.Build (lit "n2") (Some 3%nat) (Some (lit "h1"))
              (Some podcast) (Some 1706522400000) None ]
          None;
        UserResult.Build (lit "u2") None []
          (Some (lit "No Gmail email account found for user")) ].
Proof. eexists. vm_compute. reflexivity. Qed.

(** Only the subscription that succeeded has been rescheduled, and the
    extractor has been sent the one message with HTML. *)
Example job_tables :
  Db.newsletter (World.db job.1) =
    [ n1;
      Newsletter.Build (lit "n2") (lit "u1") Schedule.BIWEEKLY true []
        (Some (Some now)) (Some 1706522400000);
      n3 ] ∧
  ExtractRequest.html <$> World.extractorCalls job.1 = [lit "<p>"].
Proof. by vm_compute. Qed.

Lemma processNewsletter_contains_failures_witness :
  ∃ w1 w2 w3 result,
    Controller.before_reschedule list_messages get_message extractor_down echo_podcast
      no_crypt no_fault cuid order (lit "a1") n1
      (NewsletterProcessingOptions.Build 10 8) (Some 1705276800000) w0 =
      (w1, inr (Js.Error (lit "list failed"))) ∧
    Controller.processNewsletter list_messages get_message extractor_down echo_podcast
      no_crypt no_fault cuid order (lit "a1") n1
      (NewsletterProcessingOptions.Build 10 8) (Some 1705276800000) (Some now) w0 =
      (w1, inl (NewsletterResult.Build (lit "n1") None None None None
                  (Some (lit "list failed")))) ∧
    Db.newsletter (World.db w1) = [n1; n2; n3] ∧
    Controller.processNewsletter list_messages get_message extractor_down echo_podcast
      no_crypt no_fault cuid order (lit "a1") n2
      (NewsletterProcessingOptions.Build 10 8) (Some 1705276800000) (Some now) w1 =
      (w2, inl result) ∧
    NewsletterResult.fetchedEmailCount result = Some 3%nat ∧
    NewsletterResult.error result = None ∧
    Controller.process_newsletters list_messages get_message extractor_down echo_podcast
      no_crypt no_fault cuid order (lit "a1") [n1; n2]
      (NewsletterProcessingOptions.Build 10 8) (Some 1705276800000) (Some now) [] w0 =
      (w2, inl [NewsletterResult.Build (lit "n1") None None None None
                  (Some (lit "list failed")); result]) ∧
    Controller.process_users list_messages get_message extractor_down echo_podcast
      no_crypt no_crypt no_fault cuid order
      [UserWithRelations.Build (lit "u1") [a1] [n1; n2];
       UserWithRelations.Build (lit "u2") [] []]
      (NewsletterProcessingOptions.Build 10 8) (Some 1705276800000) (Some now) [] w0 =
      (w3, inl [UserResult.Build (lit "u1") (Some (lit "a1"))
                  [NewsletterResult.Build (lit "n1") None None None None
                     (Some (lit "list failed")); result] None;
                UserResult.Build (lit "u2") None []
                  (Some (lit "No Gmail email account found for user"))]).
Proof.
  eexists _, _, _, _. split; [vm_compute; reflexivity|].
  destruct (Controller.processNewsletter_contains_failures
    list_messages get_message extractor_down echo_podcast no_crypt no_crypt no_fault cuid
    order (lit "a1") n1 (NewsletterProcessingOptions.Build 10 8) (Some 1705276800000)
    (Some now) w0) as (Hfail & _ & _ & Huser & _).
  destruct (Hfail _ (Js.Error (lit "list failed")) eq_refl)
    as (Hrun & _ & _ & Htable & Hloop).
  split; [exact Hrun|]. split; [exact Htable|].
  split; [vm_compute; reflexivity|]. split; [reflexivity|]. split; [reflexivity|].
  split; [rewrite (Hloop [n2] []); vm_compute; reflexivity|].
  destruct (Huser (UserWithRelations.Build (lit "u1") [a1] [n1; n2])
              [UserWithRelations.Build (lit "u2") [] []] a1
              (GmailCredentials.Build (lit "tok") None None) [] eq_refl eq_refl)
    as (w' & rs & _ & Huser1 & Hnext).
  rewrite Hnext. vm_compute in Huser1. injection Huser1 as <- <-.
  vm_compute. reflexivity.
Defined.

Lemma extractEmailsContent_fallback_witness :
  let m1 :=
    GmailMessageContent.Build (lit "m1") None None None
      {[ lit "Subject" := lit "Hello" ]} (lit "body m1") None in
  let m2 :=
    GmailMessageContent.Build (lit "m2") None None None
      {[ lit "Subject" := lit "Hello" ]} (lit "body m2") (Some (lit "<p>")) in
  ∃ extracted,
    (Controller.extractEmailsContent extractor_down order [m1; m2] w0).2 = inl extracted ∧
    length extracted = 2%nat ∧
    extracted !! 0%nat =
      Some (ExtractedEmail.Build (Some (lit "Hello")) None None
              [ExtractedArticle.of_text (lit "body m1")]) ∧
    extracted !! 1%nat =
      Some (ExtractedEmail.Build (Some (lit "Hello")) None None
              [ExtractedArticle.of_text (lit "body m2")]) ∧
    ExtractRequest.html <$>
      World.extractorCalls
        (Controller.extractEmailsContent extractor_down order [m1; m2] w0).1 =
      [lit "<p>"].
Proof.
  intros m1 m2.
  destruct (proj2 (proj2 (proj2 (proj2 (Controller.extractEmailsContent_fallback
    extractor_down order m2 1 w0 w0)))) [m1; m2] w0)
    as (extracted & Hrun & Hlen & _ & _ & Hfail & Hcalls & _).
  exists extracted. split; [exact Hrun|]. split; [exact Hlen|]. split; [|split].
  - exact (Hfail 0%nat m1 eq_refl (λ x, ex_intro _ _ eq_refl)).
  - exact (Hfail 1%nat m2 eq_refl (λ x, ex_intro _ _ eq_refl)).
  - rewrite Hcalls. reflexivity.
Defined.

Lemma processNewsletter_reschedules_witness :
  ∃ w1 result,
    Controller.processNewsletter list_messages get_message extractor_down echo_podcast
      no_crypt no_fault cuid order (lit "a1") n2
      (NewsletterProcessingOptions.Build 10 8) (Some 1705276800000) (Some now)
      (Controller.with_ext 1%nat w0) = (w1, inl result) ∧
    NewsletterResult.error result = None ∧
    Db.newsletter (World.db w1) =
      Controller.newsletter_rows_update (lit "n2") (Some now)
        (Schedule.addInterval (Some now) Schedule.BIWEEKLY) [n1; n2; n3].
Proof.
  eexists _, _. split; [vm_compute; reflexivity|]. split; [reflexivity|].
  refine (proj1 (proj2 (Controller.processNewsletter_reschedules
    list_messages get_message extractor_down echo_podcast no_crypt no_fault cuid order
    (lit "a1") n2 (NewsletterProcessingOptions.Build 10 8) (Some 1705276800000) (Some now)
    (Controller.with_ext 1%nat w0) _ _ _ _)));
    [vm_compute; reflexivity|reflexivity].
Defined.

Lemma startOfUtcDay_midnight_witness :
  JsDate.in_range now ∧
  ∃ start, Controller.startOfUtcDay (Some now) = Some start ∧
           (start ≤ now < start + JsDate.msPerDay)%Z.
Proof.
  assert (Hr : JsDate.in_range now) by (unfold JsDate.in_range, now; lia).
  split; [exact Hr|].
  destruct (proj1 (Controller.startOfUtcDay_midnight now Hr)) as (start & Hs & _ & Hb & _).
  { assert (JsDate.YearFromTime now = 2024) as -> by (vm_compute; reflexivity). lia. }
  exists start. split; [exact Hs|exact Hb].
Defined.

Lemma rescheduled_leaves_window_witness :
  JsDate.in_range now ∧ JsDate.in_range (now + JsDate.msPerDay) ∧
  ¬ (0 ≤ JsDate.YearFromTime now ≤ 99) ∧
  Controller.in_window (Some 1705276800000) (Some 1705363200000)
    (Schedule.addInterval (Some now) Schedule.WEEKLY) = false.
Proof.
  assert (Hr : JsDate.in_range now) by (unfold JsDate.in_range, now; lia).
  assert (Hr' : JsDate.in_range (now + JsDate.msPerDay))
    by (unfold JsDate.in_range, JsDate.msPerDay, now; lia).
  assert (Hy : ¬ (0 ≤ JsDate.YearFromTime now ≤ 99)).
  { assert (JsDate.YearFromTime now = 2024) as -> by (vm_compute; reflexivity). lia. }
  split; [exact Hr|]. split; [exact Hr'|]. split; [exact Hy|].
  exact (proj1 (proj2 (Controller.rescheduled_leaves_window now Hr Hr' Hy))
           Schedule.WEEKLY (or_introl eq_refl)).
Defined.

Lemma processNewsletter_history_witness :
  ∃ w1 result row,
    Controller.processNewsletter list_messages get_message extractor_down echo_podcast
      no_crypt no_fault cuid order (lit "a1") n2
      (NewsletterProcessingOptions.Build 10 8) (Some 1705276800000) (Some now)
      (Controller.with_ext 1%nat w0) = (w1, inl result) ∧
    Db.newsletterHistory (World.db w1) = [row] ∧
    NewsletterHistory.id row = lit "h1" ∧
    NewsletterHistory.fetchedEmailCount row = 3%nat.
Proof.
  eexists _, _.
  assert (Hrun : Controller.processNewsletter list_messages get_message extractor_down
    echo_podcast no_crypt no_fault cuid order (lit "a1") n2
    (NewsletterProcessingOptions.Build 10 8) (Some 1705276800000) (Some now)
    (Controller.with_ext 1%nat w0) = (_, inl _)) by (vm_compute; reflexivity).
  pose proof (Controller.processNewsletter_history list_messages get_message
    extractor_down echo_podcast no_crypt no_fault cuid order (lit "a1") n2
    (NewsletterProcessingOptions.Build 10 8) (Some 1705276800000) (Some now)
    (Controller.with_ext 1%nat w0) _ _ Hrun) as H.
  assert (Hb : Controller.before_reschedule list_messages get_message extractor_down
    echo_podcast no_crypt no_fault cuid order (lit "a1") n2
    (NewsletterProcessingOptions.Build 10 8) (Some 1705276800000)
    (Controller.with_ext 1%nat w0) = (_, inl (_, _, _))) by (vm_compute; reflexivity).
  rewrite Hb in H.
  destruct H as ((row & Hrows & Hid & _ & Hcount & _) & _).
  exists row. split; [exact Hrun|]. split; [exact Hrows|]. split; [exact Hid|exact Hcount].
Defined.

Lemma fetchNewsletterEmails_messages_witness :
  ∃ w1 emails listResult,
    Controller.fetchNewsletterEmails list_messages get_message no_crypt no_fault order
      (lit "a1") n2 (NewsletterProcessingOptions.Build 10 8) (Some 1705276800000)
      (Controller.with_ext 1%nat w0) = (w1, inl emails) ∧
    length emails = length (GmailListResult.messageIds listResult) ∧
    (length emails ≤ 50)%nat.
Proof.
  eexists _, _.
  assert (Hrun : Controller.fetchNewsletterEmails list_messages get_message no_crypt
    no_fault order (lit "a1") n2 (NewsletterProcessingOptions.Build 10 8)
    (Some 1705276800000) (Controller.with_ext 1%nat w0) = (_, inl _))
    by (vm_compute; reflexivity).
  destruct (Controller.fetchNewsletterEmails_messages list_messages get_message no_crypt
    no_fault order (lit "a1") n2 (NewsletterProcessingOptions.Build 10 8)
    (Some 1705276800000) (Controller.with_ext 1%nat w0) _ _ Hrun)
    as (maxResults & x & listResult & _ & Hmax & Hlist & Hlen & _ & Hbound & _).
  exists listResult. split; [exact Hrun|]. split; [exact Hlen|].
  apply Hbound. rewrite (Hmax ltac:(simpl; lia)).
  injection Hlist as _ <-. simpl. lia.
Defined.

Lemma updateIfRefreshed_read_back_witness :
  let refreshed := RefreshedCredentials.Build (lit "tok2") (Some 1705316400000) in
  let other_request := Controller.with_ext 7%nat in
  Controller.aside other_request ∧
  ∃ w1,
    Controller.updateIfRefreshed_among no_crypt no_fault other_request other_request
      (lit "a1") (Some refreshed) w0 = (w1, inl ()) ∧
    World.currentCredentials w1 =
      GmailCredentials.Build (lit "tok2") None (Some 1705316400000) ∧
    ∀ a, a ∈ Db.emailAccount (World.db w1) → EmailAccount.id a = lit "a1" →
         Controller.getGmailCredentials no_crypt a ≠ inl None.
Proof.
  intros refreshed other_request.
  assert (Haside : Controller.aside other_request) by (by intros w).
  split; [exact Haside|]. eexists.
  assert (Hrun : Controller.updateIfRefreshed_among no_crypt no_fault other_request
    other_request (lit "a1") (Some refreshed) w0 = (_, inl ()))
    by (vm_compute; reflexivity).
  destruct (Controller.updateIfRefreshed_read_back no_crypt no_crypt no_fault
    other_request other_request (lit "a1")
    refreshed (lit "tok2") w0 _ Haside Haside eq_refl ltac:(discriminate) eq_refl Hrun)
    as (Hcred & _ & Hrow & _).
  split; [exact Hrun|]. split; [exact Hcred|].
  intros a Hin Hid. exact (proj1 (proj2 (proj2 (Hrow a Hin Hid)))).
Defined.

Lemma updateIfRefreshed_failure_witness :
  let refreshed := RefreshedCredentials.Build (lit "tok2") (Some 1705316400000) in
  let other_request := Controller.with_ext 7%nat in
  Controller.aside other_request ∧
  ∃ w1,
    Controller.updateIfRefreshed_among no_crypt no_fault other_request other_request
      (lit "a9") (Some refreshed) w0 = (w1, inr Controller.RecordNotFound) ∧
    World.db w1 = World.db w0 ∧
    GmailCredentials.accessToken (World.currentCredentials w1) = lit "tok2".
Proof.
  intros refreshed other_request.
  assert (Haside : Controller.aside other_request) by (by intros w).
  split; [exact Haside|]. eexists.
  assert (Hrun : Controller.updateIfRefreshed_among no_crypt no_fault other_request
    other_request (lit "a9") (Some refreshed) w0 = (_, inr Controller.RecordNotFound))
    by (vm_compute; reflexivity).
  destruct (Controller.updateIfRefreshed_failure no_crypt no_fault other_request
    other_request (lit "a9") refreshed
    w0 _ Controller.RecordNotFound Haside Haside Hrun) as (Hdb & Hcred & _).
  split; [exact Hrun|]. split; [exact Hdb|]. by rewrite Hcred.
Defined.

Lemma createUsersPodcasts_undecryptable_token_witness :
  ∃ w1,
    Controller.createUsersPodcasts list_messages get_message extractor_down echo_podcast
      no_crypt undecryptable no_fault cuid order (RequestBody.Build None None) now w0 =
      (w1, Controller.Next (Js.Error (lit "bad key"))).
Proof.
  destruct (Controller.createUsersPodcasts_undecryptable_token list_messages get_message
    extractor_down echo_podcast no_crypt undecryptable no_fault cuid order
    (RequestBody.Build None None) now w0 w0 []
    [UserWithRelations.Build (lit "u2") [] []]
    (UserWithRelations.Build (lit "u1") [a1] [n1; n2]) a1 (Js.Error (lit "bad key")))
    as (w1 & results & _ & _ & Hjob).
  - vm_compute. reflexivity.
  - intros u a Hu. inversion Hu.
  - reflexivity.
  - reflexivity.
  - exists w1. exact Hjob.
Defined.

End Scenario.
